(** * ftl::buffer -- a shallow embedding of [src/ftl/buffer.h]

    The development follows the header top-down:
    - [SizeT]: the arithmetic of [size_t], with its wrap-around;
    - [Endian]: the byte-order codec ([Swizzle], [CurrentEndian], [read], [write]);
    - [Mem]: the C heap the container talks to ([malloc], [realloc], [free],
      [memcpy], [memset]), with undefined behaviour as an explicit outcome;
    - [Printf]: the length of the messages that [xran] formats into its
      80-character array;
    - [SimpleBufferT]: the growable container;
    - [BufferT]: the random-access buffer;
    - [StreamBufferT]: the sequential cursor.

    The element type [_Ty] is fixed to [uint8_t] ([ftl::byte_buffer] and
    [ftl::byte_streambuffer]), the instantiations the header exports. *)

From Stdlib Require Import ZArith List Lia Bool.
From Stdlib Require Ascii String.
From stdpp Require Import base numbers list.
Import ListNotations.
Local Open Scope Z_scope.

(* ===================================================================== *)
(** ** [size_t] *)
(* ===================================================================== *)

Module SizeT.

(** [size_t] is an unsigned 64-bit integer (LP64 / LLP64); every
    arithmetic operation of the source on it is reduced modulo [2^64]. *)
Definition bits : Z := 64.
Definition modulus : Z := 2 ^ bits.
Definition SIZE_MAX : Z := modulus - 1.

Definition wrap (x : Z) : Z := x mod modulus.
Definition add (a b : Z) : Z := wrap (a + b).
Definition sub (a b : Z) : Z := wrap (a - b).
Definition mul (a b : Z) : Z := wrap (a * b).

Definition in_range (x : Z) : Prop := 0 <= x < modulus.

(** No object is larger than [PTRDIFF_MAX] bytes; this bounds the length
    of every region of memory that really exists. *)
Definition PTRDIFF_MAX : Z := 2 ^ 63 - 1.

End SizeT.

(* ===================================================================== *)
(** ** The scalar types the buffer reads and writes *)
(* ===================================================================== *)

(** The closed set of types accepted by [is_endian_basictype] and
    [is_8bit_basictype]. *)
Inductive BasicType : Type :=
| Char | Int8 | UInt8
| Int16 | UInt16 | Int32 | UInt32 | Int64 | UInt64
| Float | Double.

Definition is_endian_basictype (T : BasicType) : bool :=
  match T with
  | Int16 | UInt16 | Int32 | UInt32 | Int64 | UInt64 | Float | Double => true
  | _ => false
  end.

Definition is_8bit_basictype (T : BasicType) : bool :=
  match T with
  | Char | Int8 | UInt8 => true
  | _ => false
  end.

(** [sizeof(T)], as a number of array cells. *)
Definition sizeof_nat (T : BasicType) : nat :=
  match T with
  | Char | Int8 | UInt8 => 1
  | Int16 | UInt16 => 2
  | Int32 | UInt32 | Float => 4
  | Int64 | UInt64 | Double => 8
  end%nat.

Definition sizeof (T : BasicType) : Z := Z.of_nat (sizeof_nat T).

(** A value of an integer type is the integer; a value of [float] or
    [double] is its IEEE-754 bit pattern, read as an unsigned integer, so
    that equality of values is equality bit for bit.  [char] is signed, as
    on the targets of the header. *)
Definition is_signed (T : BasicType) : bool :=
  match T with
  | Char | Int8 | Int16 | Int32 | Int64 => true
  | _ => false
  end.

Definition value_bits (T : BasicType) : Z := 8 * sizeof T.

Definition min_value (T : BasicType) : Z :=
  if is_signed T then - 2 ^ (value_bits T - 1) else 0.

Definition max_value (T : BasicType) : Z :=
  if is_signed T then 2 ^ (value_bits T - 1) - 1 else 2 ^ value_bits T - 1.

Definition is_value (T : BasicType) (v : Z) : Prop :=
  min_value T <= v <= max_value T.

(** Conversion of an integer to [T] (modular, as every target does it). *)
Definition convert (T : BasicType) (x : Z) : Z :=
  let u := x mod 2 ^ value_bits T in
  if is_signed T && (2 ^ (value_bits T - 1) <=? u) then u - 2 ^ value_bits T else u.

(* ===================================================================== *)
(** ** Endian codec: [buffer_internal::Endian] *)
(* ===================================================================== *)

Inductive Endianness : Type := kBigEndian | kLittleEndian.

Definition Endianness_eqb (a b : Endianness) : bool :=
  match a, b with
  | kBigEndian, kBigEndian | kLittleEndian, kLittleEndian => true
  | _, _ => false
  end.

(** Little-endian digits of [u] in base 256, and their value. *)
Fixpoint le_bytes (n : nat) (u : Z) : list Z :=
  match n with
  | O => []
  | S k => u mod 256 :: le_bytes k (u / 256)
  end.

Fixpoint le_value (bs : list Z) : Z :=
  match bs with
  | [] => 0
  | b :: r => b + 256 * le_value r
  end.

Module Endian.

(** The object representation of a scalar on a host whose hardware order
    is [host]: what the [union NoAlias { T val; char bytes[sizeof(T)]; }]
    of the source shows in [bytes] when [val] is stored, and back. *)
Definition object_bytes (host : Endianness) (T : BasicType) (v : Z) : list Z :=
    let bs := le_bytes (sizeof_nat T) (v mod 2 ^ value_bits T) in
    match host with
    | kLittleEndian => bs
    | kBigEndian => rev bs
    end.

Definition object_value (host : Endianness) (T : BasicType) (bytes : list Z) : Z :=
    convert T (le_value (match host with
                         | kLittleEndian => bytes
                         | kBigEndian => rev bytes
                         end)).

(** [Swizzle(char* start, unsigned int len)]: [start] and [end] are
    indices into the array [bytes]; one iteration of the [while] per unit
    of fuel, and [len] iterations are more than the loop ever makes. *)
Fixpoint Swizzle_loop (fuel : nat) (bytes : list Z) (start end_ : nat) : list Z :=
    match fuel with
    | O => bytes
    | S fuel' =>
        if (start <? end_)%nat then
          match bytes !! start, bytes !! end_ with
          | Some tmp, Some e =>
              Swizzle_loop fuel' (<[end_ := tmp]> (<[start := e]> bytes))
                           (S start) (Nat.pred end_)
          | _, _ => bytes
          end
        else bytes
    end.

Definition Swizzle (bytes : list Z) (len : nat) : list Z :=
    Swizzle_loop len bytes 0 (len - 1).

(** [detect_big_endian]: the first byte of the representation of
    [0x01020304]. *)
Definition detect_big_endian (host : Endianness) : bool :=
    match object_bytes host UInt32 16909060 with
    | c0 :: _ => c0 =? 1
    | [] => false
    end.

Definition CurrentEndian (host : Endianness) : Endianness :=
    if detect_big_endian host then kBigEndian else kLittleEndian.

Definition isBigEndian (host : Endianness) : bool := detect_big_endian host.

(** [Endian::read<_Ty, _RetTy, endianness>], on the [sizeof(_RetTy)] bytes
    that [memcpy] took from the buffer. *)
Definition read (host : Endianness) (T : BasicType) (endianness : Endianness)
             (src : list Z) : Z :=
    let na := src in
    let na := if Endianness_eqb (CurrentEndian host) endianness then na
              else Swizzle na (sizeof_nat T) in
    object_value host T na.

(** [Endian::write<_Ty, _SrcTy, endianness>]: the bytes that [memcpy]
    puts into the buffer. *)
Definition write (host : Endianness) (T : BasicType) (endianness : Endianness)
             (value : Z) : list Z :=
    let na := object_bytes host T value in
    if Endianness_eqb (CurrentEndian host) endianness then na
    else Swizzle na (sizeof_nat T).

End Endian.

(* ===================================================================== *)
(** ** The C heap *)
(* ===================================================================== *)

(** The allocator of the source is [DefaultAllocator]: [::malloc],
    [::realloc] and [::free]; the container also calls [std::memcpy],
    [std::memset] and [std::fill].  These belong to the C and C++ runtime,
    not to the header; the module below states what the language
    standards (and the glibc and MSVC runtimes, where the standard leaves
    a choice) say about them.  A call whose behaviour is undefined
    returns [None]. *)
Module Mem.

Abbreviation block := nat (only parsing).

(** A pointer to the first byte of a block, or [nullptr].  [p + off] is a
    pointer together with an offset; only an access checks the offset. *)
Abbreviation pointer := (option nat) (only parsing).

(** A heap is its blocks (a freed block stays, as [None], so that block
    names are never reused), the largest request the allocator grants,
    and the indeterminate bytes a fresh allocation shows. *)
Record Heap : Type := mkHeap {
  blocks : list (option (list Z));
  alloc_limit : Z;
  junk : nat -> Z
}.

Definition contents (h : Heap) (b : block) : option (list Z) :=
  match blocks h !! b with
  | Some (Some data) => Some data
  | _ => None
  end.

Definition set_block (h : Heap) (b : block) (data : option (list Z)) : Heap :=
  mkHeap (<[b := data]> (blocks h)) (alloc_limit h) (junk h).

Definition new_block (h : Heap) (data : list Z) : block * Heap :=
  (length (blocks h),
   mkHeap (blocks h ++ [Some data]) (alloc_limit h) (junk h)).

Definition fresh_bytes (h : Heap) (from n : nat) : list Z :=
  map (junk h) (seq from n).

(** [malloc(size)]: a fresh block of [size] indeterminate bytes, or
    [nullptr] when the request is above the limit. *)
Definition malloc (size : Z) (h : Heap) : pointer * Heap :=
  if size <=? alloc_limit h then
    let '(b, h') := new_block h (fresh_bytes h 0 (Z.to_nat size)) in
    (Some b, h')
  else (None, h).

(** [free(p)] of a block that is not allocated is undefined. *)
Definition free (b : block) (h : Heap) : option Heap :=
  match contents h b with
  | Some _ => Some (set_block h b None)
  | None => None
  end.

(** [realloc(p, size)]: [malloc(size)] when [p] is null; with [size == 0]
    the block is freed and the result is null (glibc, MSVC); otherwise
    the contents move to a new block, up to the smaller of the two
    sizes, and the old block is freed; on failure the old block stays
    and the result is null. *)
Definition realloc (p : pointer) (size : Z) (h : Heap) : option (pointer * Heap) :=
  match p with
  | None => Some (malloc size h)
  | Some b =>
      match contents h b with
      | None => None
      | Some data =>
          if size =? 0 then Some (None, set_block h b None)
          else if size <=? alloc_limit h then
            let n := Z.to_nat size in
            let data' := take n data ++ fresh_bytes h (length data) (n - length data) in
            let '(b', h') := new_block (set_block h b None) data' in
            Some (Some b', h')
          else Some (None, h)
      end
  end.

(** Is [p + off, p + off + n) inside an allocated block? *)
Definition valid_range (p : pointer) (off n : Z) (h : Heap) : bool :=
  match p with
  | None => false
  | Some b =>
      match contents h b with
      | None => false
      | Some data => (0 <=? off) && (0 <=? n) && (off + n <=? Z.of_nat (length data))
      end
  end.

Definition block_data (p : pointer) (h : Heap) : list Z :=
  match p with
  | Some b => default [] (contents h b)
  | None => []
  end.

(** Reading [n] bytes at [p + off]; undefined outside an allocated block. *)
Definition load_bytes (p : pointer) (off n : Z) (h : Heap) : option (list Z) :=
  if valid_range p off n h
  then Some (take (Z.to_nat n) (drop (Z.to_nat off) (block_data p h)))
  else None.

(** Writing the bytes [bs] at [p + off]; undefined outside an allocated
    block. *)
Definition store_bytes (p : pointer) (off : Z) (bs : list Z) (h : Heap) : option Heap :=
  match p with
  | None => None
  | Some b =>
      if valid_range p off (Z.of_nat (length bs)) h then
        let data := block_data p h in
        Some (set_block h b
                (Some (take (Z.to_nat off) data ++ bs
                       ++ drop (Z.to_nat off + length bs) data)))
      else None
  end.

Definition overlap (dst : pointer) (doff : Z) (src : pointer) (soff n : Z) : bool :=
  match dst, src with
  | Some d, Some s => (d =? s)%nat && (soff <? doff + n) && (doff <? soff + n)
  | _, _ => false
  end.

(** [memcpy(dst + doff, src + soff, n)].  A copy of no bytes changes
    nothing, whatever the pointers. *)
Definition memcpy (dst : pointer) (doff : Z) (src : pointer) (soff n : Z)
           (h : Heap) : option Heap :=
  if n =? 0 then Some h
  else if overlap dst doff src soff n then None
  else match load_bytes src soff n h with
       | None => None
       | Some bs => store_bytes dst doff bs h
       end.

(** [memset(p + off, value, n)], and [std::fill] over [n] cells. *)
Definition memset (p : pointer) (off value n : Z) (h : Heap) : option Heap :=
  if n =? 0 then Some h
  else if valid_range p off n h
       then store_bytes p off (replicate (Z.to_nat n) value) h
       else None.

(** The comparison [memcmp] makes of two arrays of the same length: the
    sign of the first difference, the bytes taken as [unsigned char]. *)
Fixpoint compare_bytes (a b : list Z) : Z :=
  match a, b with
  | x :: a', y :: b' =>
      if x =? y then compare_bytes a' b' else if x <? y then -1 else 1
  | _, _ => 0
  end.

(** [memcmp(p + poff, q + qoff, n)].  A comparison of no bytes is 0,
    whatever the pointers. *)
Definition memcmp (p : pointer) (poff : Z) (q : pointer) (qoff n : Z)
           (h : Heap) : option Z :=
  if n =? 0 then Some 0
  else match load_bytes p poff n h, load_bytes q qoff n h with
       | Some a, Some b => Some (compare_bytes a b)
       | _, _ => None
       end.

End Mem.

(* ===================================================================== *)
(** ** Outcomes of a call *)
(* ===================================================================== *)

(** [std::out_of_range] (thrown by [xran], with the position and the
    number of bytes asked for) and [std::bad_alloc]. *)
Inductive exn : Type :=
| out_of_range (pos need_size : Z)
| bad_alloc.

(** A call returns, throws, or has undefined behaviour.  A call that
    throws has still changed the state up to the [throw]. *)
Inductive outcome (S A : Type) : Type :=
| Ok (a : A) (s : S)
| Throw (e : exn) (s : S)
| Undefined.

Arguments Ok {S A} a s.
Arguments Throw {S A} e s.
Arguments Undefined {S A}.

Definition M (S A : Type) : Type := S -> outcome S A.

Definition ret {S A} (a : A) : M S A := fun s => Ok a s.

Definition bind {S A B} (m : M S A) (k : A -> M S B) : M S B :=
  fun s =>
    match m s with
    | Ok a s' => k a s'
    | Throw e s' => Throw e s'
    | Undefined => Undefined
    end.

Definition throw {S A} (e : exn) : M S A := fun s => Throw e s.

Definition undefined {S A} : M S A := fun _ => Undefined.

Notation "'do' x <- m ; k" := (bind m (fun x => k))
  (at level 10, x name, m at level 100, k at level 200).

(** The state in which a call ends, when it has one. *)
Definition final_state {S A} (o : outcome S A) : option S :=
  match o with
  | Ok _ s | Throw _ s => Some s
  | Undefined => None
  end.

(** Running a method of a member object [O] inside a method of the
    enclosing object [P]. *)
Definition on_member {P O A} (get : P -> O) (set : P -> O -> P)
           (m : M (O * Mem.Heap) A) : M (P * Mem.Heap) A :=
  fun '(this, h) =>
    match m (get this, h) with
    | Ok a (o, h') => Ok a (set this o, h')
    | Throw e (o, h') => Throw e (set this o, h')
    | Undefined => Undefined
    end.

(** A library call on the heap, inside a method. *)
Definition heap_call {O} (f : Mem.Heap -> option Mem.Heap) : M (O * Mem.Heap) unit :=
  fun '(this, h) =>
    match f h with
    | Some h' => Ok tt (this, h')
    | None => Undefined
    end.

(** Running a constructor: the body runs on the object under
    construction, and the caller gets the object. *)
Definition construct {O} (init : O) (body : M (O * Mem.Heap) unit) : M Mem.Heap O :=
  fun h =>
    match body (init, h) with
    | Ok _ (this, h') => Ok this h'
    | Throw e (_, h') => Throw e h'
    | Undefined => Undefined
    end.

(** An argument passed by reference to a member function ([const T&
    other]): another object, which the call cannot change, or the very
    object the function runs on. *)
Inductive Other (O : Type) : Type :=
| another (o : O)
| itself.

Arguments another {O} o.
Arguments itself {O}.

(** What a reference shows at a point of the call where the object the
    function runs on is [this]. *)
Definition deref {O} (other : Other O) (this : O) : O :=
  match other with
  | another o => o
  | itself => this
  end.

(** An argument for a parameter [const T& value]:
    - [by_value v]: an object outside the heap (a temporary or a local
      variable), which holds [v] throughout the call;
    - [in_heap p off]: the one-byte object at [p + off] of a heap block
      (an element of a byte array, such as [*b.begin()]).  A parameter of
      a one-byte type is bound to it, and the function reads it where it
      uses [value]; a parameter of a wider type is bound to a temporary
      that holds its value at the call. *)
Inductive ByteRef : Type :=
| by_value (v : Z)
| in_heap (p : Mem.pointer) (off : Z).

(** Reading through the reference; undefined when the byte is not (or
    no longer) allocated. *)
Definition read_byte_ref (value : ByteRef) (h : Mem.Heap) : option Z :=
  match value with
  | by_value v => Some v
  | in_heap p off =>
      match Mem.load_bytes p off 1 h with
      | Some [x] => Some x
      | _ => None
      end
  end.

(* ===================================================================== *)
(** ** The messages of [xran] *)
(* ===================================================================== *)

(** Both [xran] functions build their message with [sprintf] in a local
    [char buf[80]].  The only directive of their formats is [%08x], which
    prints the eight hexadecimal digits of a 32-bit argument. *)
Module Printf.
Import Ascii String.

(** The number of characters [sprintf] writes for [fmt], without the
    terminating [NUL]. *)
Fixpoint formatted_length (fmt : string) : Z :=
  match fmt with
  | EmptyString => 0
  | String "%" (String "0" (String "8" (String "x" rest))) =>
      8 + formatted_length rest
  | String _ rest => 1 + formatted_length rest
  end.

(** Does the message, with its terminating [NUL], fit an array of
    [buf_size] characters? *)
Definition fits (fmt : string) (buf_size : Z) : bool :=
  formatted_length fmt + 1 <=? buf_size.

(** The format of [BufferT::xran]. *)
Definition BufferT_xran : string :=
  "BufferT(%08x), size=%08x, pos=%08x, need_size=%08x".

(** The formats of [StreamBufferT::xran], for a read and for a write. *)
Definition StreamBufferT_xran_read : string :=
  "StreamBufferT(%08x) read, size=%08x, read_index=%08x, need_size=%08x".

Definition StreamBufferT_xran_write : string :=
  "StreamBufferT(%08x) write, size=%08x, write_index=%08x, need_size=%08x".

End Printf.

(* ===================================================================== *)
(** ** Growable container: [buffer_internal::SimpleBufferT] *)
(* ===================================================================== *)

(** The data members of [SimpleBufferT<uint8_t>]; [alloc_] has no state. *)
Record SimpleBufferT : Type := mkSimpleBufferT {
  buf_ : Mem.pointer;
  size_ : Z;
  capacity_ : Z;
  shrink_counter_ : Z;
  ref_ : bool
}.

Module Continer.

Definition DEFAULT_SHRINK_TRIGGER_COUNT : Z := 2.
Definition DEFAULT_MINI_SIZE : Z := 32.
Definition INT_MAX : Z := 2147483647.

Abbreviation State := (SimpleBufferT * Mem.Heap)%type (only parsing).

Definition set_buf (this : SimpleBufferT) (p : Mem.pointer) : SimpleBufferT :=
  mkSimpleBufferT p (size_ this) (capacity_ this) (shrink_counter_ this) (ref_ this).

Definition set_size (this : SimpleBufferT) (n : Z) : SimpleBufferT :=
  mkSimpleBufferT (buf_ this) n (capacity_ this) (shrink_counter_ this) (ref_ this).

Definition set_capacity (this : SimpleBufferT) (n : Z) : SimpleBufferT :=
  mkSimpleBufferT (buf_ this) (size_ this) n (shrink_counter_ this) (ref_ this).

Definition set_shrink_counter (this : SimpleBufferT) (n : Z) : SimpleBufferT :=
  mkSimpleBufferT (buf_ this) (size_ this) (capacity_ this) n (ref_ this).

Definition set_ref (this : SimpleBufferT) (r : bool) : SimpleBufferT :=
  mkSimpleBufferT (buf_ this) (size_ this) (capacity_ this) (shrink_counter_ this) r.

(** [SimpleBufferT()] *)
Definition default : SimpleBufferT := mkSimpleBufferT None 0 0 0 false.

Definition begin (this : SimpleBufferT) : Mem.pointer := buf_ this.
Definition size (this : SimpleBufferT) : Z := size_ this.
Definition capacity (this : SimpleBufferT) : Z := capacity_ this.
Definition empty (this : SimpleBufferT) : bool := size_ this =? 0.

(** The second half of [reserve], from [pointer p = nullptr;] on: the
    reallocation to the capacity already stored in [capacity_]. *)
Definition reallocate_to_capacity : M State unit :=
  fun '(this, h) =>
    if negb (ref_ this) then
      match Mem.realloc (buf_ this) (capacity_ this) h with
      | None => Undefined
      | Some (None, h') => Throw bad_alloc (this, h')
      | Some (Some b, h') => Ok tt (set_buf this (Some b), h')
      end
    else
      let '(p, h1) := Mem.malloc (capacity_ this) h in
      match Mem.memcpy p 0 (buf_ this) 0 (size_ this) h1 with
      | None => Undefined
      | Some h2 =>
          let this := set_ref this false in
          match p with
          | None => Throw bad_alloc (this, h2)
          | Some b => Ok tt (set_buf this (Some b), h2)
          end
      end.

(** [void reserve(size_type size)] *)
Definition reserve (size : Z) : M State unit :=
  fun '(this, h) =>
    if capacity_ this <? size then
      let this := set_capacity this (Z.max size (SizeT.mul 2 (capacity_ this))) in
      let this := set_capacity this (Z.max DEFAULT_MINI_SIZE (capacity_ this)) in
      reallocate_to_capacity (this, h)
    else if size <? capacity_ this then
      reallocate_to_capacity (set_capacity this size, h)
    else Ok tt (this, h).

(** [void clear()] *)
Definition clear : M State unit :=
  fun '(this, h) =>
    let freed :=
      match buf_ this with
      | Some b => if negb (ref_ this) then Mem.free b h else Some h
      | None => Some h
      end in
    match freed with
    | None => Undefined
    | Some h' => Ok tt (mkSimpleBufferT None 0 0 0 false, h')
    end.

(** [void resize(size_type size)] *)
Definition resize (size : Z) : M State unit :=
  do _ <- (fun '(this, h) =>
             if size =? 0 then clear (this, h)
             else if capacity_ this <? size then reserve size (this, h)
             else Ok tt (this, h));
  fun '(this, h) => Ok tt (set_size this size, h).

(** [void push_back(const value_type& val)]; [sizeof(val)] is 1.  The
    reference [val] is read in [buf_[size] = val], after [resize]. *)
Definition push_back (val : ByteRef) : M State unit :=
  fun '(this, h) =>
    let size := size_ this in
    (do _ <- resize (SizeT.add (size_ this) 1);
     fun '(this, h) =>
       match read_byte_ref val h with
       | None => Undefined
       | Some x =>
           match Mem.store_bytes (buf_ this) size [x] h with
           | Some h' => Ok tt (this, h')
           | None => Undefined
           end
       end) (this, h).

(** The condition of [shrink]: [size_ > 0 && size_ < 2 * capacity_]. *)
Definition shrink_guard (this : SimpleBufferT) : bool :=
  (0 <? size_ this) && (size_ this <? SizeT.mul 2 (capacity_ this)).

(** [void shrink()] *)
Definition shrink : M State unit :=
  fun '(this, h) =>
    if shrink_guard this then
      if shrink_counter_ this =? INT_MAX then Undefined
      else
        let this := set_shrink_counter this (shrink_counter_ this + 1) in
        if DEFAULT_SHRINK_TRIGGER_COUNT <? shrink_counter_ this then
          (do _ <- reserve (size_ this);
           fun '(this, h) => Ok tt (set_shrink_counter this 0, h)) (this, h)
        else Ok tt (this, h)
    else Ok tt (set_shrink_counter this 0, h).

(** [void shrink_to_fit()] *)
Definition shrink_to_fit : M State unit :=
  do _ <- (fun '(this, h) =>
             if 0 <? size_ this then reserve (size_ this) (this, h)
             else Ok tt (this, h));
  fun '(this, h) => Ok tt (set_shrink_counter this 0, h).

(** Is [buf + off] the null pointer? *)
Definition is_null (buf : Mem.pointer) (off : Z) : bool :=
  match buf with
  | None => off =? 0
  | Some _ => false
  end.

(** [explicit SimpleBufferT(size_t size)] *)
Definition of_size (size : Z) : M Mem.Heap SimpleBufferT :=
  construct (mkSimpleBufferT None size 0 0 false)
    (do _ <- reserve size;
     fun '(this, h) => Ok tt (set_size this size, h)).

(** [SimpleBufferT(size_t size, const _Ty& val)] *)
Definition of_value (size val : Z) : M Mem.Heap SimpleBufferT :=
  construct (mkSimpleBufferT None size 0 0 false)
    (do _ <- reserve size;
     do _ <- (fun '(this, h) => Ok tt (set_size this size, h));
     fun '(this, h) => heap_call (Mem.memset (begin this) 0 val size) (this, h)).

(** [SimpleBufferT(const_pointer buf, size_type size)], with the source
    pointer given as [buf + off]. *)
Definition of_pointer (buf : Mem.pointer) (off size : Z) : M Mem.Heap SimpleBufferT :=
  construct (mkSimpleBufferT None size 0 0 false)
    (if negb (is_null buf off) && (0 <? size) then
       do _ <- reserve size;
       do _ <- (fun '(this, h) => Ok tt (set_size this size, h));
       fun '(this, h) => heap_call (Mem.memcpy (begin this) 0 buf off size) (this, h)
     else ret tt).

(** [static SimpleBufferT ref(pointer buf, size_type size)] *)
Definition ref (buf : Mem.pointer) (size : Z) : SimpleBufferT :=
  if negb (is_null buf 0) && (0 <? size)
  then mkSimpleBufferT buf size size 0 true
  else default.

(** [SimpleBufferT& operator=(SimpleBufferT&& other)] *)
Definition move_assign (other : SimpleBufferT) : M State unit :=
  if negb (empty other) then
    fun '(_, h) =>
      Ok tt (mkSimpleBufferT (buf_ other) (size_ other) (capacity_ other)
                             (shrink_counter_ other) (ref_ other), h)
  else resize 0.

(** The member functions that change a container, as values, so that a
    statement can speak of every one of them and of sequences of them. *)
Inductive Call : Type :=
| call_reserve (size : Z)
| call_resize (size : Z)
| call_push_back (val : ByteRef)
| call_shrink
| call_shrink_to_fit
| call_clear.

Definition call (c : Call) : M State unit :=
  match c with
  | call_reserve size => reserve size
  | call_resize size => resize size
  | call_push_back val => push_back val
  | call_shrink => shrink
  | call_shrink_to_fit => shrink_to_fit
  | call_clear => clear
  end.

(** [SimpleBufferT(const SimpleBufferT& other)] *)
Definition copy_construct (other : SimpleBufferT) : M Mem.Heap SimpleBufferT :=
  construct (mkSimpleBufferT None (size other) 0 0 false)
    (do _ <- reserve (size other);
     fun '(this, h) =>
       heap_call (Mem.memcpy (begin this) 0 (begin other) 0 (size other)) (this, h)).

(** [SimpleBufferT(SimpleBufferT&& other)]: the new object, and [other]
    as the constructor leaves it. *)
Definition move_construct (other : SimpleBufferT) : SimpleBufferT * SimpleBufferT :=
  (mkSimpleBufferT (buf_ other) (size_ other) (capacity_ other)
                   (shrink_counter_ other) (ref_ other),
   mkSimpleBufferT None 0 0 0 false).

(** [~SimpleBufferT()] *)
Definition destroy (this : SimpleBufferT) (h : Mem.Heap) : option Mem.Heap :=
  match buf_ this with
  | Some b => if negb (ref_ this) then Mem.free b h else Some h
  | None => Some h
  end.

(** [SimpleBufferT& operator=(const SimpleBufferT& other)] *)
Definition copy_assign (other : Other SimpleBufferT) : M State unit :=
  fun '(this, h) =>
    if negb (empty (deref other this)) then
      (do _ <- resize (size (deref other this));
       fun '(this, h) =>
         let this := set_shrink_counter (set_ref this false) 0 in
         heap_call (Mem.memcpy (buf_ this) 0 (buf_ (deref other this)) 0 (size_ this))
                   (this, h)) (this, h)
    else resize 0 (this, h).

(** [SimpleBufferT& operator=(SimpleBufferT&& other)] with [other]
    another object: the state is the pair of [*this] and [other]. *)
Definition move_assign_from : M ((SimpleBufferT * SimpleBufferT) * Mem.Heap) unit :=
  fun '((this, other), h) =>
    if negb (empty other) then
      Ok tt ((mkSimpleBufferT (buf_ other) (size_ other) (capacity_ other)
                              (shrink_counter_ other) (ref_ other),
              mkSimpleBufferT None 0 0 0 false), h)
    else
      match resize 0 (this, h) with
      | Ok _ (this', h') => Ok tt ((this', other), h')
      | Throw e (this', h') => Throw e ((this', other), h')
      | Undefined => Undefined
      end.

(** [void push_back(const SimpleBufferT& other)] *)
Definition push_back_buffer (other : Other SimpleBufferT) : M State unit :=
  fun '(this, h) =>
    if negb (empty (deref other this)) then
      let size := size_ this in
      (do _ <- resize (SizeT.add (size_ this) (size_ (deref other this)));
       fun '(this, h) =>
         heap_call (Mem.memcpy (begin this) size (buf_ (deref other this)) 0
                      (size_ (deref other this))) (this, h)) (this, h)
    else Ok tt (this, h).

End Continer.

(* ===================================================================== *)
(** ** Random-access buffer: [BufferT] *)
(* ===================================================================== *)

Record BufferT : Type := mkBufferT { continer_ : SimpleBufferT }.

Module Buffer.

Abbreviation State := (BufferT * Mem.Heap)%type (only parsing).

Definition on_continer {A} (m : M Continer.State A) : M State A :=
  on_member continer_ (fun _ c => mkBufferT c) m.

(** [BufferT()] *)
Definition default : BufferT := mkBufferT Continer.default.

(** [BufferT(size_type size, const value_type& val)] *)
Definition of_value (size val : Z) : M Mem.Heap BufferT :=
  do c <- Continer.of_value size val; ret (mkBufferT c).

(** [BufferT(const_pointer buf, size_type size)] *)
Definition of_pointer (buf : Mem.pointer) (off size : Z) : M Mem.Heap BufferT :=
  do c <- Continer.of_pointer buf off size; ret (mkBufferT c).

(** [static BufferT ref(pointer buf, size_type size)] *)
Definition ref (buf : Mem.pointer) (size : Z) : M Mem.Heap BufferT :=
  let tmp := Continer.ref buf size in
  construct default (on_continer (Continer.move_assign tmp)).

Definition begin (this : BufferT) : Mem.pointer := Continer.begin (continer_ this).
Definition size (this : BufferT) : Z := Continer.size (continer_ this).
Definition capacity (this : BufferT) : Z := Continer.capacity (continer_ this).
Definition empty (this : BufferT) : bool := Continer.empty (continer_ this).

(** [void xran(size_t pos, size_t need_size) const] *)
Definition xran {A} (pos need_size : Z) : M State A :=
  throw (out_of_range pos need_size).

Definition shrink : M State unit := on_continer Continer.shrink.
Definition resize (size : Z) : M State unit := on_continer (Continer.resize size).
Definition clear : M State unit := on_continer Continer.clear.

(** [void fill(const value_type& value, size_type offset, size_type count = 0)] *)
Definition fill (value offset count : Z) : M State unit :=
  fun '(this, h) =>
    let count :=
      if (count =? 0) || (size this <? SizeT.add offset count)
      then SizeT.sub (size this) offset
      else count in
    heap_call (Mem.memset (begin this) offset value count) (this, h).

(** [BufferT slice(size_type offset, size_type count) const] *)
Definition slice (offset count : Z) : M State BufferT :=
  fun '(this, h) =>
    let made :=
      if empty this then Ok default h
      else if size this <=? SizeT.add count offset
           then of_pointer (begin this) offset (SizeT.sub (size this) offset) h
           else of_pointer (begin this) offset count h in
    match made with
    | Ok b h' => Ok b (this, h')
    | Throw e h' => Throw e (this, h')
    | Undefined => Undefined
    end.

Section Typed.

(** The byte order of the hardware the program runs on. *)
Variable host : Endianness.

(** [template<typename _RetTy, Endianness endianness> _RetTy read(size_type offset) const] *)
Definition read_e (T : BasicType) (endianness : Endianness) (offset : Z) : M State Z :=
  fun '(this, h) =>
    if size this <? SizeT.add offset (sizeof T) then xran offset (sizeof T) (this, h)
    else
      match Mem.load_bytes (begin this) offset (sizeof T) h with
      | Some bytes => Ok (Endian.read host T endianness bytes) (this, h)
      | None => Undefined
      end.

Definition read_le (T : BasicType) (offset : Z) : M State Z :=
  read_e T kLittleEndian offset.

Definition read_be (T : BasicType) (offset : Z) : M State Z :=
  read_e T kBigEndian offset.

(** [read<_RetTy>(offset)] for the types of [is_endian_basictype] *)
Definition read_native (T : BasicType) (offset : Z) : M State Z :=
  if Endianness_eqb (Endian.CurrentEndian host) kBigEndian
  then read_e T kBigEndian offset
  else read_e T kLittleEndian offset.

(** [read<_RetTy>(offset)] for the types of [is_8bit_basictype] *)
Definition read_8bit (T : BasicType) (offset : Z) : M State Z :=
  fun '(this, h) =>
    if size this <=? offset then xran offset 1 (this, h)
    else
      match Mem.load_bytes (begin this) offset 1 h with
      | Some [x] => Ok (convert T x) (this, h)
      | _ => Undefined
      end.

(** [read<_RetTy>(offset)]: the overload that [enable_if] selects. *)
Definition read (T : BasicType) (offset : Z) : M State Z :=
  if is_endian_basictype T then read_native T offset else read_8bit T offset.

(** [template<typename _SrcTy, Endianness endianness> void write(const _SrcTy& value, size_t offset)] *)
Definition write_e (T : BasicType) (endianness : Endianness) (value offset : Z)
  : M State unit :=
  fun '(this, h) =>
    if size this <? SizeT.add offset (sizeof T) then xran offset (sizeof T) (this, h)
    else
      heap_call (Mem.store_bytes (begin this) offset
                   (Endian.write host T endianness value)) (this, h).

Definition write_le (T : BasicType) (value offset : Z) : M State unit :=
  write_e T kLittleEndian value offset.

Definition write_be (T : BasicType) (value offset : Z) : M State unit :=
  write_e T kBigEndian value offset.

Definition write_native (T : BasicType) (value offset : Z) : M State unit :=
  if Endianness_eqb (Endian.CurrentEndian host) kBigEndian
  then write_e T kBigEndian value offset
  else write_e T kLittleEndian value offset.

Definition write_8bit (T : BasicType) (value offset : Z) : M State unit :=
  fun '(this, h) =>
    if size this <=? offset then xran offset 1 (this, h)
    else heap_call (Mem.store_bytes (begin this) offset [value mod 256]) (this, h).

(** [write(value, offset)]: the overload that [enable_if] selects. *)
Definition write (T : BasicType) (value offset : Z) : M State unit :=
  if is_endian_basictype T then write_native T value offset
  else write_8bit T value offset.

(** [write_bytes(const _SrcTy* buf, size_type buf_size, size_type offset = 0)],
    with the source given as [buf + boff]. *)
Definition write_bytes (buf : Mem.pointer) (boff buf_size offset : Z) : M State unit :=
  fun '(this, h) =>
    if size this <? SizeT.add offset buf_size then xran offset buf_size (this, h)
    else heap_call (Mem.memcpy (begin this) offset buf boff buf_size) (this, h).

(** [void EnsureWritableBytes(size_t offset, size_t size)] *)
Definition EnsureWritableBytes (offset size : Z) : M State unit :=
  fun '(this, h) =>
    if Continer.size (continer_ this) <? SizeT.add offset size then
      resize (SizeT.add (Continer.size (continer_ this))
                (SizeT.sub (SizeT.add offset size) (Continer.size (continer_ this))))
             (this, h)
    else Ok tt (this, h).

(** [template<typename _SrcTy, Endianness endianness> void append(const _SrcTy& value)] *)
Definition append_e (T : BasicType) (endianness : Endianness) (value : Z) : M State unit :=
  fun '(this, h) =>
    let offset := size this in
    (do _ <- EnsureWritableBytes (size this) (sizeof T);
     write_e T endianness value offset) (this, h).

Definition append_le (T : BasicType) (value : Z) : M State unit :=
  append_e T kLittleEndian value.

Definition append_be (T : BasicType) (value : Z) : M State unit :=
  append_e T kBigEndian value.

Definition append_native (T : BasicType) (value : Z) : M State unit :=
  if Endianness_eqb (Endian.CurrentEndian host) kBigEndian
  then append_e T kBigEndian value
  else append_e T kLittleEndian value.

(** [append(const _SrcTy& value)] for the types of [is_8bit_basictype].
    The reference [value] is read in [*(begin() + offset) = value],
    after [EnsureWritableBytes]. *)
Definition append_8bit (T : BasicType) (value : ByteRef) : M State unit :=
  fun '(this, h) =>
    let offset := size this in
    (do _ <- EnsureWritableBytes (size this) 1;
     fun '(this, h) =>
       match read_byte_ref value h with
       | None => Undefined
       | Some x =>
           heap_call (Mem.store_bytes (begin this) offset [x mod 256]) (this, h)
       end)
      (this, h).

(** [append(value)]: the overload that [enable_if] selects.  For a wider
    type the parameter is bound to an object of that type: the argument
    itself when it is one, a temporary made at the call when the
    argument is a one-byte object of the heap. *)
Definition append (T : BasicType) (value : ByteRef) : M State unit :=
  if is_endian_basictype T then
    match value with
    | by_value v => append_native T v
    | in_heap _ _ =>
        fun '(this, h) =>
          match read_byte_ref value h with
          | None => Undefined
          | Some x => append_native T x (this, h)
          end
    end
  else append_8bit T value.

(** [append(const _SrcTy* buf, size_type buf_size)], with the source
    given as [buf + boff]. *)
Definition append_bytes (buf : Mem.pointer) (boff buf_size : Z) : M State unit :=
  fun '(this, h) =>
    let offset := size this in
    (do _ <- EnsureWritableBytes offset buf_size;
     fun '(this, h) =>
       heap_call (Mem.memcpy (begin this) offset buf boff buf_size) (this, h))
      (this, h).

End Typed.

(** The member functions that change a buffer, as values. *)
Inductive Mutation : Type :=
| mut_resize (size : Z)
| mut_clear
| mut_shrink
| mut_fill (value offset count : Z)
| mut_write (T : BasicType) (value offset : Z)
| mut_write_e (T : BasicType) (endianness : Endianness) (value offset : Z)
| mut_write_bytes (buf : Mem.pointer) (boff buf_size offset : Z)
| mut_append (T : BasicType) (value : ByteRef)
| mut_append_e (T : BasicType) (endianness : Endianness) (value : Z)
| mut_append_bytes (buf : Mem.pointer) (boff buf_size : Z).

Definition mutate (host : Endianness) (m : Mutation) : M State unit :=
  match m with
  | mut_resize size => resize size
  | mut_clear => clear
  | mut_shrink => shrink
  | mut_fill value offset count => fill value offset count
  | mut_write T value offset => write host T value offset
  | mut_write_e T e value offset => write_e host T e value offset
  | mut_write_bytes buf boff buf_size offset => write_bytes buf boff buf_size offset
  | mut_append T value => append host T value
  | mut_append_e T e value => append_e host T e value
  | mut_append_bytes buf boff buf_size => append_bytes buf boff buf_size
  end.

(** [BufferT(const BufferT& other)] *)
Definition copy_construct (other : BufferT) : M Mem.Heap BufferT :=
  do c <- Continer.copy_construct (continer_ other); ret (mkBufferT c).

(** [BufferT(BufferT&& other)]: the new object, and [other] afterwards. *)
Definition move_construct (other : BufferT) : BufferT * BufferT :=
  let '(c, o) := Continer.move_construct (continer_ other) in
  (mkBufferT c, mkBufferT o).

(** [~BufferT()] *)
Definition destroy (this : BufferT) (h : Mem.Heap) : option Mem.Heap :=
  Continer.destroy (continer_ this) h.

(** [BufferT& operator=(const BufferT& other)] *)
Definition copy_assign (other : Other BufferT) : M State unit :=
  fun '(this, h) =>
    if empty (deref other this) then on_continer (Continer.resize 0) (this, h)
    else
      (do _ <- on_continer (Continer.resize (size (deref other this)));
       fun '(this, h) =>
         heap_call (Mem.memcpy (begin this) 0 (begin (deref other this)) 0
                      (size (deref other this))) (this, h)) (this, h).

(** [BufferT& operator=(BufferT&& other)] *)
Definition move_assign (other : BufferT) : M State unit :=
  on_continer (Continer.move_assign (continer_ other)).

(** [BufferT& operator+=(const BufferT& other)] *)
Definition plus_assign (other : Other BufferT) : M State unit :=
  on_continer (Continer.push_back_buffer
                 (match other with
                  | another o => another (continer_ o)
                  | itself => itself
                  end)).

(** [bool operator==(const BufferT& other) const] *)
Definition equal (other : BufferT) : M State bool :=
  fun '(this, h) =>
    if size other =? size this then
      match Mem.memcmp (begin this) 0 (begin other) 0 (size this) h with
      | Some c => Ok (c =? 0) (this, h)
      | None => Undefined
      end
    else Ok false (this, h).

(** [uint8_t read_byte(size_type offset) const] *)
Definition read_byte (offset : Z) : M State Z :=
  fun '(this, h) =>
    if size this <=? offset then xran offset 1 (this, h)
    else
      match Mem.load_bytes (begin this) offset 1 h with
      | Some [x] => Ok (convert UInt8 x) (this, h)
      | _ => Undefined
      end.

(** [char read_char(size_type offset) const] *)
Definition read_char (offset : Z) : M State Z :=
  fun '(this, h) =>
    if size this <=? offset then xran offset 1 (this, h)
    else
      match Mem.load_bytes (begin this) offset 1 h with
      | Some [x] => Ok (convert Char x) (this, h)
      | _ => Undefined
      end.

End Buffer.

(* ===================================================================== *)
(** ** Sequential cursor: [StreamBufferT] *)
(* ===================================================================== *)

Record StreamBufferT : Type := mkStreamBufferT {
  read_index_ : Z;
  write_index_ : Z;
  buffer_ : BufferT
}.

Module Stream.

Abbreviation State := (StreamBufferT * Mem.Heap)%type (only parsing).

Definition set_read_index (this : StreamBufferT) (i : Z) : StreamBufferT :=
  mkStreamBufferT i (write_index_ this) (buffer_ this).

Definition set_write_index (this : StreamBufferT) (i : Z) : StreamBufferT :=
  mkStreamBufferT (read_index_ this) i (buffer_ this).

(** [StreamBufferT()] *)
Definition default : StreamBufferT := mkStreamBufferT 0 0 Buffer.default.

(** [StreamBufferT(size_type size, const _Ty& value)] *)
Definition of_value (size value : Z) : M Mem.Heap StreamBufferT :=
  do b <- Buffer.of_value size value; ret (mkStreamBufferT 0 0 b).

(** [StreamBufferT(const_pointer buf, size_type size)] *)
Definition of_pointer (buf : Mem.pointer) (off size : Z) : M Mem.Heap StreamBufferT :=
  do b <- Buffer.of_pointer buf off size; ret (mkStreamBufferT 0 0 b).

Definition empty (this : StreamBufferT) : bool := Buffer.empty (buffer_ this).

Definition read_eof (this : StreamBufferT) : bool :=
  Buffer.size (buffer_ this) <=? read_index_ this.

Definition write_eof (this : StreamBufferT) : bool :=
  Buffer.size (buffer_ this) <=? write_index_ this.

(** The size of the array [char buf[80]] of [xran]. *)
Definition xran_buf_size : Z := 80.

(** [void xran(size_type need_size, bool read_action)]: [sprintf] writes
    the message into [buf], then the exception is thrown.  Writing past
    the end of [buf] is undefined behaviour. *)
Definition xran {A} (need_size : Z) (read_action : bool) : M State A :=
  fun '(this, h) =>
    let format := if read_action then Printf.StreamBufferT_xran_read
                  else Printf.StreamBufferT_xran_write in
    if Printf.fits format xran_buf_size then
      Throw (out_of_range (if read_action then read_index_ this else write_index_ this)
                          need_size) (this, h)
    else Undefined.

Section Typed.

Variable host : Endianness.

(** [template<typename _RetTy, Endianness endianness> _RetTy read()] *)
Definition read_e (T : BasicType) (endianness : Endianness) : M State Z :=
  fun '(this, h) =>
    if Buffer.size (buffer_ this) <? SizeT.add (read_index_ this) (sizeof T)
    then xran (sizeof T) true (this, h)
    else
      let offset := read_index_ this in
      let this := set_read_index this (SizeT.add (read_index_ this) (sizeof T)) in
      match Mem.load_bytes (Buffer.begin (buffer_ this)) offset (sizeof T) h with
      | Some bytes => Ok (Endian.read host T endianness bytes) (this, h)
      | None => Undefined
      end.

(** [read<_RetTy>()] for the types of [is_8bit_basictype] *)
Definition read_8bit (T : BasicType) : M State Z :=
  fun '(this, h) =>
    if Buffer.size (buffer_ this) <? SizeT.add (read_index_ this) (sizeof T)
    then xran (sizeof T) true (this, h)
    else
      let offset := read_index_ this in
      let this := set_read_index this (SizeT.add (read_index_ this) 1) in
      match Mem.load_bytes (Buffer.begin (buffer_ this)) offset 1 h with
      | Some [x] => Ok (convert T x) (this, h)
      | _ => Undefined
      end.

Definition read_le (T : BasicType) : M State Z := read_e T kLittleEndian.
Definition read_be (T : BasicType) : M State Z := read_e T kBigEndian.

Definition read_native (T : BasicType) : M State Z :=
  if Endianness_eqb (Endian.CurrentEndian host) kLittleEndian
  then read_le T else read_be T.

(** [read<_RetTy>()]: the overload that [enable_if] selects. *)
Definition read (T : BasicType) : M State Z :=
  if is_endian_basictype T then read_native T else read_8bit T.

(** [template<typename _SrcTy, Endianness endianness> void write(const _SrcTy& value)] *)
Definition write_e (T : BasicType) (endianness : Endianness) (value : Z) : M State unit :=
  fun '(this, h) =>
    if Buffer.size (buffer_ this) <? SizeT.add (write_index_ this) (sizeof T)
    then xran (sizeof T) false (this, h)
    else
      let offset := write_index_ this in
      let this := set_write_index this (SizeT.add (write_index_ this) (sizeof T)) in
      heap_call (Mem.store_bytes (Buffer.begin (buffer_ this)) offset
                   (Endian.write host T endianness value)) (this, h).

Definition write_8bit (T : BasicType) (value : Z) : M State unit :=
  fun '(this, h) =>
    if Buffer.size (buffer_ this) <? SizeT.add (write_index_ this) (sizeof T)
    then xran (sizeof T) false (this, h)
    else
      let offset := write_index_ this in
      let this := set_write_index this (SizeT.add (write_index_ this) 1) in
      heap_call (Mem.store_bytes (Buffer.begin (buffer_ this)) offset [value mod 256])
                (this, h).

Definition write_le (T : BasicType) (value : Z) : M State unit :=
  write_e T kLittleEndian value.

Definition write_be (T : BasicType) (value : Z) : M State unit :=
  write_e T kBigEndian value.

Definition write_native (T : BasicType) (value : Z) : M State unit :=
  if Endianness_eqb (Endian.CurrentEndian host) kLittleEndian
  then write_le T value else write_be T value.

(** [write(value)]: the overload that [enable_if] selects. *)
Definition write (T : BasicType) (value : Z) : M State unit :=
  if is_endian_basictype T then write_native T value else write_8bit T value.

End Typed.

(** [static StreamBufferT ref(pointer buf, size_type size)] *)
Definition ref (buf : Mem.pointer) (size : Z) : M Mem.Heap StreamBufferT :=
  if negb (Continer.is_null buf 0) && (0 <? size) then
    do buffer <- Buffer.ref buf size;
    construct default
      (on_member buffer_ (fun rv b => mkStreamBufferT (read_index_ rv) (write_index_ rv) b)
                 (Buffer.move_assign buffer))
  else ret default.

End Stream.

(* ===================================================================== *)
(** ** Observations and representation invariants *)
(* ===================================================================== *)

(** The allocator never grants more than an object can hold. *)
Definition heap_wf (h : Mem.Heap) : Prop :=
  0 <= Mem.alloc_limit h <= SizeT.PTRDIFF_MAX.

(** The representation invariant of the container: the one every
    constructor establishes and every member function that returns keeps.
    An empty container holds no memory; a container with memory has
    [0 < size_ <= capacity_], and [capacity_] bytes behind [buf_] -- its
    own block when owned, at least that many of the caller's when
    borrowed. *)
Definition continer_wf (this : SimpleBufferT) (h : Mem.Heap) : Prop :=
  heap_wf h /\
  0 <= size_ this <= capacity_ this /\
  capacity_ this <= SizeT.PTRDIFF_MAX /\
  0 <= shrink_counter_ this <= Continer.DEFAULT_SHRINK_TRIGGER_COUNT /\
  match buf_ this with
  | None => capacity_ this = 0 /\ ref_ this = false
  | Some b =>
      0 < size_ this /\
      exists data, Mem.contents h b = Some data /\
        if ref_ this then capacity_ this <= Z.of_nat (length data)
        else Z.of_nat (length data) = capacity_ this
             /\ capacity_ this <= Mem.alloc_limit h
  end.

(** The bytes a container holds: the first [size_] bytes behind [buf_]. *)
Definition continer_bytes (this : SimpleBufferT) (h : Mem.Heap) : list Z :=
  take (Z.to_nat (size_ this)) (Mem.block_data (buf_ this) h).

Definition buffer_wf (this : BufferT) (h : Mem.Heap) : Prop :=
  continer_wf (continer_ this) h.

Definition buffer_bytes (this : BufferT) (h : Mem.Heap) : list Z :=
  continer_bytes (continer_ this) h.

(** The invariant of the cursor: both indices are positions inside some
    object.  (They start at 0 and advance only up to the size of the
    buffer.) *)
Definition stream_wf (this : StreamBufferT) (h : Mem.Heap) : Prop :=
  buffer_wf (buffer_ this) h /\
  0 <= read_index_ this <= SizeT.PTRDIFF_MAX /\
  0 <= write_index_ this <= SizeT.PTRDIFF_MAX.

(** The buffer owns its storage, and its storage is not the allocated
    block [r]. *)
Definition separated (this : BufferT) (h : Mem.Heap) (r : nat) : Prop :=
  ref_ (continer_ this) = false /\
  Buffer.begin this <> Some r /\
  is_Some (Mem.contents h r).

(** The state of a buffer that borrows the [n] bytes [data] of block [r]. *)
Definition borrows (b0 : BufferT) (h : Mem.Heap) (r : nat) (data : list Z) (n : Z) : Prop :=
  heap_wf h /\ Mem.contents h r = Some data /\ Z.of_nat (length data) = n /\ 0 < n /\
  n <= SizeT.PTRDIFF_MAX /\
  exists k, 0 <= k <= Continer.DEFAULT_SHRINK_TRIGGER_COUNT /\
            b0 = mkBufferT (mkSimpleBufferT (Some r) n n k true).

(** A call that throws [std::out_of_range] and leaves the state [s]. *)
Definition throws_out_of_range {S A} (o : outcome S A) (s : S) : Prop :=
  exists pos need_size, o = Throw (out_of_range pos need_size) s.

(** The segment [off, off + n) of a list of bytes. *)
Definition segment (off n : Z) (l : list Z) : list Z :=
  take (Z.to_nat n) (drop (Z.to_nat off) l).

(** The bytes [l] with [n] copies of [value] written over them from
    position [offset] on. *)
Definition filled (value : Z) (offset n : Z) (l : list Z) : list Z :=
  take (Z.to_nat offset) l ++ replicate (Z.to_nat n) value
  ++ drop (Z.to_nat (offset + n)) l.

(** An empty heap whose allocator grants up to 4096 bytes, and whose
    fresh memory shows [0xCD]. *)
Definition heap0 : Mem.Heap := Mem.mkHeap [] 4096 (fun _ => 205).


(** The buffer of [write_test] and [test_streambuffer1] in [main.cc], as
    [BufferT(16, 0)] leaves it on [heap0]: capacity 32, the first 16
    bytes zero. *)
Definition zeros16_heap : Mem.Heap :=
  Mem.mkHeap [Some (replicate 16 0 ++ replicate 16 205)] 4096 (fun _ => 205).

Definition zeros16 : BufferT :=
  mkBufferT (mkSimpleBufferT (Some 0%nat) 16 32 0 false).

(** The buffer of [read_test] in [main.cc]: a copy of the caller's array
    [{0xff, 0xee, 0xdd}], which is block 0. *)
Definition read_test_caller_heap : Mem.Heap :=
  Mem.mkHeap [Some [255; 238; 221]] 4096 (fun _ => 205).

Definition read_test_heap : Mem.Heap :=
  Mem.mkHeap [Some [255; 238; 221];
              Some ([255; 238; 221] ++ replicate 29 205)] 4096 (fun _ => 205).

Definition read_test_buffer : BufferT :=
  mkBufferT (mkSimpleBufferT (Some 1%nat) 3 32 0 false).

(** The container of [byte_buffer::ref(p, 3)] over the caller's array
    [{0xff, 0xee, 0xdd}] of [read_test_caller_heap]. *)
Definition borrowed3 : SimpleBufferT := Continer.ref (Some 0%nat) 3.

(** A buffer of size 10 holding the bytes 0 .. 9: a copy
    ([BufferT(p, 10)]) of the caller's array, which is block 0. *)
Definition ten_caller_heap : Mem.Heap :=
  Mem.mkHeap [Some [0; 1; 2; 3; 4; 5; 6; 7; 8; 9]] 4096 (fun _ => 205).

Definition ten_heap : Mem.Heap :=
  Mem.mkHeap [Some [0; 1; 2; 3; 4; 5; 6; 7; 8; 9];
              Some ([0; 1; 2; 3; 4; 5; 6; 7; 8; 9] ++ replicate 22 205)]
             4096 (fun _ => 205).

Definition ten : BufferT :=
  mkBufferT (mkSimpleBufferT (Some 1%nat) 10 32 0 false).

(** A cursor at the last byte of the 16-byte buffer [zeros16]. *)
Definition cursor15 : StreamBufferT := mkStreamBufferT 15 15 zeros16.

(** The 16-byte buffer of [write_test], with the caller's array
    [{0xff, 0xee, 0xdd, 0xcc}] as block 1. *)
Definition write_test_heap : Mem.Heap :=
  Mem.mkHeap [Some (replicate 16 0 ++ replicate 16 205); Some [255; 238; 221; 204]]
             4096 (fun _ => 205).

(** [n] calls of [write(i++)] on a cursor, as in [test_streambuffer1],
    and [n] calls of [read<uint8_t>()] that collect what they read. *)
Fixpoint write_counting (host : Endianness) (n : nat) (i : Z) : M (StreamBufferT * Mem.Heap) unit :=
  match n with
  | O => ret tt
  | S n' => do _ <- Stream.write host UInt8 i; write_counting host n' (i + 1)
  end.

Fixpoint read_all (host : Endianness) (n : nat) : M (StreamBufferT * Mem.Heap) (list Z) :=
  match n with
  | O => ret []
  | S n' => do x <- Stream.read host UInt8; do l <- read_all host n'; ret (x :: l)
  end.

(** A byte of the buffer, as [uint8_t] shows it. *)
Definition is_byte (b : Z) : Prop := 0 <= b < 256.

(** The member functions of the container that its users can call
    ([reserve] is private), with the arguments [size_t] allows. *)
Definition public_call (c : Continer.Call) : Prop :=
  match c with
  | Continer.call_reserve _ => False
  | Continer.call_resize n => 0 <= n
  | _ => True
  end.

(** One [append(value)] per element of [values], each with a temporary
    as its argument, as the loop of [grow_test] makes them
    ([buf.append((uint8_t)0)]). *)
Fixpoint append_all (host : Endianness) (T : BasicType) (values : list Z)
  : M (BufferT * Mem.Heap) unit :=
  match values with
  | [] => ret tt
  | v :: rest => do _ <- Buffer.append host T (by_value v); append_all host T rest
  end.

(** A container that is full: [SimpleBufferT(32, 0)] on [heap0], 32 bytes
    in a block of 32. *)
Definition full32_heap : Mem.Heap :=
  Mem.mkHeap [Some (replicate 32 0)] 4096 (fun _ => 205).

Definition full32 : SimpleBufferT := mkSimpleBufferT (Some 0%nat) 32 32 0 false.

(** The reference [value] reads [v] in the heap [h], and what it refers
    to is not in the block of [own]. *)
Definition reads_outside (value : ByteRef) (own : Mem.pointer) (h : Mem.Heap) (v : Z)
  : Prop :=
  match value with
  | by_value x => x = v
  | in_heap p off => p <> own /\ Mem.load_bytes p off 1 h = Some [v]
  end.

(** The argument of [push_back] refers to an object outside the storage
    of the container; the other calls take no reference. *)
Definition argument_outside (c : Continer.Call) (this : SimpleBufferT) (h : Mem.Heap)
  : Prop :=
  match c with
  | Continer.call_push_back val => exists v, reads_outside val (buf_ this) h v
  | _ => True
  end.

(** One [write(value)] on a cursor per element of [values]. *)
Fixpoint write_all (host : Endianness) (T : BasicType) (values : list Z)
  : M (StreamBufferT * Mem.Heap) unit :=
  match values with
  | [] => ret tt
  | v :: rest => do _ <- Stream.write host T v; write_all host T rest
  end.

(** What [clear] and the destructor have in common: the block of an
    owning container is freed, and nothing else changes. *)
Definition released (this : SimpleBufferT) (h h' : Mem.Heap) : Prop :=
  match buf_ this with
  | Some b =>
      if ref_ this then h' = h
      else Mem.contents h' b = None /\
           (forall b', b' <> b -> Mem.contents h' b' = Mem.contents h b') /\
           Mem.alloc_limit h' = Mem.alloc_limit h
  | None => h' = h
  end.

(** The allocator can serve the growth of the container to [n] bytes:
    if [n] is above the capacity, the capacity [reserve] asks for is
    within the allocator's limit. *)
Definition growth_granted (this : SimpleBufferT) (h : Mem.Heap) (n : Z) : Prop :=
  capacity_ this < n ->
  Z.max n (Z.max (2 * capacity_ this) 32) <= Mem.alloc_limit h.

(** [n] calls of [read<T>()] on a cursor, collecting what they return. *)
Fixpoint read_n (host : Endianness) (T : BasicType) (n : nat)
  : M (StreamBufferT * Mem.Heap) (list Z) :=
  match n with
  | O => ret []
  | S n' => do x <- Stream.read host T; do l <- read_n host T n'; ret (x :: l)
  end.

(* ===================================================================== *)
(** * Theorems *)
(* ===================================================================== *)

(* --------------------------------------------------------------------- *)
(** *** [size_t] arithmetic without wrap-around *)
(* --------------------------------------------------------------------- *)

Lemma modulus_eq : SizeT.modulus = 18446744073709551616.
Proof. reflexivity. Qed.

Lemma PTRDIFF_MAX_eq : SizeT.PTRDIFF_MAX = 9223372036854775807.
Proof. reflexivity. Qed.

Lemma wrap_small x : 0 <= x < SizeT.modulus -> SizeT.wrap x = x.
Proof. intros H. unfold SizeT.wrap. now apply Z.mod_small. Qed.

Lemma wrap_range x : 0 <= SizeT.wrap x < SizeT.modulus.
Proof. unfold SizeT.wrap. apply Z.mod_pos_bound. reflexivity. Qed.

Lemma add_small a b :
  0 <= a -> 0 <= b -> a + b < SizeT.modulus -> SizeT.add a b = a + b.
Proof. intros. unfold SizeT.add. apply wrap_small. lia. Qed.

Lemma sub_small a b : 0 <= b <= a -> a < SizeT.modulus -> SizeT.sub a b = a - b.
Proof. intros. unfold SizeT.sub. apply wrap_small. lia. Qed.

Lemma mul2_small a : 0 <= a <= SizeT.PTRDIFF_MAX -> SizeT.mul 2 a = 2 * a.
Proof.
  intros H. unfold SizeT.mul. apply wrap_small.
  rewrite modulus_eq. rewrite PTRDIFF_MAX_eq in H. lia.
Qed.

(* --------------------------------------------------------------------- *)
(** *** Facts about the codec *)
(* --------------------------------------------------------------------- *)

Lemma Endianness_eqb_eq a b : Endianness_eqb a b = true <-> a = b.
Proof. destruct a, b; simpl; split; congruence. Qed.

Lemma sizeof_pos T : 1 <= sizeof T <= 8.
Proof. destruct T; unfold sizeof; simpl; lia. Qed.

Lemma length_le_bytes n u : length (le_bytes n u) = n.
Proof. revert u. induction n as [|n IH]; intros u; simpl; [reflexivity|]. now rewrite IH. Qed.

Lemma le_value_le_bytes n u :
  0 <= u -> le_value (le_bytes n u) = u mod 256 ^ Z.of_nat n.
Proof.
  revert u. induction n as [|n IH]; intros u Hu.
  - simpl. now rewrite Z.mod_1_r.
  - cbn [le_bytes le_value]. rewrite IH by (apply Z.div_pos; lia).
    rewrite Nat2Z.inj_succ, Z.pow_succ_r by lia.
    rewrite (Z.rem_mul_r u 256 (256 ^ Z.of_nat n)) by lia. reflexivity.
Qed.

Lemma pow256_sizeof T : 256 ^ Z.of_nat (sizeof_nat T) = 2 ^ value_bits T.
Proof. destruct T; reflexivity. Qed.

Lemma detect_big_endian_spec host :
  Endian.detect_big_endian host = Endianness_eqb host kBigEndian.
Proof. destruct host; reflexivity. Qed.

(** The probe finds the hardware order. *)
Lemma CurrentEndian_host host : Endian.CurrentEndian host = host.
Proof. destruct host; reflexivity. Qed.

Lemma signed_mod_inv (M H v : Z) :
  M = 2 * H -> 0 < H -> - H <= v <= H - 1 ->
  (if H <=? v mod M then v mod M - M else v mod M) = v.
Proof.
  intros HM HH Hv.
  destruct (Z_lt_le_dec v 0) as [Hn|Hn].
  - assert (v mod M = v + M) as E
      by (symmetry; apply (Z.mod_unique v M (-1) (v + M)); lia).
    rewrite E. destruct (Z.leb_spec H (v + M)); lia.
  - rewrite Z.mod_small by lia. destruct (Z.leb_spec H v); lia.
Qed.

Lemma convert_value T v : is_value T v -> convert T (v mod 2 ^ value_bits T) = v.
Proof.
  unfold is_value, min_value, max_value, convert.
  rewrite Z.mod_mod by (destruct T; cbv; congruence).
  destruct (is_signed T) eqn:Es; cbn [andb]; intros H.
  - apply signed_mod_inv; [destruct T; reflexivity | destruct T; reflexivity | lia].
  - apply Z.mod_small. lia.
Qed.

Lemma list_last_case {A} (l : list A) :
  l = [] \/ exists l' y, l = l' ++ [y].
Proof.
  induction l as [|y l' _] using rev_ind; [now left | right; eauto].
Qed.

Lemma insert_middle {A} (l1 l2 : list A) (x y : A) (n : nat) :
  n = length l1 -> <[n := y]> (l1 ++ x :: l2) = l1 ++ y :: l2.
Proof.
  intros ->. rewrite <- (Nat.add_0_r (length l1)). now rewrite insert_app_r.
Qed.

(** The two-ended swap loop reverses the segment between its indices. *)
Lemma Swizzle_loop_rev fuel : forall (l1 m l2 : list Z),
  (length m <= 2 * fuel + 1)%nat ->
  Endian.Swizzle_loop fuel (l1 ++ m ++ l2) (length l1) (length l1 + length m - 1)
  = l1 ++ rev m ++ l2.
Proof.
  induction fuel as [|fuel IH]; intros l1 m l2 Hlen.
  - destruct m as [|x [|y m]]; simpl in *; try lia; reflexivity.
  - cbn [Endian.Swizzle_loop].
    destruct m as [|x m]; [|destruct (list_last_case m) as [->|(m' & y & ->)]].
    + simpl. destruct (Nat.ltb_spec (length l1) (length l1 + 0 - 1)); [lia|reflexivity].
    + simpl. destruct (Nat.ltb_spec (length l1) (length l1 + 1 - 1)); [lia|reflexivity].
    + rewrite length_cons, length_app in *. cbn [length] in *.
      destruct (Nat.ltb_spec (length l1) (length l1 + S (length m' + 1) - 1)); [|lia].
      set (e := (length l1 + S (length m' + 1) - 1)%nat) in *.
      assert (e = length (l1 ++ x :: m')) as He
        by (subst e; rewrite length_app; simpl; lia).
      assert (l1 ++ (x :: m' ++ [y]) ++ l2 = l1 ++ x :: (m' ++ y :: l2)) as ->
        by (simpl; now rewrite <- app_assoc).
      rewrite (list_lookup_middle l1 (m' ++ y :: l2) x (length l1) eq_refl).
      assert ((l1 ++ x :: m' ++ y :: l2) !! e = Some y) as ->.
      { replace (l1 ++ x :: m' ++ y :: l2) with ((l1 ++ x :: m') ++ y :: l2)
          by (now rewrite <- app_assoc).
        now apply list_lookup_middle. }
      rewrite (insert_middle l1 _ x y (length l1) eq_refl).
      assert (<[e := x]> (l1 ++ y :: m' ++ y :: l2)
              = (l1 ++ [y]) ++ m' ++ x :: l2) as ->.
      { replace (l1 ++ y :: m' ++ y :: l2) with ((l1 ++ y :: m') ++ y :: l2)
          by (now rewrite <- app_assoc).
        rewrite insert_middle by (rewrite He, !length_app; reflexivity).
        now rewrite <- !app_assoc. }
      replace (S (length l1)) with (length (l1 ++ [y]))
        by (rewrite length_app; simpl; lia).
      replace (Nat.pred e) with (length (l1 ++ [y]) + length m' - 1)%nat
        by (subst e; rewrite length_app; simpl; lia).
      rewrite IH by lia.
      simpl. rewrite rev_app_distr. simpl.
      rewrite <- !app_assoc. reflexivity.
Qed.

Lemma Swizzle_rev (bytes : list Z) :
  Endian.Swizzle bytes (length bytes) = rev bytes.
Proof.
  unfold Endian.Swizzle.
  pose proof (Swizzle_loop_rev (length bytes) [] bytes []) as H.
  simpl in H. rewrite !app_nil_r in H. apply H. lia.
Qed.

Lemma Swizzle_involutive (bytes : list Z) (len : nat) :
  length bytes = len ->
  Endian.Swizzle (Endian.Swizzle bytes len) len = bytes.
Proof.
  intros <-. rewrite Swizzle_rev.
  rewrite <- (length_rev bytes).
  rewrite Swizzle_rev. apply rev_involutive.
Qed.

Lemma length_object_bytes host T v :
  length (Endian.object_bytes host T v) = sizeof_nat T.
Proof.
  unfold Endian.object_bytes.
  destruct host; rewrite ?length_rev; apply length_le_bytes.
Qed.

Lemma object_value_bytes host T v :
  is_value T v -> Endian.object_value host T (Endian.object_bytes host T v) = v.
Proof.
  intros Hv. unfold Endian.object_value, Endian.object_bytes.
  assert (0 <= v mod 2 ^ value_bits T) as Hpos
    by (apply Z.mod_pos_bound; destruct T; reflexivity).
  assert (le_value (le_bytes (sizeof_nat T) (v mod 2 ^ value_bits T))
          = v mod 2 ^ value_bits T) as E.
  { rewrite le_value_le_bytes by exact Hpos.
    rewrite pow256_sizeof. apply Z.mod_mod. destruct T; cbv; congruence. }
  destruct host; rewrite ?rev_involutive, E; now apply convert_value.
Qed.

Lemma length_Endian_write host T e v :
  length (Endian.write host T e v) = sizeof_nat T.
Proof.
  unfold Endian.write.
  destruct (Endianness_eqb _ _).
  - apply length_object_bytes.
  - rewrite <- (length_object_bytes host T v) at 1.
    rewrite Swizzle_rev, length_rev. apply length_object_bytes.
Qed.

(** The codec round trip: what [Endian::write] stores, [Endian::read]
    with the same requested order decodes to the value written. *)
Lemma Endian_read_write host T e v :
  is_value T v ->
  Endian.read host T e (Endian.write host T e v) = v.
Proof.
  intros Hv. unfold Endian.read, Endian.write.
  destruct (Endianness_eqb (Endian.CurrentEndian host) e).
  - now apply object_value_bytes.
  - rewrite Swizzle_involutive by apply length_object_bytes.
    now apply object_value_bytes.
Qed.

(* --------------------------------------------------------------------- *)
(** *** The heap *)
(* --------------------------------------------------------------------- *)

Lemma contents_set_block_eq h b d data :
  Mem.contents h b = Some data ->
  Mem.contents (Mem.set_block h b d) b = d.
Proof.
  unfold Mem.contents, Mem.set_block. cbn [Mem.blocks].
  destruct (Mem.blocks h !! b) as [[x|]|] eqn:E; try discriminate. intros _.
  rewrite list_lookup_insert_eq by (eapply lookup_lt_Some; eauto).
  now destruct d.
Qed.

Lemma contents_set_block_ne h b b' d :
  b <> b' -> Mem.contents (Mem.set_block h b d) b' = Mem.contents h b'.
Proof.
  intros Hne. unfold Mem.contents, Mem.set_block. cbn [Mem.blocks].
  now rewrite list_lookup_insert_ne.
Qed.

Lemma contents_lt h b data :
  Mem.contents h b = Some data -> (b < length (Mem.blocks h))%nat.
Proof.
  unfold Mem.contents. destruct (Mem.blocks h !! b) eqn:E; [|discriminate].
  intros _. eapply lookup_lt_Some; eauto.
Qed.

Lemma contents_new_block_old h data b :
  (b < length (Mem.blocks h))%nat ->
  Mem.contents (snd (Mem.new_block h data)) b = Mem.contents h b.
Proof.
  intros Hlt. unfold Mem.contents, Mem.new_block. cbn [snd Mem.blocks].
  now rewrite lookup_app_l.
Qed.

Lemma contents_new_block_new h data :
  Mem.contents (snd (Mem.new_block h data)) (fst (Mem.new_block h data)) = Some data.
Proof.
  unfold Mem.contents, Mem.new_block. cbn [fst snd Mem.blocks].
  now rewrite (list_lookup_middle (Mem.blocks h) [] (Some data)).
Qed.

Lemma length_fresh_bytes h from n : length (Mem.fresh_bytes h from n) = n.
Proof. unfold Mem.fresh_bytes. now rewrite length_map, length_seq. Qed.

Lemma valid_range_spec p off n h :
  Mem.valid_range p off n h = true <->
  exists b data, p = Some b /\ Mem.contents h b = Some data /\
                 0 <= off /\ 0 <= n /\ off + n <= Z.of_nat (length data).
Proof.
  unfold Mem.valid_range. split.
  - destruct p as [b|]; [|discriminate].
    destruct (Mem.contents h b) as [data|] eqn:E; [|discriminate].
    rewrite !andb_true_iff, !Z.leb_le. intros [[H1 H2] H3].
    exists b, data. repeat split; auto.
  - intros (b & data & -> & -> & H1 & H2 & H3).
    rewrite !andb_true_iff, !Z.leb_le. auto.
Qed.

Lemma block_data_contents b h data :
  Mem.contents h b = Some data -> Mem.block_data (Some b) h = data.
Proof. intros H. unfold Mem.block_data. now rewrite H. Qed.

(** A store inside a block succeeds, keeps the length of the block and
    every other block. *)
Lemma store_bytes_ok b off bs h data :
  Mem.contents h b = Some data ->
  0 <= off -> off + Z.of_nat (length bs) <= Z.of_nat (length data) ->
  exists h',
    Mem.store_bytes (Some b) off bs h = Some h' /\
    Mem.contents h' b
    = Some (take (Z.to_nat off) data ++ bs ++ drop (Z.to_nat off + length bs) data) /\
    (forall b', b' <> b -> Mem.contents h' b' = Mem.contents h b') /\
    Mem.alloc_limit h' = Mem.alloc_limit h /\
    length (Mem.blocks h') = length (Mem.blocks h).
Proof.
  intros Hc H0 Hlen. unfold Mem.store_bytes.
  assert (Mem.valid_range (Some b) off (Z.of_nat (length bs)) h = true) as ->.
  { apply valid_range_spec. exists b, data. repeat split; auto; lia. }
  rewrite (block_data_contents _ _ _ Hc).
  eexists. split; [reflexivity|]. repeat split.
  - erewrite contents_set_block_eq; eauto.
  - intros b' Hne. now apply contents_set_block_ne.
  - unfold Mem.set_block. cbn. apply length_insert.
Qed.

Lemma length_stored (data bs : list Z) (off : nat) :
  (off + length bs <= length data)%nat ->
  length (take off data ++ bs ++ drop (off + length bs) data) = length data.
Proof.
  intros H. rewrite !length_app, length_take, length_drop. lia.
Qed.

Lemma segment_stored_same (data bs : list Z) (off : nat) :
  (off + length bs <= length data)%nat ->
  take (length bs) (drop off (take off data ++ bs ++ drop (off + length bs) data)) = bs.
Proof.
  intros H.
  rewrite drop_app_length' by (rewrite length_take; lia).
  now rewrite take_app_length.
Qed.

Lemma lookup_stored_outside (data bs : list Z) (off i : nat) :
  (off + length bs <= length data)%nat ->
  (i < off \/ off + length bs <= i)%nat ->
  (take off data ++ bs ++ drop (off + length bs) data) !! i = data !! i.
Proof.
  intros H [Hi|Hi].
  - rewrite lookup_app_l by (rewrite length_take; lia).
    apply lookup_take_lt. lia.
  - rewrite lookup_app_r by (rewrite length_take; lia).
    rewrite length_take, lookup_app_r by lia.
    rewrite lookup_drop. f_equal. lia.
Qed.

Lemma load_bytes_ok b off n h data :
  Mem.contents h b = Some data ->
  0 <= off -> 0 <= n -> off + n <= Z.of_nat (length data) ->
  Mem.load_bytes (Some b) off n h = Some (segment off n data).
Proof.
  intros Hc H0 H1 H2. unfold Mem.load_bytes.
  assert (Mem.valid_range (Some b) off n h = true) as ->.
  { apply valid_range_spec. exists b, data. repeat split; auto. }
  now rewrite (block_data_contents _ _ _ Hc).
Qed.

(** What was stored is what is loaded. *)
Lemma load_after_store b off bs h h' :
  Mem.store_bytes (Some b) off bs h = Some h' ->
  Mem.load_bytes (Some b) off (Z.of_nat (length bs)) h' = Some bs.
Proof.
  unfold Mem.store_bytes.
  destruct (Mem.valid_range _ _ _ h) eqn:V; [|discriminate].
  apply valid_range_spec in V as (b0 & data & [= <-] & Hc & H0 & _ & Hlen).
  rewrite (block_data_contents _ _ _ Hc). intros [= <-].
  assert (Z.to_nat off + length bs <= length data)%nat as Hn by lia.
  rewrite (load_bytes_ok _ _ _ _
             (take (Z.to_nat off) data ++ bs ++ drop (Z.to_nat off + length bs) data)).
  - unfold segment. rewrite Nat2Z.id. f_equal. now apply segment_stored_same.
  - erewrite contents_set_block_eq; eauto.
  - exact H0.
  - lia.
  - rewrite length_stored by exact Hn. lia.
Qed.

(* --------------------------------------------------------------------- *)
(** *** Typed access to the random-access buffer *)
(* --------------------------------------------------------------------- *)

Lemma continer_wf_block this h :
  continer_wf this h -> 0 < size_ this ->
  exists b data,
    buf_ this = Some b /\ Mem.contents h b = Some data /\
    size_ this <= capacity_ this <= Z.of_nat (length data) /\
    capacity_ this <= SizeT.PTRDIFF_MAX.
Proof.
  intros (_ & Hs & Hc & _ & Hb) Hpos.
  destruct (buf_ this) as [b|]; [|lia].
  destruct Hb as (_ & data & Hd & Hr).
  exists b, data. repeat split; auto; try lia.
  destruct (ref_ this); lia.
Qed.

Lemma add_in_object a n :
  0 <= a -> 0 <= n -> a + n <= SizeT.PTRDIFF_MAX + 8 -> SizeT.add a n = a + n.
Proof.
  intros. apply add_small; auto. rewrite modulus_eq. rewrite PTRDIFF_MAX_eq in *. lia.
Qed.

(** Inside the buffer, [read<T, endianness>] decodes the [sizeof(T)]
    bytes at [offset] and changes nothing. *)
Lemma read_e_inside host T e offset this h :
  buffer_wf this h -> 0 <= offset -> offset + sizeof T <= Buffer.size this ->
  Buffer.read_e host T e offset (this, h)
  = Ok (Endian.read host T e (segment offset (sizeof T) (Mem.block_data (Buffer.begin this) h)))
       (this, h).
Proof.
  intros Hwf H0 Hin. pose proof (sizeof_pos T) as Hp.
  destruct (continer_wf_block _ _ Hwf) as (b & data & Hb & Hd & Hlen & Hmax).
  { unfold Buffer.size, Continer.size in Hin. lia. }
  unfold Buffer.read_e, Buffer.size, Buffer.begin, Continer.size, Continer.begin in *.
  rewrite add_in_object by lia.
  destruct (Z.ltb_spec (size_ (continer_ this)) (offset + sizeof T)); [lia|].
  rewrite Hb. rewrite (load_bytes_ok _ _ _ _ data) by (auto; lia).
  now rewrite (block_data_contents _ _ _ Hd).
Qed.

(** Inside the buffer, [write<T, endianness>] stores the encoded bytes
    at [offset]; the object, the length of its block and every other
    block stay as they were. *)
Lemma write_e_inside host T e v offset this h :
  buffer_wf this h -> 0 <= offset -> offset + sizeof T <= Buffer.size this ->
  exists b data h',
    Buffer.begin this = Some b /\ Mem.contents h b = Some data /\
    Buffer.write_e host T e v offset (this, h) = Ok tt (this, h') /\
    Mem.store_bytes (Some b) offset (Endian.write host T e v) h = Some h' /\
    Mem.contents h' b
    = Some (take (Z.to_nat offset) data ++ Endian.write host T e v
            ++ drop (Z.to_nat offset + sizeof_nat T) data) /\
    (forall b', b' <> b -> Mem.contents h' b' = Mem.contents h b') /\
    Mem.alloc_limit h' = Mem.alloc_limit h /\
    (Z.to_nat offset + sizeof_nat T <= length data)%nat.
Proof.
  intros Hwf H0 Hin. pose proof (sizeof_pos T) as Hp.
  destruct (continer_wf_block _ _ Hwf) as (b & data & Hb & Hd & Hlen & Hmax).
  { unfold Buffer.size, Continer.size in Hin. lia. }
  unfold Buffer.write_e, Buffer.size, Buffer.begin, Continer.size, Continer.begin in *.
  rewrite add_in_object by lia.
  destruct (Z.ltb_spec (size_ (continer_ this)) (offset + sizeof T)); [lia|].
  rewrite Hb.
  destruct (store_bytes_ok b offset (Endian.write host T e v) h data Hd H0)
    as (h' & Hst & Hc' & Hother & Hlim & _).
  { rewrite length_Endian_write. fold (sizeof T). lia. }
  exists b, data, h'. unfold heap_call. rewrite Hst.
  rewrite length_Endian_write in Hc'.
  repeat split; auto. unfold sizeof in *. lia.
Qed.

Lemma continer_wf_store this h h' b off bs :
  continer_wf this h ->
  Mem.store_bytes (Some b) off bs h = Some h' ->
  continer_wf this h'.
Proof.
  intros (Hh & Hs & Hc & Hk & Hb) Hst.
  unfold Mem.store_bytes in Hst.
  destruct (Mem.valid_range _ _ _ h) eqn:V; [|discriminate].
  apply valid_range_spec in V as (b0 & data & [= <-] & Hd & H0 & _ & Hlen).
  rewrite (block_data_contents _ _ _ Hd) in Hst. injection Hst as <-.
  repeat split; auto; try apply Hh; try lia.
  destruct (buf_ this) as [bb|]; [|exact Hb].
  destruct Hb as (Hpos & data' & Hd' & Hr). split; [exact Hpos|].
  destruct (Nat.eq_dec b bb) as [->|Hne].
  - rewrite Hd in Hd'. injection Hd' as <-.
    eexists. split; [erewrite contents_set_block_eq; eauto|].
    rewrite length_stored by lia. exact Hr.
  - exists data'. split; [now rewrite contents_set_block_ne|exact Hr].
Qed.

(** C1: for every multi-byte numeric type T (16, 32 and 64-bit signed
    and unsigned integers, float, double), every value v of T, every
    requested byte order and every host order, writing v at an in-bounds
    offset and reading T back at the same offset with the same order
    returns v itself (for float and double: the same bit pattern).  The
    same holds for the pair [write(value, offset)] / [read<T>(offset)]
    that uses the order of the host. *)
Theorem write_read_round_trip host T e v offset this h :
  is_endian_basictype T = true ->
  is_value T v ->
  buffer_wf this h ->
  0 <= offset -> offset + sizeof T <= Buffer.size this ->
  (exists h',
      Buffer.write_e host T e v offset (this, h) = Ok tt (this, h') /\
      Buffer.read_e host T e offset (this, h') = Ok v (this, h')) /\
  (exists h',
      Buffer.write host T v offset (this, h) = Ok tt (this, h') /\
      Buffer.read host T offset (this, h') = Ok v (this, h')).
Proof.
  intros HT Hv Hwf H0 Hin.
  assert (forall e', exists h',
             Buffer.write_e host T e' v offset (this, h) = Ok tt (this, h') /\
             Buffer.read_e host T e' offset (this, h') = Ok v (this, h')) as Hgen.
  { intros e'.
    destruct (write_e_inside host T e' v offset this h Hwf H0 Hin)
      as (b & data & h' & Hb & Hd & Hw & Hst & Hc' & _ & _ & Hlen).
    exists h'. split; [exact Hw|].
    assert (buffer_wf this h') as Hwf' by (eapply continer_wf_store; eauto).
    rewrite read_e_inside by auto.
    pose proof (load_after_store _ _ _ _ _ Hst) as Hl.
    rewrite length_Endian_write in Hl. fold (sizeof T) in Hl.
    rewrite (load_bytes_ok _ _ _ _ _ Hc') in Hl.
    - injection Hl as Hl. rewrite Hb, (block_data_contents _ _ _ Hc'), Hl.
      now rewrite Endian_read_write.
    - exact H0.
    - pose proof (sizeof_pos T). lia.
    - rewrite <- (length_Endian_write host T e' v) in Hlen |- * at 1.
      rewrite length_stored by exact Hlen.
      rewrite length_Endian_write in Hlen. unfold sizeof. lia. }
  split; [apply Hgen|].
  unfold Buffer.write, Buffer.read, Buffer.write_native, Buffer.read_native.
  rewrite HT. destruct (Endianness_eqb _ _); apply Hgen.
Qed.

Lemma zeros16_constructed :
  Buffer.of_value 16 0 heap0 = Ok zeros16 zeros16_heap.
Proof. reflexivity. Qed.

Lemma read_test_buffer_constructed :
  Buffer.of_pointer (Some 0%nat) 0 3 read_test_caller_heap
  = Ok read_test_buffer read_test_heap.
Proof. reflexivity. Qed.

Lemma zeros16_wf : buffer_wf zeros16 zeros16_heap.
Proof.
  unfold buffer_wf, continer_wf, heap_wf. cbn.
  rewrite PTRDIFF_MAX_eq. unfold Continer.DEFAULT_SHRINK_TRIGGER_COUNT.
  repeat split; try lia.
  eexists. split; [reflexivity|]. cbn. lia.
Qed.

Lemma full32_wf : continer_wf full32 full32_heap.
Proof.
  unfold continer_wf, heap_wf. cbn.
  rewrite PTRDIFF_MAX_eq. unfold Continer.DEFAULT_SHRINK_TRIGGER_COUNT.
  repeat split; try lia.
  eexists. split; [reflexivity|]. cbn. lia.
Qed.

Lemma read_test_buffer_wf : buffer_wf read_test_buffer read_test_heap.
Proof.
  unfold buffer_wf, continer_wf, heap_wf. cbn.
  rewrite PTRDIFF_MAX_eq. unfold Continer.DEFAULT_SHRINK_TRIGGER_COUNT.
  repeat split; try lia.
  eexists. split; [reflexivity|]. cbn. lia.
Qed.

Lemma write_read_round_trip_witness :
  (exists h',
      Buffer.write_e kLittleEndian UInt32 kBigEndian 4293844428 4 (zeros16, zeros16_heap)
      = Ok tt (zeros16, h') /\
      Buffer.read_e kLittleEndian UInt32 kBigEndian 4 (zeros16, h')
      = Ok 4293844428 (zeros16, h')) /\
  (exists h',
      Buffer.write kLittleEndian UInt32 4293844428 4 (zeros16, zeros16_heap)
      = Ok tt (zeros16, h') /\
      Buffer.read kLittleEndian UInt32 4 (zeros16, h') = Ok 4293844428 (zeros16, h')).
Proof.
  apply (write_read_round_trip kLittleEndian UInt32 kBigEndian 4293844428 4
           zeros16 zeros16_heap).
  - reflexivity.
  - split; apply Z.leb_le; reflexivity.
  - exact zeros16_wf.
  - lia.
  - apply Z.leb_le. reflexivity.
Defined.

Lemma buffer_bytes_prefix this h (n : nat) x :
  buffer_bytes this h !! n = Some x ->
  Z.of_nat n < Buffer.size this /\
  exists b data, Buffer.begin this = Some b /\ Mem.contents h b = Some data /\
                 data !! n = Some x.
Proof.
  unfold buffer_bytes, continer_bytes, Buffer.size, Buffer.begin,
    Continer.size, Continer.begin, Mem.block_data.
  intros H. apply lookup_take_Some in H as [H Hn].
  split; [lia|].
  destruct (buf_ (continer_ this)) as [b|] eqn:Eb; [|discriminate].
  destruct (Mem.contents h b) as [data|] eqn:Ed; [|discriminate].
  exists b, data. repeat split; auto.
Qed.

(** C9: when the bytes of the buffer at offsets 0 and 1 are 0xff and
    0xee, [read_be<uint16_t>(0)] is 0xffee and [read_le<uint16_t>(0)] is
    0xeeff, whatever the byte order of the host. *)
Theorem read_uint16_ffee host this h :
  buffer_bytes this h !! 0%nat = Some 255 ->
  buffer_bytes this h !! 1%nat = Some 238 ->
  Buffer.read_be host UInt16 0 (this, h) = Ok 65518 (this, h) /\
  Buffer.read_le host UInt16 0 (this, h) = Ok 61183 (this, h).
Proof.
  intros H0 H1.
  apply buffer_bytes_prefix in H0 as (_ & b & data & Hb & Hd & Hx).
  apply buffer_bytes_prefix in H1 as (Hsz & b' & data' & Hb' & Hd' & Hy).
  rewrite Hb in Hb'. injection Hb' as <-. rewrite Hd in Hd'. injection Hd' as <-.
  destruct data as [|x [|y data]]; try discriminate.
  injection Hx as ->. injection Hy as ->.
  unfold Buffer.read_be, Buffer.read_le, Buffer.read_e.
  change (SizeT.add 0 (sizeof UInt16)) with 2. change (sizeof UInt16) with 2.
  destruct (Z.ltb_spec (Buffer.size this) 2); [lia|].
  rewrite Hb. rewrite (load_bytes_ok _ _ _ _ _ Hd) by (cbn [length]; lia).
  destruct host; split; reflexivity.
Qed.

Lemma read_uint16_ffee_witness :
  Buffer.read_be kLittleEndian UInt16 0 (read_test_buffer, read_test_heap)
  = Ok 65518 (read_test_buffer, read_test_heap) /\
  Buffer.read_le kLittleEndian UInt16 0 (read_test_buffer, read_test_heap)
  = Ok 61183 (read_test_buffer, read_test_heap).
Proof.
  apply (read_uint16_ffee kLittleEndian read_test_buffer read_test_heap);
    reflexivity.
Defined.

(** Without wrap-around of [offset + sizeof(T)], the bounds check of
    [read<T, endianness>] is exact, and a read never changes the state. *)
Lemma read_e_contract host T e offset this h :
  buffer_wf this h -> 0 <= offset -> offset + sizeof T < SizeT.modulus ->
  (throws_out_of_range (Buffer.read_e host T e offset (this, h)) (this, h)
   <-> offset + sizeof T > Buffer.size this) /\
  final_state (Buffer.read_e host T e offset (this, h)) = Some (this, h).
Proof.
  intros Hwf H0 Hnw. pose proof (sizeof_pos T) as Hp.
  destruct (Z_le_gt_dec (offset + sizeof T) (Buffer.size this)) as [Hin|Hout].
  - rewrite read_e_inside by auto. split; [|reflexivity].
    split; [intros (? & ? & [=])|lia].
  - unfold Buffer.read_e. rewrite add_small by lia.
    destruct (Z.ltb_spec (Buffer.size this) (offset + sizeof T)); [|lia].
    split; [|reflexivity]. split; [intros _; lia|].
    intros _. unfold Buffer.xran, throw. now exists offset, (sizeof T).
Qed.

(** Without wrap-around of [offset + sizeof(T)], the bounds check of
    [write<T, endianness>] is exact; a write keeps the object (so its
    size), and changes no byte of the buffer outside
    [offset, offset + sizeof(T)). *)
Lemma write_e_contract host T e v offset this h :
  buffer_wf this h -> 0 <= offset -> offset + sizeof T < SizeT.modulus ->
  (throws_out_of_range (Buffer.write_e host T e v offset (this, h)) (this, h)
   <-> offset + sizeof T > Buffer.size this) /\
  exists h',
    final_state (Buffer.write_e host T e v offset (this, h)) = Some (this, h') /\
    length (buffer_bytes this h') = length (buffer_bytes this h) /\
    (forall i : nat,
        Z.of_nat i < offset \/ offset + sizeof T <= Z.of_nat i ->
        buffer_bytes this h' !! i = buffer_bytes this h !! i) /\
    (offset + sizeof T <= Buffer.size this ->
     segment offset (sizeof T) (buffer_bytes this h') = Endian.write host T e v).
Proof.
  intros Hwf H0 Hnw. pose proof (sizeof_pos T) as Hp.
  destruct (Z_le_gt_dec (offset + sizeof T) (Buffer.size this)) as [Hin|Hout].
  - destruct (write_e_inside host T e v offset this h Hwf H0 Hin)
      as (b & data & h' & Hb & Hd & Hw & Hst & Hc' & _ & _ & Hlen).
    rewrite Hw. split; [split; [intros (? & ? & [=])|lia]|].
    exists h'. split; [reflexivity|].
    assert (length (Endian.write host T e v) = sizeof_nat T) as Hlw
      by apply length_Endian_write.
    rewrite <- Hlw in Hc', Hlen.
    unfold buffer_bytes, continer_bytes.
    unfold Buffer.begin, Continer.begin in Hb. rewrite Hb.
    rewrite (block_data_contents _ _ _ Hc'), (block_data_contents _ _ _ Hd).
    unfold Buffer.size, Continer.size in Hin.
    unfold sizeof in *.
    repeat split.
    + rewrite !length_take, length_stored by exact Hlen. reflexivity.
    + intros i Hi.
      destruct (Nat.lt_ge_cases i (Z.to_nat (size_ (continer_ this)))) as [Hlt|Hge].
      * rewrite !lookup_take_lt by exact Hlt.
        apply lookup_stored_outside; [exact Hlen|lia].
      * rewrite !lookup_take_ge by exact Hge. reflexivity.
    + intros _. unfold segment.
      rewrite take_drop_commute, take_take.
      replace (_ `min` _)%nat with (Z.to_nat offset + length (Endian.write host T e v))%nat
        by lia.
      rewrite <- take_drop_commute.
      replace (Z.to_nat (Z.of_nat (sizeof_nat T))) with (length (Endian.write host T e v))
        by lia.
      apply segment_stored_same. exact Hlen.
  - unfold Buffer.write_e. rewrite add_small by lia.
    destruct (Z.ltb_spec (Buffer.size this) (offset + sizeof T)); [|lia].
    split.
    + split; [intros _; lia|].
      intros _. unfold Buffer.xran, throw. now exists offset, (sizeof T).
    + exists h. cbn. repeat split; auto. lia.
Qed.

(** C2 (the input on which the code fails): on the 16-byte buffer
    [BufferT(16, 0)], with [offset = SIZE_MAX], [offset + sizeof(uint16_t)]
    exceeds [size()], yet neither [read_be<uint16_t>(offset)] nor
    [write_be<uint16_t>(value, offset)] throws [out_of_range]: the sum
    wraps around to 1, the check passes, and the access is outside the
    memory of the buffer. *)
Theorem read_write_wrapped_offset host :
  Buffer.of_value 16 0 heap0 = Ok zeros16 zeros16_heap /\
  Buffer.size zeros16 = 16 /\
  SizeT.SIZE_MAX + sizeof UInt16 > Buffer.size zeros16 /\
  SizeT.add SizeT.SIZE_MAX (sizeof UInt16) = 1 /\
  Buffer.read_be host UInt16 SizeT.SIZE_MAX (zeros16, zeros16_heap) = Undefined /\
  Buffer.write_be host UInt16 65518 SizeT.SIZE_MAX (zeros16, zeros16_heap) = Undefined.
Proof.
  repeat split; destruct host; reflexivity.
Qed.

(* --------------------------------------------------------------------- *)
(** *** Allocation *)
(* --------------------------------------------------------------------- *)

Lemma contents_fresh h b :
  (length (Mem.blocks h) <= b)%nat -> Mem.contents h b = None.
Proof.
  intros H. unfold Mem.contents. now rewrite lookup_ge_None_2.
Qed.

Lemma malloc_ok size h :
  size <= Mem.alloc_limit h ->
  Mem.malloc size h
  = (Some (length (Mem.blocks h)),
     snd (Mem.new_block h (Mem.fresh_bytes h 0 (Z.to_nat size)))).
Proof.
  intros H. unfold Mem.malloc.
  destruct (Z.leb_spec size (Mem.alloc_limit h)); [reflexivity|lia].
Qed.

Lemma malloc_fail size h :
  Mem.alloc_limit h < size -> Mem.malloc size h = (None, h).
Proof.
  intros H. unfold Mem.malloc.
  destruct (Z.leb_spec size (Mem.alloc_limit h)); [lia|reflexivity].
Qed.

Lemma realloc_ok b size h data :
  Mem.contents h b = Some data ->
  0 < size <= Mem.alloc_limit h ->
  Mem.realloc (Some b) size h
  = Some (Some (length (Mem.blocks h)),
          snd (Mem.new_block (Mem.set_block h b None)
                 (take (Z.to_nat size) data
                  ++ Mem.fresh_bytes h (length data) (Z.to_nat size - length data)))).
Proof.
  intros Hd Hs. unfold Mem.realloc. rewrite Hd.
  destruct (Z.eqb_spec size 0); [lia|].
  destruct (Z.leb_spec size (Mem.alloc_limit h)); [|lia].
  unfold Mem.new_block, Mem.set_block. cbn. now rewrite length_insert.
Qed.

Lemma length_realloc_data h (data : list Z) (n : nat) :
  length (take n data ++ Mem.fresh_bytes h (length data) (n - length data)) = n.
Proof. rewrite length_app, length_take, length_fresh_bytes. lia. Qed.

Lemma take_realloc_data h (data : list Z) (n k : nat) :
  (k <= n)%nat -> (k <= length data)%nat ->
  take k (take n data ++ Mem.fresh_bytes h (length data) (n - length data)) = take k data.
Proof.
  intros Hn Hk. rewrite take_app_le by (rewrite length_take; lia).
  rewrite take_take. f_equal. lia.
Qed.

(** The second half of [reserve], when the allocator grants the request
    for the capacity stored in [capacity_]: the container ends owned, on
    a block that did not exist before, which holds the first [size_]
    bytes of the old storage; an owned container loses its old block,
    and no other block changes. *)
Lemma reallocate_to_capacity_ok this h :
  0 < capacity_ this <= Mem.alloc_limit h ->
  0 <= size_ this <= capacity_ this ->
  match buf_ this with
  | None => ref_ this = false
  | Some b => exists data, Mem.contents h b = Some data
                           /\ size_ this <= Z.of_nat (length data)
                           /\ 0 < size_ this
  end ->
  exists b' h' data',
    Continer.reallocate_to_capacity (this, h)
    = Ok tt (mkSimpleBufferT (Some b') (size_ this) (capacity_ this)
                             (shrink_counter_ this) false, h') /\
    b' = length (Mem.blocks h) /\
    Mem.contents h' b' = Some data' /\
    Z.of_nat (length data') = capacity_ this /\
    (forall b data, buf_ this = Some b -> Mem.contents h b = Some data ->
                    take (Z.to_nat (size_ this)) data'
                    = take (Z.to_nat (size_ this)) data) /\
    Mem.alloc_limit h' = Mem.alloc_limit h /\
    (forall b, b <> b' -> (ref_ this = false -> buf_ this <> Some b) ->
               Mem.contents h' b = Mem.contents h b) /\
    (forall b, ref_ this = false -> buf_ this = Some b -> Mem.contents h' b = None).
Proof.
  intros Hcap Hsz Hbuf. unfold Continer.reallocate_to_capacity.
  destruct (ref_ this) eqn:Hr; cbn [negb].
  - (* borrowed: allocate, memcpy, flip the tag *)
    destruct (buf_ this) as [b|] eqn:Hb; [|discriminate].
    destruct Hbuf as (data & Hd & Hlen & Hpos).
    rewrite malloc_ok by lia.
    set (fresh := Mem.fresh_bytes h 0 (Z.to_nat (capacity_ this))).
    set (h1 := snd (Mem.new_block h fresh)).
    set (b' := length (Mem.blocks h)).
    assert (b <> b') as Hne by (apply contents_lt in Hd; subst b'; lia).
    assert (Mem.contents h1 b' = Some fresh) as Hf
      by (subst h1 b'; apply (contents_new_block_new h fresh)).
    assert (Mem.contents h1 b = Some data) as Hd1.
    { subst h1. rewrite contents_new_block_old; [exact Hd|].
      eapply contents_lt; eauto. }
    unfold Mem.memcpy.
    destruct (Z.eqb_spec (size_ this) 0); [lia|].
    assert (Mem.overlap (Some b') 0 (Some b) 0 (size_ this) = false) as ->.
    { unfold Mem.overlap. destruct (Nat.eqb_spec b' b); [congruence|reflexivity]. }
    rewrite (load_bytes_ok _ _ _ _ data Hd1) by lia.
    assert (length (segment 0 (size_ this) data) = Z.to_nat (size_ this)) as Hls.
    { unfold segment. rewrite length_take, length_drop. cbn. lia. }
    destruct (store_bytes_ok b' 0 (segment 0 (size_ this) data) h1 fresh Hf)
      as (h2 & Hst & Hc2 & Hother & Hlim & _).
    { lia. }
    { rewrite Hls. subst fresh. rewrite length_fresh_bytes. lia. }
    exists b', h2. eexists. split; [now rewrite Hst|].
    split; [reflexivity|]. split; [exact Hc2|].
    assert (Z.to_nat 0 + length (segment 0 (size_ this) data)
            <= length fresh)%nat as Hin.
    { rewrite Hls. subst fresh. rewrite length_fresh_bytes. lia. }
    repeat split.
    + rewrite length_stored by exact Hin.
      subst fresh. rewrite length_fresh_bytes. lia.
    + intros b0 data0 [= <-] Hd0. rewrite Hd in Hd0. injection Hd0 as <-.
      change (Z.to_nat 0) with 0%nat. rewrite take_0, app_nil_l.
      rewrite take_app_le by lia.
      unfold segment. change (Z.to_nat 0) with 0%nat. rewrite drop_0.
      rewrite take_take. f_equal. lia.
    + rewrite Hlim. reflexivity.
    + intros b0 Hb0 _. rewrite Hother by exact Hb0.
      destruct (Nat.lt_ge_cases b0 b') as [Hlt|Hge].
      * subst h1. now rewrite contents_new_block_old.
      * rewrite (contents_fresh h) by exact Hge.
        apply contents_fresh. subst h1. unfold Mem.new_block. cbn.
        rewrite length_app. cbn. subst b'. lia.
    + discriminate.
  - (* owned: realloc *)
    destruct (buf_ this) as [b|] eqn:Hb.
    + destruct Hbuf as (data & Hd & Hlen & Hpos).
      rewrite (realloc_ok _ _ _ data) by auto.
      set (data' := take _ data ++ _).
      set (h0 := Mem.set_block h b None).
      assert (b < length (Mem.blocks h))%nat as Hlt by (eapply contents_lt; eauto).
      assert (length (Mem.blocks h0) = length (Mem.blocks h)) as Hl0
        by (subst h0; unfold Mem.set_block; cbn; apply length_insert).
      exists (length (Mem.blocks h)), (snd (Mem.new_block h0 data')), data'.
      split; [unfold Continer.set_buf; now rewrite Hr|]. split; [reflexivity|]. repeat split.
      * rewrite <- Hl0. apply (contents_new_block_new h0 data').
      * subst data'. rewrite length_realloc_data. lia.
      * intros b0 data0 [= <-] Hd0. rewrite Hd in Hd0. injection Hd0 as <-.
        subst data'. apply take_realloc_data; lia.
      * intros b0 Hb0 Hown.
        destruct (Nat.lt_ge_cases b0 (length (Mem.blocks h))) as [Hlt0|Hge].
        -- rewrite contents_new_block_old by lia.
           subst h0. apply contents_set_block_ne. intros ->. now apply Hown.
        -- rewrite (contents_fresh h) by exact Hge.
           apply contents_fresh. unfold Mem.new_block. cbn [snd Mem.blocks].
           rewrite length_app, Hl0. cbn [length]. lia.
      * intros b0 _ [= <-]. rewrite contents_new_block_old by lia.
        subst h0. erewrite contents_set_block_eq; eauto.
    + unfold Mem.realloc. rewrite malloc_ok by lia.
      set (fresh := Mem.fresh_bytes h 0 _).
      exists (length (Mem.blocks h)), (snd (Mem.new_block h fresh)), fresh.
      split; [unfold Continer.set_buf; now rewrite Hr|]. split; [reflexivity|]. repeat split.
      * apply (contents_new_block_new h fresh).
      * subst fresh. rewrite length_fresh_bytes. lia.
      * discriminate.
      * intros b0 Hb0 _.
        destruct (Nat.lt_ge_cases b0 (length (Mem.blocks h))) as [Hlt0|Hge].
        -- now rewrite contents_new_block_old.
        -- rewrite (contents_fresh h) by exact Hge.
           apply contents_fresh. unfold Mem.new_block. cbn.
           rewrite length_app. cbn. lia.
      * discriminate.
Qed.

(* --------------------------------------------------------------------- *)
(** *** The container *)
(* --------------------------------------------------------------------- *)

Ltac break_match :=
  match goal with
  | |- context [match ?x with _ => _ end] => destruct x eqn:?
  | H : context [match ?x with _ => _ end] |- _ => destruct x eqn:?
  end.

Ltac inv_state :=
  repeat match goal with
         | H : Some _ = Some _ |- _ => injection H; clear H; intros; subst
         | H : (_, _) = (_, _) |- _ => injection H; clear H; intros; subst
         | H : Ok _ _ = Ok _ _ |- _ => injection H; clear H; intros; subst
         | H : Throw _ _ = Throw _ _ |- _ => injection H; clear H; intros; subst
         | H : None = Some _ |- _ => discriminate H
         | H : Some _ = None |- _ => discriminate H
         | H : Undefined = _ |- _ => discriminate H
         | H : Ok _ _ = Throw _ _ |- _ => discriminate H
         | H : Throw _ _ = Ok _ _ |- _ => discriminate H
         end.

Lemma bind_final {S A B} (m : M S A) (k : A -> M S B) s s' :
  final_state (bind m k s) = Some s' ->
  (exists a s1, m s = Ok a s1 /\ final_state (k a s1) = Some s')
  \/ (exists e, m s = Throw e s').
Proof.
  unfold bind. destruct (m s) as [a s1|e s1|]; cbn; intros H.
  - left. eauto.
  - right. inv_state. eauto.
  - discriminate.
Qed.

Lemma final_of_Ok {S A} (o : outcome S A) a s : o = Ok a s -> final_state o = Some s.
Proof. now intros ->. Qed.

Lemma final_of_Throw {S A} (o : outcome S A) e s :
  o = Throw e s -> final_state o = Some s.
Proof. now intros ->. Qed.

Lemma reallocate_keeps_owned this h this' h' :
  final_state (Continer.reallocate_to_capacity (this, h)) = Some (this', h') ->
  ref_ this' = false /\ capacity_ this' = capacity_ this /\ size_ this' = size_ this
  /\ shrink_counter_ this' = shrink_counter_ this.
Proof.
  unfold Continer.reallocate_to_capacity.
  destruct (ref_ this) eqn:Hr; cbn [negb]; repeat break_match;
    cbn [final_state]; intros H; inv_state; cbn; auto.
Qed.

Lemma reserve_keeps_owned n this h this' h' :
  ref_ this = false ->
  final_state (Continer.reserve n (this, h)) = Some (this', h') ->
  ref_ this' = false /\ size_ this' = size_ this
  /\ shrink_counter_ this' = shrink_counter_ this.
Proof.
  intros Hr. unfold Continer.reserve.
  repeat break_match; intros H.
  - apply reallocate_keeps_owned in H. cbn in H. tauto.
  - apply reallocate_keeps_owned in H. cbn in H. tauto.
  - cbn in H. inv_state. auto.
Qed.

Lemma reserve_owned n this h this' h' :
  ref_ this = false ->
  final_state (Continer.reserve n (this, h)) = Some (this', h') ->
  ref_ this' = false.
Proof. intros Hr H. eapply reserve_keeps_owned in H; tauto. Qed.

Lemma clear_result this h this' h' :
  final_state (Continer.clear (this, h)) = Some (this', h') ->
  this' = Continer.default.
Proof.
  unfold Continer.clear. repeat break_match; cbn; intros H; inv_state; reflexivity.
Qed.

Lemma resize_keeps_owned n this h this' h' :
  ref_ this = false ->
  final_state (Continer.resize n (this, h)) = Some (this', h') ->
  ref_ this' = false.
Proof.
  intros Hr H. unfold Continer.resize in H.
  assert (forall c1 h1,
             final_state (if n =? 0 then Continer.clear (this, h)
                          else if capacity_ this <? n then Continer.reserve n (this, h)
                               else Ok tt (this, h)) = Some (c1, h1) ->
             ref_ c1 = false) as Hstep.
  { intros c1 h1. repeat break_match; intros H1.
    - apply clear_result in H1. now subst.
    - eapply reserve_keeps_owned in H1; tauto.
    - cbn in H1. inv_state. exact Hr. }
  apply bind_final in H as [([] & [c1 h1] & E & H)|(e & E)].
  - cbn in H. inv_state. cbn. eapply Hstep. erewrite final_of_Ok; eauto.
  - eapply Hstep. erewrite final_of_Throw; eauto.
Qed.

(** Once owned, always owned: no member function of the container that
    changes it sets the [ref_] tag. *)
Lemma owned_stays_owned (c : Continer.Call) this h this' h' :
  ref_ this = false ->
  final_state (Continer.call c (this, h)) = Some (this', h') ->
  ref_ this' = false.
Proof.
  intros Hr. destruct c; cbn [Continer.call].
  - intros H. eapply reserve_keeps_owned in H; tauto.
  - now apply resize_keeps_owned.
  - unfold Continer.push_back. intros H.
    apply bind_final in H as [([] & [c1 h1] & E & H)|(e & E)].
    + assert (ref_ c1 = false) as Hc1
        by (eapply resize_keeps_owned; [exact Hr|erewrite final_of_Ok; eauto]).
      destruct (read_byte_ref val h1); [|discriminate].
      destruct (Mem.store_bytes _ _ _ h1); cbn in H; inv_state. exact Hc1.
    + eapply resize_keeps_owned; [exact Hr|erewrite final_of_Throw; eauto].
  - unfold Continer.shrink.
    destruct (Continer.shrink_guard this); [|cbn; intros H; inv_state; exact Hr].
    destruct (_ =? Continer.INT_MAX); [discriminate|].
    destruct (_ <? _); [|cbn; intros H; inv_state; exact Hr].
    intros H. apply bind_final in H as [([] & [c1 h1] & E & H)|(e & E)].
    + cbn in H. inv_state. cbn.
      eapply reserve_owned; [|erewrite final_of_Ok; eauto]. exact Hr.
    + eapply reserve_owned; [|erewrite final_of_Throw; eauto]. exact Hr.
  - unfold Continer.shrink_to_fit. intros H.
    apply bind_final in H as [([] & [c1 h1] & E & H)|(e & E)].
    + cbn in H. inv_state. cbn.
      destruct (0 <? size_ this).
      * eapply reserve_owned; [|erewrite final_of_Ok; eauto]. exact Hr.
      * inv_state. exact Hr.
    + destruct (0 <? size_ this); [|discriminate].
      eapply reserve_owned; [|erewrite final_of_Throw; eauto]. exact Hr.
  - intros H. apply clear_result in H. now subst.
Qed.

Lemma grown_capacity this n :
  0 <= capacity_ this <= SizeT.PTRDIFF_MAX ->
  Z.max Continer.DEFAULT_MINI_SIZE (Z.max n (SizeT.mul 2 (capacity_ this)))
  = Z.max n (Z.max (2 * capacity_ this) 32).
Proof.
  intros H. rewrite mul2_small by exact H. unfold Continer.DEFAULT_MINI_SIZE. lia.
Qed.

(** [reserve] above the capacity, when the allocator grants the request. *)
Lemma reserve_grows this h n :
  continer_wf this h ->
  capacity_ this < n ->
  Z.max n (Z.max (2 * capacity_ this) 32) <= Mem.alloc_limit h ->
  exists b' h' data',
    Continer.reserve n (this, h)
    = Ok tt (mkSimpleBufferT (Some b') (size_ this)
                             (Z.max n (Z.max (2 * capacity_ this) 32))
                             (shrink_counter_ this) false, h') /\
    Mem.contents h b' = None /\
    Mem.contents h' b' = Some data' /\
    Z.of_nat (length data') = Z.max n (Z.max (2 * capacity_ this) 32) /\
    take (Z.to_nat (size_ this)) data' = continer_bytes this h /\
    Mem.alloc_limit h' = Mem.alloc_limit h /\
    (forall b, b <> b' -> (ref_ this = false -> buf_ this <> Some b) ->
               Mem.contents h' b = Mem.contents h b) /\
    (forall b, ref_ this = false -> buf_ this = Some b -> Mem.contents h' b = None).
Proof.
  intros (Hh & Hs & Hc & Hk & Hb) Hn Hlim.
  unfold Continer.reserve.
  destruct (Z.ltb_spec (capacity_ this) n); [|lia].
  set (this1 := Continer.set_capacity (Continer.set_capacity this _) _).
  assert (capacity_ this1 = Z.max n (Z.max (2 * capacity_ this) 32)) as Hcap1.
  { subst this1. cbn. apply grown_capacity. lia. }
  destruct (reallocate_to_capacity_ok this1 h)
    as (b' & h' & data' & Hre & Hb' & Hd' & Hlen' & Hkeep & Hl' & Hother & Hfreed).
  { rewrite Hcap1. lia. }
  { rewrite Hcap1. subst this1. cbn. lia. }
  { subst this1. cbn. destruct (buf_ this) as [b|]; [|tauto].
    destruct Hb as (Hpos & data & Hd & Hr). exists data.
    repeat split; auto. destruct (ref_ this); lia. }
  exists b', h', data'. rewrite Hre, Hcap1.
  split; [reflexivity|]. split; [subst b'; now apply contents_fresh|].
  split; [exact Hd'|]. split; [lia|]. split; [|split; [exact Hl'|split; assumption]].
  unfold continer_bytes, Mem.block_data.
  destruct (buf_ this) as [b|] eqn:Eb.
  - destruct Hb as (Hpos & data & Hd & Hr). rewrite Hd. cbn.
    apply (Hkeep b data); [subst this1; cbn; exact Eb|exact Hd].
  - destruct Hb as [Hc0 _]. replace (size_ this) with 0 by lia. reflexivity.
Qed.

(** [reserve] below the capacity always ends with [capacity_ == size]. *)
Lemma reserve_shrinks this h n :
  continer_wf this h ->
  0 <= n < capacity_ this ->
  (ref_ this = true -> size_ this <= n <= Mem.alloc_limit h) ->
  exists this' h',
    final_state (Continer.reserve n (this, h)) = Some (this', h') /\
    capacity_ this' = n /\
    (0 < n -> Continer.reserve n (this, h) = Ok tt (this', h')).
Proof.
  intros (Hh & Hs & Hc & Hk & Hb) Hn Href.
  unfold Continer.reserve.
  destruct (Z.ltb_spec (capacity_ this) n); [lia|].
  destruct (Z.ltb_spec n (capacity_ this)); [|lia].
  destruct (buf_ this) as [b|] eqn:Eb; [|lia].
  destruct Hb as (Hpos & data & Hd & Hr).
  destruct (ref_ this) eqn:Er.
  - destruct (reallocate_to_capacity_ok (Continer.set_capacity this n) h)
      as (b' & h' & data' & Hre & _).
    { cbn. lia. }
    { cbn. lia. }
    { cbn. rewrite Eb. exists data. repeat split; auto; lia. }
    rewrite Hre. eexists _, h'. cbn. repeat split.
  - unfold Continer.reallocate_to_capacity. cbn. rewrite Er, Eb. cbn.
    unfold Mem.realloc. rewrite Hd.
    destruct (Z.eqb_spec n 0) as [->|Hn0].
    + eexists _, _. cbn. repeat split. lia.
    + destruct (Z.leb_spec n (Mem.alloc_limit h)); [|lia].
      cbn. eexists _, _. cbn. repeat split.
Qed.

(** C3: [reserve(n)].  When [n] exceeds the capacity, the new capacity is
    [max(n, 2 * capacity, 32)] and the first [size] bytes are the same
    after the reallocation; a borrowed container first copies its
    contents to freshly allocated memory of its own, which leaves the
    caller's region as it was, and becomes owned; no member function
    that changes a container makes an owned container borrowed again.
    When [n] is below the capacity, the capacity becomes exactly [n].
    When [n] equals the capacity, nothing happens. *)
Theorem reserve_contract this h n :
  continer_wf this h -> 0 <= n ->
  (n = capacity_ this -> Continer.reserve n (this, h) = Ok tt (this, h)) /\
  (n < capacity_ this ->
   (ref_ this = true -> size_ this <= n <= Mem.alloc_limit h) ->
   exists this' h',
     final_state (Continer.reserve n (this, h)) = Some (this', h') /\
     capacity_ this' = n /\
     (0 < n -> Continer.reserve n (this, h) = Ok tt (this', h'))) /\
  (capacity_ this < n ->
   Z.max n (Z.max (2 * capacity_ this) 32) <= Mem.alloc_limit h ->
   exists this' h' b' data',
     Continer.reserve n (this, h) = Ok tt (this', h') /\
     capacity_ this' = Z.max n (Z.max (2 * capacity_ this) 32) /\
     size_ this' = size_ this /\
     continer_bytes this' h' = continer_bytes this h /\
     ref_ this' = false /\
     buf_ this' = Some b' /\
     Mem.contents h b' = None /\
     Mem.contents h' b' = Some data' /\
     Z.of_nat (length data') = capacity_ this' /\
     (ref_ this = true -> forall b, buf_ this = Some b ->
                                    Mem.contents h' b = Mem.contents h b)) /\
  (forall (c : Continer.Call) this0 h0 this1 h1,
      ref_ this0 = false ->
      final_state (Continer.call c (this0, h0)) = Some (this1, h1) ->
      ref_ this1 = false).
Proof.
  intros Hwf Hn. split; [|split; [|split]].
  - intros ->. unfold Continer.reserve. now rewrite Z.ltb_irrefl.
  - intros Hlt Href. apply reserve_shrinks; auto; lia.
  - intros Hgt Hlim.
    destruct (reserve_grows this h n Hwf Hgt Hlim)
      as (b' & h' & data' & Hre & Hfresh & Hd' & Hlen & Htake & _ & Hother & _).
    eexists _, h', b', data'. split; [exact Hre|]. cbn.
    repeat split; auto.
    + unfold continer_bytes at 1. cbn. rewrite Hd'. exact Htake.
    + intros Hr b Hb. apply Hother.
      * intros ->. destruct Hwf as (_ & _ & _ & _ & Hbuf). rewrite Hb in Hbuf.
        destruct Hbuf as (_ & d & Hd & _). congruence.
      * congruence.
  - intros c this0 h0 this1 h1. apply owned_stays_owned.
Qed.

Lemma borrowed3_wf : continer_wf borrowed3 read_test_caller_heap.
Proof.
  unfold continer_wf, heap_wf. cbn.
  rewrite PTRDIFF_MAX_eq. unfold Continer.DEFAULT_SHRINK_TRIGGER_COUNT.
  repeat split; try lia.
  eexists. split; [reflexivity|]. cbn. lia.
Qed.

Lemma reserve_contract_witness :
  exists this' h',
    Continer.reserve 4 (borrowed3, read_test_caller_heap) = Ok tt (this', h') /\
    capacity_ this' = 32 /\ ref_ this' = false /\
    continer_bytes this' h' = [255; 238; 221] /\
    Mem.contents h' 0%nat = Some [255; 238; 221].
Proof.
  destruct (reserve_contract borrowed3 read_test_caller_heap 4 borrowed3_wf)
    as (_ & _ & Hgrow & _); [lia|].
  assert (capacity_ borrowed3 < 4) as H1 by reflexivity.
  assert (Z.max 4 (Z.max (2 * capacity_ borrowed3) 32)
          <= Mem.alloc_limit read_test_caller_heap) as H2
    by (apply Z.leb_le; reflexivity).
  destruct (Hgrow H1 H2)
    as (this' & h' & b' & data' & Hre & Hcap & _ & Hbytes & Hr & _ & _ & _ & _ & Hcaller).
  exists this', h'. repeat split; auto.
Defined.

(** [reserve(size_)], the call both [shrink] and [shrink_to_fit] make:
    the capacity becomes the size, the bytes stay, the invariant holds. *)
Lemma reserve_to_size this h :
  continer_wf this h -> 0 < size_ this ->
  (ref_ this = true -> size_ this < capacity_ this ->
   size_ this <= Mem.alloc_limit h) ->
  exists this' h',
    Continer.reserve (size_ this) (this, h) = Ok tt (this', h') /\
    capacity_ this' = size_ this /\ size_ this' = size_ this /\
    shrink_counter_ this' = shrink_counter_ this /\
    continer_bytes this' h' = continer_bytes this h /\
    (size_ this = capacity_ this -> this' = this /\ h' = h) /\
    continer_wf this' h'.
Proof.
  intros Hwf Hpos Href.
  pose proof Hwf as (Hh & Hs & Hc & Hk & Hb).
  unfold Continer.reserve.
  destruct (Z.ltb_spec (capacity_ this) (size_ this)); [lia|].
  destruct (Z.ltb_spec (size_ this) (capacity_ this)) as [Hlt|Hge].
  - destruct (buf_ this) as [b|] eqn:Eb; [|lia].
    destruct Hb as (_ & data & Hd & Hr).
    destruct (reallocate_to_capacity_ok (Continer.set_capacity this (size_ this)) h)
      as (b' & h' & data' & Hre & Hb' & Hd' & Hlen' & Hkeep & Hl' & _).
    { cbn. destruct (ref_ this); [specialize (Href eq_refl Hlt)|]; lia. }
    { cbn. lia. }
    { cbn. rewrite Eb. exists data. repeat split; auto.
      destruct (ref_ this); lia. }
    cbn [size_ capacity_ shrink_counter_ buf_ ref_ Continer.set_capacity]
      in Hre, Hlen', Hkeep.
    eexists _, h'. split; [exact Hre|].
    cbn [size_ capacity_ shrink_counter_ buf_ ref_].
    split; [reflexivity|]. split; [reflexivity|]. split; [reflexivity|].
    split; [|split; [intros; lia|]].
    + unfold continer_bytes, Mem.block_data. cbn [buf_ size_].
      rewrite Hd', Eb, Hd. cbn [default].
      apply (Hkeep b data); auto.
    + unfold continer_wf, heap_wf in *.
      cbn [size_ capacity_ shrink_counter_ buf_ ref_]. rewrite Hl'.
      repeat split; try lia.
      exists data'. split; [exact Hd'|].
      destruct (ref_ this); [specialize (Href eq_refl Hlt)|]; lia.
  - exists this, h. split; [reflexivity|].
    split; [lia|]. split; [reflexivity|]. split; [reflexivity|].
    split; [reflexivity|]. split; [tauto|exact Hwf].
Qed.

(** [reserve(size_)] below the capacity: the bytes move to a new block of
    exactly [size_] bytes, which the container owns; a block the
    container owned is freed, every other block is as it was. *)
Lemma reserve_to_size_moves this h :
  continer_wf this h -> size_ this < capacity_ this ->
  (ref_ this = true -> size_ this <= Mem.alloc_limit h) ->
  exists b' h',
    Continer.reserve (size_ this) (this, h)
    = Ok tt (mkSimpleBufferT (Some b') (size_ this) (size_ this)
                             (shrink_counter_ this) false, h') /\
    Mem.contents h b' = None /\
    Mem.contents h' b' = Some (continer_bytes this h) /\
    Z.of_nat (length (continer_bytes this h)) = size_ this /\
    Mem.alloc_limit h' = Mem.alloc_limit h /\
    (forall b, b <> b' -> (ref_ this = false -> buf_ this <> Some b) ->
               Mem.contents h' b = Mem.contents h b) /\
    (forall b, ref_ this = false -> buf_ this = Some b -> Mem.contents h' b = None).
Proof.
  intros Hwf Hlt Href. pose proof Hwf as (Hh & Hs & Hc & Hk & Hb).
  unfold Continer.reserve.
  destruct (Z.ltb_spec (capacity_ this) (size_ this)); [lia|].
  destruct (Z.ltb_spec (size_ this) (capacity_ this)); [|lia].
  destruct (buf_ this) as [b|] eqn:Eb; [|lia].
  destruct Hb as (Hpos & data & Hd & Hr).
  destruct (reallocate_to_capacity_ok (Continer.set_capacity this (size_ this)) h)
    as (b' & h' & data' & Hre & Hb' & Hd' & Hlen' & Hkeep & Hl' & Hother & Hfreed).
  { cbn. destruct (ref_ this); [specialize (Href eq_refl)|]; lia. }
  { cbn. lia. }
  { cbn. rewrite Eb. exists data. repeat split; auto.
    destruct (ref_ this); lia. }
  cbn [size_ capacity_ shrink_counter_ buf_ ref_ Continer.set_capacity]
    in Hre, Hlen', Hkeep, Hother, Hfreed.
  assert (data' = continer_bytes this h) as Hdata.
  { unfold continer_bytes, Mem.block_data. rewrite Eb, Hd. cbn [default].
    transitivity (take (Z.to_nat (size_ this)) data');
      [symmetry; apply take_ge; lia|apply (Hkeep b data Eb Hd)]. }
  exists b', h'. rewrite <- Hdata.
  split; [exact Hre|]. split; [subst b'; now apply contents_fresh|].
  split; [exact Hd'|]. split; [exact Hlen'|]. split; [exact Hl'|].
  split.
  - intros b0 Hne Hn. apply Hother; [exact Hne|]. rewrite Eb. exact Hn.
  - intros b0 Hr0 Hb0. apply Hfreed; [exact Hr0|]. rewrite Eb. exact Hb0.
Qed.

Lemma shrink_guard_true this :
  0 < size_ this <= capacity_ this ->
  capacity_ this <= SizeT.PTRDIFF_MAX ->
  Continer.shrink_guard this = true.
Proof.
  intros Hs Hc. unfold Continer.shrink_guard.
  rewrite mul2_small by lia.
  apply andb_true_iff. split; apply Z.ltb_lt; lia.
Qed.

(** Below the threshold, [shrink] only counts. *)
Lemma shrink_counts this h :
  continer_wf this h -> 0 < size_ this ->
  shrink_counter_ this < Continer.DEFAULT_SHRINK_TRIGGER_COUNT ->
  Continer.shrink (this, h)
  = Ok tt (Continer.set_shrink_counter this (shrink_counter_ this + 1), h).
Proof.
  intros (Hh & Hs & Hc & Hk & Hb) Hpos Hlt.
  unfold Continer.shrink. rewrite shrink_guard_true by lia.
  unfold Continer.DEFAULT_SHRINK_TRIGGER_COUNT, Continer.INT_MAX in *.
  destruct (Z.eqb_spec (shrink_counter_ this) 2147483647); [lia|].
  cbn [shrink_counter_ Continer.set_shrink_counter].
  destruct (Z.ltb_spec 2 (shrink_counter_ this + 1)); [lia|reflexivity].
Qed.

Lemma set_shrink_counter_wf this h k :
  continer_wf this h -> 0 <= k <= Continer.DEFAULT_SHRINK_TRIGGER_COUNT ->
  continer_wf (Continer.set_shrink_counter this k) h.
Proof.
  intros (Hh & Hs & Hc & Hk & Hb) Hkk. repeat split; auto; cbn; try lia.
  - apply Hh.
  - apply Hh.
Qed.

(** [reserve] neither reads nor writes the trigger counter. *)
Lemma reserve_counter n this h k :
  Continer.reserve n (Continer.set_shrink_counter this k, h)
  = match Continer.reserve n (this, h) with
    | Ok a (c, h') => Ok a (Continer.set_shrink_counter c k, h')
    | Throw e (c, h') => Throw e (Continer.set_shrink_counter c k, h')
    | Undefined => Undefined
    end.
Proof.
  unfold Continer.reserve, Continer.reallocate_to_capacity.
  cbn [size_ capacity_ shrink_counter_ buf_ ref_ Continer.set_shrink_counter
         Continer.set_capacity Continer.set_ref Continer.set_buf].
  repeat break_match; inv_state; try discriminate; reflexivity.
Qed.

(** At the threshold, [shrink] compacts and starts counting again. *)
Lemma shrink_compacts this h :
  continer_wf this h -> 0 < size_ this ->
  shrink_counter_ this = Continer.DEFAULT_SHRINK_TRIGGER_COUNT ->
  (ref_ this = true -> size_ this < capacity_ this ->
   size_ this <= Mem.alloc_limit h) ->
  exists this' h',
    Continer.shrink (this, h) = Ok tt (this', h') /\
    capacity_ this' = size_ this /\ size_ this' = size_ this /\
    shrink_counter_ this' = 0 /\
    continer_bytes this' h' = continer_bytes this h /\
    continer_wf this' h'.
Proof.
  intros Hwf Hpos Heq Href.
  pose proof Hwf as (Hh & Hs & Hc & Hk & Hb).
  destruct (reserve_to_size this h Hwf Hpos Href)
    as (this' & h' & Hre & Hcap & Hsz & Hcnt & Hbytes & _ & Hwf').
  unfold Continer.shrink. rewrite shrink_guard_true by lia.
  unfold Continer.DEFAULT_SHRINK_TRIGGER_COUNT, Continer.INT_MAX in *.
  destruct (Z.eqb_spec (shrink_counter_ this) 2147483647); [lia|].
  cbn [shrink_counter_ size_ Continer.set_shrink_counter].
  destruct (Z.ltb_spec 2 (shrink_counter_ this + 1)); [|lia].
  unfold bind. rewrite reserve_counter, Hre.
  exists (Continer.set_shrink_counter (Continer.set_shrink_counter this'
                                        (shrink_counter_ this + 1)) 0), h'.
  split; [reflexivity|].
  cbn [size_ capacity_ shrink_counter_ buf_ ref_ Continer.set_shrink_counter].
  split; [exact Hcap|]. split; [exact Hsz|]. split; [reflexivity|].
  split; [exact Hbytes|].
  apply (set_shrink_counter_wf this' h' 0 Hwf').
  unfold Continer.DEFAULT_SHRINK_TRIGGER_COUNT. lia.
Qed.

(** C10: when [0 < size <= capacity] (and the capacity is the length of
    a region of memory, so at most [PTRDIFF_MAX]), the guard of
    [shrink], [size > 0 && size < 2 * capacity], is true.  Hence on a
    non-empty container every call of [shrink] counts, whatever the
    ratio of size to capacity, and the third of three consecutive calls
    compacts the capacity to exactly the size (the first two change only
    the counter). *)
Theorem shrink_guard_always_true this h :
  0 < size_ this <= capacity_ this ->
  capacity_ this <= SizeT.PTRDIFF_MAX ->
  Continer.shrink_guard this = true /\
  (continer_wf this h ->
   (shrink_counter_ this < Continer.DEFAULT_SHRINK_TRIGGER_COUNT ->
    Continer.shrink (this, h)
    = Ok tt (Continer.set_shrink_counter this (shrink_counter_ this + 1), h)) /\
   (shrink_counter_ this = 0 ->
    (ref_ this = true -> size_ this < capacity_ this ->
     size_ this <= Mem.alloc_limit h) ->
    exists h',
      Continer.shrink (this, h) = Ok tt (Continer.set_shrink_counter this 1, h) /\
      Continer.shrink (Continer.set_shrink_counter this 1, h)
      = Ok tt (Continer.set_shrink_counter this 2, h) /\
      exists this',
        Continer.shrink (Continer.set_shrink_counter this 2, h) = Ok tt (this', h') /\
        capacity_ this' = size_ this /\ size_ this' = size_ this /\
        shrink_counter_ this' = 0 /\
        continer_bytes this' h' = continer_bytes this h)).
Proof.
  intros Hs Hc. split; [now apply shrink_guard_true|].
  intros Hwf. split; [intros Hlt; apply shrink_counts; auto; lia|].
  intros H0 Href.
  assert (forall k, 0 <= k <= 2 -> continer_wf (Continer.set_shrink_counter this k) h)
    as Hwfk by (intros k Hk; now apply set_shrink_counter_wf).
  destruct (shrink_compacts (Continer.set_shrink_counter this 2) h)
    as (this' & h' & Hsh & Hcap & Hsz & Hcnt & Hbytes & _);
    [apply Hwfk; lia|cbn; lia|reflexivity|exact Href|].
  exists h'. split; [|split].
  - rewrite shrink_counts by (auto; unfold Continer.DEFAULT_SHRINK_TRIGGER_COUNT; lia).
    now rewrite H0.
  - rewrite shrink_counts; [reflexivity|apply Hwfk; lia|cbn; lia|reflexivity].
  - exists this'. repeat split; auto.
Qed.

Lemma shrink_guard_always_true_witness :
  Continer.shrink_guard (continer_ zeros16) = true /\
  exists this' h',
    Continer.shrink (Continer.set_shrink_counter (continer_ zeros16) 2, zeros16_heap)
    = Ok tt (this', h') /\
    capacity_ this' = 16.
Proof.
  assert (0 < size_ (continer_ zeros16) <= capacity_ (continer_ zeros16)) as H1
    by (cbn; lia).
  assert (capacity_ (continer_ zeros16) <= SizeT.PTRDIFF_MAX) as H2
    by (apply Z.leb_le; reflexivity).
  destruct (shrink_guard_always_true (continer_ zeros16) zeros16_heap H1 H2)
    as (Hg & Hrest).
  split; [exact Hg|].
  destruct (Hrest zeros16_wf) as (_ & H3).
  destruct (H3 eq_refl) as (h' & _ & _ & this' & Hsh & Hcap & _); [discriminate|].
  exists this', h'. split; [exact Hsh|exact Hcap].
Defined.

(** C7: [shrink_to_fit] compacts the capacity to exactly the size,
    whatever the trigger counter holds, keeps the bytes, resets the
    counter and leaves a well-formed container.  When the capacity is
    above the size, the bytes move to a new block of exactly [size]
    bytes, which the container owns, and the block it owned before is
    freed; no other block changes.  When the capacity is the size
    already, only the counter is reset.  A well-formed container of
    size 0 holds no memory and has capacity 0; the call, which only
    resets the counter at size 0, leaves it in the empty state. *)
Theorem shrink_to_fit_compacts this h :
  continer_wf this h ->
  (ref_ this = true -> size_ this < capacity_ this ->
   size_ this <= Mem.alloc_limit h) ->
  exists this' h',
    Continer.shrink_to_fit (this, h) = Ok tt (this', h') /\
    capacity_ this' = size_ this' /\ size_ this' = size_ this /\
    shrink_counter_ this' = 0 /\
    continer_bytes this' h' = continer_bytes this h /\
    (size_ this = 0 -> buf_ this' = None /\ capacity_ this' = 0 /\ h' = h) /\
    continer_wf this' h' /\
    Mem.alloc_limit h' = Mem.alloc_limit h /\
    (* the memory behind the container, when the capacity was above the size *)
    (size_ this < capacity_ this ->
     ref_ this' = false /\
     exists b',
       buf_ this' = Some b' /\
       Mem.contents h b' = None /\
       Mem.contents h' b' = Some (continer_bytes this h) /\
       Z.of_nat (length (continer_bytes this h)) = size_ this /\
       (forall b, ref_ this = false -> buf_ this = Some b -> Mem.contents h' b = None) /\
       (forall b, b <> b' -> (ref_ this = false -> buf_ this <> Some b) ->
                  Mem.contents h' b = Mem.contents h b)) /\
    (* nothing to compact *)
    (size_ this = capacity_ this ->
     this' = Continer.set_shrink_counter this 0 /\ h' = h) /\
    (size_ this = 0 -> this' = Continer.default).
Proof.
  intros Hwf Href. pose proof Hwf as (Hh & Hs & Hc & Hk & Hb).
  assert (0 <= 0 <= Continer.DEFAULT_SHRINK_TRIGGER_COUNT) as Hk0
    by (unfold Continer.DEFAULT_SHRINK_TRIGGER_COUNT; lia).
  unfold Continer.shrink_to_fit, bind.
  destruct (Z.ltb_spec 0 (size_ this)) as [Hpos|Hz].
  - destruct (Z_lt_le_dec (size_ this) (capacity_ this)) as [Hlt|Hge].
    + destruct (reserve_to_size_moves this h Hwf Hlt)
        as (b' & h' & Hre & Hfresh & Hd' & Hlen & Hl & Hother & Hfreed);
        [intros Hr; now apply Href|].
      destruct (reserve_to_size this h Hwf Hpos Href)
        as (c2 & h2 & Hre2 & _ & _ & _ & Hbytes & _ & Hwf2).
      rewrite Hre in Hre2. injection Hre2 as <- <-.
      rewrite Hre. eexists _, h'. split; [reflexivity|].
      cbn [size_ capacity_ shrink_counter_ buf_ ref_ Continer.set_shrink_counter].
      split; [reflexivity|]. split; [reflexivity|]. split; [reflexivity|].
      split; [exact Hbytes|]. split; [intros; lia|].
      split; [apply set_shrink_counter_wf; [exact Hwf2|exact Hk0]|].
      split; [exact Hl|]. split; [|split; intros; lia].
      intros _. split; [reflexivity|]. exists b'. auto 8.
    + destruct (reserve_to_size this h Hwf Hpos Href)
        as (c2 & h2 & Hre2 & _ & _ & _ & _ & Hsame & _).
      destruct Hsame as [-> ->]; [lia|].
      rewrite Hre2. eexists _, h. split; [reflexivity|].
      cbn [size_ capacity_ shrink_counter_ buf_ ref_ Continer.set_shrink_counter].
      split; [lia|]. split; [reflexivity|]. split; [reflexivity|].
      split; [reflexivity|]. split; [intros; lia|].
      split; [apply set_shrink_counter_wf; [exact Hwf|exact Hk0]|].
      split; [reflexivity|]. split; [intros; lia|].
      split; [auto|intros; lia].
  - eexists _, h. split; [reflexivity|].
    cbn [size_ capacity_ shrink_counter_ buf_ ref_ Continer.set_shrink_counter].
    destruct (buf_ this) as [b|] eqn:Eb; [lia|]. destruct Hb as [Hc0 Hr0].
    split; [lia|]. split; [reflexivity|]. split; [reflexivity|].
    split; [reflexivity|]. split; [intros _; repeat split; auto|].
    split; [apply set_shrink_counter_wf; [exact Hwf|exact Hk0]|].
    split; [reflexivity|]. split; [intros; lia|].
    split; [auto|]. intros Hz0.
    destruct this as [bu sz ca sc rf]. cbn in *. subst. reflexivity.
Qed.

Lemma shrink_to_fit_compacts_witness :
  exists this' h',
    Continer.shrink_to_fit (continer_ zeros16, zeros16_heap) = Ok tt (this', h') /\
    capacity_ this' = 16 /\ size_ this' = 16 /\
    continer_wf this' h' /\
    buf_ this' = Some 1%nat /\
    Mem.contents h' 1%nat = Some (replicate 16 0) /\
    Mem.contents h' 0%nat = None.
Proof.
  destruct (shrink_to_fit_compacts (continer_ zeros16) zeros16_heap zeros16_wf)
    as (this' & h' & Hsh & Hcap & Hsz & _ & _ & _ & Hwf' & _ & Hmem & _);
    [discriminate|].
  exists this', h'. split; [exact Hsh|]. rewrite Hcap, Hsz.
  split; [reflexivity|]. split; [reflexivity|]. split; [exact Hwf'|].
  destruct Hmem as (_ & b' & Hb' & _ & Hd' & _ & Hfreed & _);
    [apply Z.ltb_lt; reflexivity|].
  pose proof Hsh as Hrun. vm_compute in Hrun. injection Hrun as <- <-.
  injection Hb' as <-.
  split; [reflexivity|]. split; [exact Hd'|].
  apply Hfreed; reflexivity.
Defined.

(* --------------------------------------------------------------------- *)
(** *** What a call leaves alone *)
(* --------------------------------------------------------------------- *)

Lemma store_bytes_keeps p off bs h h' r :
  Mem.store_bytes p off bs h = Some h' -> p <> Some r ->
  Mem.contents h' r = Mem.contents h r.
Proof.
  unfold Mem.store_bytes. destruct p as [b|]; [|discriminate].
  destruct (Mem.valid_range _ _ _ _); [|discriminate].
  intros [= <-] Hne. apply contents_set_block_ne. congruence.
Qed.

Lemma memset_keeps p off v n h h' r :
  Mem.memset p off v n h = Some h' -> p <> Some r ->
  Mem.contents h' r = Mem.contents h r.
Proof.
  unfold Mem.memset. destruct (n =? 0); [now intros [= <-]|].
  destruct (Mem.valid_range _ _ _ _); [|discriminate].
  apply store_bytes_keeps.
Qed.

Lemma memcpy_keeps dst doff src soff n h h' r :
  Mem.memcpy dst doff src soff n h = Some h' -> dst <> Some r ->
  Mem.contents h' r = Mem.contents h r.
Proof.
  unfold Mem.memcpy. destruct (n =? 0); [now intros [= <-]|].
  destruct (Mem.overlap _ _ _ _ _); [discriminate|].
  destruct (Mem.load_bytes _ _ _ _); [|discriminate].
  apply store_bytes_keeps.
Qed.

Lemma free_keeps b h h' r :
  Mem.free b h = Some h' -> b <> r -> Mem.contents h' r = Mem.contents h r.
Proof.
  unfold Mem.free. destruct (Mem.contents h b); [|discriminate].
  intros [= <-] Hne. now apply contents_set_block_ne.
Qed.

Lemma malloc_keeps n h p h' r :
  Mem.malloc n h = (p, h') -> is_Some (Mem.contents h r) ->
  Mem.contents h' r = Mem.contents h r /\ p <> Some r.
Proof.
  unfold Mem.malloc. intros H [d Hd].
  pose proof (contents_lt _ _ _ Hd) as Hlt.
  destruct (n <=? Mem.alloc_limit h).
  - cbn in H. injection H as <- <-. split.
    + unfold Mem.contents. cbn. now rewrite lookup_app_l.
    + intros [= <-]. lia.
  - injection H as <- <-. split; [reflexivity|discriminate].
Qed.

Lemma realloc_keeps p n h p' h' r :
  Mem.realloc p n h = Some (p', h') -> is_Some (Mem.contents h r) ->
  p <> Some r ->
  Mem.contents h' r = Mem.contents h r /\ p' <> Some r.
Proof.
  unfold Mem.realloc. intros H Hr Hne.
  destruct p as [b|].
  - destruct (Mem.contents h b) as [data|] eqn:Hd; [|discriminate].
    assert (b <> r) as Hbr by congruence.
    destruct (n =? 0).
    + injection H as <- <-. split; [now apply contents_set_block_ne|discriminate].
    + destruct (n <=? Mem.alloc_limit h).
      * cbn in H. injection H as <- <-. destruct Hr as [d Hr].
        pose proof (contents_lt _ _ _ Hr) as Hlt. split.
        -- unfold Mem.contents. cbn.
           rewrite lookup_app_l by (rewrite length_insert; lia).
           now rewrite list_lookup_insert_ne.
        -- rewrite length_insert. intros [= <-]. lia.
      * injection H as <- <-. split; [reflexivity|discriminate].
  - injection H as H. eapply malloc_keeps; eauto.
Qed.

Lemma reallocate_owned_keeps this h this' h' r :
  ref_ this = false -> buf_ this <> Some r -> is_Some (Mem.contents h r) ->
  final_state (Continer.reallocate_to_capacity (this, h)) = Some (this', h') ->
  Mem.contents h' r = Mem.contents h r /\ buf_ this' <> Some r.
Proof.
  intros Hr Hne Hlive. unfold Continer.reallocate_to_capacity. rewrite Hr. cbn [negb].
  destruct (Mem.realloc _ _ _) as [[p' h1]|] eqn:E; [|discriminate].
  destruct (realloc_keeps _ _ _ _ _ _ E Hlive Hne) as [Hk Hp].
  destruct p'; cbn; intros H; inv_state; auto.
Qed.

Lemma reserve_keeps n this h this' h' r :
  ref_ this = false -> buf_ this <> Some r -> is_Some (Mem.contents h r) ->
  final_state (Continer.reserve n (this, h)) = Some (this', h') ->
  Mem.contents h' r = Mem.contents h r /\ buf_ this' <> Some r.
Proof.
  intros Hr Hne Hlive. unfold Continer.reserve.
  repeat break_match; intros H.
  - eapply reallocate_owned_keeps in H; eauto.
  - eapply reallocate_owned_keeps in H; eauto.
  - cbn in H. inv_state. auto.
Qed.

Lemma clear_keeps this h this' h' r :
  ref_ this = false -> buf_ this <> Some r ->
  final_state (Continer.clear (this, h)) = Some (this', h') ->
  Mem.contents h' r = Mem.contents h r /\ buf_ this' <> Some r.
Proof.
  intros Hr Hne. unfold Continer.clear. rewrite Hr. cbn [negb].
  destruct (buf_ this) as [b|] eqn:Eb.
  - destruct (Mem.free b h) as [h1|] eqn:E; [|discriminate].
    cbn. intros H. inv_state. split; [|discriminate].
    eapply free_keeps; eauto; congruence.
  - cbn. intros H. inv_state. split; [reflexivity|discriminate].
Qed.

Lemma resize_keeps n this h this' h' r :
  ref_ this = false -> buf_ this <> Some r -> is_Some (Mem.contents h r) ->
  final_state (Continer.resize n (this, h)) = Some (this', h') ->
  Mem.contents h' r = Mem.contents h r /\ buf_ this' <> Some r.
Proof.
  intros Hr Hne Hlive H. unfold Continer.resize in H.
  assert (forall c1 h1,
             final_state (if n =? 0 then Continer.clear (this, h)
                          else if capacity_ this <? n then Continer.reserve n (this, h)
                               else Ok tt (this, h)) = Some (c1, h1) ->
             Mem.contents h1 r = Mem.contents h r /\ buf_ c1 <> Some r) as Hstep.
  { intros c1 h1. repeat break_match; intros H1.
    - eapply clear_keeps; eauto.
    - eapply reserve_keeps; eauto.
    - cbn in H1. inv_state. auto. }
  apply bind_final in H as [([] & [c1 h1] & E & H)|(e & E)].
  - cbn in H. inv_state. cbn. eapply Hstep. erewrite final_of_Ok; eauto.
  - eapply Hstep. erewrite final_of_Throw; eauto.
Qed.

Lemma shrink_keeps this h this' h' r :
  ref_ this = false -> buf_ this <> Some r -> is_Some (Mem.contents h r) ->
  final_state (Continer.shrink (this, h)) = Some (this', h') ->
  Mem.contents h' r = Mem.contents h r /\ buf_ this' <> Some r.
Proof.
  intros Hr Hne Hlive. unfold Continer.shrink.
  destruct (Continer.shrink_guard this); [|cbn; intros H; inv_state; auto].
  destruct (_ =? Continer.INT_MAX); [discriminate|].
  destruct (_ <? _); [|cbn; intros H; inv_state; auto].
  intros H. apply bind_final in H as [([] & [c1 h1] & E & H)|(e & E)].
  - cbn in H. inv_state. cbn.
    eapply reserve_keeps; [| | |erewrite final_of_Ok; eauto]; auto.
  - eapply reserve_keeps; [| | |erewrite final_of_Throw; eauto]; auto.
Qed.

Lemma on_continer_final {A} (m : M (SimpleBufferT * Mem.Heap) A) this h this' h' :
  final_state (Buffer.on_continer m (this, h)) = Some (this', h') ->
  final_state (m (continer_ this, h)) = Some (continer_ this', h').
Proof.
  unfold Buffer.on_continer, on_member.
  destruct (m (continer_ this, h)) as [a [c1 h1]|e [c1 h1]|]; cbn;
    intros H; inv_state; reflexivity.
Qed.

Lemma heap_call_final {O} f (this this' : O) h h' :
  final_state (heap_call f (this, h)) = Some (this', h') ->
  this' = this /\ f h = Some h'.
Proof.
  unfold heap_call. destruct (f h); cbn; intros H; inv_state; auto.
Qed.

Lemma buffer_resize_keeps n this h this' h' r :
  separated this h r ->
  final_state (Buffer.resize n (this, h)) = Some (this', h') ->
  Mem.contents h' r = Mem.contents h r /\ separated this' h' r.
Proof.
  intros (Hr & Hne & Hlive) H. apply on_continer_final in H.
  pose proof (resize_keeps _ _ _ _ _ r Hr Hne Hlive H) as [Hk Hb].
  pose proof (resize_keeps_owned _ _ _ _ _ Hr H) as Hr'.
  split; [exact Hk|]. repeat split; auto. now rewrite Hk.
Qed.

Lemma store_keeps_separated p off bs (this : BufferT) h h' r :
  separated this h r -> p = Buffer.begin this ->
  Mem.store_bytes p off bs h = Some h' ->
  Mem.contents h' r = Mem.contents h r /\ separated this h' r.
Proof.
  intros (Hr & Hne & Hlive) -> Hst.
  pose proof (store_bytes_keeps _ _ _ _ _ r Hst Hne) as Hk.
  split; [exact Hk|]. repeat split; auto. now rewrite Hk.
Qed.

Lemma write_e_keeps host T e v off this h this' h' r :
  separated this h r ->
  final_state (Buffer.write_e host T e v off (this, h)) = Some (this', h') ->
  Mem.contents h' r = Mem.contents h r /\ separated this' h' r.
Proof.
  intros Hsep. unfold Buffer.write_e.
  destruct (_ <? _); [cbn; intros H; inv_state; auto|].
  intros H. apply heap_call_final in H as [-> Hst].
  eapply store_keeps_separated; eauto.
Qed.

Lemma write_8bit_keeps T v off this h this' h' r :
  separated this h r ->
  final_state (Buffer.write_8bit T v off (this, h)) = Some (this', h') ->
  Mem.contents h' r = Mem.contents h r /\ separated this' h' r.
Proof.
  intros Hsep. unfold Buffer.write_8bit.
  destruct (_ <=? _); [cbn; intros H; inv_state; auto|].
  intros H. apply heap_call_final in H as [-> Hst].
  eapply store_keeps_separated; eauto.
Qed.

Lemma EnsureWritableBytes_keeps off n this h this' h' r :
  separated this h r ->
  final_state (Buffer.EnsureWritableBytes off n (this, h)) = Some (this', h') ->
  Mem.contents h' r = Mem.contents h r /\ separated this' h' r.
Proof.
  intros Hsep. unfold Buffer.EnsureWritableBytes.
  destruct (_ <? _); [|cbn; intros H; inv_state; auto].
  now apply buffer_resize_keeps.
Qed.

(** A call that keeps [r] and the separation, after one that does. *)
Lemma bind_keeps {A B} (m : M (BufferT * Mem.Heap) A) (k : A -> M (BufferT * Mem.Heap) B)
      this h this' h' r :
  (forall c1 h1, final_state (m (this, h)) = Some (c1, h1) ->
                 Mem.contents h1 r = Mem.contents h r /\ separated c1 h1 r) ->
  (forall a c1 h1 c2 h2, separated c1 h1 r ->
                         final_state (k a (c1, h1)) = Some (c2, h2) ->
                         Mem.contents h2 r = Mem.contents h1 r /\ separated c2 h2 r) ->
  final_state (bind m k (this, h)) = Some (this', h') ->
  Mem.contents h' r = Mem.contents h r /\ separated this' h' r.
Proof.
  intros Hm Hk H.
  apply bind_final in H as [(a & [c1 h1] & E & H)|(e & E)].
  - destruct (Hm c1 h1) as [H1 S1]; [erewrite final_of_Ok; eauto|].
    destruct (Hk a c1 h1 this' h' S1 H) as [H2 S2].
    split; [congruence|exact S2].
  - apply Hm. erewrite final_of_Throw; eauto.
Qed.

Lemma append_e_keeps host T e v this h this' h' r :
  separated this h r ->
  final_state (Buffer.append_e host T e v (this, h)) = Some (this', h') ->
  Mem.contents h' r = Mem.contents h r /\ separated this' h' r.
Proof.
  intros Hsep. unfold Buffer.append_e. apply bind_keeps.
  - intros c1 h1. now apply EnsureWritableBytes_keeps.
  - intros _ c1 h1 c2 h2. apply write_e_keeps.
Qed.

Lemma append_8bit_keeps T v this h this' h' r :
  separated this h r ->
  final_state (Buffer.append_8bit T v (this, h)) = Some (this', h') ->
  Mem.contents h' r = Mem.contents h r /\ separated this' h' r.
Proof.
  intros Hsep. unfold Buffer.append_8bit. apply bind_keeps.
  - intros c1 h1. now apply EnsureWritableBytes_keeps.
  - intros _ c1 h1 c2 h2 S1 H.
    destruct (read_byte_ref v h1); [|discriminate].
    apply heap_call_final in H as [-> Hst].
    eapply store_keeps_separated; eauto.
Qed.

(** No member function of a buffer that owns its storage changes a
    block that is not this storage, and the buffer stays owned and
    apart from that block. *)
Lemma mutate_keeps host (m : Buffer.Mutation) this h this' h' r :
  separated this h r ->
  final_state (Buffer.mutate host m (this, h)) = Some (this', h') ->
  Mem.contents h' r = Mem.contents h r /\ separated this' h' r.
Proof.
  intros Hsep. pose proof Hsep as (Hr & Hne & Hlive).
  destruct m; cbn [Buffer.mutate].
  - now apply buffer_resize_keeps.
  - intros H. apply on_continer_final in H.
    pose proof (clear_keeps _ _ _ _ r Hr Hne H) as [Hk Hb].
    apply clear_result in H. split; [exact Hk|].
    repeat split; [now rewrite H|exact Hb|now rewrite Hk].
  - intros H. apply on_continer_final in H.
    pose proof (shrink_keeps _ _ _ _ r Hr Hne Hlive H) as [Hk Hb].
    pose proof (owned_stays_owned Continer.call_shrink _ _ _ _ Hr H) as Hr'.
    split; [exact Hk|]. repeat split; auto. now rewrite Hk.
  - unfold Buffer.fill. intros H. apply heap_call_final in H as [-> Hst].
    pose proof (memset_keeps _ _ _ _ _ _ r Hst Hne) as Hk.
    split; [exact Hk|]. repeat split; auto. now rewrite Hk.
  - unfold Buffer.write, Buffer.write_native.
    repeat break_match; try apply write_e_keeps; try apply write_8bit_keeps; auto.
  - now apply write_e_keeps.
  - unfold Buffer.write_bytes.
    destruct (_ <? _); [cbn; intros H; inv_state; auto|].
    intros H. apply heap_call_final in H as [-> Hst].
    pose proof (memcpy_keeps _ _ _ _ _ _ _ r Hst Hne) as Hk.
    split; [exact Hk|]. repeat split; auto. now rewrite Hk.
  - unfold Buffer.append, Buffer.append_native.
    destruct (is_endian_basictype T); [|now apply append_8bit_keeps].
    destruct value as [v|p off].
    + destruct host; now apply append_e_keeps.
    + destruct (read_byte_ref _ h); [|discriminate].
      destruct host; now apply append_e_keeps.
  - now apply append_e_keeps.
  - unfold Buffer.append_bytes. apply bind_keeps.
    + intros c1 h1. now apply EnsureWritableBytes_keeps.
    + intros _ c1 h1 c2 h2 S1 H. apply heap_call_final in H as [-> Hst].
      pose proof (memcpy_keeps _ _ _ _ _ _ _ r Hst (proj1 (proj2 S1))) as Hk1.
      split; [exact Hk1|]. destruct S1 as (S1 & S2 & S3).
      repeat split; auto. now rewrite Hk1.
Qed.

Lemma store_bytes_live b off bs h h' :
  Mem.store_bytes (Some b) off bs h = Some h' -> is_Some (Mem.contents h' b).
Proof.
  unfold Mem.store_bytes.
  destruct (Mem.valid_range _ _ _ _) eqn:V; [|discriminate].
  apply valid_range_spec in V as (b0 & data & [= <-] & Hd & _).
  intros [= <-]. erewrite contents_set_block_eq; eauto.
Qed.

(** A store to a block that is not the storage of the buffer leaves
    the bytes of the buffer as they were. *)
Lemma caller_store_keeps_buffer this h h' r off bs :
  separated this h r ->
  Mem.store_bytes (Some r) off bs h = Some h' ->
  buffer_bytes this h' = buffer_bytes this h /\ separated this h' r.
Proof.
  intros (Hr & Hne & Hlive) Hst. split.
  - unfold buffer_bytes, continer_bytes, Mem.block_data.
    unfold Buffer.begin, Continer.begin in Hne.
    destruct (buf_ (continer_ this)) as [b|]; [|reflexivity].
    rewrite (store_bytes_keeps _ _ _ _ _ b Hst); [reflexivity|congruence].
  - repeat split; auto. eapply store_bytes_live; eauto.
Qed.

Lemma ref_borrows r n h :
  0 < n ->
  Buffer.ref (Some r) n h
  = Ok (mkBufferT (mkSimpleBufferT (Some r) n n 0 true)) h.
Proof.
  intros Hn. unfold Buffer.ref, Continer.ref, Continer.is_null. cbn [negb andb].
  destruct (Z.ltb_spec 0 n); [|lia].
  unfold construct, Buffer.on_continer, on_member, Continer.move_assign,
    Continer.empty.
  cbn [size_ continer_ Buffer.default].
  destruct (Z.eqb_spec n 0); [lia|]. reflexivity.
Qed.


(* --------------------------------------------------------------------- *)
(** *** [fill] *)
(* --------------------------------------------------------------------- *)

Lemma take_stored (data bs : list Z) (off s : nat) :
  (off + length bs <= s)%nat -> (s <= length data)%nat ->
  take s (take off data ++ bs ++ drop (off + length bs) data)
  = take off (take s data) ++ bs ++ drop (off + length bs) (take s data).
Proof.
  intros H1 H2.
  rewrite take_app_ge by (rewrite length_take; lia).
  rewrite length_take, take_take.
  replace (off `min` s)%nat with off by lia.
  replace (off `min` length data)%nat with off by lia.
  f_equal. rewrite take_app_ge by lia. f_equal.
  rewrite take_drop_commute. f_equal. f_equal. lia.
Qed.

(** What [fill] does when [offset] is inside the buffer and
    [offset + count] does not wrap around: it writes [n] bytes, where [n]
    is [count], or what is left after [offset] when [count] is 0 or
    reaches past the end. *)
Lemma fill_general value offset count this h :
  buffer_wf this h ->
  0 <= offset <= Buffer.size this -> 0 <= count ->
  offset + count < SizeT.modulus ->
  exists h',
    Buffer.fill value offset count (this, h) = Ok tt (this, h') /\
    buffer_bytes this h'
    = filled value offset
        (if (count =? 0) || (Buffer.size this <? offset + count)
         then Buffer.size this - offset else count)
        (buffer_bytes this h).
Proof.
  intros Hwf Hoff Hcount Hnw.
  pose proof Hwf as (Hh & Hs & Hc & Hk & Hb).
  unfold Buffer.size, Continer.size in *.
  assert (size_ (continer_ this) < SizeT.modulus) as Hsm.
  { rewrite modulus_eq. rewrite PTRDIFF_MAX_eq in Hc. lia. }
  unfold Buffer.fill, Buffer.size, Continer.size.
  rewrite add_small by lia. rewrite sub_small by lia.
  set (n := if (count =? 0) || (size_ (continer_ this) <? offset + count)
            then size_ (continer_ this) - offset else count).
  assert (0 <= n /\ offset + n <= size_ (continer_ this)) as [Hn0 Hn1].
  { subst n. destruct (Z.eqb_spec count 0); cbn [orb]; [lia|].
    destruct (Z.ltb_spec (size_ (continer_ this)) (offset + count)); lia. }
  unfold heap_call, Mem.memset.
  destruct (Z.eqb_spec n 0) as [Hz|Hnz].
  - exists h. split; [reflexivity|]. unfold filled. rewrite Hz, Z.add_0_r.
    change (Z.to_nat 0) with 0%nat. cbn [replicate app]. now rewrite take_drop.
  - destruct (continer_wf_block _ _ Hwf) as (b & data & Eb & Hd & Hlen & _); [lia|].
    unfold Buffer.begin, Continer.begin. rewrite Eb.
    assert (Mem.valid_range (Some b) offset n h = true) as ->.
    { apply valid_range_spec. exists b, data. repeat split; auto; lia. }
    destruct (store_bytes_ok b offset (replicate (Z.to_nat n) value) h data Hd)
      as (h' & Hst & Hc' & _); [lia|rewrite length_replicate; lia|].
    rewrite Hst. exists h'. split; [reflexivity|].
    unfold buffer_bytes, continer_bytes, Mem.block_data, filled.
    rewrite Eb, Hc', Hd. cbn [default]. unfold id.
    set (bs := replicate (Z.to_nat n) value) in *.
    assert (length bs = Z.to_nat n) as Hbs by apply length_replicate.
    rewrite take_stored by lia.
    replace (Z.to_nat (offset + n)) with (Z.to_nat offset + length bs)%nat by lia.
    reflexivity.
Qed.

(** C8, as the code has it: with [offset] inside the buffer and no
    wrap-around of [offset + count], [fill] never throws; with
    [count > 0] and [offset + count <= size()] it overwrites exactly
    [count] bytes from [offset] on; with [count == 0] it overwrites from
    [offset] to the end; and with [count > 0] and
    [offset + count > size()] it clamps the count to [size() - offset]
    and overwrites from [offset] to the end.  The object, and so its
    size, stays as it was. *)
Theorem fill_clamps value offset count this h :
  buffer_wf this h ->
  0 <= offset <= Buffer.size this -> 0 <= count ->
  offset + count < SizeT.modulus ->
  exists h',
    Buffer.fill value offset count (this, h) = Ok tt (this, h') /\
    (0 < count -> offset + count <= Buffer.size this ->
     buffer_bytes this h' = filled value offset count (buffer_bytes this h)) /\
    (count = 0 ->
     buffer_bytes this h'
     = filled value offset (Buffer.size this - offset) (buffer_bytes this h)) /\
    (0 < count -> offset + count > Buffer.size this ->
     buffer_bytes this h'
     = filled value offset (Buffer.size this - offset) (buffer_bytes this h)).
Proof.
  intros Hwf Hoff Hcount Hnw.
  destruct (fill_general value offset count this h Hwf Hoff Hcount Hnw)
    as (h' & Hf & Hbytes).
  exists h'. split; [exact Hf|].
  destruct (Z.eqb_spec count 0) as [Hz|Hnz]; cbn [orb] in Hbytes.
  - repeat split; intros; try lia; exact Hbytes.
  - destruct (Z.ltb_spec (Buffer.size this) (offset + count));
      repeat split; intros; try lia; exact Hbytes.
Qed.

Lemma fill_clamps_witness :
  exists h',
    Buffer.fill 9 14 5 (zeros16, zeros16_heap) = Ok tt (zeros16, h') /\
    buffer_bytes zeros16 h' = replicate 14 0 ++ [9; 9].
Proof.
  destruct (fill_clamps 9 14 5 zeros16 zeros16_heap zeros16_wf)
    as (h' & Hf & _ & _ & Hclamp).
  - split; apply Z.leb_le; reflexivity.
  - lia.
  - reflexivity.
  - exists h'. split; [exact Hf|]. rewrite Hclamp; [reflexivity|lia|reflexivity].
Defined.

(** C8, as the claim has it, fails: on the 16 zero bytes of
    [BufferT(16, 0)], [fill(9, 14, 5)] has [count > 0] and
    [offset + count > size()], and it does not throw [out_of_range]: it
    returns, having overwritten bytes 14 and 15. *)
Lemma fill_past_end_returns :
  0 < 5 /\ 14 + 5 > Buffer.size zeros16 /\
  ~ throws_out_of_range (Buffer.fill 9 14 5 (zeros16, zeros16_heap))
      (zeros16, zeros16_heap) /\
  exists h',
    Buffer.fill 9 14 5 (zeros16, zeros16_heap) = Ok tt (zeros16, h') /\
    buffer_bytes zeros16 h' = replicate 14 0 ++ [9; 9].
Proof.
  split; [lia|]. split; [reflexivity|]. split.
  - intros (pos & need & H). discriminate H.
  - eexists. split; reflexivity.
Qed.

(* --------------------------------------------------------------------- *)
(** *** The cursor *)
(* --------------------------------------------------------------------- *)

Lemma segment_take (l : list Z) off n s :
  0 <= off -> 0 <= n -> off + n <= s ->
  segment off n (take (Z.to_nat s) l) = segment off n l.
Proof.
  intros H0 H1 H2. unfold segment.
  rewrite !take_drop_commute, take_take. f_equal. f_equal. lia.
Qed.

Lemma segment_one (l : list Z) off x :
  0 <= off -> l !! Z.to_nat off = Some x -> segment off 1 l = [x].
Proof.
  intros H0 Hx. unfold segment. change (Z.to_nat 1) with 1%nat.
  erewrite drop_S by exact Hx. reflexivity.
Qed.

(** The message of [StreamBufferT::xran] does not fit its array: the call
    is undefined, whatever the cursor. *)
Lemma stream_xran_undefined {A} need_size read_action (s : StreamBufferT * Mem.Heap) :
  @Stream.xran A need_size read_action s = Undefined.
Proof. destruct s, read_action; reflexivity. Qed.

(** The message of [BufferT::xran], 66 characters and its [NUL], fits. *)
Lemma buffer_xran_message_fits :
  Printf.formatted_length Printf.BufferT_xran = 66 /\
  Printf.fits Printf.BufferT_xran 80 = true.
Proof. split; reflexivity. Qed.

Section Cursor.

Variable host : Endianness.
Variables (this : StreamBufferT) (h : Mem.Heap).
Hypothesis Hwf : stream_wf this h.

Let size := Buffer.size (buffer_ this).
Let bytes := buffer_bytes (buffer_ this) h.

Lemma stream_block :
  0 < size ->
  exists b data,
    Buffer.begin (buffer_ this) = Some b /\ Mem.contents h b = Some data /\
    size <= Z.of_nat (length data) /\ size <= SizeT.PTRDIFF_MAX /\
    bytes = take (Z.to_nat size) data.
Proof.
  intros Hpos. destruct Hwf as (Hb & _).
  destruct (continer_wf_block _ _ Hb) as (b & data & Eb & Hd & Hlen & Hmax);
    [exact Hpos|].
  exists b, data. subst size bytes.
  unfold Buffer.begin, Buffer.size, Continer.begin, Continer.size,
    buffer_bytes, continer_bytes, Mem.block_data.
  rewrite Eb, Hd. repeat split; auto; lia.
Qed.

Lemma size_bound : 0 <= size <= SizeT.PTRDIFF_MAX.
Proof.
  destruct Hwf as ((_ & Hs & Hc & _) & _). subst size.
  unfold Buffer.size, Continer.size. lia.
Qed.

Lemma stream_read_e_outside T e :
  read_index_ this + sizeof T > size ->
  Stream.read_e host T e (this, h) = Undefined.
Proof.
  intros Hout. destruct Hwf as (_ & Hr & _). pose proof (sizeof_pos T).
  unfold Stream.read_e. rewrite add_in_object by lia. fold size.
  destruct (Z.ltb_spec size (read_index_ this + sizeof T)); [reflexivity|lia].
Qed.

Lemma stream_read_e_inside T e :
  read_index_ this + sizeof T <= size ->
  Stream.read_e host T e (this, h)
  = Ok (Endian.read host T e (segment (read_index_ this) (sizeof T) bytes))
       (Stream.set_read_index this (read_index_ this + sizeof T), h).
Proof.
  intros Hin. destruct Hwf as (_ & Hr & _). pose proof (sizeof_pos T).
  destruct stream_block as (b & data & Eb & Hd & Hlen & Hmax & Hbytes); [lia|].
  unfold Stream.read_e. rewrite add_in_object by lia. fold size.
  destruct (Z.ltb_spec size (read_index_ this + sizeof T)); [lia|].
  cbn [buffer_ Stream.set_read_index]. rewrite Eb.
  rewrite (load_bytes_ok _ _ _ _ data) by (auto; lia).
  rewrite Hbytes, segment_take by lia. reflexivity.
Qed.

Lemma stream_read_8bit_outside T :
  read_index_ this + sizeof T > size ->
  Stream.read_8bit T (this, h) = Undefined.
Proof.
  intros Hout. destruct Hwf as (_ & Hr & _). pose proof (sizeof_pos T).
  unfold Stream.read_8bit. rewrite add_in_object by lia. fold size.
  destruct (Z.ltb_spec size (read_index_ this + sizeof T)); [reflexivity|lia].
Qed.

Lemma stream_read_8bit_inside T :
  is_8bit_basictype T = true ->
  read_index_ this + sizeof T <= size ->
  exists x,
    bytes !! Z.to_nat (read_index_ this) = Some x /\
    Stream.read_8bit T (this, h)
    = Ok (convert T x) (Stream.set_read_index this (read_index_ this + sizeof T), h).
Proof.
  intros HT Hin. destruct Hwf as (_ & Hr & _).
  assert (sizeof T = 1) as Hs by (destruct T; try discriminate; reflexivity).
  rewrite Hs in *.
  destruct stream_block as (b & data & Eb & Hd & Hlen & Hmax & Hbytes); [lia|].
  destruct (lookup_lt_is_Some_2 data (Z.to_nat (read_index_ this))) as [x Hx]; [lia|].
  exists x. split.
  - rewrite Hbytes. rewrite lookup_take_lt by lia. exact Hx.
  - unfold Stream.read_8bit. rewrite Hs, add_in_object by lia. fold size.
    destruct (Z.ltb_spec size (read_index_ this + 1)); [lia|].
    cbn [buffer_ Stream.set_read_index]. rewrite Eb.
    rewrite (load_bytes_ok _ _ _ _ data) by (auto; lia).
    now rewrite (segment_one data _ x) by (auto; lia).
Qed.

Lemma stream_write_outside T e v :
  write_index_ this + sizeof T > size ->
  Stream.write_e host T e v (this, h) = Undefined /\
  Stream.write_8bit T v (this, h) = Undefined.
Proof.
  intros Hout. destruct Hwf as (_ & _ & Hw). pose proof (sizeof_pos T).
  unfold Stream.write_e, Stream.write_8bit. rewrite add_in_object by lia. fold size.
  destruct (Z.ltb_spec size (write_index_ this + sizeof T)); [split; reflexivity|lia].
Qed.

(** A store of [bs] at the write index, inside the buffer. *)
Lemma stream_store_inside (bs : list Z) :
  write_index_ this + Z.of_nat (length bs) <= size -> (0 < length bs)%nat ->
  exists h',
    Mem.store_bytes (Buffer.begin (buffer_ this)) (write_index_ this) bs h = Some h' /\
    segment (write_index_ this) (Z.of_nat (length bs)) (buffer_bytes (buffer_ this) h') = bs /\
    length (buffer_bytes (buffer_ this) h') = length bytes /\
    (forall i : nat,
        Z.of_nat i < write_index_ this
        \/ write_index_ this + Z.of_nat (length bs) <= Z.of_nat i ->
        buffer_bytes (buffer_ this) h' !! i = bytes !! i) /\
    buffer_wf (buffer_ this) h'.
Proof.
  intros Hin Hne. destruct Hwf as (Hb & _ & Hw).
  destruct stream_block as (b & data & Eb & Hd & Hlen & Hmax & Hbytes); [lia|].
  destruct (store_bytes_ok b (write_index_ this) bs h data Hd)
    as (h' & Hst & Hc' & _); [lia|lia|].
  exists h'. rewrite Eb. split; [exact Hst|].
  assert (Z.to_nat (write_index_ this) + length bs <= length data)%nat as Hfit by lia.
  assert (buffer_bytes (buffer_ this) h'
          = take (Z.to_nat size)
              (take (Z.to_nat (write_index_ this)) data ++ bs
               ++ drop (Z.to_nat (write_index_ this) + length bs) data)) as Hb'.
  { unfold buffer_bytes, continer_bytes, Mem.block_data.
    unfold Buffer.begin, Continer.begin in Eb. rewrite Eb, Hc'. reflexivity. }
  rewrite Hb', Hbytes. split; [|split; [|split]].
  - rewrite segment_take by lia. unfold segment. rewrite Nat2Z.id.
    now apply segment_stored_same.
  - rewrite !length_take, length_stored by exact Hfit. reflexivity.
  - intros i Hi.
    destruct (Nat.lt_ge_cases i (Z.to_nat size)) as [Hlt|Hge].
    + rewrite !lookup_take_lt by exact Hlt.
      apply lookup_stored_outside; [exact Hfit|lia].
    + rewrite !lookup_take_ge by exact Hge. reflexivity.
  - eapply continer_wf_store; eauto.
Qed.

End Cursor.

Lemma throws_iff {S A} (o : outcome S A) (s : S) (P : Prop) pos need :
  (P -> o = Throw (out_of_range pos need) s) ->
  (~ P -> exists a s', o = Ok a s') ->
  (P \/ ~ P) ->
  (throws_out_of_range o s <-> P).
Proof.
  intros Hout Hin Hdec. split.
  - intros (p & n & E). destruct Hdec as [HP|HP]; [exact HP|].
    destruct (Hin HP) as (a & s' & E'). congruence.
  - intros HP. exists pos, need. now apply Hout.
Qed.

Lemma undefined_iff {S A} (o : outcome S A) (P : Prop) :
  (P -> o = Undefined) ->
  (~ P -> exists a s', o = Ok a s') ->
  (P \/ ~ P) ->
  (o = Undefined <-> P).
Proof.
  intros Hout Hin Hdec. split; [|exact Hout].
  intros E. destruct Hdec as [HP|HP]; [exact HP|].
  destruct (Hin HP) as (a & s' & E'). congruence.
Qed.

Lemma basictype_cases T :
  is_endian_basictype T = true \/ is_8bit_basictype T = true.
Proof. destruct T; cbn; auto. Qed.

(** Neither a read nor a write of the cursor touches its buffer object:
    the container, and with it the size, is the same afterwards. *)
Lemma stream_access_keeps_buffer host T e v this h this' h' :
  final_state (Stream.read_e host T e (this, h)) = Some (this', h')
  \/ final_state (Stream.read_8bit T (this, h)) = Some (this', h')
  \/ final_state (Stream.read host T (this, h)) = Some (this', h')
  \/ final_state (Stream.write_e host T e v (this, h)) = Some (this', h')
  \/ final_state (Stream.write_8bit T v (this, h)) = Some (this', h')
  \/ final_state (Stream.write host T v (this, h)) = Some (this', h') ->
  buffer_ this' = buffer_ this.
Proof.
  assert (forall e0, final_state (Stream.read_e host T e0 (this, h)) = Some (this', h')
                     -> buffer_ this' = buffer_ this) as Hre.
  { intros e0. unfold Stream.read_e. rewrite stream_xran_undefined.
    repeat break_match; cbn; intros H; inv_state; reflexivity. }
  assert (final_state (Stream.read_8bit T (this, h)) = Some (this', h')
          -> buffer_ this' = buffer_ this) as Hr8.
  { unfold Stream.read_8bit. rewrite stream_xran_undefined.
    repeat break_match; cbn; intros H; inv_state; reflexivity. }
  assert (forall e0, final_state (Stream.write_e host T e0 v (this, h)) = Some (this', h')
                     -> buffer_ this' = buffer_ this) as Hwe.
  { intros e0. unfold Stream.write_e. rewrite stream_xran_undefined.
    destruct (_ <? _); [discriminate|].
    intros H. apply heap_call_final in H as [-> _]. reflexivity. }
  assert (final_state (Stream.write_8bit T v (this, h)) = Some (this', h')
          -> buffer_ this' = buffer_ this) as Hw8.
  { unfold Stream.write_8bit. rewrite stream_xran_undefined.
    destruct (_ <? _); [discriminate|].
    intros H. apply heap_call_final in H as [-> _]. reflexivity. }
  intros [H|[H|[H|[H|[H|H]]]]]; eauto.
  - revert H. unfold Stream.read, Stream.read_native, Stream.read_le, Stream.read_be.
    repeat break_match; eauto.
  - revert H. unfold Stream.write, Stream.write_native, Stream.write_le, Stream.write_be.
    repeat break_match; eauto.
Qed.

(** C4: the cursor.  Inside the buffer ([index + sizeof(T)] does not
    exceed the size) [read<T>()] decodes the [sizeof(T)] bytes at
    [read_index] and advances [read_index] by [sizeof(T)], and
    [write<T>(value)] stores the encoding of [value] at [write_index],
    changes no other byte and advances [write_index] by [sizeof(T)]; the
    other index and the buffer object are as they were.  Past the end
    the call reaches [xran], whose message (84 characters for a read, 86
    for a write, and the terminating [NUL]) does not fit its array
    [char buf[80]]: the behaviour is undefined, exactly when
    [index + sizeof(T)] exceeds the size, and no [out_of_range] reaches
    the caller.  No read and no write that returns changes the buffer
    object, so the size stays. *)
Theorem cursor_contract host T e v this h :
  stream_wf this h ->
  let size := Buffer.size (buffer_ this) in
  let bytes := buffer_bytes (buffer_ this) h in
  let after_read :=
    mkStreamBufferT (read_index_ this + sizeof T) (write_index_ this) (buffer_ this) in
  let after_write :=
    mkStreamBufferT (read_index_ this) (write_index_ this + sizeof T) (buffer_ this) in
  (* the messages of [xran], and the array that [sprintf] fills *)
  (Printf.formatted_length Printf.StreamBufferT_xran_read = 84 /\
   Printf.formatted_length Printf.StreamBufferT_xran_write = 86 /\
   Stream.xran_buf_size = 80) /\
  (* read with an explicit order *)
  ((Stream.read_e host T e (this, h) = Undefined
    <-> read_index_ this + sizeof T > size) /\
   (read_index_ this + sizeof T <= size ->
    Stream.read_e host T e (this, h)
    = Ok (Endian.read host T e (segment (read_index_ this) (sizeof T) bytes))
         (after_read, h))) /\
  (* read of a one-byte type *)
  (is_8bit_basictype T = true ->
   (Stream.read_8bit T (this, h) = Undefined
    <-> read_index_ this + sizeof T > size) /\
   (read_index_ this + sizeof T <= size ->
    exists x,
      bytes !! Z.to_nat (read_index_ this) = Some x /\
      Stream.read_8bit T (this, h) = Ok (convert T x) (after_read, h))) /\
  (* read<T>(), the overload chosen by the type *)
  ((Stream.read host T (this, h) = Undefined
    <-> read_index_ this + sizeof T > size) /\
   (read_index_ this + sizeof T <= size ->
    exists x, Stream.read host T (this, h) = Ok x (after_read, h))) /\
  (* write with an explicit order *)
  ((Stream.write_e host T e v (this, h) = Undefined
    <-> write_index_ this + sizeof T > size) /\
   (write_index_ this + sizeof T <= size ->
    exists h',
      Stream.write_e host T e v (this, h) = Ok tt (after_write, h') /\
      segment (write_index_ this) (sizeof T) (buffer_bytes (buffer_ this) h')
      = Endian.write host T e v /\
      (forall i : nat,
          Z.of_nat i < write_index_ this
          \/ write_index_ this + sizeof T <= Z.of_nat i ->
          buffer_bytes (buffer_ this) h' !! i = bytes !! i))) /\
  (* write of a one-byte type *)
  (is_8bit_basictype T = true ->
   (Stream.write_8bit T v (this, h) = Undefined
    <-> write_index_ this + sizeof T > size) /\
   (write_index_ this + sizeof T <= size ->
    exists h',
      Stream.write_8bit T v (this, h) = Ok tt (after_write, h') /\
      buffer_bytes (buffer_ this) h' !! Z.to_nat (write_index_ this) = Some (v mod 256) /\
      (forall i : nat,
          Z.of_nat i < write_index_ this
          \/ write_index_ this + sizeof T <= Z.of_nat i ->
          buffer_bytes (buffer_ this) h' !! i = bytes !! i))) /\
  (* write(value), the overload chosen by the type *)
  ((Stream.write host T v (this, h) = Undefined
    <-> write_index_ this + sizeof T > size) /\
   (write_index_ this + sizeof T <= size ->
    exists h', Stream.write host T v (this, h) = Ok tt (after_write, h'))) /\
  (* no [out_of_range] reaches the caller *)
  (~ throws_out_of_range (Stream.read host T (this, h)) (this, h) /\
   ~ throws_out_of_range (Stream.write host T v (this, h)) (this, h)) /\
  (* the size of the buffer *)
  (forall this' h',
      final_state (Stream.read host T (this, h)) = Some (this', h')
      \/ final_state (Stream.write host T v (this, h)) = Some (this', h') ->
      Buffer.size (buffer_ this') = size).
Proof.
  intros Hwf size bytes after_read after_write.
  pose proof (sizeof_pos T) as Hp.
  pose proof Hwf as (Hb & Hr & Hw).
  assert (forall idx, idx + sizeof T > size \/ ~ idx + sizeof T > size) as Hdec
    by (intros; lia).
  (* the facts, for every order *)
  assert (forall e0,
             (Stream.read_e host T e0 (this, h) = Undefined
              <-> read_index_ this + sizeof T > size) /\
             (read_index_ this + sizeof T <= size ->
              Stream.read_e host T e0 (this, h)
              = Ok (Endian.read host T e0 (segment (read_index_ this) (sizeof T) bytes))
                   (after_read, h)))
    as Hread_e.
  { intros e0. split.
    - apply undefined_iff; [|intros Hin|apply Hdec].
      + now apply stream_read_e_outside.
      + rewrite stream_read_e_inside by (auto; lia). eauto.
    - intros Hin. now apply stream_read_e_inside. }
  assert (is_8bit_basictype T = true ->
          (Stream.read_8bit T (this, h) = Undefined
           <-> read_index_ this + sizeof T > size) /\
          (read_index_ this + sizeof T <= size ->
           exists x,
             bytes !! Z.to_nat (read_index_ this) = Some x /\
             Stream.read_8bit T (this, h) = Ok (convert T x) (after_read, h)))
    as Hread_8.
  { intros HT. split.
    - apply undefined_iff; [|intros Hin|apply Hdec].
      + now apply stream_read_8bit_outside.
      + destruct (stream_read_8bit_inside this h Hwf T HT) as (x & _ & E);
          [subst size; lia|]. rewrite E. eauto.
    - intros Hin. now apply stream_read_8bit_inside. }
  assert (forall e0,
             (Stream.write_e host T e0 v (this, h) = Undefined
              <-> write_index_ this + sizeof T > size) /\
             (write_index_ this + sizeof T <= size ->
              exists h',
                Stream.write_e host T e0 v (this, h) = Ok tt (after_write, h') /\
                segment (write_index_ this) (sizeof T) (buffer_bytes (buffer_ this) h')
                = Endian.write host T e0 v /\
                (forall i : nat,
                    Z.of_nat i < write_index_ this
                    \/ write_index_ this + sizeof T <= Z.of_nat i ->
                    buffer_bytes (buffer_ this) h' !! i = bytes !! i)))
    as Hwrite_e.
  { intros e0.
    assert (write_index_ this + sizeof T <= size ->
            exists h',
              Stream.write_e host T e0 v (this, h) = Ok tt (after_write, h') /\
              segment (write_index_ this) (sizeof T) (buffer_bytes (buffer_ this) h')
              = Endian.write host T e0 v /\
              (forall i : nat,
                  Z.of_nat i < write_index_ this
                  \/ write_index_ this + sizeof T <= Z.of_nat i ->
                  buffer_bytes (buffer_ this) h' !! i = bytes !! i)) as Hin_e.
    { intros Hin.
      assert (Z.of_nat (length (Endian.write host T e0 v)) = sizeof T) as Hl
        by (rewrite length_Endian_write; reflexivity).
      destruct (stream_store_inside this h Hwf (Endian.write host T e0 v))
        as (h' & Hst & Hseg & _ & Hframe & _).
      { rewrite Hl. exact Hin. }
      { rewrite length_Endian_write. destruct T; cbn; lia. }
      exists h'. rewrite Hl in *. split; [|split; [exact Hseg|exact Hframe]].
      unfold Stream.write_e. rewrite add_in_object by lia.
      destruct (Z.ltb_spec (Buffer.size (buffer_ this)) (write_index_ this + sizeof T));
        [subst size; lia|].
      unfold heap_call. cbn [buffer_ Stream.set_write_index]. now rewrite Hst. }
    split; [|exact Hin_e].
    apply undefined_iff; [|intros Hin|apply Hdec].
    - intros Hout. now apply (stream_write_outside host this h Hwf T e0 v).
    - destruct Hin_e as (h' & E & _); [lia|]. rewrite E. eauto. }
  assert (is_8bit_basictype T = true ->
          (Stream.write_8bit T v (this, h) = Undefined
           <-> write_index_ this + sizeof T > size) /\
          (write_index_ this + sizeof T <= size ->
           exists h',
             Stream.write_8bit T v (this, h) = Ok tt (after_write, h') /\
             buffer_bytes (buffer_ this) h' !! Z.to_nat (write_index_ this)
             = Some (v mod 256) /\
             (forall i : nat,
                 Z.of_nat i < write_index_ this
                 \/ write_index_ this + sizeof T <= Z.of_nat i ->
                 buffer_bytes (buffer_ this) h' !! i = bytes !! i)))
    as Hwrite_8.
  { intros HT.
    assert (sizeof T = 1) as Hs by (destruct T; try discriminate; reflexivity).
    assert (write_index_ this + sizeof T <= size ->
            exists h',
              Stream.write_8bit T v (this, h) = Ok tt (after_write, h') /\
              buffer_bytes (buffer_ this) h' !! Z.to_nat (write_index_ this)
              = Some (v mod 256) /\
              (forall i : nat,
                  Z.of_nat i < write_index_ this
                  \/ write_index_ this + sizeof T <= Z.of_nat i ->
                  buffer_bytes (buffer_ this) h' !! i = bytes !! i)) as Hin_8.
    { intros Hin. subst after_write. rewrite Hs in *.
      destruct (stream_store_inside this h Hwf [v mod 256])
        as (h' & Hst & Hseg & _ & Hframe & _); [exact Hin|cbn; lia|].
      exists h'. split; [|split; [|exact Hframe]].
      - unfold Stream.write_8bit. rewrite Hs, add_in_object by lia.
        destruct (Z.ltb_spec (Buffer.size (buffer_ this)) (write_index_ this + 1));
          [subst size; lia|].
        unfold heap_call. cbn [buffer_ Stream.set_write_index]. now rewrite Hst.
      - unfold segment in Hseg. cbn [length] in Hseg.
        change (Z.to_nat (Z.of_nat 1)) with 1%nat in Hseg.
        destruct (drop _ _) as [|y l] eqn:Ed; [discriminate|].
        injection Hseg as ->.
        pose proof (lookup_drop (buffer_bytes (buffer_ this) h')
                      (Z.to_nat (write_index_ this)) 0) as Hl.
        rewrite Ed, Nat.add_0_r in Hl. now rewrite <- Hl. }
    split; [|exact Hin_8].
    apply undefined_iff; [|intros Hin|apply Hdec].
    - intros Hout. now apply (stream_write_outside host this h Hwf T e v).
    - destruct Hin_8 as (h' & E & _); [lia|]. rewrite E. eauto. }
  assert ((Stream.read host T (this, h) = Undefined
           <-> read_index_ this + sizeof T > size) /\
          (read_index_ this + sizeof T <= size ->
           exists x, Stream.read host T (this, h) = Ok x (after_read, h))) as Hread.
  { unfold Stream.read, Stream.read_native, Stream.read_le, Stream.read_be.
    destruct (basictype_cases T) as [HT|HT].
    - rewrite HT. destruct (Endianness_eqb _ _).
      + destruct (Hread_e kLittleEndian) as [H1 H2]. split; [exact H1|]. eauto.
      + destruct (Hread_e kBigEndian) as [H1 H2]. split; [exact H1|]. eauto.
    - replace (is_endian_basictype T) with false
        by (destruct T; cbn in *; congruence).
      destruct (Hread_8 HT) as [H1 H2]. split; [exact H1|].
      intros Hin. destruct (H2 Hin) as (x & _ & E). eauto. }
  assert ((Stream.write host T v (this, h) = Undefined
           <-> write_index_ this + sizeof T > size) /\
          (write_index_ this + sizeof T <= size ->
           exists h', Stream.write host T v (this, h) = Ok tt (after_write, h')))
    as Hwrite.
  { unfold Stream.write, Stream.write_native, Stream.write_le, Stream.write_be.
    destruct (basictype_cases T) as [HT|HT].
    - rewrite HT. destruct (Endianness_eqb _ _).
      + destruct (Hwrite_e kLittleEndian) as [H1 H2]. split; [exact H1|].
        intros Hin. destruct (H2 Hin) as (h' & E & _). eauto.
      + destruct (Hwrite_e kBigEndian) as [H1 H2]. split; [exact H1|].
        intros Hin. destruct (H2 Hin) as (h' & E & _). eauto.
    - replace (is_endian_basictype T) with false
        by (destruct T; cbn in *; congruence).
      destruct (Hwrite_8 HT) as [H1 H2]. split; [exact H1|].
      intros Hin. destruct (H2 Hin) as (h' & E & _). eauto. }
  split; [repeat split|].
  split; [apply Hread_e|]. split; [exact Hread_8|]. split; [exact Hread|].
  split; [apply Hwrite_e|]. split; [exact Hwrite_8|]. split; [exact Hwrite|].
  split.
  { split; intros (pos & need & E).
    - destruct Hread as [H1 H2].
      destruct (Hdec (read_index_ this)) as [Hout|Hin].
      + apply H1 in Hout. congruence.
      + destruct H2 as (x & E'); [lia|]. congruence.
    - destruct Hwrite as [H1 H2].
      destruct (Hdec (write_index_ this)) as [Hout|Hin].
      + apply H1 in Hout. congruence.
      + destruct H2 as (h' & E'); [lia|]. congruence. }
  intros this' h' H.
  erewrite (stream_access_keeps_buffer host T e v this h this' h'); [reflexivity|].
  destruct H as [H|H]; auto 10.
Qed.

Lemma cursor15_wf : stream_wf cursor15 zeros16_heap.
Proof.
  split; [exact zeros16_wf|]. cbn. rewrite PTRDIFF_MAX_eq. lia.
Qed.

Lemma cursor_contract_witness :
  Stream.read kLittleEndian UInt16 (cursor15, zeros16_heap) = Undefined /\
  Stream.write kLittleEndian UInt16 7 (cursor15, zeros16_heap) = Undefined /\
  ~ throws_out_of_range (Stream.read kLittleEndian UInt16 (cursor15, zeros16_heap))
      (cursor15, zeros16_heap) /\
  (exists x,
      Stream.read kLittleEndian UInt8 (cursor15, zeros16_heap)
      = Ok x (mkStreamBufferT 16 15 zeros16, zeros16_heap)) /\
  (exists h',
      Stream.write kLittleEndian UInt8 7 (cursor15, zeros16_heap)
      = Ok tt (mkStreamBufferT 15 16 zeros16, h')).
Proof.
  pose proof (cursor_contract kLittleEndian UInt16 kBigEndian 7
                cursor15 zeros16_heap cursor15_wf)
    as (_ & _ & _ & (Hread16 & _) & _ & _ & (Hwrite16 & _) & (Hno & _) & _).
  pose proof (cursor_contract kLittleEndian UInt8 kBigEndian 7
                cursor15 zeros16_heap cursor15_wf)
    as (_ & _ & _ & (_ & Hread) & _ & _ & (_ & Hwrite) & _).
  split; [|split; [|split; [|split]]].
  - apply Hread16. reflexivity.
  - apply Hwrite16. reflexivity.
  - exact Hno.
  - apply Hread. apply Z.leb_le. reflexivity.
  - apply Hwrite. apply Z.leb_le. reflexivity.
Defined.

(* --------------------------------------------------------------------- *)
(** *** [slice] *)
(* --------------------------------------------------------------------- *)

Lemma ten_constructed :
  Buffer.of_pointer (Some 0%nat) 0 10 ten_caller_heap = Ok ten ten_heap.
Proof. reflexivity. Qed.

Lemma ten_wf : buffer_wf ten ten_heap.
Proof.
  unfold buffer_wf, continer_wf, heap_wf. cbn.
  rewrite PTRDIFF_MAX_eq. unfold Continer.DEFAULT_SHRINK_TRIGGER_COUNT.
  repeat split; try lia.
  eexists. split; [reflexivity|]. cbn. lia.
Qed.

(** A request above what the allocator grants, on a container that
    holds no memory: [reserve] throws [bad_alloc]. *)
Lemma of_pointer_too_large buf off n h :
  Mem.alloc_limit h < n -> 32 <= n ->
  Continer.is_null buf off = false ->
  Continer.of_pointer buf off n h = Throw bad_alloc h.
Proof.
  intros Hlim Hn Hnull.
  unfold Continer.of_pointer, construct. rewrite Hnull. cbn [negb andb].
  destruct (Z.ltb_spec 0 n); [|lia].
  unfold bind, Continer.reserve. cbn [capacity_ Continer.set_capacity].
  destruct (Z.ltb_spec 0 n); [|lia].
  unfold Continer.reallocate_to_capacity.
  cbn [ref_ negb buf_ capacity_ Continer.set_capacity].
  unfold Mem.realloc. rewrite malloc_fail; [reflexivity|].
  change (SizeT.mul 2 0) with 0. unfold Continer.DEFAULT_MINI_SIZE. lia.
Qed.

(** [slice] with [offset] beyond the size (and no wrap-around of
    [count + offset]) asks for a buffer of [size() - offset] bytes,
    computed in [size_t]: a number above [PTRDIFF_MAX].  The allocation
    fails and [slice] throws [bad_alloc]. *)
Lemma slice_offset_beyond_throws offset count this h :
  buffer_wf this h ->
  0 < Buffer.size this < offset -> offset <= SizeT.PTRDIFF_MAX ->
  0 <= count -> count + offset < SizeT.modulus ->
  Buffer.slice offset count (this, h) = Throw bad_alloc (this, h).
Proof.
  intros Hwf Hoff Hmax Hcount Hnw.
  pose proof Hwf as ((Hl0 & Hl1) & Hs & Hc & _).
  unfold Buffer.size, Continer.size in *.
  unfold Buffer.slice, Buffer.empty, Continer.empty, Buffer.size, Continer.size.
  destruct (Z.eqb_spec (size_ (continer_ this)) 0); [lia|].
  rewrite add_small by lia.
  destruct (Z.leb_spec (size_ (continer_ this)) (count + offset)); [|lia].
  unfold Buffer.of_pointer, bind.
  rewrite of_pointer_too_large; [reflexivity| | |].
  - unfold SizeT.sub, SizeT.wrap.
    rewrite <- (Z.mod_add _ 1) by (rewrite modulus_eq; lia).
    rewrite Z.mod_small; rewrite modulus_eq; rewrite PTRDIFF_MAX_eq in *; lia.
  - unfold SizeT.sub, SizeT.wrap.
    rewrite <- (Z.mod_add _ 1) by (rewrite modulus_eq; lia).
    rewrite Z.mod_small; rewrite modulus_eq; rewrite PTRDIFF_MAX_eq in *; lia.
  - destruct (continer_wf_block _ _ Hwf) as (b & data & Eb & _); [lia|].
    unfold Buffer.begin, Continer.begin. now rewrite Eb.
Qed.

(** C5 (the input on which the code fails): on a buffer of size 10,
    [slice(8, 100)] is the two bytes at 8 and 9, in a block of its own;
    [slice(10, 1)] is the empty buffer; but [slice(11, 1)], where
    [offset >= size()] as well, is not the empty buffer: [size() - offset]
    wraps to [SIZE_MAX], the constructor asks for that many bytes, and
    the call ends in [bad_alloc]. *)
Theorem slice_beyond_size :
  Buffer.of_pointer (Some 0%nat) 0 10 ten_caller_heap = Ok ten ten_heap /\
  Buffer.size ten = 10 /\
  (exists b h',
      Buffer.slice 8 100 (ten, ten_heap) = Ok b (ten, h') /\
      buffer_bytes b h' = [8; 9] /\
      Buffer.begin b <> Buffer.begin ten /\
      Mem.contents ten_heap 2%nat = None /\ Buffer.begin b = Some 2%nat) /\
  Buffer.slice 10 1 (ten, ten_heap) = Ok Buffer.default (ten, ten_heap) /\
  11 >= Buffer.size ten /\
  SizeT.sub (Buffer.size ten) 11 = SizeT.SIZE_MAX /\
  Buffer.slice 11 1 (ten, ten_heap) = Throw bad_alloc (ten, ten_heap).
Proof.
  split; [reflexivity|]. split; [reflexivity|]. split.
  { eexists _, _. split; [reflexivity|]. split; [reflexivity|].
    split; [discriminate|]. split; reflexivity. }
  split; [reflexivity|]. split; [discriminate|]. split; reflexivity.
Qed.

(* --------------------------------------------------------------------- *)
(** *** The representation invariant is kept *)
(* --------------------------------------------------------------------- *)

(** [reserve] returns only if the allocator granted the capacity. *)
Lemma reallocate_Ok_limit this h this' h' :
  Continer.reallocate_to_capacity (this, h) = Ok tt (this', h') ->
  capacity_ this <= Mem.alloc_limit h.
Proof.
  unfold Continer.reallocate_to_capacity.
  destruct (Z.le_gt_cases (capacity_ this) (Mem.alloc_limit h)) as [Hle|Hgt];
    [intros _; exact Hle|].
  destruct (ref_ this); cbn [negb].
  - rewrite malloc_fail by lia. unfold Mem.memcpy, Mem.overlap.
    destruct (size_ this =? 0); [discriminate|].
    destruct (Mem.load_bytes _ _ _ _); discriminate.
  - unfold Mem.realloc. destruct (buf_ this) as [b|].
    + destruct (Mem.contents h b); [|discriminate].
      destruct (capacity_ this =? 0); [discriminate|].
      destruct (Z.leb_spec (capacity_ this) (Mem.alloc_limit h)); [lia|discriminate].
    + rewrite malloc_fail by lia. discriminate.
Qed.

Lemma reserve_grows_Ok_limit this h n this' h' :
  continer_wf this h -> capacity_ this < n ->
  Continer.reserve n (this, h) = Ok tt (this', h') ->
  Z.max n (Z.max (2 * capacity_ this) 32) <= Mem.alloc_limit h.
Proof.
  intros (Hh & Hs & Hc & _) Hn. unfold Continer.reserve.
  destruct (Z.ltb_spec (capacity_ this) n); [|lia].
  intros E. apply reallocate_Ok_limit in E.
  cbn [capacity_ Continer.set_capacity] in E.
  rewrite grown_capacity in E by lia. exact E.
Qed.

Lemma free_limit b h h' :
  Mem.free b h = Some h' -> Mem.alloc_limit h' = Mem.alloc_limit h.
Proof.
  unfold Mem.free. destruct (Mem.contents h b); [|discriminate].
  now intros [= <-].
Qed.

Lemma default_wf h : heap_wf h -> continer_wf Continer.default h.
Proof.
  intros Hh. unfold continer_wf, Continer.DEFAULT_SHRINK_TRIGGER_COUNT. cbn.
  rewrite PTRDIFF_MAX_eq. repeat split; try lia; apply Hh.
Qed.

Lemma clear_wf this h this' h' :
  continer_wf this h ->
  Continer.clear (this, h) = Ok tt (this', h') ->
  continer_wf this' h'.
Proof.
  intros (Hh & _) H.
  assert (this' = Continer.default) as ->
    by (eapply clear_result; erewrite final_of_Ok; eauto).
  apply default_wf. revert H. unfold Continer.clear, heap_wf in *.
  destruct (buf_ this) as [b|]; [destruct (negb (ref_ this))|].
  - destruct (Mem.free b h) as [h0|] eqn:E; [|discriminate].
    pose proof (free_limit _ _ _ E) as Hl.
    intros H; inv_state. rewrite Hl. exact Hh.
  - intros H; inv_state. exact Hh.
  - intros H; inv_state. exact Hh.
Qed.

(** [reserve] above the capacity, when it returns. *)
Lemma reserve_grows_wf this h n this' h' :
  continer_wf this h -> capacity_ this < n -> 0 < n ->
  Continer.reserve n (this, h) = Ok tt (this', h') ->
  size_ this' = size_ this /\ n <= capacity_ this' /\
  shrink_counter_ this' = shrink_counter_ this /\
  continer_bytes this' h' = continer_bytes this h /\
  Mem.alloc_limit h' = Mem.alloc_limit h /\
  capacity_ this' <= Mem.alloc_limit h /\
  ref_ this' = false /\
  exists b' data',
    buf_ this' = Some b' /\ Mem.contents h' b' = Some data' /\
    Z.of_nat (length data') = capacity_ this'.
Proof.
  intros Hwf Hn Hpos H.
  pose proof (reserve_grows_Ok_limit _ _ _ _ _ Hwf Hn H) as Hlim.
  destruct (reserve_grows this h n Hwf Hn Hlim)
    as (b' & h1 & data' & Hre & _ & Hd' & Hlen & Htake & Hl & _).
  rewrite Hre in H. inv_state. cbn [size_ capacity_ shrink_counter_ buf_ ref_].
  repeat split; auto; try lia.
  - unfold continer_bytes at 1, Mem.block_data. cbn [buf_ size_].
    rewrite Hd'. exact Htake.
  - eauto.
Qed.

Lemma resize_wf n this h this' h' :
  continer_wf this h -> 0 <= n ->
  Continer.resize n (this, h) = Ok tt (this', h') ->
  continer_wf this' h' /\ size_ this' = n /\
  take (Z.to_nat (Z.min n (size_ this))) (continer_bytes this' h')
  = take (Z.to_nat (Z.min n (size_ this))) (continer_bytes this h).
Proof.
  intros Hwf Hn. pose proof Hwf as (Hh & Hs & Hc & Hk & Hb).
  unfold Continer.resize, bind.
  destruct (Z.eqb_spec n 0) as [->|Hnz].
  - destruct (Continer.clear (this, h)) as [[] [c1 h1]|e [c1 h1]|] eqn:E;
      try discriminate.
    intros H. inv_state. pose proof (clear_wf _ _ _ _ Hwf E) as Hwf1.
    assert (c1 = Continer.default) as ->
      by (eapply clear_result; erewrite final_of_Ok; eauto).
    split; [exact Hwf1|]. split; [reflexivity|].
    replace (Z.min 0 (size_ this)) with 0 by lia. reflexivity.
  - destruct (Z.ltb_spec (capacity_ this) n) as [Hgt|Hle].
    + destruct (Continer.reserve n (this, h)) as [[] [c1 h1]|e [c1 h1]|] eqn:E;
        try discriminate.
      intros H. inv_state.
      destruct (reserve_grows_wf _ _ _ _ _ Hwf Hgt ltac:(lia) E)
        as (Hsz & Hcap & Hcnt & Hbytes & Hl & Hlim & Hr & b' & data' & Eb & Hd' & Hlen).
      split; [|split; [reflexivity|]].
      * unfold continer_wf, heap_wf in *.
        cbn [size_ capacity_ shrink_counter_ buf_ ref_ Continer.set_size].
        rewrite Hl, Hcnt, Eb, Hr. repeat split; try lia.
        exists data'. split; [exact Hd'|]. lia.
      * replace (Z.min n (size_ this)) with (size_ this) by lia.
        unfold continer_bytes in *. cbn [size_ buf_ Continer.set_size].
        rewrite Hsz in Hbytes. rewrite take_take.
        replace (_ `min` _)%nat with (Z.to_nat (size_ this)) by lia.
        rewrite Hbytes. rewrite take_take. f_equal. lia.
    + intros H. inv_state. split; [|split; [reflexivity|]].
      * unfold continer_wf in *.
        cbn [size_ capacity_ shrink_counter_ buf_ ref_ Continer.set_size].
        repeat split; try lia; try apply Hh.
        destruct (buf_ this) as [b|]; [|lia].
        destruct Hb as (_ & data & Hd & Hr). split; [lia|]. eauto.
      * unfold continer_bytes. cbn [size_ buf_ Continer.set_size].
        rewrite !take_take. f_equal. lia.
Qed.

(** [reserve(size_)] returns only if the allocator could serve it. *)
Lemma reserve_to_size_Ok_limit this h this' h' :
  continer_wf this h ->
  Continer.reserve (size_ this) (this, h) = Ok tt (this', h') ->
  size_ this < capacity_ this -> size_ this <= Mem.alloc_limit h.
Proof.
  intros (Hh & Hs & Hc & Hk & Hb) H Hlt. revert H. unfold Continer.reserve.
  destruct (Z.ltb_spec (capacity_ this) (size_ this)); [lia|].
  destruct (Z.ltb_spec (size_ this) (capacity_ this)); [|lia].
  intros E. apply reallocate_Ok_limit in E. exact E.
Qed.

Lemma shrink_wf this h this' h' :
  continer_wf this h ->
  Continer.shrink (this, h) = Ok tt (this', h') ->
  continer_wf this' h' /\ size_ this' = size_ this /\
  continer_bytes this' h' = continer_bytes this h.
Proof.
  intros Hwf. pose proof Hwf as (Hh & Hs & Hc & Hk & Hb).
  unfold Continer.DEFAULT_SHRINK_TRIGGER_COUNT in Hk.
  destruct (Z.eq_dec (size_ this) 0) as [Hz|Hnz].
  - unfold Continer.shrink, Continer.shrink_guard.
    destruct (Z.ltb_spec 0 (size_ this)); [lia|]. cbn [andb].
    intros Hrun. inv_state. split; [|split; reflexivity].
    apply set_shrink_counter_wf; [exact Hwf|].
    unfold Continer.DEFAULT_SHRINK_TRIGGER_COUNT. lia.
  - destruct (Z.eq_dec (shrink_counter_ this) 2) as [H2|H2].
    + intros Hrun.
      assert (size_ this < capacity_ this -> size_ this <= Mem.alloc_limit h) as Href.
      { revert Hrun. unfold Continer.shrink.
        rewrite shrink_guard_true by lia.
        unfold Continer.INT_MAX, Continer.DEFAULT_SHRINK_TRIGGER_COUNT.
        destruct (Z.eqb_spec (shrink_counter_ this) 2147483647); [lia|].
        cbn [shrink_counter_ size_ Continer.set_shrink_counter].
        destruct (Z.ltb_spec 2 (shrink_counter_ this + 1)); [|lia].
        unfold bind. rewrite reserve_counter.
        destruct (Continer.reserve (size_ this) (this, h))
          as [[] [c1 h1]|e [c1 h1]|] eqn:E; try discriminate.
        intros _. eapply reserve_to_size_Ok_limit; eauto. }
      destruct (shrink_compacts this h Hwf ltac:(lia) H2 ltac:(auto))
        as (c1 & h1 & E & _ & Hsz & _ & Hbytes & Hwf1).
      rewrite E in Hrun. inv_state. auto.
    + rewrite shrink_counts by
        (auto; unfold Continer.DEFAULT_SHRINK_TRIGGER_COUNT; lia).
      intros Hrun. inv_state. split; [|split; reflexivity].
      apply set_shrink_counter_wf; [exact Hwf|].
      unfold Continer.DEFAULT_SHRINK_TRIGGER_COUNT. lia.
Qed.

Lemma shrink_to_fit_wf this h this' h' :
  continer_wf this h ->
  Continer.shrink_to_fit (this, h) = Ok tt (this', h') ->
  continer_wf this' h' /\ size_ this' = size_ this /\
  continer_bytes this' h' = continer_bytes this h.
Proof.
  intros Hwf. pose proof Hwf as (Hh & Hs & Hc & Hk & Hb).
  unfold Continer.shrink_to_fit, bind.
  destruct (Z.ltb_spec 0 (size_ this)) as [Hpos|Hz].
  - destruct (Continer.reserve (size_ this) (this, h))
      as [[] [c1 h1]|e [c1 h1]|] eqn:E; try discriminate.
    intros Hrun. inv_state.
    destruct (reserve_to_size this h Hwf Hpos)
      as (c2 & h2 & E2 & _ & Hsz & _ & Hbytes & _ & Hwf2).
    { intros _. eapply reserve_to_size_Ok_limit; eauto. }
    rewrite E in E2. inv_state. split; [|split; assumption].
    apply set_shrink_counter_wf; [exact Hwf2|].
    unfold Continer.DEFAULT_SHRINK_TRIGGER_COUNT. lia.
  - intros Hrun. inv_state. split; [|split; reflexivity].
    apply set_shrink_counter_wf; [exact Hwf|].
    unfold Continer.DEFAULT_SHRINK_TRIGGER_COUNT. lia.
Qed.

Lemma push_back_wf val this h this' h' :
  continer_wf this h ->
  Continer.push_back val (this, h) = Ok tt (this', h') ->
  continer_wf this' h' /\ size_ this' = size_ this + 1 /\
  exists c1 h1 x,
    Continer.resize (size_ this + 1) (this, h) = Ok tt (c1, h1) /\
    read_byte_ref val h1 = Some x /\
    continer_bytes this' h' = continer_bytes this h ++ [x].
Proof.
  intros Hwf. pose proof Hwf as (Hh & Hs & Hc & Hk & Hb).
  unfold Continer.push_back, bind.
  rewrite add_in_object by lia.
  destruct (Continer.resize (size_ this + 1) (this, h))
    as [[] [c1 h1]|e [c1 h1]|] eqn:E; try discriminate.
  destruct (resize_wf (size_ this + 1) _ _ _ _ Hwf ltac:(lia) E)
    as (Hwf1 & Hsz1 & Hbytes1).
  destruct (read_byte_ref val h1) as [x|] eqn:Hval; [|discriminate].
  destruct (Mem.store_bytes (buf_ c1) (size_ this) [x] h1) as [h2|] eqn:Hst;
    [|discriminate].
  intros Hrun. inv_state.
  destruct (continer_wf_block _ _ Hwf1) as (b & data & Eb & Hd & Hlen & _); [lia|].
  rewrite Eb in Hst.
  split; [eapply continer_wf_store; eauto|]. split; [exact Hsz1|].
  exists this', h1, x. split; [reflexivity|]. split; [exact Hval|].
  destruct (store_bytes_ok b (size_ this) [x] h1 data Hd) as (h3 & Hst3 & Hc3 & _);
    [lia|cbn [length]; lia|].
  rewrite Hst in Hst3. inv_state.
  replace (Z.min (size_ this + 1) (size_ this)) with (size_ this) in Hbytes1 by lia.
  assert (take (Z.to_nat (size_ this)) data = continer_bytes this h) as Hold.
  { assert (take (Z.to_nat (size_ this)) (continer_bytes this h)
            = continer_bytes this h) as Hid.
    { unfold continer_bytes. rewrite take_take. f_equal. lia. }
    rewrite <- Hid, <- Hbytes1. unfold continer_bytes.
    rewrite Eb, Hsz1, (block_data_contents _ _ _ Hd), take_take. f_equal. lia. }
  unfold continer_bytes at 1.
  rewrite Eb, Hsz1, (block_data_contents _ _ _ Hc3), <- Hold.
  rewrite app_assoc. apply take_app_length'.
  rewrite length_app, length_take. cbn [length]. lia.
Qed.

(** Every public member function that changes a container and returns
    leaves it in a state that satisfies the invariant. *)
Lemma public_call_wf (c : Continer.Call) this h this' h' :
  continer_wf this h ->
  match c with
  | Continer.call_reserve _ => False
  | Continer.call_resize n => 0 <= n
  | _ => True
  end ->
  Continer.call c (this, h) = Ok tt (this', h') ->
  continer_wf this' h'.
Proof.
  intros Hwf Hc. destruct c; cbn [Continer.call]; intros Hrun.
  - contradiction.
  - eapply resize_wf; eauto.
  - eapply push_back_wf; eauto.
  - eapply shrink_wf; eauto.
  - eapply shrink_to_fit_wf; eauto.
  - eapply clear_wf; eauto.
Qed.

(* --------------------------------------------------------------------- *)
(** *** Constructors *)
(* --------------------------------------------------------------------- *)

(** The first [reserve] of a constructor, on a container that holds no
    memory yet. *)
Lemma reserve_from_empty n s k h :
  0 < n -> Z.max n 32 <= Mem.alloc_limit h ->
  Continer.reserve n (mkSimpleBufferT None s 0 k false, h)
  = Ok tt (mkSimpleBufferT (Some (length (Mem.blocks h))) s (Z.max n 32) k false,
           snd (Mem.new_block h (Mem.fresh_bytes h 0 (Z.to_nat (Z.max n 32))))).
Proof.
  intros Hn Hlim. unfold Continer.reserve. cbn [capacity_ Continer.set_capacity].
  destruct (Z.ltb_spec 0 n); [|lia].
  change (SizeT.mul 2 0) with 0.
  replace (Z.max Continer.DEFAULT_MINI_SIZE (Z.max n 0)) with (Z.max n 32)
    by (unfold Continer.DEFAULT_MINI_SIZE; lia).
  unfold Continer.reallocate_to_capacity.
  cbn [ref_ negb buf_ capacity_ Continer.set_capacity].
  unfold Mem.realloc. rewrite malloc_ok by exact Hlim. reflexivity.
Qed.

(** [SimpleBufferT(buf, size)] copies [size] bytes into a block of its
    own and leaves every block that existed as it was. *)
Lemma of_pointer_copies (src : nat) off n h data :
  heap_wf h -> Mem.contents h src = Some data ->
  0 <= off -> 0 < n -> off + n <= Z.of_nat (length data) ->
  Z.max n 32 <= Mem.alloc_limit h ->
  exists h',
    Continer.of_pointer (Some src) off n h
    = Ok (mkSimpleBufferT (Some (length (Mem.blocks h))) n (Z.max n 32) 0 false) h' /\
    continer_wf (mkSimpleBufferT (Some (length (Mem.blocks h))) n (Z.max n 32) 0 false) h' /\
    continer_bytes (mkSimpleBufferT (Some (length (Mem.blocks h))) n (Z.max n 32) 0 false) h'
    = segment off n data /\
    Mem.contents h (length (Mem.blocks h)) = None /\
    (forall b, b <> length (Mem.blocks h) -> Mem.contents h' b = Mem.contents h b).
Proof.
  intros Hh Hd Hoff Hn Hfit Hlim.
  set (b' := length (Mem.blocks h)).
  set (fresh := Mem.fresh_bytes h 0 (Z.to_nat (Z.max n 32))).
  set (h1 := snd (Mem.new_block h fresh)).
  pose proof (contents_lt _ _ _ Hd) as Hlt.
  assert (Mem.contents h1 b' = Some fresh) as Hf
    by (subst h1 b'; apply (contents_new_block_new h fresh)).
  assert (Mem.contents h1 src = Some data) as Hd1
    by (subst h1; rewrite contents_new_block_old; auto).
  assert (length (segment off n data) = Z.to_nat n) as Hls.
  { unfold segment. rewrite length_take, length_drop. lia. }
  assert (length fresh = Z.to_nat (Z.max n 32)) as Hlf
    by (subst fresh; apply length_fresh_bytes).
  destruct (store_bytes_ok b' 0 (segment off n data) h1 fresh Hf)
    as (h2 & Hst & Hc2 & Hother & Hlim2 & _); [lia|lia|].
  exists h2. split; [|split; [|split; [|split]]].
  - unfold Continer.of_pointer, construct, Continer.is_null. cbn [negb andb].
    destruct (Z.ltb_spec 0 n); [|lia].
    unfold bind. rewrite reserve_from_empty by assumption.
    fold b' fresh h1.
    cbn [Continer.set_size Continer.begin buf_ size_ capacity_ shrink_counter_ ref_].
    unfold heap_call, Mem.memcpy.
    destruct (Z.eqb_spec n 0); [lia|].
    assert (Mem.overlap (Some b') 0 (Some src) off n = false) as ->.
    { unfold Mem.overlap. destruct (Nat.eqb_spec b' src); [subst b'; lia|reflexivity]. }
    rewrite (load_bytes_ok _ _ _ _ data Hd1) by lia.
    rewrite Hst. reflexivity.
  - unfold continer_wf, heap_wf in *.
    cbn [size_ capacity_ shrink_counter_ buf_ ref_].
    unfold Continer.DEFAULT_SHRINK_TRIGGER_COUNT.
    rewrite Hlim2. subst h1. cbn [Mem.new_block snd Mem.alloc_limit].
    repeat split; try lia.
    eexists. split; [exact Hc2|]. rewrite length_stored by lia. lia.
  - unfold continer_bytes. cbn [buf_ size_].
    rewrite (block_data_contents _ _ _ Hc2).
    change (Z.to_nat 0) with 0%nat. rewrite take_0, app_nil_l.
    rewrite <- Hls. apply take_app_length.
  - apply contents_fresh. subst b'. lia.
  - intros b Hb. rewrite Hother by exact Hb.
    destruct (Nat.lt_ge_cases b b') as [Hl|Hg].
    + subst h1. now rewrite contents_new_block_old.
    + rewrite (contents_fresh h) by exact Hg. apply contents_fresh.
      subst h1. unfold Mem.new_block. cbn [snd Mem.blocks].
      rewrite length_app. cbn [length]. subst b'. lia.
Qed.

Lemma of_pointer_nothing buf off h :
  Continer.of_pointer buf off 0 h = Ok Continer.default h.
Proof.
  unfold Continer.of_pointer, construct. rewrite andb_false_r. reflexivity.
Qed.

Lemma of_value_nothing val h :
  Continer.of_value 0 val h = Ok Continer.default h.
Proof. reflexivity. Qed.

(** [byte_buffer::ref(p, n)] satisfies the invariant when [p] points to
    [n] bytes. *)
Lemma ref_wf (r : nat) n h data :
  heap_wf h -> Mem.contents h r = Some data ->
  0 < n <= Z.of_nat (length data) -> n <= SizeT.PTRDIFF_MAX ->
  continer_wf (Continer.ref (Some r) n) h.
Proof.
  intros Hh Hd Hn Hmax. unfold Continer.ref, Continer.is_null. cbn [negb andb].
  destruct (Z.ltb_spec 0 n); [|lia].
  unfold continer_wf, Continer.DEFAULT_SHRINK_TRIGGER_COUNT.
  cbn [size_ capacity_ shrink_counter_ buf_ ref_].
  repeat split; try lia; try apply Hh. exists data. split; [exact Hd|lia].
Qed.

(** What [slice] does when [offset] is inside the buffer (and
    [count + offset] does not wrap around, and the allocator grants the
    copy): the result holds the [min(count, size() - offset)] bytes from
    [offset] on, in storage of its own, and the source is as it was. *)
Lemma slice_inside offset count this h :
  buffer_wf this h ->
  0 <= offset <= Buffer.size this -> 0 <= count ->
  count + offset < SizeT.modulus ->
  Z.max (Z.min count (Buffer.size this - offset)) 32 <= Mem.alloc_limit h ->
  exists b h',
    Buffer.slice offset count (this, h) = Ok b (this, h') /\
    buffer_wf b h' /\
    Buffer.size b = Z.min count (Buffer.size this - offset) /\
    buffer_bytes b h'
    = segment offset (Z.min count (Buffer.size this - offset)) (buffer_bytes this h) /\
    buffer_bytes this h' = buffer_bytes this h /\
    ref_ (continer_ b) = false /\
    (0 < Buffer.size b ->
     Buffer.begin b <> Buffer.begin this /\
     exists nb, Buffer.begin b = Some nb /\ Mem.contents h nb = None).
Proof.
  intros Hwf Hoff Hcount Hnw Hlim.
  pose proof Hwf as (Hh & Hs & Hc & Hk & Hb).
  unfold Buffer.size, Continer.size in *.
  set (n := Z.min count (size_ (continer_ this) - offset)) in *.
  assert (size_ (continer_ this) < SizeT.modulus) as Hsm.
  { rewrite modulus_eq. rewrite PTRDIFF_MAX_eq in Hc. lia. }
  assert (exists c h',
             (if size_ (continer_ this) <=? SizeT.add count offset
              then Buffer.of_pointer (Buffer.begin this) offset
                     (SizeT.sub (size_ (continer_ this)) offset) h
              else Buffer.of_pointer (Buffer.begin this) offset count h)
             = Ok (mkBufferT c) h' /\
             continer_wf c h' /\ size_ c = n /\
             continer_bytes c h' = segment offset n (continer_bytes (continer_ this) h) /\
             continer_bytes (continer_ this) h' = continer_bytes (continer_ this) h /\
             ref_ c = false /\
             (0 < n -> buf_ c <> buf_ (continer_ this) /\
                       exists nb, buf_ c = Some nb /\ Mem.contents h nb = None))
    as (c & h' & Hmade & Hwfc & Hszc & Hbc & Hsame & Hrc & Hfresh).
  { assert ((if size_ (continer_ this) <=? SizeT.add count offset
             then Buffer.of_pointer (Buffer.begin this) offset
                    (SizeT.sub (size_ (continer_ this)) offset) h
             else Buffer.of_pointer (Buffer.begin this) offset count h)
            = Buffer.of_pointer (Buffer.begin this) offset n h) as ->.
    { rewrite add_small by lia. rewrite sub_small by lia. subst n.
      destruct (Z.leb_spec (size_ (continer_ this)) (count + offset)); f_equal; lia. }
    unfold Buffer.of_pointer, bind.
    destruct (Z.eq_dec n 0) as [Hz|Hnz].
    - rewrite Hz, of_pointer_nothing. exists Continer.default, h.
      split; [reflexivity|]. split; [now apply default_wf|].
      split; [reflexivity|]. split; [|split; [reflexivity|split; [reflexivity|lia]]].
      unfold segment. reflexivity.
    - assert (0 < n) as Hpos by (subst n; lia).
      destruct (continer_wf_block _ _ Hwf) as (sb & data & Eb & Hd & Hlen & _);
        [subst n; lia|].
      unfold Buffer.begin, Continer.begin. rewrite Eb.
      destruct (of_pointer_copies sb offset n h data Hh Hd)
        as (h' & Hof & Hwfc & Hbc & Hnone & Hother); [lia|lia|subst n; lia|exact Hlim|].
      rewrite Hof. eexists _, h'. split; [reflexivity|].
      assert (sb <> length (Mem.blocks h)) as Hne
        by (apply contents_lt in Hd; lia).
      split; [exact Hwfc|]. split; [reflexivity|]. split; [|split; [|split]].
      + rewrite Hbc. unfold continer_bytes.
        rewrite Eb, (block_data_contents _ _ _ Hd).
        symmetry. apply segment_take; subst n; lia.
      + unfold continer_bytes, Mem.block_data. rewrite Eb.
        now rewrite Hother by exact Hne.
      + reflexivity.
      + intros _. cbn [buf_]. split; [congruence|]. eauto. }
  unfold Buffer.slice, Buffer.empty, Continer.empty, Buffer.size, Continer.size.
  destruct (Z.eqb_spec (size_ (continer_ this)) 0) as [Hz|Hnz].
  - exists Buffer.default, h. split; [reflexivity|].
    split; [now apply default_wf|]. cbn [Buffer.default continer_ size_ Continer.default].
    split; [subst n; lia|]. split; [|split; [reflexivity|split; [reflexivity|lia]]].
    unfold buffer_bytes, continer_bytes. cbn [continer_ size_ Continer.default].
    unfold segment. rewrite Hz. change (Z.to_nat 0) with 0%nat.
    rewrite !take_0. replace n with 0 by (subst n; lia). now rewrite drop_nil.
  - rewrite Hmade. exists (mkBufferT c), h'. split; [reflexivity|].
    unfold buffer_wf, buffer_bytes, Buffer.begin, Continer.begin. cbn [continer_].
    split; [exact Hwfc|]. split; [exact Hszc|]. split; [exact Hbc|].
    split; [exact Hsame|]. split; [exact Hrc|].
    intros Hp. apply Hfresh. lia.
Qed.

(* --------------------------------------------------------------------- *)
(** *** From borrowed to owned *)
(* --------------------------------------------------------------------- *)

Lemma on_continer_Ok {A} (m : M (SimpleBufferT * Mem.Heap) A) this h a this' h' :
  Buffer.on_continer m (this, h) = Ok a (this', h') ->
  m (continer_ this, h) = Ok a (continer_ this', h').
Proof.
  unfold Buffer.on_continer, on_member.
  destruct (m (continer_ this, h)) as [a1 [c1 h1]|e [c1 h1]|];
    intros H; inv_state; reflexivity.
Qed.

Lemma borrows_wf b0 h r data n : borrows b0 h r data n -> buffer_wf b0 h.
Proof.
  intros (Hh & Hd & Hlen & Hn & Hmax & k & Hk & ->).
  unfold buffer_wf, continer_wf. cbn.
  repeat split; try lia; try apply Hh. exists data. split; [exact Hd|lia].
Qed.

Lemma borrows_bytes b0 h r data n : borrows b0 h r data n -> buffer_bytes b0 h = data.
Proof.
  intros (Hh & Hd & Hlen & Hn & Hmax & k & Hk & ->).
  unfold buffer_bytes, continer_bytes, Mem.block_data. cbn. rewrite Hd. cbn.
  apply take_ge. lia.
Qed.

(** [resize] past the borrowed length, when it returns. *)
Lemma resize_grows_borrowed m b0 h r data n this h1 :
  borrows b0 h r data n -> n < m ->
  Buffer.resize m (b0, h) = Ok tt (this, h1) ->
  separated this h1 r /\ Mem.contents h1 r = Some data /\
  take (Z.to_nat n) (buffer_bytes this h1) = data /\
  buffer_wf this h1 /\ Buffer.size this = m.
Proof.
  intros Hbor Hm Hrun. pose proof (borrows_wf _ _ _ _ _ Hbor) as Hwf.
  pose proof (borrows_bytes _ _ _ _ _ Hbor) as Hbytes0.
  destruct Hbor as (Hh & Hd & Hlen & Hn & Hmax & k & Hk & ->).
  apply on_continer_Ok in Hrun. cbn [continer_] in Hrun.
  destruct (resize_wf m _ _ _ _ Hwf ltac:(lia) Hrun) as (Hwf1 & Hsz1 & Htake).
  revert Hrun. unfold Continer.resize, bind.
  destruct (Z.eqb_spec m 0); [lia|]. cbn [capacity_].
  destruct (Z.ltb_spec n m); [|lia].
  destruct (Continer.reserve m _) as [[] [c1 h1']|e [c1 h1']|] eqn:E; try discriminate.
  intros [= Hthis ->].
  pose proof (reserve_grows_Ok_limit _ _ _ _ _ Hwf Hm E) as Hlim.
  destruct (reserve_grows _ h m Hwf Hm Hlim)
    as (b' & h2 & data' & Hre & Hfresh & Hd' & _ & _ & _ & Hother & _).
  cbn [continer_ size_ capacity_ shrink_counter_ buf_ ref_] in Hre, Hother.
  rewrite Hre in E. injection E as Hc1 ->.
  assert (b' <> r) as Hne by (intros ->; congruence).
  assert (Mem.contents h1 r = Some data) as Hd1.
  { rewrite Hother; [exact Hd|congruence|discriminate]. }
  split; [|split; [exact Hd1|split; [|split; [exact Hwf1|exact Hsz1]]]].
  - repeat split; [| |now rewrite Hd1].
    + rewrite <- Hthis, <- Hc1. reflexivity.
    + unfold Buffer.begin, Continer.begin. rewrite <- Hthis, <- Hc1. cbn. congruence.
  - unfold buffer_bytes in *. cbn [continer_ size_] in Htake, Hbytes0.
    replace (Z.min m n) with n in Htake by lia.
    rewrite Htake, Hbytes0. apply take_ge. lia.
Qed.

Lemma take_stored_before (data bs : list Z) (off k : nat) :
  (k <= off)%nat -> (off <= length data)%nat ->
  take k (take off data ++ bs ++ drop (off + length bs) data) = take k data.
Proof.
  intros Hk Hoff. rewrite take_app_le by (rewrite length_take; lia).
  rewrite take_take. f_equal. lia.
Qed.

(** A store at or after position [n] of the buffer keeps its first [n]
    bytes. *)
Lemma store_keeps_prefix this h h' off bs n :
  0 <= n <= off ->
  Mem.store_bytes (Buffer.begin this) off bs h = Some h' ->
  take (Z.to_nat n) (buffer_bytes this h') = take (Z.to_nat n) (buffer_bytes this h).
Proof.
  intros Hn Hst. pose proof Hst as Hst0. revert Hst.
  unfold Mem.store_bytes, Buffer.begin, Continer.begin.
  destruct (buf_ (continer_ this)) as [b|] eqn:Eb; [|discriminate].
  destruct (Mem.valid_range _ _ _ _) eqn:V; [|discriminate].
  apply valid_range_spec in V as (b0 & data & [= <-] & Hd & H0 & _ & Hfit).
  rewrite (block_data_contents _ _ _ Hd). intros [= <-].
  unfold buffer_bytes, continer_bytes. rewrite Eb.
  erewrite (block_data_contents b (Mem.set_block _ _ _))
    by (erewrite contents_set_block_eq; eauto).
  rewrite (block_data_contents _ _ _ Hd), !take_take.
  apply take_stored_before; lia.
Qed.

Lemma memcpy_as_store dst doff src soff k h h' :
  Mem.memcpy dst doff src soff k h = Some h' -> k <> 0 ->
  exists bs, Mem.store_bytes dst doff bs h = Some h'.
Proof.
  unfold Mem.memcpy. intros H Hk.
  destruct (Z.eqb_spec k 0); [contradiction|].
  destruct (Mem.overlap _ _ _ _ _); [discriminate|].
  destruct (Mem.load_bytes _ _ _ _) as [bs|]; [|discriminate]. eauto.
Qed.

(** [EnsureWritableBytes] on a borrowing buffer, then a store at or
    after the borrowed length: if the buffer has grown, it is apart from
    the region. *)
Lemma ensure_then_store off k off' (bs : list Z) b0 h r data n c1 h1' h1 :
  borrows b0 h r data n ->
  Buffer.EnsureWritableBytes off k (b0, h) = Ok tt (c1, h1') ->
  Mem.store_bytes (Buffer.begin c1) off' bs h1' = Some h1 ->
  n <= off' -> n < Buffer.size c1 ->
  separated c1 h1 r /\ Mem.contents h1 r = Some data /\
  take (Z.to_nat n) (buffer_bytes c1 h1) = data.
Proof.
  intros Hbor Hens Hst Hoff Hgrown.
  assert (Buffer.size b0 = n) as Hsz0
    by (destruct Hbor as (_ & _ & _ & _ & _ & k0 & _ & ->); reflexivity).
  assert (0 < n) as Hn by apply Hbor.
  revert Hens. unfold Buffer.EnsureWritableBytes.
  destruct (_ <? _); [|intros [= <- <-]; lia].
  set (m := SizeT.add _ _). intros Hre.
  assert (0 <= m) as Hm0 by (subst m; apply wrap_range).
  destruct (Z_lt_le_dec n m) as [Hlt|Hge].
  - destruct (resize_grows_borrowed m _ _ _ _ n _ _ Hbor Hlt Hre)
      as (Hsep & Hd1 & Htake & Hwf1 & Hsz1).
    destruct (store_keeps_separated _ _ _ _ _ _ r Hsep eq_refl Hst) as [Hk Hsep'].
    split; [exact Hsep'|]. split; [now rewrite Hk|].
    rewrite (store_keeps_prefix c1 h1' h1 off' bs n ltac:(lia) Hst). exact Htake.
  - apply on_continer_Ok in Hre.
    apply resize_wf in Hre as (_ & Hsz & _);
      [|exact (borrows_wf _ _ _ _ _ Hbor)|exact Hm0].
    unfold Buffer.size, Continer.size in Hgrown. lia.
Qed.

(** Whatever member function makes a borrowing buffer larger than the
    borrowed region: when it has returned, the buffer owns a storage of
    its own, which starts with the bytes of the region, and the region
    is as it was. *)
Lemma growth_separates host mu b0 h r data n this h1 :
  borrows b0 h r data n ->
  Buffer.mutate host mu (b0, h) = Ok tt (this, h1) ->
  n < Buffer.size this ->
  separated this h1 r /\ Mem.contents h1 r = Some data /\
  take (Z.to_nat n) (buffer_bytes this h1) = data.
Proof.
  intros Hbor Hrun Hgrown.
  pose proof (borrows_wf _ _ _ _ _ Hbor) as Hwf.
  assert (Buffer.size b0 = n) as Hsz0
    by (destruct Hbor as (_ & _ & _ & _ & _ & k & _ & ->); reflexivity).
  assert (forall f, heap_call f (b0, h) = Ok tt (this, h1) -> False) as Hsame.
  { intros f Hf. apply final_of_Ok in Hf. apply heap_call_final in Hf as [-> _]. lia. }
  (* a growth followed by a store at the old end *)
  assert (forall k f,
             (do _ <- Buffer.EnsureWritableBytes n k;
              fun '(this, h) => heap_call (f this) (this, h)) (b0, h)
             = Ok tt (this, h1) ->
             (forall c hh hh', f c hh = Some hh' ->
                               hh' = hh \/
                               exists bs, Mem.store_bytes (Buffer.begin c) n bs hh = Some hh') ->
             separated this h1 r /\ Mem.contents h1 r = Some data /\
             take (Z.to_nat n) (buffer_bytes this h1) = data) as Hstore.
  { intros k f Ha Hf. revert Ha. unfold bind.
    destruct (Buffer.EnsureWritableBytes n k (b0, h))
      as [[] [c1 h1']|e0 [c1 h1']|] eqn:E; try discriminate.
    intros Ha. apply final_of_Ok in Ha. apply heap_call_final in Ha as [-> Hfh].
    destruct (Hf _ _ _ Hfh) as [->|[bs Hst]].
    - (* nothing stored: the state after the growth *)
      revert E. unfold Buffer.EnsureWritableBytes.
      destruct (_ <? _); [|intros [= <- <-]; lia].
      set (m := SizeT.add _ _). intros Hre.
      assert (0 <= m) as Hm0 by (subst m; apply wrap_range).
      destruct (Z_lt_le_dec n m) as [Hlt|Hge].
      + destruct (resize_grows_borrowed m _ _ _ _ n _ _ Hbor Hlt Hre); tauto.
      + apply on_continer_Ok in Hre.
        apply resize_wf in Hre as (_ & Hsz & _); [|exact Hwf|exact Hm0].
        unfold Buffer.size, Continer.size in Hgrown. lia.
    - eapply ensure_then_store; eauto. lia. }
  destruct mu; cbn [Buffer.mutate] in Hrun.
  - destruct (Z_lt_le_dec n size) as [Hlt|Hge].
    + destruct (resize_grows_borrowed _ _ _ _ _ _ _ _ Hbor Hlt Hrun); tauto.
    + apply on_continer_Ok in Hrun.
      destruct Hwf as (Hh & Hs & _).
      destruct (Z_lt_le_dec size 0) as [Hneg|Hnn].
      * revert Hrun. unfold Continer.resize, bind.
        destruct (Z.eqb_spec size 0); [lia|].
        destruct (Z.ltb_spec (capacity_ (continer_ b0)) size); [lia|].
        intros [= Hthis _].
        unfold Buffer.size, Continer.size in Hgrown. rewrite <- Hthis in Hgrown.
        cbn in Hgrown. lia.
      * apply resize_wf in Hrun as (_ & Hsz & _);
          [|exact (borrows_wf _ _ _ _ _ Hbor)|exact Hnn].
        unfold Buffer.size, Continer.size in Hgrown. lia.
  - apply on_continer_Ok in Hrun.
    apply final_of_Ok, clear_result in Hrun.
    unfold Buffer.size, Continer.size in Hgrown. rewrite Hrun in Hgrown.
    cbn in Hgrown. destruct Hbor as (_ & _ & _ & Hn & _). lia.
  - apply on_continer_Ok in Hrun.
    apply shrink_wf in Hrun as (_ & Hsz & _); [|exact Hwf].
    unfold Buffer.size, Continer.size in *. lia.
  - exfalso. eapply Hsame. exact Hrun.
  - unfold Buffer.write, Buffer.write_native, Buffer.write_e, Buffer.write_8bit,
      Buffer.xran, throw in Hrun.
    exfalso. repeat break_match; try discriminate; eapply Hsame; exact Hrun.
  - unfold Buffer.write_e, Buffer.xran, throw in Hrun.
    exfalso. repeat break_match; try discriminate; eapply Hsame; exact Hrun.
  - unfold Buffer.write_bytes, Buffer.xran, throw in Hrun.
    exfalso. repeat break_match; try discriminate; eapply Hsame; exact Hrun.
  - assert (forall e v,
               Buffer.append_e host T e v (b0, h) = Ok tt (this, h1) ->
               separated this h1 r /\ Mem.contents h1 r = Some data /\
               take (Z.to_nat n) (buffer_bytes this h1) = data) as Happ_e.
    { intros e v Ha. unfold Buffer.append_e in Ha. rewrite Hsz0 in Ha.
      apply (Hstore (sizeof T)
               (fun c hh =>
                  if Buffer.size c <? SizeT.add n (sizeof T) then None
                  else Mem.store_bytes (Buffer.begin c) n
                         (Endian.write host T e v) hh)).
      - revert Ha. unfold bind.
        destruct (Buffer.EnsureWritableBytes n (sizeof T) (b0, h))
          as [[] [c1 h1']|e0 [c1 h1']|]; try discriminate.
        unfold Buffer.write_e, heap_call.
        destruct (_ <? _); [discriminate|]. tauto.
      - intros c hh hh'. destruct (_ <? _); [discriminate|]. eauto. }
    unfold Buffer.append, Buffer.append_native in Hrun.
    destruct (is_endian_basictype T).
    + destruct value as [v|p off].
      * destruct (Endianness_eqb _ _); eapply Happ_e; exact Hrun.
      * destruct (read_byte_ref _ h) as [x|]; [|discriminate].
        destruct (Endianness_eqb _ _); eapply Happ_e; exact Hrun.
    + unfold Buffer.append_8bit in Hrun. rewrite Hsz0 in Hrun.
      apply (Hstore 1 (fun c hh =>
                         match read_byte_ref value hh with
                         | Some x => Mem.store_bytes (Buffer.begin c) n [x mod 256] hh
                         | None => None
                         end)).
      * revert Hrun. unfold bind.
        destruct (Buffer.EnsureWritableBytes n 1 (b0, h))
          as [[] [c1 h1']|e0 [c1 h1']|]; try discriminate.
        unfold heap_call. destruct (read_byte_ref value h1'); [tauto|discriminate].
      * intros c hh hh'. destruct (read_byte_ref value hh); [eauto|discriminate].
  - unfold Buffer.append_e in Hrun. rewrite Hsz0 in Hrun.
    apply (Hstore (sizeof T)
             (fun c hh =>
                if Buffer.size c <? SizeT.add n (sizeof T) then None
                else Mem.store_bytes (Buffer.begin c) n
                       (Endian.write host T endianness value) hh)).
    + revert Hrun. unfold bind.
      destruct (Buffer.EnsureWritableBytes n (sizeof T) (b0, h))
        as [[] [c1 h1']|e0 [c1 h1']|]; try discriminate.
      unfold Buffer.write_e, heap_call.
      destruct (_ <? _); [discriminate|]. tauto.
    + intros c hh hh'. destruct (_ <? _); [discriminate|]. eauto.
  - unfold Buffer.append_bytes in Hrun. rewrite Hsz0 in Hrun.
    apply (Hstore buf_size
             (fun c hh => Mem.memcpy (Buffer.begin c) n buf boff buf_size hh));
      [exact Hrun|].
    intros c hh hh' Hm. destruct (Z.eq_dec buf_size 0) as [->|Hnz].
    + left. unfold Mem.memcpy in Hm. cbn in Hm. congruence.
    + right. eapply memcpy_as_store; eauto.
Qed.

(** C6: a buffer made by [ref] over the caller's region [r] of length
    [n] borrows it (no copy).  [resize] past [n] returns when the
    allocator grants the request.  Whatever member function has grown
    the buffer past [n] ([resize], [append], ...): when it has returned,
    the storage of the buffer is a block of its own, not [r]; its first
    [n] bytes are those of the region at that moment; and the region is
    as it was.  From then on (in every state in which the buffer owns a
    storage other than [r]), no member function that changes the buffer
    changes the region, and no store into the region changes the bytes
    of the buffer; both keep the two apart. *)
Theorem borrow_to_owned host (r : nat) (data : list Z) h n :
  heap_wf h ->
  Mem.contents h r = Some data -> Z.of_nat (length data) = n -> 0 < n ->
  n <= SizeT.PTRDIFF_MAX ->
  exists b0,
    Buffer.ref (Some r) n h = Ok b0 h /\
    Buffer.begin b0 = Some r /\ ref_ (continer_ b0) = true /\
    buffer_bytes b0 h = data /\
    (forall m,
        n < m -> Z.max m (Z.max (2 * n) 32) <= Mem.alloc_limit h ->
        exists this h1,
          Buffer.resize m (b0, h) = Ok tt (this, h1) /\ Buffer.size this = m) /\
    (forall mu this h1,
        Buffer.mutate host mu (b0, h) = Ok tt (this, h1) ->
        n < Buffer.size this ->
        separated this h1 r /\
        Mem.contents h1 r = Some data /\
        take (Z.to_nat n) (buffer_bytes this h1) = data) /\
    (forall this2 h2,
        separated this2 h2 r ->
        (forall mu this3 h3,
            final_state (Buffer.mutate host mu (this2, h2)) = Some (this3, h3) ->
            Mem.contents h3 r = Mem.contents h2 r /\ separated this3 h3 r) /\
        (forall off bs h3,
            Mem.store_bytes (Some r) off bs h2 = Some h3 ->
            buffer_bytes this2 h3 = buffer_bytes this2 h2 /\ separated this2 h3 r)).
Proof.
  intros Hh Hd Hlen Hn Hmax.
  set (c0 := mkSimpleBufferT (Some r) n n 0 true).
  assert (borrows (mkBufferT c0) h r data n) as Hbor.
  { split; [exact Hh|]. split; [exact Hd|]. split; [exact Hlen|].
    split; [exact Hn|]. split; [exact Hmax|]. exists 0. split; [|reflexivity].
    unfold Continer.DEFAULT_SHRINK_TRIGGER_COUNT. lia. }
  pose proof (borrows_wf _ _ _ _ _ Hbor) as Hwf.
  exists (mkBufferT c0).
  split; [now apply ref_borrows|]. split; [reflexivity|]. split; [reflexivity|].
  split; [now apply (borrows_bytes _ _ _ _ _ Hbor)|]. split; [|split].
  - intros m Hm Hlim.
    destruct (reserve_grows c0 h m Hwf Hm Hlim) as (b' & h1 & data' & Hre & _).
    eexists _, h1. split.
    + unfold Buffer.resize, Buffer.on_continer, on_member, Continer.resize, bind.
      cbn [continer_]. destruct (Z.eqb_spec m 0); [lia|].
      change (capacity_ c0) with n. destruct (Z.ltb_spec n m); [|lia].
      rewrite Hre. reflexivity.
    + reflexivity.
  - intros mu this h1. now apply growth_separates.
  - intros this2 h2 Hsep. split.
    + intros mu this3 h3. now apply mutate_keeps.
    + intros off bs h3. now apply caller_store_keeps_buffer.
Qed.

Lemma borrow_to_owned_witness :
  exists this h1,
    Buffer.append kLittleEndian UInt8 (by_value 7)
      (mkBufferT borrowed3, read_test_caller_heap)
    = Ok tt (this, h1) /\
    Buffer.size this = 4 /\
    separated this h1 0%nat /\
    Mem.contents h1 0%nat = Some [255; 238; 221] /\
    take 3 (buffer_bytes this h1) = [255; 238; 221].
Proof.
  destruct (borrow_to_owned kLittleEndian 0%nat [255; 238; 221]
              read_test_caller_heap 3)
    as (b0 & Href & _ & _ & _ & _ & Hgrow & _).
  - split; apply Z.leb_le; reflexivity.
  - reflexivity.
  - reflexivity.
  - reflexivity.
  - apply Z.leb_le. reflexivity.
  - rewrite ref_borrows in Href by reflexivity. injection Href as <-.
    eexists _, _. split; [reflexivity|]. split; [reflexivity|].
    apply (Hgrow (Buffer.mut_append UInt8 (by_value 7))); reflexivity.
Defined.

(* --------------------------------------------------------------------- *)
(** *** The invariant of the cursor is kept *)
(* --------------------------------------------------------------------- *)

(** [SimpleBufferT(size, val)] holds [size] copies of [val]. *)
Lemma of_value_fills n val h :
  heap_wf h -> 0 < n -> Z.max n 32 <= Mem.alloc_limit h ->
  exists h',
    Continer.of_value n val h
    = Ok (mkSimpleBufferT (Some (length (Mem.blocks h))) n (Z.max n 32) 0 false) h' /\
    continer_wf (mkSimpleBufferT (Some (length (Mem.blocks h))) n (Z.max n 32) 0 false) h' /\
    continer_bytes (mkSimpleBufferT (Some (length (Mem.blocks h))) n (Z.max n 32) 0 false) h'
    = replicate (Z.to_nat n) val.
Proof.
  intros Hh Hn Hlim.
  set (b' := length (Mem.blocks h)).
  set (fresh := Mem.fresh_bytes h 0 (Z.to_nat (Z.max n 32))).
  set (h1 := snd (Mem.new_block h fresh)).
  assert (Mem.contents h1 b' = Some fresh) as Hf
    by (subst h1 b'; apply (contents_new_block_new h fresh)).
  assert (length fresh = Z.to_nat (Z.max n 32)) as Hlf
    by (subst fresh; apply length_fresh_bytes).
  destruct (store_bytes_ok b' 0 (replicate (Z.to_nat n) val) h1 fresh Hf)
    as (h2 & Hst & Hc2 & _ & Hlim2 & _); [lia|rewrite length_replicate; lia|].
  exists h2. split; [|split].
  - unfold Continer.of_value, construct, bind.
    rewrite reserve_from_empty by assumption. fold b' fresh h1.
    cbn [Continer.set_size Continer.begin buf_ size_ capacity_ shrink_counter_ ref_].
    unfold heap_call, Mem.memset.
    destruct (Z.eqb_spec n 0); [lia|].
    assert (Mem.valid_range (Some b') 0 n h1 = true) as ->.
    { apply valid_range_spec. exists b', fresh. repeat split; auto; lia. }
    rewrite Hst. reflexivity.
  - unfold continer_wf, heap_wf in *.
    cbn [size_ capacity_ shrink_counter_ buf_ ref_].
    unfold Continer.DEFAULT_SHRINK_TRIGGER_COUNT.
    rewrite Hlim2. subst h1. cbn [Mem.new_block snd Mem.alloc_limit].
    repeat split; try lia.
    eexists. split; [exact Hc2|].
    rewrite length_stored by (rewrite length_replicate; lia). lia.
  - unfold continer_bytes. cbn [buf_ size_].
    rewrite (block_data_contents _ _ _ Hc2).
    change (Z.to_nat 0) with 0%nat. rewrite take_0, app_nil_l.
    rewrite <- (length_replicate (Z.to_nat n) val) at 1. apply take_app_length.
Qed.

(** A fresh cursor satisfies the invariant of the cursor. *)
Lemma stream_of_value_wf n val h :
  heap_wf h -> 0 < n -> Z.max n 32 <= Mem.alloc_limit h ->
  exists this h',
    Stream.of_value n val h = Ok this h' /\ stream_wf this h' /\
    read_index_ this = 0 /\ write_index_ this = 0 /\
    Buffer.size (buffer_ this) = n /\
    buffer_bytes (buffer_ this) h' = replicate (Z.to_nat n) val.
Proof.
  intros Hh Hn Hlim.
  destruct (of_value_fills n val h Hh Hn Hlim) as (h' & Hof & Hwf & Hbytes).
  eexists _, h'. split.
  - unfold Stream.of_value, Buffer.of_value, bind. rewrite Hof. reflexivity.
  - cbn [read_index_ write_index_ buffer_].
    split; [|split; [reflexivity|split; [reflexivity|split; [reflexivity|exact Hbytes]]]].
    split; [exact Hwf|]. cbn. rewrite PTRDIFF_MAX_eq. lia.
Qed.

Lemma stream_size_bound this h :
  stream_wf this h -> 0 <= Buffer.size (buffer_ this) <= SizeT.PTRDIFF_MAX.
Proof.
  intros ((_ & Hs & Hc & _) & _). unfold Buffer.size, Continer.size. lia.
Qed.

(** Every read and every write of the cursor that returns keeps the
    invariant of the cursor. *)
Lemma stream_access_wf host T v this h this' h' :
  stream_wf this h ->
  (exists x, Stream.read host T (this, h) = Ok x (this', h'))
  \/ Stream.write host T v (this, h) = Ok tt (this', h') ->
  stream_wf this' h'.
Proof.
  intros Hwf Hrun. pose proof (sizeof_pos T) as Hp.
  pose proof (stream_size_bound _ _ Hwf) as Hsz.
  pose proof Hwf as (Hb & Hr & Hw).
  assert (forall e x, Stream.read_e host T e (this, h) = Ok x (this', h') ->
                      stream_wf this' h') as Hre.
  { intros e x E.
    destruct (Z_le_gt_dec (read_index_ this + sizeof T) (Buffer.size (buffer_ this)))
      as [Hin|Hout].
    - rewrite stream_read_e_inside in E by assumption. injection E as _ <- <-.
      split; [exact Hb|]. cbn. lia.
    - rewrite stream_read_e_outside in E by assumption. discriminate. }
  assert (forall e, Stream.write_e host T e v (this, h) = Ok tt (this', h') ->
                    stream_wf this' h') as Hwe.
  { intros e E.
    destruct (Z_le_gt_dec (write_index_ this + sizeof T) (Buffer.size (buffer_ this)))
      as [Hin|Hout].
    - assert (Z.of_nat (length (Endian.write host T e v)) = sizeof T) as Hl
        by (rewrite length_Endian_write; reflexivity).
      destruct (stream_store_inside this h Hwf (Endian.write host T e v))
        as (h2 & Hst & _ & _ & _ & Hwf2);
        [lia|rewrite length_Endian_write; destruct T; cbn; lia|].
      revert E. unfold Stream.write_e. rewrite add_in_object by lia.
      destruct (Z.ltb_spec (Buffer.size (buffer_ this)) (write_index_ this + sizeof T));
        [lia|].
      unfold heap_call. cbn [buffer_ Stream.set_write_index]. rewrite Hst.
      intros [= <- <-]. split; [exact Hwf2|]. cbn. lia.
    - destruct (stream_write_outside host this h Hwf T e v Hout) as [E' _].
      rewrite E' in E. discriminate. }
  destruct Hrun as [[x Hrun]|Hrun].
  - revert Hrun. unfold Stream.read, Stream.read_native, Stream.read_le, Stream.read_be.
    destruct (is_endian_basictype T) eqn:HT.
    + destruct (Endianness_eqb _ _); apply Hre.
    + assert (is_8bit_basictype T = true) as H8 by (destruct T; cbn in *; congruence).
      destruct (Z_le_gt_dec (read_index_ this + sizeof T) (Buffer.size (buffer_ this)))
        as [Hin|Hout].
      * destruct (stream_read_8bit_inside this h Hwf T H8 Hin) as (y & _ & E).
        rewrite E. intros [= _ <- <-]. split; [exact Hb|]. cbn. lia.
      * rewrite stream_read_8bit_outside by assumption. discriminate.
  - revert Hrun. unfold Stream.write, Stream.write_native, Stream.write_le, Stream.write_be.
    destruct (is_endian_basictype T) eqn:HT.
    + destruct (Endianness_eqb _ _); apply Hwe.
    + assert (sizeof T = 1) as Hs by (destruct T; try discriminate; reflexivity).
      destruct (Z_le_gt_dec (write_index_ this + sizeof T) (Buffer.size (buffer_ this)))
        as [Hin|Hout].
      * destruct (stream_store_inside this h Hwf [v mod 256])
          as (h2 & Hst & _ & _ & _ & Hwf2); [cbn [length]; lia|cbn; lia|].
        unfold Stream.write_8bit. rewrite Hs, add_in_object by lia.
        destruct (Z.ltb_spec (Buffer.size (buffer_ this)) (write_index_ this + 1));
          [lia|].
        unfold heap_call. cbn [buffer_ Stream.set_write_index]. rewrite Hst.
        intros [= <- <-]. split; [exact Hwf2|]. cbn. lia.
      * destruct (stream_write_outside host this h Hwf T kBigEndian v Hout) as [_ E'].
        rewrite E'. discriminate.
Qed.

(** The accessors for one-byte types compare [offset] with [size()]
    directly: their bounds check is exact for every offset. *)
Lemma read_8bit_contract T offset this h :
  buffer_wf this h -> 0 <= offset ->
  (throws_out_of_range (Buffer.read_8bit T offset (this, h)) (this, h)
   <-> offset + 1 > Buffer.size this) /\
  final_state (Buffer.read_8bit T offset (this, h)) = Some (this, h).
Proof.
  intros Hwf H0. unfold Buffer.read_8bit.
  destruct (Z.leb_spec (Buffer.size this) offset) as [Hout|Hin].
  - split; [|reflexivity]. split; [intros _; lia|].
    intros _. unfold Buffer.xran, throw. now exists offset, 1.
  - destruct (continer_wf_block _ _ Hwf) as (b & data & Eb & Hd & Hlen & _).
    { unfold Buffer.size, Continer.size in Hin. lia. }
    unfold Buffer.size, Buffer.begin, Continer.size, Continer.begin in *.
    rewrite Eb, (load_bytes_ok _ _ _ _ data Hd) by lia.
    destruct (lookup_lt_is_Some_2 data (Z.to_nat offset)) as [x Hx]; [lia|].
    rewrite (segment_one data offset x) by assumption.
    split; [|reflexivity]. split; [intros (? & ? & [=])|lia].
Qed.

(* --------------------------------------------------------------------- *)
(** *** The examples of the specification, run on the model *)
(* --------------------------------------------------------------------- *)

(** On a 16-byte zero-filled buffer, [write_bytes({0xff,0xee,0xdd,0xcc}, 4)]
    and then [read_be<uint32_t>(0) == 0xffeeddcc],
    [read_le<uint32_t>(0) == 0xccddeeff]. *)
Example write_bytes_then_read host :
  exists h',
    (do _ <- Buffer.write_bytes (Some 1%nat) 0 4 0;
     do x <- Buffer.read_be host UInt32 0;
     do y <- Buffer.read_le host UInt32 0;
     ret (x, y)) (zeros16, write_test_heap)
    = Ok (4293844428, 3437096703) (zeros16, h').
Proof. destruct host; eexists; vm_compute; reflexivity. Qed.

(** A cursor over a 10-byte buffer takes ten one-byte writes and is then
    at the end for writing, where an eleventh write is undefined ([xran]
    overflows its message array); ten reads give back what was written,
    and the cursor is at the end for reading. *)
Example cursor_eof_discipline host :
  exists c h c' h',
    Stream.of_value 10 0 heap0 = Ok c h /\
    write_counting host 10 1 (c, h) = Ok tt (c', h') /\
    Stream.write_eof c' = true /\
    Stream.write host UInt8 11 (c', h') = Undefined /\
    Buffer.size (buffer_ c') = 10 /\
    exists c'',
      read_all host 10 (c', h') = Ok [1; 2; 3; 4; 5; 6; 7; 8; 9; 10] (c'', h') /\
      Stream.read_eof c'' = true.
Proof.
  destruct host.
  all: eexists _, _, _, _; split; [vm_compute; reflexivity|].
  all: split; [vm_compute; reflexivity|].
  all: split; [vm_compute; reflexivity|].
  all: split; [vm_compute; reflexivity|].
  all: split; [vm_compute; reflexivity|].
  all: eexists; split; vm_compute; reflexivity.
Qed.

(** Appending to an empty buffer grows it by the width of what is
    appended, and the values read back at their offsets are the values
    appended ([append_test]). *)
Example append_then_read host :
  exists b h,
    (do _ <- Buffer.append host UInt8 (by_value 1);
     do _ <- Buffer.append_be host UInt16 65518;
     Buffer.append_le host UInt32 3735928559) (Buffer.default, heap0)
    = Ok tt (b, h) /\
    Buffer.size b = 7 /\
    Buffer.read host UInt8 0 (b, h) = Ok 1 (b, h) /\
    Buffer.read_be host UInt16 1 (b, h) = Ok 65518 (b, h) /\
    Buffer.read_le host UInt32 3 (b, h) = Ok 3735928559 (b, h) /\
    buffer_bytes b h = [1; 255; 238; 239; 190; 173; 222].
Proof.
  destruct host; eexists _, _.
  all: split; [vm_compute; reflexivity|].
  all: repeat split; vm_compute; reflexivity.
Qed.

(* --------------------------------------------------------------------- *)
(** *** The codec: wire format *)
(* --------------------------------------------------------------------- *)

Lemma le_value_range (bs : list Z) :
  Forall is_byte bs -> 0 <= le_value bs < 256 ^ Z.of_nat (length bs).
Proof.
  induction 1 as [|b bs Hb _ IH]; cbn [le_value length].
  - change (256 ^ Z.of_nat 0) with 1. lia.
  - rewrite Nat2Z.inj_succ, Z.pow_succ_r by lia. unfold is_byte in Hb. nia.
Qed.

Lemma le_bytes_le_value (bs : list Z) :
  Forall is_byte bs -> le_bytes (length bs) (le_value bs) = bs.
Proof.
  induction 1 as [|b bs Hb _ IH]; cbn [le_value length le_bytes]; [reflexivity|].
  unfold is_byte in Hb.
  f_equal.
  - replace (b + 256 * le_value bs) with (b + le_value bs * 256) by lia.
    rewrite Z.mod_add by lia. now apply Z.mod_small.
  - replace (b + 256 * le_value bs) with (b + le_value bs * 256) by lia.
    rewrite Z.div_add by lia. rewrite (Z.div_small b) by lia. exact IH.
Qed.

Lemma convert_mod T x : convert T x mod 2 ^ value_bits T = x mod 2 ^ value_bits T.
Proof.
  unfold convert.
  assert (0 < 2 ^ value_bits T).
  { apply Z.pow_pos_nonneg; [lia|]. unfold value_bits. pose proof (sizeof_pos T). lia. }
  destruct (is_signed T && _).
  - replace (x mod 2 ^ value_bits T - 2 ^ value_bits T)
      with (x mod 2 ^ value_bits T + (-1) * 2 ^ value_bits T) by lia.
    rewrite Z.mod_add by lia. apply Z.mod_mod. lia.
  - apply Z.mod_mod. lia.
Qed.

Lemma Swizzle_whole (bytes : list Z) (len : nat) :
  length bytes = len -> Endian.Swizzle bytes len = rev bytes.
Proof. intros <-. apply Swizzle_rev. Qed.

Lemma Endian_write_format host T e v :
  Endian.write host T e v
  = match e with
    | kLittleEndian => le_bytes (sizeof_nat T) (v mod 2 ^ value_bits T)
    | kBigEndian => rev (le_bytes (sizeof_nat T) (v mod 2 ^ value_bits T))
    end.
Proof.
  unfold Endian.write. rewrite CurrentEndian_host.
  pose proof (length_object_bytes host T v) as Hlen.
  destruct host, e; cbn [Endianness_eqb]; try reflexivity.
  - rewrite Swizzle_whole by exact Hlen. cbn [Endian.object_bytes]. apply rev_involutive.
  - rewrite Swizzle_whole by exact Hlen. reflexivity.
Qed.

Lemma Endian_read_format host T e bs :
  length bs = sizeof_nat T ->
  Endian.read host T e bs
  = convert T (le_value (match e with
                         | kLittleEndian => bs
                         | kBigEndian => rev bs
                         end)).
Proof.
  intros Hlen. unfold Endian.read. rewrite CurrentEndian_host.
  destruct host, e; cbn [Endianness_eqb Endian.object_value]; try reflexivity.
  - rewrite Swizzle_whole by exact Hlen. unfold Endian.object_value.
    now rewrite rev_involutive.
  - rewrite Swizzle_whole by exact Hlen. reflexivity.
Qed.

(** X1: the bytes [Endian::write] produces for a requested order do not
    depend on the byte order of the host: the base-256 digits of the
    value's two's-complement (or IEEE-754) bit pattern, least significant
    first for [kLittleEndian], most significant first for [kBigEndian]. *)
Theorem write_wire_format host T e v :
  Endian.write host T e v
  = match e with
    | kLittleEndian => le_bytes (sizeof_nat T) (v mod 2 ^ value_bits T)
    | kBigEndian => rev (le_bytes (sizeof_nat T) (v mod 2 ^ value_bits T))
    end.
Proof. apply Endian_write_format. Qed.

(** X2: [Endian::read] followed by [Endian::write] in the same order gives
    back the [sizeof(T)] bytes that were read, on every host: decoding
    loses nothing. *)
Theorem read_then_write_is_identity host T e bs :
  length bs = sizeof_nat T -> Forall is_byte bs ->
  Endian.write host T e (Endian.read host T e bs) = bs.
Proof.
  intros Hlen Hbs.
  rewrite Endian_write_format, Endian_read_format by exact Hlen.
  rewrite convert_mod, <- pow256_sizeof, <- Hlen.
  destruct e.
  - assert (Hr : Forall is_byte (rev bs)) by now apply Forall_rev.
    pose proof (le_value_range _ Hr) as R. rewrite length_rev in R.
    rewrite Z.mod_small by exact R.
    rewrite <- (length_rev bs) at 1. rewrite le_bytes_le_value by exact Hr.
    apply rev_involutive.
  - pose proof (le_value_range _ Hbs) as R.
    rewrite Z.mod_small by exact R.
    now apply le_bytes_le_value.
Qed.

Lemma read_then_write_is_identity_witness :
  Endian.write kLittleEndian Int16 kBigEndian
    (Endian.read kLittleEndian Int16 kBigEndian [255; 238]) = [255; 238].
Proof.
  apply read_then_write_is_identity.
  - reflexivity.
  - repeat constructor; unfold is_byte; lia.
Defined.

(* --------------------------------------------------------------------- *)
(** *** The container: release, resize, push_back *)
(* --------------------------------------------------------------------- *)

Lemma free_ok b h data :
  Mem.contents h b = Some data ->
  exists h', Mem.free b h = Some h' /\ Mem.contents h' b = None /\
             (forall b', b' <> b -> Mem.contents h' b' = Mem.contents h b') /\
             Mem.alloc_limit h' = Mem.alloc_limit h.
Proof.
  intros Hd. unfold Mem.free. rewrite Hd. eexists. split; [reflexivity|].
  split; [now apply (contents_set_block_eq _ _ _ data)|].
  split; [|reflexivity].
  intros b' Hne. apply contents_set_block_ne. congruence.
Qed.

Lemma destroy_ok this h :
  continer_wf this h ->
  exists h', Continer.destroy this h = Some h' /\ released this h h'.
Proof.
  intros (Hh & Hs & Hc & Hk & Hb). unfold Continer.destroy, released.
  destruct (buf_ this) as [b|]; [|eauto].
  destruct Hb as (_ & data & Hd & _).
  destruct (ref_ this); cbn [negb]; [eauto|].
  destruct (free_ok _ _ _ Hd) as (h' & E & H1 & H2 & H3). eauto 6.
Qed.

Lemma clear_ok this h :
  continer_wf this h ->
  exists h', Continer.clear (this, h) = Ok tt (Continer.default, h') /\
             released this h h'.
Proof.
  intros Hwf. destruct (destroy_ok _ _ Hwf) as (h' & E & Hrel).
  exists h'. split; [|exact Hrel].
  unfold Continer.clear. unfold Continer.destroy in E. now rewrite E.
Qed.

Lemma resize_returns n this h :
  continer_wf this h -> 0 <= n ->
  (capacity_ this < n ->
   Z.max n (Z.max (2 * capacity_ this) 32) <= Mem.alloc_limit h) ->
  exists this' h', Continer.resize n (this, h) = Ok tt (this', h').
Proof.
  intros Hwf Hn Hlim. unfold Continer.resize, bind.
  destruct (Z.eqb_spec n 0) as [->|Hnz].
  - destruct (clear_ok _ _ Hwf) as (h' & -> & _). eauto.
  - destruct (Z.ltb_spec (capacity_ this) n) as [Hgt|Hle]; [|eauto].
    destruct (reserve_grows this h n Hwf Hgt (Hlim Hgt)) as (b' & h' & d' & -> & _).
    eauto.
Qed.

Lemma released_wf this h h' :
  continer_wf this h -> released this h h' -> heap_wf h'.
Proof.
  intros (Hh & _) Hrel. unfold released in Hrel.
  destruct (buf_ this); [destruct (ref_ this)|]; subst; auto.
  destruct Hrel as (_ & _ & Hl). unfold heap_wf in *. now rewrite Hl.
Qed.

(** X3: [clear()], [resize(0)] and the destructor are defined on every
    well-formed container; they free the block of a container that owns
    its storage and leave every other block as it is, and they never free
    the memory a borrowing container points to.  [clear()] and
    [resize(0)] leave the empty container. *)
Theorem clear_and_destructor_release this h :
  continer_wf this h ->
  exists h',
    Continer.clear (this, h) = Ok tt (Continer.default, h') /\
    Continer.resize 0 (this, h) = Ok tt (Continer.default, h') /\
    Continer.destroy this h = Some h' /\
    released this h h' /\
    continer_wf Continer.default h'.
Proof.
  intros Hwf. destruct (clear_ok _ _ Hwf) as (h' & E & Hrel).
  exists h'. split; [exact E|]. split.
  { unfold Continer.resize, bind. cbn [Z.eqb]. now rewrite E. }
  split.
  { revert E. unfold Continer.clear, Continer.destroy.
    destruct (buf_ this); [destruct (negb (ref_ this))|].
    - destruct (Mem.free _ _); [|discriminate]. now intros [= ->].
    - now intros [= ->].
    - now intros [= ->]. }
  split; [exact Hrel|].
  apply default_wf. eapply released_wf; eauto.
Qed.

Lemma clear_and_destructor_release_witness :
  exists h',
    Continer.clear (continer_ zeros16, zeros16_heap) = Ok tt (Continer.default, h') /\
    Continer.resize 0 (continer_ zeros16, zeros16_heap) = Ok tt (Continer.default, h') /\
    Continer.destroy (continer_ zeros16) zeros16_heap = Some h' /\
    released (continer_ zeros16) zeros16_heap h' /\
    continer_wf Continer.default h'.
Proof. apply clear_and_destructor_release. apply zeros16_wf. Defined.

(** X4: [resize(n)] on a well-formed container returns whenever the
    allocator can serve the growth; the container then has size [n] and
    its first [min(n, old size)] bytes are the old ones.  A request that
    fits the capacity ([0 < n <= capacity]) touches neither the heap nor
    the capacity: shrinking by [resize] releases no memory. *)
Theorem resize_contract n this h :
  continer_wf this h -> 0 <= n ->
  (capacity_ this < n ->
   Z.max n (Z.max (2 * capacity_ this) 32) <= Mem.alloc_limit h) ->
  exists this' h',
    Continer.resize n (this, h) = Ok tt (this', h') /\
    continer_wf this' h' /\ size_ this' = n /\
    take (Z.to_nat (Z.min n (size_ this))) (continer_bytes this' h')
    = take (Z.to_nat (Z.min n (size_ this))) (continer_bytes this h) /\
    (0 < n <= capacity_ this -> this' = Continer.set_size this n /\ h' = h).
Proof.
  intros Hwf Hn Hlim.
  destruct (resize_returns n this h Hwf Hn Hlim) as (this' & h' & E).
  exists this', h'. split; [exact E|].
  destruct (resize_wf n _ _ _ _ Hwf Hn E) as (Hwf' & Hsz & Hbytes).
  split; [exact Hwf'|]. split; [exact Hsz|]. split; [exact Hbytes|].
  intros Hfit. revert E. unfold Continer.resize, bind.
  destruct (Z.eqb_spec n 0); [lia|].
  destruct (Z.ltb_spec (capacity_ this) n); [lia|].
  now intros [= <- <-].
Qed.

Lemma resize_contract_witness :
  exists this' h',
    Continer.resize 4 (continer_ zeros16, zeros16_heap) = Ok tt (this', h') /\
    continer_wf this' h' /\ size_ this' = 4 /\
    take (Z.to_nat (Z.min 4 (size_ (continer_ zeros16)))) (continer_bytes this' h')
    = take (Z.to_nat (Z.min 4 (size_ (continer_ zeros16))))
        (continer_bytes (continer_ zeros16) zeros16_heap) /\
    (0 < 4 <= capacity_ (continer_ zeros16) ->
     this' = Continer.set_size (continer_ zeros16) 4 /\ h' = zeros16_heap).
Proof.
  apply resize_contract.
  - apply zeros16_wf.
  - lia.
  - cbn. lia.
Defined.

(** A growth leaves the blocks that are not the storage of the container
    as they are. *)
Lemma resize_grow_frame n this h this' h' r data :
  continer_wf this h -> 0 < n ->
  Continer.resize n (this, h) = Ok tt (this', h') ->
  Mem.contents h r = Some data -> buf_ this <> Some r ->
  Mem.contents h' r = Some data /\ buf_ this' <> Some r.
Proof.
  intros Hwf Hn E Hd Hne. revert E. unfold Continer.resize, bind.
  destruct (Z.eqb_spec n 0); [lia|].
  destruct (Z.ltb_spec (capacity_ this) n) as [Hgt|Hle].
  - destruct (Continer.reserve n (this, h)) as [[] [c1 h1]|e [c1 h1]|] eqn:E;
      try discriminate.
    intros [= <- <-].
    pose proof (reserve_grows_Ok_limit _ _ _ _ _ Hwf Hgt E) as Hlim.
    destruct (reserve_grows this h n Hwf Hgt Hlim)
      as (b' & h2 & data' & Hre & Hfresh & _ & _ & _ & _ & Hframe & _).
    rewrite Hre in E. injection E as <- <-.
    cbn [buf_ Continer.set_size].
    assert (r <> b') by congruence.
    split; [|congruence].
    rewrite Hframe; auto.
  - intros [= <- <-]. cbn [buf_ Continer.set_size]. auto.
Qed.

(** What a reference to an object outside the storage of the container
    reads is the same in every heap that keeps the blocks other than
    this storage. *)
Lemma read_byte_ref_frame val own h h' v :
  reads_outside val own h v ->
  (forall r data, Mem.contents h r = Some data -> own <> Some r ->
                  Mem.contents h' r = Some data) ->
  read_byte_ref val h' = Some v.
Proof.
  destruct val as [x|p off]; cbn [reads_outside read_byte_ref].
  - now intros ->.
  - intros [Hne Hld] Hframe. pose proof Hld as V. unfold Mem.load_bytes in V.
    destruct (Mem.valid_range p off 1 h) eqn:Hv; [clear V|discriminate].
    apply valid_range_spec in Hv as (b & data & -> & Hd & H0 & _ & Hlen).
    rewrite (load_bytes_ok b off 1 h' data) by (auto; try lia; apply Hframe; congruence).
    rewrite (load_bytes_ok b off 1 h data) in Hld by (auto; lia).
    injection Hld as ->. reflexivity.
Qed.

Lemma push_back_returns val v this h :
  continer_wf this h ->
  (capacity_ this < size_ this + 1 ->
   Z.max (size_ this + 1) (Z.max (2 * capacity_ this) 32) <= Mem.alloc_limit h) ->
  reads_outside val (buf_ this) h v ->
  exists this' h',
    Continer.push_back val (this, h) = Ok tt (this', h') /\
    continer_wf this' h' /\ size_ this' = size_ this + 1 /\
    continer_bytes this' h' = continer_bytes this h ++ [v].
Proof.
  intros Hwf Hlim Hval. pose proof Hwf as (Hh & Hs & Hc & Hk & Hb).
  destruct (resize_returns (size_ this + 1) this h Hwf ltac:(lia) Hlim)
    as (c1 & h1 & E).
  destruct (resize_wf (size_ this + 1) _ _ _ _ Hwf ltac:(lia) E)
    as (Hwf1 & Hsz1 & _).
  assert (read_byte_ref val h1 = Some v) as Hread.
  { eapply read_byte_ref_frame; [exact Hval|].
    intros r data Hd Hne.
    assert (0 < size_ this + 1) as Hpos by lia.
    exact (proj1 (resize_grow_frame _ _ _ _ _ r data Hwf Hpos E Hd Hne)). }
  destruct (continer_wf_block _ _ Hwf1) as (b & data & Eb & Hd & Hlen & _); [lia|].
  destruct (store_bytes_ok b (size_ this) [v] h1 data Hd) as (h2 & Hst & _);
    [lia|cbn [length]; lia|].
  assert (Continer.push_back val (this, h) = Ok tt (c1, h2)) as Hrun.
  { unfold Continer.push_back, bind.
    rewrite add_in_object by lia. rewrite E, Hread, Eb, Hst. reflexivity. }
  exists c1, h2. split; [exact Hrun|].
  destruct (push_back_wf _ _ _ _ _ Hwf Hrun)
    as (Hwf' & Hsz & c1' & h1' & x & E' & Hx & Hbytes).
  rewrite E in E'. injection E' as <- <-.
  rewrite Hread in Hx. injection Hx as <-. auto.
Qed.

(** On a full container that owns its storage, [resize] moves the
    elements to a new block and frees the old one: a reference to an
    element of the container dangles when [push_back] reads it. *)
Lemma push_back_own_element off this h :
  continer_wf this h -> ref_ this = false -> size_ this = capacity_ this ->
  Z.max (size_ this + 1) (Z.max (2 * capacity_ this) 32) <= Mem.alloc_limit h ->
  Continer.push_back (in_heap (buf_ this) off) (this, h) = Undefined.
Proof.
  intros Hwf Hr Hfull Hlim. pose proof Hwf as (Hh & Hs & Hc & Hk & Hb).
  unfold Continer.push_back, bind. rewrite add_in_object by lia.
  unfold Continer.resize, bind.
  destruct (Z.eqb_spec (size_ this + 1) 0); [lia|].
  destruct (Z.ltb_spec (capacity_ this) (size_ this + 1)); [|lia].
  destruct (reserve_grows this h (size_ this + 1) Hwf ltac:(lia) Hlim)
    as (b' & h1 & data' & Hre & _ & _ & _ & _ & _ & _ & Hfreed).
  rewrite Hre.
  assert (read_byte_ref (in_heap (buf_ this) off) h1 = None) as ->; [|reflexivity].
  cbn [read_byte_ref]. unfold Mem.load_bytes, Mem.valid_range.
  destruct (buf_ this) as [b|] eqn:Eb; [|reflexivity].
  now rewrite (Hfreed b Hr eq_refl).
Qed.

(** X5: [push_back(val)] on a well-formed container, when the allocator
    can serve the growth.  If [val] refers to an object outside the
    storage of the container (a temporary, a local variable, a byte of
    another block), the call returns and appends: the size grows by one
    and the bytes are the old bytes followed by the value of [val].  If
    [val] refers to an element of the container itself, and the
    container owns its storage and is full, the behaviour is undefined:
    [resize] has freed the storage before [buf_[size] = val] reads the
    reference. *)
Theorem push_back_appends val v off this h :
  continer_wf this h ->
  (capacity_ this < size_ this + 1 ->
   Z.max (size_ this + 1) (Z.max (2 * capacity_ this) 32) <= Mem.alloc_limit h) ->
  (reads_outside val (buf_ this) h v ->
   exists this' h',
     Continer.push_back val (this, h) = Ok tt (this', h') /\
     continer_wf this' h' /\ size_ this' = size_ this + 1 /\
     continer_bytes this' h' = continer_bytes this h ++ [v]) /\
  (ref_ this = false -> size_ this = capacity_ this ->
   Continer.push_back (in_heap (buf_ this) off) (this, h) = Undefined).
Proof.
  intros Hwf Hlim. split.
  - now apply push_back_returns.
  - intros Hr Hfull. apply push_back_own_element; auto.
    apply Hlim. destruct Hwf as (_ & Hs & _). lia.
Qed.

Lemma push_back_appends_witness :
  (exists this' h',
      Continer.push_back (by_value 7) (full32, full32_heap) = Ok tt (this', h') /\
      continer_wf this' h' /\ size_ this' = size_ full32 + 1 /\
      continer_bytes this' h' = continer_bytes full32 full32_heap ++ [7]) /\
  Continer.push_back (in_heap (buf_ full32) 0) (full32, full32_heap) = Undefined.
Proof.
  destruct (push_back_appends (by_value 7) 7 0 full32 full32_heap) as [Hout Hown].
  - apply full32_wf.
  - intros _. apply Z.leb_le. reflexivity.
  - split; [apply Hout; reflexivity|apply Hown; reflexivity].
Defined.

(** X6: every public member function of the container that returns
    leaves a well-formed container: an empty one holds no memory, a
    non-empty one has [0 < size <= capacity] and [capacity] bytes of
    allocated memory behind its pointer. *)
Theorem container_invariant_kept (c : Continer.Call) this h this' h' :
  continer_wf this h -> public_call c ->
  Continer.call c (this, h) = Ok tt (this', h') ->
  continer_wf this' h'.
Proof. intros Hwf Hc. eapply public_call_wf; eauto. Qed.

Lemma container_invariant_kept_witness :
  continer_wf (Continer.set_shrink_counter (continer_ zeros16) 1) zeros16_heap.
Proof.
  apply (container_invariant_kept Continer.call_shrink
           (continer_ zeros16) zeros16_heap).
  - apply zeros16_wf.
  - exact I.
  - reflexivity.
Defined.
(* --------------------------------------------------------------------- *)
(** *** The container: what a call can end in *)
(* --------------------------------------------------------------------- *)

Lemma reallocate_defined this h :
  ref_ this = false ->
  (forall b, buf_ this = Some b -> is_Some (Mem.contents h b)) ->
  Continer.reallocate_to_capacity (this, h) <> Undefined.
Proof.
  intros Hr Hb. unfold Continer.reallocate_to_capacity. rewrite Hr. cbn [negb].
  unfold Mem.realloc. destruct (buf_ this) as [b|].
  - destruct (Hb b eq_refl) as [data ->].
    destruct (capacity_ this =? 0); [discriminate|].
    destruct (capacity_ this <=? Mem.alloc_limit h); [|discriminate].
    destruct (Mem.new_block _ _). discriminate.
  - unfold Mem.malloc. destruct (capacity_ this <=? Mem.alloc_limit h).
    + destruct (Mem.new_block _ _). discriminate.
    + discriminate.
Qed.

Lemma wf_block_live this h :
  continer_wf this h -> forall b, buf_ this = Some b -> is_Some (Mem.contents h b).
Proof.
  intros (_ & _ & _ & _ & Hb) b E. rewrite E in Hb.
  destruct Hb as (_ & data & -> & _). eauto.
Qed.

Lemma reserve_defined n this h :
  continer_wf this h -> ref_ this = false ->
  Continer.reserve n (this, h) <> Undefined.
Proof.
  intros Hwf Hr. pose proof (wf_block_live _ _ Hwf) as Hb.
  unfold Continer.reserve.
  destruct (capacity_ this <? n); [|destruct (n <? capacity_ this)].
  - now apply reallocate_defined.
  - now apply reallocate_defined.
  - discriminate.
Qed.

Lemma resize_defined n this h :
  continer_wf this h -> ref_ this = false ->
  Continer.resize n (this, h) <> Undefined.
Proof.
  intros Hwf Hr. unfold Continer.resize, bind.
  destruct (n =? 0).
  - destruct (clear_ok _ _ Hwf) as (h' & -> & _). discriminate.
  - destruct (capacity_ this <? n); [|discriminate].
    pose proof (reserve_defined n _ _ Hwf Hr).
    destruct (Continer.reserve n (this, h)) as [[] []|? []|]; congruence.
Qed.

(** X7: on a well-formed container that owns its storage (or is empty),
    no public member function has undefined behaviour, provided the
    argument of [push_back] refers to an object outside the storage of
    the container: [resize], [push_back], [shrink], [shrink_to_fit] and
    [clear] return or throw. *)
Theorem owned_calls_defined (c : Continer.Call) this h :
  continer_wf this h -> ref_ this = false -> public_call c ->
  argument_outside c this h ->
  Continer.call c (this, h) <> Undefined.
Proof.
  intros Hwf Hr Hc Harg. pose proof Hwf as (Hh & Hs & Hcap & Hk & Hb).
  destruct c as [n|n|val| | |]; cbn [Continer.call].
  - contradiction.
  - now apply resize_defined.
  - destruct Harg as [v Hval].
    unfold Continer.push_back, bind. rewrite add_in_object by lia.
    pose proof (resize_defined (size_ this + 1) _ _ Hwf Hr) as Hd.
    destruct (Continer.resize (size_ this + 1) (this, h))
      as [[] [c1 h1]|e [c1 h1]|] eqn:E; [|discriminate|congruence].
    destruct (resize_wf (size_ this + 1) _ _ _ _ Hwf ltac:(lia) E)
      as (Hwf1 & Hsz1 & _).
    assert (read_byte_ref val h1 = Some v) as ->.
    { eapply read_byte_ref_frame; [exact Hval|].
      intros r data Hdat Hne.
      assert (0 < size_ this + 1) as Hpos by lia.
      exact (proj1 (resize_grow_frame _ _ _ _ _ r data Hwf Hpos E Hdat Hne)). }
    destruct (continer_wf_block _ _ Hwf1) as (b & data & Eb & Hdat & Hlen & _); [lia|].
    destruct (store_bytes_ok b (size_ this) [v] h1 data Hdat) as (h2 & Hst & _);
      [lia|cbn [length]; lia|].
    rewrite Eb, Hst. discriminate.
  - unfold Continer.shrink.
    unfold Continer.DEFAULT_SHRINK_TRIGGER_COUNT, Continer.INT_MAX in *.
    destruct (Continer.shrink_guard this); [|discriminate].
    destruct (Z.eqb_spec (shrink_counter_ this) 2147483647); [lia|].
    cbn [shrink_counter_ size_ Continer.set_shrink_counter].
    destruct (2 <? shrink_counter_ this + 1); [|discriminate].
    unfold bind. rewrite reserve_counter.
    pose proof (reserve_defined (size_ this) _ _ Hwf Hr).
    destruct (Continer.reserve (size_ this) (this, h)) as [[] []|? []|];
      congruence.
  - unfold Continer.shrink_to_fit, bind.
    destruct (0 <? size_ this); [|discriminate].
    pose proof (reserve_defined (size_ this) _ _ Hwf Hr).
    destruct (Continer.reserve (size_ this) (this, h)) as [[] []|? []|];
      congruence.
  - destruct (clear_ok _ _ Hwf) as (h' & -> & _). discriminate.
Qed.

Lemma owned_calls_defined_witness :
  Continer.call (Continer.call_push_back (in_heap (Some 0%nat) 2))
    (continer_ ten, ten_heap)
  <> Undefined.
Proof.
  apply owned_calls_defined.
  - apply ten_wf.
  - reflexivity.
  - exact I.
  - exists 2. split; [discriminate|reflexivity].
Defined.

(** X8: when the allocator refuses the growth of an owning (or empty)
    container, [resize(n)] throws [std::bad_alloc] with the heap and the
    size untouched, but [capacity_] already holds the capacity that was
    asked for: the container no longer satisfies its invariant. *)
Theorem growth_failure_leaves_new_capacity n this h :
  continer_wf this h -> ref_ this = false ->
  capacity_ this < n ->
  Mem.alloc_limit h < Z.max n (Z.max (2 * capacity_ this) 32) ->
  Continer.resize n (this, h)
  = Throw bad_alloc
      (Continer.set_capacity this (Z.max n (Z.max (2 * capacity_ this) 32)), h) /\
  ~ continer_wf
      (Continer.set_capacity this (Z.max n (Z.max (2 * capacity_ this) 32))) h.
Proof.
  intros Hwf Hr Hgt Hlim. pose proof Hwf as (Hh & Hs & Hcap & Hk & Hb).
  split.
  - unfold Continer.resize, bind.
    destruct (Z.eqb_spec n 0); [lia|].
    destruct (Z.ltb_spec (capacity_ this) n); [|lia].
    unfold Continer.reserve.
    destruct (Z.ltb_spec (capacity_ this) n); [|lia].
    cbn [capacity_ Continer.set_capacity].
    rewrite grown_capacity by lia.
    unfold Continer.reallocate_to_capacity.
    cbn [ref_ buf_ capacity_ size_ shrink_counter_ Continer.set_capacity].
    rewrite Hr. cbn [negb].
    unfold Mem.realloc. destruct (buf_ this) as [b|] eqn:Eb.
    + destruct Hb as (_ & data & -> & _).
      destruct (Z.eqb_spec (Z.max n (Z.max (2 * capacity_ this) 32)) 0); [lia|].
      destruct (Z.leb_spec (Z.max n (Z.max (2 * capacity_ this) 32))
                  (Mem.alloc_limit h)); [lia|].
      unfold Continer.set_capacity. cbn. now rewrite Eb, Hr.
    + rewrite malloc_fail by lia.
      unfold Continer.set_capacity. cbn. now rewrite Eb, Hr.
  - intros (_ & _ & _ & _ & Hb').
    cbn [buf_ capacity_ ref_ size_ Continer.set_capacity] in Hb'.
    destruct (buf_ this) as [b|].
    + destruct Hb' as (_ & data & _ & Hd'). rewrite Hr in Hd'. lia.
    + lia.
Qed.

Lemma growth_failure_leaves_new_capacity_witness :
  Continer.resize 5000 (continer_ zeros16, zeros16_heap)
  = Throw bad_alloc
      (Continer.set_capacity (continer_ zeros16)
         (Z.max 5000 (Z.max (2 * capacity_ (continer_ zeros16)) 32)), zeros16_heap) /\
  ~ continer_wf
      (Continer.set_capacity (continer_ zeros16)
         (Z.max 5000 (Z.max (2 * capacity_ (continer_ zeros16)) 32))) zeros16_heap.
Proof.
  apply growth_failure_leaves_new_capacity.
  - apply zeros16_wf.
  - reflexivity.
  - cbn. lia.
  - cbn. lia.
Defined.

(** X9: when the allocator refuses the growth of a borrowing container,
    [resize(n)] does not throw: [reserve] copies into the null pointer
    that [allocate] returned before it tests it, which is undefined
    behaviour. *)
Theorem borrowed_growth_failure_undefined n this h :
  continer_wf this h -> ref_ this = true ->
  capacity_ this < n ->
  Mem.alloc_limit h < Z.max n (Z.max (2 * capacity_ this) 32) ->
  Continer.resize n (this, h) = Undefined.
Proof.
  intros Hwf Hr Hgt Hlim. pose proof Hwf as (Hh & Hs & Hcap & Hk & Hb).
  unfold Continer.resize, bind.
  destruct (Z.eqb_spec n 0); [lia|].
  destruct (Z.ltb_spec (capacity_ this) n); [|lia].
  unfold Continer.reserve.
  destruct (Z.ltb_spec (capacity_ this) n); [|lia].
  cbn [capacity_ Continer.set_capacity].
  rewrite grown_capacity by lia.
  unfold Continer.reallocate_to_capacity.
  cbn [ref_ buf_ capacity_ size_ shrink_counter_ Continer.set_capacity].
  rewrite Hr. cbn [negb].
  rewrite malloc_fail by lia.
  destruct (buf_ this) as [b|] eqn:Eb; [|destruct Hb; congruence].
  destruct Hb as (Hpos & data & Hd & Hlen). rewrite Hr in Hlen.
  unfold Mem.memcpy.
  destruct (Z.eqb_spec (size_ this) 0); [lia|].
  cbn [Mem.overlap].
  rewrite (load_bytes_ok b 0 (size_ this) h data Hd) by lia.
  reflexivity.
Qed.

Lemma borrowed_growth_failure_undefined_witness :
  Continer.resize 5000 (borrowed3, read_test_caller_heap) = Undefined.
Proof.
  apply borrowed_growth_failure_undefined.
  - apply borrowed3_wf.
  - reflexivity.
  - cbn. lia.
  - cbn. lia.
Defined.

(* --------------------------------------------------------------------- *)
(** *** The container: appending the bytes of another object *)
(* --------------------------------------------------------------------- *)

Lemma add_sizes a b :
  0 <= a <= SizeT.PTRDIFF_MAX -> 0 <= b <= SizeT.PTRDIFF_MAX ->
  SizeT.add a b = a + b.
Proof.
  intros Ha Hb. apply add_small; try lia.
  rewrite modulus_eq. rewrite PTRDIFF_MAX_eq in *. lia.
Qed.

Lemma length_segment (l : list Z) off n :
  0 <= off -> 0 <= n -> off + n <= Z.of_nat (length l) ->
  length (segment off n l) = Z.to_nat n.
Proof.
  intros. unfold segment. rewrite length_take, length_drop. lia.
Qed.

(** Growing a container by [n] bytes and copying [n] bytes of another
    block to its end, which is what [push_back(other)] and the pointer
    [append] do. *)
Lemma grow_and_copy this h (src : nat) soff n sdata :
  continer_wf this h ->
  Mem.contents h src = Some sdata -> 0 <= soff -> 0 < n ->
  soff + n <= Z.of_nat (length sdata) ->
  buf_ this <> Some src ->
  (capacity_ this < size_ this + n ->
   Z.max (size_ this + n) (Z.max (2 * capacity_ this) 32) <= Mem.alloc_limit h) ->
  exists c1 h1 h2,
    Continer.resize (size_ this + n) (this, h) = Ok tt (c1, h1) /\
    Mem.memcpy (buf_ c1) (size_ this) (Some src) soff n h1 = Some h2 /\
    continer_wf c1 h2 /\ size_ c1 = size_ this + n /\
    continer_bytes c1 h2 = continer_bytes this h ++ segment soff n sdata /\
    Mem.contents h2 src = Some sdata /\ buf_ c1 <> Some src.
Proof.
  intros Hwf Hd Hoff Hn Hin Hne Hlim.
  pose proof Hwf as (Hh & Hs & Hc & Hk & Hb).
  destruct (resize_returns (size_ this + n) this h Hwf ltac:(lia) Hlim)
    as (c1 & h1 & E).
  destruct (resize_wf (size_ this + n) _ _ _ _ Hwf ltac:(lia) E)
    as (Hwf1 & Hsz1 & Hbytes1).
  assert (Hpos : 0 < size_ this + n) by lia.
  destruct (resize_grow_frame _ _ _ _ _ _ _ Hwf Hpos E Hd Hne) as (Hd1 & Hne1).
  destruct (continer_wf_block _ _ Hwf1) as (b & data & Eb & Hdat & Hlen & _); [lia|].
  pose proof (length_segment sdata soff n Hoff ltac:(lia) Hin) as Hseg.
  destruct (store_bytes_ok b (size_ this) (segment soff n sdata) h1 data Hdat)
    as (h2 & Hst & Hc2 & Hframe & _); [lia|rewrite Hseg; lia|].
  exists c1, h1, h2. split; [exact E|]. split.
  { unfold Mem.memcpy. destruct (Z.eqb_spec n 0); [lia|].
    rewrite Eb. cbn [Mem.overlap].
    destruct (Nat.eqb_spec b src); [congruence|]. cbn [andb].
    rewrite (load_bytes_ok src soff n h1 sdata Hd1) by lia. exact Hst. }
  split; [eapply continer_wf_store; eauto|]. split; [exact Hsz1|].
  split; [|split; [|exact Hne1]].
  - replace (Z.min (size_ this + n) (size_ this)) with (size_ this) in Hbytes1 by lia.
    assert (take (Z.to_nat (size_ this)) data = continer_bytes this h) as Hold.
    { assert (take (Z.to_nat (size_ this)) (continer_bytes this h)
              = continer_bytes this h) as Hid.
      { unfold continer_bytes. rewrite take_take. f_equal. lia. }
      rewrite <- Hid, <- Hbytes1. unfold continer_bytes.
      rewrite Eb, Hsz1, (block_data_contents _ _ _ Hdat), take_take. f_equal. lia. }
    unfold continer_bytes at 1.
    rewrite Eb, Hsz1, (block_data_contents _ _ _ Hc2), <- Hold.
    rewrite app_assoc. apply take_app_length'.
    rewrite length_app, length_take, Hseg. lia.
  - rewrite Hframe; [exact Hd1|congruence].
Qed.

Lemma continer_bytes_segment this h b data :
  buf_ this = Some b -> Mem.contents h b = Some data ->
  continer_bytes this h = segment 0 (size_ this) data.
Proof.
  intros Eb Hd. unfold continer_bytes, segment.
  rewrite Eb, (block_data_contents _ _ _ Hd). reflexivity.
Qed.

(** [push_back(other)] with [other] another well-formed container whose
    storage is not the storage of [*this]. *)
Lemma push_back_buffer_appends other this h :
  continer_wf this h -> continer_wf other h ->
  (0 < size_ other -> buf_ this <> buf_ other) ->
  (capacity_ this < size_ this + size_ other ->
   Z.max (size_ this + size_ other) (Z.max (2 * capacity_ this) 32)
   <= Mem.alloc_limit h) ->
  exists this' h',
    Continer.push_back_buffer (another other) (this, h) = Ok tt (this', h') /\
    continer_wf this' h' /\
    size_ this' = size_ this + size_ other /\
    continer_bytes this' h' = continer_bytes this h ++ continer_bytes other h /\
    continer_bytes other h' = continer_bytes other h.
Proof.
  intros Hwf Hwfo Hne Hlim.
  pose proof Hwf as (Hh & Hs & Hc & Hk & Hb).
  pose proof Hwfo as (_ & Hso & Hco & _ & Hbo).
  unfold Continer.push_back_buffer, bind. cbn [deref]. unfold Continer.empty.
  destruct (Z.eqb_spec (size_ other) 0) as [Hz|Hnz]; cbn [negb].
  - exists this, h. split; [reflexivity|]. split; [exact Hwf|].
    split; [lia|]. split; [|reflexivity].
    unfold continer_bytes at 3. rewrite Hz. cbn. now rewrite app_nil_r.
  - destruct (continer_wf_block _ _ Hwfo) as (bo & odata & Ebo & Hod & Hlen & _); [lia|].
    destruct (grow_and_copy this h bo 0 (size_ other) odata Hwf Hod)
      as (c1 & h1 & h2 & E & Hcp & Hwf1 & Hsz1 & Hbytes & Hod2 & _);
      [lia|lia|lia| |lia|].
    { rewrite <- Ebo. apply Hne. lia. }
    exists c1, h2. rewrite add_sizes by lia. rewrite E.
    unfold Continer.begin, heap_call. rewrite Ebo, Hcp.
    split; [reflexivity|]. split; [exact Hwf1|]. split; [exact Hsz1|].
    rewrite Hbytes.
    rewrite !(continer_bytes_segment other _ bo odata) by assumption.
    split; reflexivity.
Qed.

(** [push_back(other)] with [other] the container itself: after
    [resize], [other.size()] is the doubled size and [other.buf_] the
    new storage. *)
Lemma self_append_undefined this h :
  continer_wf this h -> 0 < size_ this ->
  (forall s, Continer.push_back_buffer itself (this, h) <> Ok tt s) /\
  ((capacity_ this < 2 * size_ this ->
    Z.max (2 * size_ this) (Z.max (2 * capacity_ this) 32) <= Mem.alloc_limit h) ->
   Continer.push_back_buffer itself (this, h) = Undefined).
Proof.
  intros Hwf Hpos. pose proof Hwf as (Hh & Hs & Hc & Hk & Hb).
  assert (Hrun : forall c1 h1,
             Continer.resize (size_ this + size_ this) (this, h) = Ok tt (c1, h1) ->
             Continer.push_back_buffer itself (this, h) = Undefined).
  { intros c1 h1 E.
    destruct (resize_wf (size_ this + size_ this) _ _ _ _ Hwf ltac:(lia) E)
      as (Hwf1 & Hsz1 & _).
    destruct (continer_wf_block _ _ Hwf1) as (b & data & Eb & _); [lia|].
    unfold Continer.push_back_buffer, bind. cbn [deref]. unfold Continer.empty.
    destruct (Z.eqb_spec (size_ this) 0); [lia|]. cbn [negb].
    rewrite add_sizes by lia. rewrite E.
    unfold heap_call, Continer.begin, Mem.memcpy. rewrite Eb, Hsz1.
    destruct (Z.eqb_spec (size_ this + size_ this) 0); [lia|].
    cbn [Mem.overlap]. rewrite Nat.eqb_refl.
    destruct (Z.ltb_spec 0 (size_ this + (size_ this + size_ this))); [|lia].
    destruct (Z.ltb_spec (size_ this) (0 + (size_ this + size_ this))); [|lia].
    reflexivity. }
  split.
  - intros s.
    destruct (Continer.resize (size_ this + size_ this) (this, h))
      as [[] [c1 h1]|e [c1 h1]|] eqn:E.
    + rewrite (Hrun _ _ eq_refl). discriminate.
    + unfold Continer.push_back_buffer, bind. cbn [deref]. unfold Continer.empty.
      destruct (Z.eqb_spec (size_ this) 0); [lia|]. cbn [negb].
      rewrite add_sizes by lia. rewrite E. discriminate.
    + unfold Continer.push_back_buffer, bind. cbn [deref]. unfold Continer.empty.
      destruct (Z.eqb_spec (size_ this) 0); [lia|]. cbn [negb].
      rewrite add_sizes by lia. rewrite E. discriminate.
  - intros Hlim.
    destruct (resize_returns (size_ this + size_ this) this h Hwf ltac:(lia))
      as (c1 & h1 & E).
    { intros Hgt. replace (size_ this + size_ this) with (2 * size_ this) by lia.
      apply Hlim. lia. }
    eapply Hrun; eauto.
Qed.

(* --------------------------------------------------------------------- *)
(** *** The allocator's limit, and frames *)
(* --------------------------------------------------------------------- *)

Lemma store_bytes_limit p off bs h h' :
  Mem.store_bytes p off bs h = Some h' -> Mem.alloc_limit h' = Mem.alloc_limit h.
Proof.
  unfold Mem.store_bytes. destruct p; [|discriminate].
  destruct (Mem.valid_range _ _ _ _); [|discriminate]. now intros [= <-].
Qed.

Lemma memcpy_limit dst doff src soff n h h' :
  Mem.memcpy dst doff src soff n h = Some h' ->
  Mem.alloc_limit h' = Mem.alloc_limit h.
Proof.
  unfold Mem.memcpy. destruct (n =? 0); [now intros [= <-]|].
  destruct (Mem.overlap _ _ _ _ _); [discriminate|].
  destruct (Mem.load_bytes _ _ _ _); [|discriminate].
  apply store_bytes_limit.
Qed.

Lemma memset_limit p off v n h h' :
  Mem.memset p off v n h = Some h' -> Mem.alloc_limit h' = Mem.alloc_limit h.
Proof.
  unfold Mem.memset. destruct (n =? 0); [now intros [= <-]|].
  destruct (Mem.valid_range _ _ _ _); [|discriminate].
  apply store_bytes_limit.
Qed.

Lemma malloc_limit n h p h' :
  Mem.malloc n h = (p, h') -> Mem.alloc_limit h' = Mem.alloc_limit h.
Proof.
  unfold Mem.malloc. destruct (n <=? Mem.alloc_limit h).
  - cbn. now intros [= _ <-].
  - now intros [= _ <-].
Qed.

Lemma realloc_limit p n h p' h' :
  Mem.realloc p n h = Some (p', h') -> Mem.alloc_limit h' = Mem.alloc_limit h.
Proof.
  unfold Mem.realloc. destruct p as [b|].
  - destruct (Mem.contents h b); [|discriminate].
    destruct (n =? 0); [now intros [= _ <-]|].
    destruct (n <=? Mem.alloc_limit h).
    + cbn. now intros [= _ <-].
    + now intros [= _ <-].
  - intros [= E]. eapply malloc_limit; eauto.
Qed.

Lemma reallocate_limit this h this' h' :
  final_state (Continer.reallocate_to_capacity (this, h)) = Some (this', h') ->
  Mem.alloc_limit h' = Mem.alloc_limit h.
Proof.
  unfold Continer.reallocate_to_capacity. destruct (negb (ref_ this)).
  - destruct (Mem.realloc _ _ _) as [[[b|] h1]|] eqn:E; cbn; try discriminate.
    + intros [= _ <-]. eapply realloc_limit; eauto.
    + intros [= _ <-]. eapply realloc_limit; eauto.
  - destruct (Mem.malloc _ _) as [p h1] eqn:E.
    destruct (Mem.memcpy _ _ _ _ _ _) as [h2|] eqn:E2; [|discriminate].
    apply malloc_limit in E. apply memcpy_limit in E2.
    destruct p; cbn; intros [= _ <-]; congruence.
Qed.

Lemma reserve_limit n this h this' h' :
  final_state (Continer.reserve n (this, h)) = Some (this', h') ->
  Mem.alloc_limit h' = Mem.alloc_limit h.
Proof.
  unfold Continer.reserve.
  destruct (capacity_ this <? n); [|destruct (n <? capacity_ this)].
  - apply reallocate_limit.
  - apply reallocate_limit.
  - cbn. now intros [= _ <-].
Qed.

(** A well-formed container stays well-formed when the heap changes
    elsewhere. *)
Lemma continer_wf_frame this h h' :
  continer_wf this h ->
  Mem.alloc_limit h' = Mem.alloc_limit h ->
  (forall b, buf_ this = Some b -> Mem.contents h' b = Mem.contents h b) ->
  continer_wf this h'.
Proof.
  intros (Hh & Hs & Hc & Hk & Hb) Hl Hsame. unfold continer_wf, heap_wf in *.
  rewrite Hl. repeat (split; [tauto|]).
  destruct (buf_ this) as [b|]; [|exact Hb].
  rewrite (Hsame b eq_refl). exact Hb.
Qed.

Lemma continer_bytes_frame this h h' :
  (forall b, buf_ this = Some b -> Mem.contents h' b = Mem.contents h b) ->
  continer_bytes this h' = continer_bytes this h.
Proof.
  intros Hsame. unfold continer_bytes, Mem.block_data.
  destruct (buf_ this) as [b|]; [|reflexivity].
  now rewrite (Hsame b eq_refl).
Qed.

(* --------------------------------------------------------------------- *)
(** *** Constructors, moves and the destructor *)
(* --------------------------------------------------------------------- *)

Lemma of_pointer_limit buf off n h c h' :
  Continer.of_pointer buf off n h = Ok c h' ->
  Mem.alloc_limit h' = Mem.alloc_limit h.
Proof.
  unfold Continer.of_pointer, construct.
  destruct (negb (Continer.is_null buf off) && (0 <? n)).
  - unfold bind.
    destruct (Continer.reserve n _) as [[] [c1 h1]|e [c1 h1]|] eqn:E;
      try discriminate.
    apply final_of_Ok in E. apply reserve_limit in E.
    unfold heap_call.
    destruct (Mem.memcpy _ _ _ _ _ _) as [h2|] eqn:E2; [|discriminate].
    apply memcpy_limit in E2. intros [= _ <-]. congruence.
  - cbn. now intros [= _ <-].
Qed.

Lemma copy_construct_as_of_pointer other b h :
  buf_ other = Some b -> 0 < size_ other ->
  Continer.copy_construct other h
  = Continer.of_pointer (Some b) 0 (size_ other) h.
Proof.
  intros Eb Hpos. unfold Continer.copy_construct, Continer.of_pointer, construct.
  unfold Continer.is_null, Continer.size, Continer.begin. cbn [negb andb].
  destruct (Z.ltb_spec 0 (size_ other)); [|lia].
  unfold bind. rewrite Eb.
  destruct (Continer.reserve (size_ other)
              (mkSimpleBufferT None (size_ other) 0 0 false, h))
    as [[] [c1 h1]|e [c1 h1]|] eqn:E; try reflexivity.
  pose proof (final_of_Ok _ _ _ E) as F.
  apply reserve_keeps_owned in F; [|reflexivity].
  destruct F as (_ & Hsz & _). cbn [size_] in Hsz.
  assert (Continer.set_size c1 (size_ other) = c1) as ->
    by (destruct c1; cbn in *; now subst).
  reflexivity.
Qed.

(** The copy constructor of the container. *)
Lemma continer_copy_construct other h :
  continer_wf other h ->
  (0 < size_ other -> Z.max (size_ other) 32 <= Mem.alloc_limit h) ->
  exists c h',
    Continer.copy_construct other h = Ok c h' /\
    continer_wf c h' /\ ref_ c = false /\ size_ c = size_ other /\
    continer_bytes c h' = continer_bytes other h /\
    continer_wf other h' /\
    (forall b, is_Some (Mem.contents h b) -> Mem.contents h' b = Mem.contents h b) /\
    (0 < size_ other -> buf_ c <> buf_ other) /\
    (size_ other = 0 -> c = Continer.default /\ h' = h).
Proof.
  intros Hwf Hlim. pose proof Hwf as (Hh & Hs & Hc & Hk & Hb).
  destruct (Z.eq_dec (size_ other) 0) as [Hz|Hnz].
  - exists Continer.default, h.
    assert (Continer.copy_construct other h = Ok Continer.default h) as E.
    { unfold Continer.copy_construct, construct, bind, Continer.size.
      rewrite Hz. cbn. reflexivity. }
    split; [exact E|]. split; [now apply default_wf|].
    split; [reflexivity|]. split; [cbn; lia|]. split.
    { unfold continer_bytes. rewrite Hz. reflexivity. }
    split; [exact Hwf|]. split; [reflexivity|]. split; [lia|auto].
  - destruct (continer_wf_block _ _ Hwf) as (b & data & Eb & Hd & Hlen & _); [lia|].
    destruct (of_pointer_copies b 0 (size_ other) h data Hh Hd)
      as (h' & E & Hwf' & Hbytes & Hfresh & Hframe); [lia|lia|lia|apply Hlim; lia|].
    pose proof (of_pointer_limit _ _ _ _ _ _ E) as Hl.
    eexists _, h'. rewrite (copy_construct_as_of_pointer other b) by (auto; lia).
    split; [exact E|]. split; [exact Hwf'|]. split; [reflexivity|].
    split; [reflexivity|]. split.
    { rewrite Hbytes. symmetry. now apply (continer_bytes_segment other h b). }
    assert (Hold : forall r, is_Some (Mem.contents h r) ->
                             Mem.contents h' r = Mem.contents h r).
    { intros r [d Hr]. apply Hframe. congruence. }
    split.
    { apply (continer_wf_frame other h h' Hwf Hl).
      intros b0 Eb0. apply Hold. rewrite Eb in Eb0. injection Eb0 as <-. eauto. }
    split; [exact Hold|]. split; [|lia].
    intros _. cbn [buf_]. rewrite Eb. intros [= Heq].
    rewrite Heq in Hfresh. congruence.
Qed.

(** X10: [SimpleBufferT(n, val)] and [BufferT(n, val)] with [n > 0], when
    the allocator grants [max(n, 32)] bytes: the buffer owns a fresh
    block, has size [n] and capacity [max(n, 32)], and every one of its
    [n] bytes is [val]; every block that existed is as before. *)
Theorem of_value_constructs n val h :
  heap_wf h -> 0 < n -> Z.max n 32 <= Mem.alloc_limit h ->
  exists b h',
    Buffer.of_value n val h = Ok b h' /\
    buffer_wf b h' /\ ref_ (continer_ b) = false /\
    Buffer.size b = n /\ Buffer.capacity b = Z.max n 32 /\
    buffer_bytes b h' = replicate (Z.to_nat n) val /\
    Mem.alloc_limit h' = Mem.alloc_limit h.
Proof.
  intros Hh Hn Hlim.
  destruct (of_value_fills n val h Hh Hn Hlim) as (h' & E & Hwf & Hbytes).
  eexists _, h'. unfold Buffer.of_value, bind. rewrite E. cbn [ret].
  split; [reflexivity|]. split; [exact Hwf|]. split; [reflexivity|].
  split; [reflexivity|]. split; [reflexivity|]. split; [exact Hbytes|].
  revert E. unfold Continer.of_value, construct, bind.
  rewrite reserve_from_empty by assumption.
  cbn [Continer.set_size Continer.begin buf_ size_ capacity_ shrink_counter_ ref_].
  unfold heap_call.
  destruct (Mem.memset _ _ _ _ _) as [h2|] eqn:E2; [|discriminate].
  apply memset_limit in E2. intros [= <-]. rewrite E2. reflexivity.
Qed.

Lemma of_value_constructs_witness :
  exists b h',
    Buffer.of_value 16 0 heap0 = Ok b h' /\
    buffer_wf b h' /\ ref_ (continer_ b) = false /\
    Buffer.size b = 16 /\ Buffer.capacity b = Z.max 16 32 /\
    buffer_bytes b h' = replicate (Z.to_nat 16) 0 /\
    Mem.alloc_limit h' = Mem.alloc_limit heap0.
Proof.
  apply of_value_constructs.
  - unfold heap_wf. cbn. rewrite PTRDIFF_MAX_eq. lia.
  - lia.
  - cbn. lia.
Defined.

(** The move constructor of the container, and the two destructors. *)
Lemma continer_move_construct other h :
  continer_wf other h ->
  exists h',
    Continer.move_construct other = (other, Continer.default) /\
    continer_wf Continer.default h /\
    Continer.destroy (fst (Continer.move_construct other)) h = Some h' /\
    released other h h' /\
    Continer.destroy (snd (Continer.move_construct other)) h' = Some h'.
Proof.
  intros Hwf. destruct (destroy_ok _ _ Hwf) as (h' & E & Hrel).
  assert (Continer.move_construct other = (other, Continer.default)) as ->
    by (destruct other; reflexivity).
  exists h'. split; [reflexivity|]. split; [apply default_wf, Hwf|].
  split; [exact E|]. split; [exact Hrel|]. reflexivity.
Qed.

(** X11: move assignment from a non-empty container overwrites the
    fields of [*this] without releasing what [*this] owned: the heap is
    not touched, [*this] becomes [other], [other] becomes empty, and
    the block [*this] owned is still allocated after both objects have
    been destroyed. *)
Theorem move_assign_leaks this other h b :
  continer_wf this h -> ref_ this = false -> buf_ this = Some b ->
  continer_wf other h -> 0 < size_ other -> buf_ other <> Some b ->
  exists h1,
    Continer.move_assign_from ((this, other), h)
    = Ok tt ((other, Continer.default), h) /\
    Continer.move_assign other (this, h) = Ok tt (other, h) /\
    Continer.destroy other h = Some h1 /\
    Continer.destroy Continer.default h1 = Some h1 /\
    Mem.contents h1 b = Mem.contents h b /\ is_Some (Mem.contents h b).
Proof.
  intros Hwf Hr Eb Hwfo Hpos Hne.
  destruct (destroy_ok _ _ Hwfo) as (h1 & E & Hrel).
  exists h1.
  assert (Continer.empty other = false) as Hne0
    by (unfold Continer.empty; destruct (Z.eqb_spec (size_ other) 0); [lia|reflexivity]).
  split.
  { unfold Continer.move_assign_from. rewrite Hne0. cbn [negb].
    destruct other; reflexivity. }
  split.
  { unfold Continer.move_assign. rewrite Hne0. cbn [negb].
    destruct other; reflexivity. }
  split; [exact E|]. split; [reflexivity|].
  split; [|exact (wf_block_live _ _ Hwf b Eb)].
  unfold released in Hrel.
  destruct (buf_ other) as [bo|]; [destruct (ref_ other)|].
  - now subst.
  - destruct Hrel as (_ & Hframe & _). apply Hframe. congruence.
  - now subst.
Qed.

Lemma move_assign_leaks_witness :
  exists h1,
    Continer.move_assign_from
      ((continer_ ten, Continer.ref (Some 0%nat) 10), ten_heap)
    = Ok tt ((Continer.ref (Some 0%nat) 10, Continer.default), ten_heap) /\
    Continer.move_assign (Continer.ref (Some 0%nat) 10) (continer_ ten, ten_heap)
    = Ok tt (Continer.ref (Some 0%nat) 10, ten_heap) /\
    Continer.destroy (Continer.ref (Some 0%nat) 10) ten_heap = Some h1 /\
    Continer.destroy Continer.default h1 = Some h1 /\
    Mem.contents h1 1%nat = Mem.contents ten_heap 1%nat /\
    is_Some (Mem.contents ten_heap 1%nat).
Proof.
  apply move_assign_leaks.
  - apply ten_wf.
  - reflexivity.
  - reflexivity.
  - apply (ref_wf 0 10 ten_heap [0; 1; 2; 3; 4; 5; 6; 7; 8; 9]).
    + unfold heap_wf. cbn. rewrite PTRDIFF_MAX_eq. lia.
    + reflexivity.
    + cbn. lia.
    + rewrite PTRDIFF_MAX_eq. lia.
  - cbn. lia.
  - discriminate.
Defined.

(** X12: [BufferT(nullptr, n)] with [n > 0] returns a buffer that
    reports size [n] but has no storage and capacity 0 (the constructor
    sets [size_] before it tests the pointer); the buffer is not
    well-formed, and every bounds-checked byte read inside its size is
    undefined behaviour. *)
Theorem of_pointer_null_keeps_size n h :
  0 < n ->
  exists b,
    Buffer.of_pointer None 0 n h = Ok b h /\
    Buffer.size b = n /\ Buffer.capacity b = 0 /\ Buffer.begin b = None /\
    ~ buffer_wf b h /\
    forall T offset, 0 <= offset < n -> Buffer.read_8bit T offset (b, h) = Undefined.
Proof.
  intros Hn. eexists. split; [reflexivity|].
  split; [reflexivity|]. split; [reflexivity|]. split; [reflexivity|]. split.
  - intros (_ & Hs & _). cbn in Hs. lia.
  - intros T offset Ho. unfold Buffer.read_8bit, Buffer.size, Continer.size.
    cbn [continer_ size_].
    destruct (Z.leb_spec n offset); [lia|]. reflexivity.
Qed.

Lemma of_pointer_null_keeps_size_witness :
  exists b,
    Buffer.of_pointer None 0 10 heap0 = Ok b heap0 /\
    Buffer.size b = 10 /\ Buffer.capacity b = 0 /\ Buffer.begin b = None /\
    ~ buffer_wf b heap0 /\
    forall T offset, 0 <= offset < 10 -> Buffer.read_8bit T offset (b, heap0) = Undefined.
Proof. apply of_pointer_null_keeps_size. lia. Defined.

(* --------------------------------------------------------------------- *)
(** *** The buffer: appending *)
(* --------------------------------------------------------------------- *)

Lemma length_continer_bytes this h :
  continer_wf this h -> length (continer_bytes this h) = Z.to_nat (size_ this).
Proof.
  intros Hwf. pose proof Hwf as (_ & Hs & _).
  destruct (Z.eq_dec (size_ this) 0) as [Hz|Hnz].
  - unfold continer_bytes. rewrite Hz. reflexivity.
  - destruct (continer_wf_block _ _ Hwf) as (b & data & Eb & Hd & Hlen & _); [lia|].
    unfold continer_bytes. rewrite Eb, (block_data_contents _ _ _ Hd), length_take. lia.
Qed.

Lemma buffer_resize_Ok n this h c h' :
  Continer.resize n (continer_ this, h) = Ok tt (c, h') ->
  Buffer.resize n (this, h) = Ok tt (mkBufferT c, h').
Proof.
  intros E. unfold Buffer.resize, Buffer.on_continer, on_member. now rewrite E.
Qed.

Lemma clear_limit this h this' h' :
  final_state (Continer.clear (this, h)) = Some (this', h') ->
  Mem.alloc_limit h' = Mem.alloc_limit h.
Proof.
  unfold Continer.clear.
  destruct (buf_ this) as [b|]; [destruct (negb (ref_ this))|].
  - destruct (Mem.free b h) as [h1|] eqn:E; [|discriminate].
    cbn. intros [= _ <-]. eapply free_limit; eauto.
  - cbn. now intros [= _ <-].
  - cbn. now intros [= _ <-].
Qed.

Lemma resize_limit n this h this' h' :
  final_state (Continer.resize n (this, h)) = Some (this', h') ->
  Mem.alloc_limit h' = Mem.alloc_limit h.
Proof.
  unfold Continer.resize, bind.
  destruct (n =? 0); [|destruct (capacity_ this <? n)].
  - destruct (Continer.clear (this, h)) as [[] [c1 h1]|e [c1 h1]|] eqn:E;
      cbn; try discriminate.
    + intros [= _ <-]. eapply clear_limit. erewrite final_of_Ok; eauto.
    + intros [= _ <-]. eapply clear_limit. erewrite final_of_Throw; eauto.
  - destruct (Continer.reserve n (this, h)) as [[] [c1 h1]|e [c1 h1]|] eqn:E;
      cbn; try discriminate.
    + intros [= _ <-]. eapply reserve_limit. erewrite final_of_Ok; eauto.
    + intros [= _ <-]. eapply reserve_limit. erewrite final_of_Throw; eauto.
  - cbn. now intros [= _ <-].
Qed.

(** Growing a container by the length of [bs] and storing [bs] at its
    old end. *)
Lemma grow_and_store this h (bs : list Z) :
  continer_wf this h -> (0 < length bs)%nat ->
  (capacity_ this < size_ this + Z.of_nat (length bs) ->
   Z.max (size_ this + Z.of_nat (length bs)) (Z.max (2 * capacity_ this) 32)
   <= Mem.alloc_limit h) ->
  exists c1 h1 h2,
    Continer.resize (size_ this + Z.of_nat (length bs)) (this, h) = Ok tt (c1, h1) /\
    Mem.store_bytes (buf_ c1) (size_ this) bs h1 = Some h2 /\
    continer_wf c1 h2 /\ size_ c1 = size_ this + Z.of_nat (length bs) /\
    continer_bytes c1 h2 = continer_bytes this h ++ bs /\
    Mem.alloc_limit h2 = Mem.alloc_limit h /\
    (forall r d, Mem.contents h r = Some d -> buf_ this <> Some r ->
                 Mem.contents h2 r = Some d /\ buf_ c1 <> Some r).
Proof.
  intros Hwf Hn Hlim.
  pose proof Hwf as (Hh & Hs & Hc & Hk & Hb).
  set (n := Z.of_nat (length bs)) in *.
  destruct (resize_returns (size_ this + n) this h Hwf ltac:(lia) Hlim)
    as (c1 & h1 & E).
  destruct (resize_wf (size_ this + n) _ _ _ _ Hwf ltac:(lia) E)
    as (Hwf1 & Hsz1 & Hbytes1).
  assert (Hpos : 0 < size_ this + n) by lia.
  destruct (continer_wf_block _ _ Hwf1) as (b & data & Eb & Hdat & Hlen & _); [lia|].
  destruct (store_bytes_ok b (size_ this) bs h1 data Hdat)
    as (h2 & Hst & Hc2 & Hframe & Hl2 & _); [lia|lia|].
  exists c1, h1, h2. split; [exact E|]. rewrite Eb. split; [exact Hst|].
  split; [eapply continer_wf_store; eauto|]. split; [exact Hsz1|].
  split; [|split].
  - replace (Z.min (size_ this + n) (size_ this)) with (size_ this) in Hbytes1 by lia.
    assert (take (Z.to_nat (size_ this)) data = continer_bytes this h) as Hold.
    { assert (take (Z.to_nat (size_ this)) (continer_bytes this h)
              = continer_bytes this h) as Hid.
      { unfold continer_bytes. rewrite take_take. f_equal. lia. }
      rewrite <- Hid, <- Hbytes1. unfold continer_bytes.
      rewrite Eb, Hsz1, (block_data_contents _ _ _ Hdat), take_take. f_equal. lia. }
    unfold continer_bytes at 1.
    rewrite Eb, Hsz1, (block_data_contents _ _ _ Hc2), <- Hold.
    rewrite app_assoc. apply take_app_length'.
    rewrite length_app, length_take. lia.
  - rewrite Hl2. eapply resize_limit. erewrite final_of_Ok; eauto.
  - intros r d Hr Hne.
    destruct (resize_grow_frame _ _ _ _ _ _ _ Hwf Hpos E Hr Hne) as (Hd1 & Hne1).
    split; [|congruence].
    rewrite Hframe; [exact Hd1|congruence].
Qed.

Lemma granted_in_object this h n :
  continer_wf this h -> growth_granted this h n -> 0 <= n ->
  size_ this <= n -> n <= SizeT.PTRDIFF_MAX \/ n <= capacity_ this.
Proof.
  intros (Hh & Hs & Hc & _) Hg Hn Hle. unfold growth_granted, heap_wf in *.
  destruct (Z.lt_ge_cases (capacity_ this) n) as [Hgt|Hfit]; [|lia].
  specialize (Hg Hgt). left. lia.
Qed.

Lemma ensure_grows k this h :
  buffer_wf this h -> 0 < k ->
  Buffer.size this + k <= SizeT.PTRDIFF_MAX ->
  Buffer.EnsureWritableBytes (Buffer.size this) k (this, h)
  = Buffer.resize (Buffer.size this + k) (this, h).
Proof.
  intros (_ & Hs & _) Hk Hfit.
  unfold Buffer.EnsureWritableBytes, Buffer.size, Continer.size in *.
  rewrite !add_sizes by lia.
  destruct (Z.ltb_spec (size_ (continer_ this)) (size_ (continer_ this) + k)); [|lia].
  rewrite sub_small by (rewrite ?modulus_eq; rewrite PTRDIFF_MAX_eq in *; lia).
  replace (size_ (continer_ this) + k - size_ (continer_ this)) with k by lia.
  rewrite add_sizes by lia. reflexivity.
Qed.

(** [EnsureWritableBytes(size(), k)] followed by a store of [k] bytes at
    the old end: what every [append] does. *)
Lemma append_store this h (bs : list Z) :
  buffer_wf this h -> (0 < length bs)%nat ->
  growth_granted (continer_ this) h (Buffer.size this + Z.of_nat (length bs)) ->
  exists c1 h1 h2,
    Buffer.EnsureWritableBytes (Buffer.size this) (Z.of_nat (length bs)) (this, h)
    = Ok tt (c1, h1) /\
    Mem.store_bytes (Buffer.begin c1) (Buffer.size this) bs h1 = Some h2 /\
    buffer_wf c1 h2 /\
    Buffer.size c1 = Buffer.size this + Z.of_nat (length bs) /\
    buffer_bytes c1 h2 = buffer_bytes this h ++ bs /\
    Mem.alloc_limit h2 = Mem.alloc_limit h /\
    (forall r d, Mem.contents h r = Some d -> Buffer.begin this <> Some r ->
                 Mem.contents h2 r = Some d /\ Buffer.begin c1 <> Some r).
Proof.
  intros Hwf Hn Hg. pose proof Hwf as (Hh & Hs & Hc & _).
  unfold Buffer.size, Continer.size in *.
  assert (Hobj : size_ (continer_ this) + Z.of_nat (length bs) <= SizeT.PTRDIFF_MAX).
  { destruct (granted_in_object _ _ _ Hwf Hg); lia. }
  destruct (grow_and_store (continer_ this) h bs Hwf Hn Hg)
    as (c1 & h1 & h2 & E & Hst & Hwf1 & Hsz & Hbytes & Hl & Hframe).
  exists (mkBufferT c1), h1, h2.
  split.
  { pose proof (ensure_grows (Z.of_nat (length bs)) this h Hwf) as Hen.
    unfold Buffer.size, Continer.size in Hen. rewrite Hen by lia.
    now apply buffer_resize_Ok. }
  split; [exact Hst|]. split; [exact Hwf1|]. split; [exact Hsz|].
  split; [exact Hbytes|]. split; [exact Hl|]. exact Hframe.
Qed.

Lemma segment_app_end (l bs : list Z) :
  segment (Z.of_nat (length l)) (Z.of_nat (length bs)) (l ++ bs) = bs.
Proof.
  unfold segment. rewrite !Nat2Z.id, drop_app_length. apply firstn_all.
Qed.

(** What is read at the old end after [bs] has been appended. *)
Lemma block_segment_appended this h (old bs : list Z) s :
  buffer_wf this h -> buffer_bytes this h = old ++ bs ->
  s = Z.of_nat (length old) ->
  segment s (Z.of_nat (length bs)) (Mem.block_data (Buffer.begin this) h) = bs.
Proof.
  intros Hwf Hbytes ->. pose proof Hwf as (_ & Hs & _).
  pose proof (length_continer_bytes _ _ Hwf) as Hlen.
  unfold buffer_bytes in Hbytes. rewrite Hbytes, length_app in Hlen.
  rewrite <- (segment_app_end old bs) at 2. rewrite <- Hbytes.
  unfold continer_bytes, Buffer.begin, Continer.begin.
  symmetry. apply segment_take; lia.
Qed.

Lemma append_e_appends host T e v this h :
  buffer_wf this h ->
  growth_granted (continer_ this) h (Buffer.size this + sizeof T) ->
  exists this' h',
    Buffer.append_e host T e v (this, h) = Ok tt (this', h') /\
    buffer_wf this' h' /\
    Buffer.size this' = Buffer.size this + sizeof T /\
    buffer_bytes this' h' = buffer_bytes this h ++ Endian.write host T e v /\
    Mem.alloc_limit h' = Mem.alloc_limit h /\
    (is_value T v ->
     Buffer.read_e host T e (Buffer.size this) (this', h') = Ok v (this', h')).
Proof.
  intros Hwf Hg. pose proof Hwf as (Hh & Hs & Hc & _).
  pose proof (length_Endian_write host T e v) as Hlen.
  pose proof (sizeof_pos T) as Hsz. unfold sizeof in *.
  destruct (append_store this h (Endian.write host T e v) Hwf)
    as (c1 & h1 & h2 & E & Hst & Hwf1 & Hsz1 & Hbytes & Hl & _);
    [lia|now rewrite Hlen|].
  rewrite Hlen in *.
  assert (Hobj : Buffer.size this + Z.of_nat (sizeof_nat T) <= SizeT.PTRDIFF_MAX).
  { pose proof Hwf1 as (_ & Hs1 & Hc1 & _).
    unfold Buffer.size, Continer.size in *. lia. }
  exists c1, h2. split.
  { unfold Buffer.append_e, bind, sizeof. rewrite E.
    unfold Buffer.write_e, sizeof. rewrite Hsz1.
    unfold Buffer.size, Continer.size in *.
    rewrite add_sizes by lia.
    destruct (Z.ltb_spec (size_ (continer_ this) + Z.of_nat (sizeof_nat T))
                (size_ (continer_ this) + Z.of_nat (sizeof_nat T))); [lia|].
    unfold heap_call. now rewrite Hst. }
  split; [exact Hwf1|]. split; [exact Hsz1|]. split; [exact Hbytes|].
  split; [exact Hl|].
  intros Hv.
  rewrite read_e_inside; [|exact Hwf1| |unfold sizeof; lia].
  2:{ unfold Buffer.size, Continer.size in *. lia. }
  f_equal. unfold sizeof. rewrite <- Hlen.
  rewrite (block_segment_appended c1 h2 (buffer_bytes this h) _ _ Hwf1 Hbytes).
  - now apply Endian_read_write.
  - unfold buffer_bytes. rewrite (length_continer_bytes _ _ Hwf).
    unfold Buffer.size, Continer.size in *. lia.
Qed.

(** X13: [append<T, endianness>(v)] (and so [append_le], [append_be]) on
    a well-formed buffer returns whenever the allocator can serve the
    growth; the size grows by [sizeof(T)], the bytes are the old bytes
    followed by the encoding of [v] in the requested order, and
    [read<T, endianness>] at the old size returns [v]. *)
Theorem append_e_then_read host T e v this h :
  is_endian_basictype T = true -> is_value T v ->
  buffer_wf this h ->
  growth_granted (continer_ this) h (Buffer.size this + sizeof T) ->
  exists this' h',
    Buffer.append_e host T e v (this, h) = Ok tt (this', h') /\
    buffer_wf this' h' /\
    Buffer.size this' = Buffer.size this + sizeof T /\
    buffer_bytes this' h' = buffer_bytes this h ++ Endian.write host T e v /\
    Buffer.read_e host T e (Buffer.size this) (this', h') = Ok v (this', h').
Proof.
  intros _ Hv Hwf Hg.
  destruct (append_e_appends host T e v this h Hwf Hg)
    as (this' & h' & E & Hwf' & Hsz & Hbytes & _ & Hread).
  exists this', h'. auto 6.
Qed.

Lemma append_e_then_read_witness :
  exists this' h',
    Buffer.append_e kLittleEndian UInt16 kBigEndian 65518 (zeros16, zeros16_heap)
    = Ok tt (this', h') /\
    buffer_wf this' h' /\
    Buffer.size this' = Buffer.size zeros16 + sizeof UInt16 /\
    buffer_bytes this' h'
    = buffer_bytes zeros16 zeros16_heap
      ++ Endian.write kLittleEndian UInt16 kBigEndian 65518 /\
    Buffer.read_e kLittleEndian UInt16 kBigEndian (Buffer.size zeros16) (this', h')
    = Ok 65518 (this', h').
Proof.
  apply append_e_then_read.
  - reflexivity.
  - split; apply Z.leb_le; reflexivity.
  - apply zeros16_wf.
  - unfold growth_granted, Buffer.size, Continer.size, sizeof. cbn. lia.
Defined.

Lemma object_bytes_8bit host T v :
  is_8bit_basictype T = true -> Endian.object_bytes host T v = [v mod 256].
Proof.
  intros H8. unfold Endian.object_bytes.
  assert (sizeof_nat T = 1%nat) as Hs by (destruct T; try discriminate; reflexivity).
  assert (2 ^ value_bits T = 256) as ->
    by (unfold value_bits, sizeof; rewrite Hs; reflexivity).
  rewrite Hs. cbn [le_bytes]. rewrite Z.mod_mod by lia.
  now destruct host.
Qed.

Lemma convert_8bit T v :
  is_8bit_basictype T = true -> is_value T v -> convert T (v mod 256) = v.
Proof.
  intros H8 Hv. rewrite <- (convert_value T v Hv) at 2.
  assert (2 ^ value_bits T = 256) as ->
    by (destruct T; try discriminate; reflexivity).
  reflexivity.
Qed.

Lemma read_8bit_inside T offset this h x :
  buffer_wf this h -> 0 <= offset ->
  buffer_bytes this h !! Z.to_nat offset = Some x ->
  Buffer.read_8bit T offset (this, h) = Ok (convert T x) (this, h).
Proof.
  intros Hwf Ho Hx.
  destruct (buffer_bytes_prefix _ _ _ _ Hx) as (Hlt & b & data & Eb & Hd & Hdx).
  pose proof (lookup_lt_Some _ _ _ Hdx) as Hlen.
  unfold Buffer.read_8bit.
  destruct (Z.leb_spec (Buffer.size this) offset); [lia|].
  rewrite Eb, (load_bytes_ok b offset 1 h data Hd) by lia.
  now rewrite (segment_one data offset x Ho Hdx).
Qed.

Lemma append_8bit_appends T value v this h :
  buffer_wf this h ->
  growth_granted (continer_ this) h (Buffer.size this + 1) ->
  reads_outside value (Buffer.begin this) h v ->
  exists this' h',
    Buffer.append_8bit T value (this, h) = Ok tt (this', h') /\
    buffer_wf this' h' /\
    Buffer.size this' = Buffer.size this + 1 /\
    buffer_bytes this' h' = buffer_bytes this h ++ [v mod 256] /\
    Mem.alloc_limit h' = Mem.alloc_limit h /\
    (is_8bit_basictype T = true -> is_value T v ->
     Buffer.read_8bit T (Buffer.size this) (this', h') = Ok v (this', h')).
Proof.
  intros Hwf Hg Hval. pose proof Hwf as (Hh & Hs & Hc & _).
  destruct (append_store this h [v mod 256] Hwf)
    as (c1 & h1 & h2 & E & Hst & Hwf1 & Hsz1 & Hbytes & Hl & Hframe);
    [cbn; lia|exact Hg|].
  cbn [length] in *. change (Z.of_nat 1) with 1 in *.
  assert (read_byte_ref value h1 = Some v) as Hread.
  { eapply read_byte_ref_frame; [exact Hval|].
    intros r d Hd Hne. destruct (Hframe r d Hd Hne) as [Hd2 Hne1].
    rewrite <- Hd2. symmetry. eapply store_bytes_keeps; eauto. }
  exists c1, h2. split.
  { unfold Buffer.append_8bit, bind. rewrite E, Hread.
    unfold heap_call. now rewrite Hst. }
  split; [exact Hwf1|]. split; [exact Hsz1|]. split; [exact Hbytes|].
  split; [exact Hl|].
  intros H8 Hv. unfold Buffer.size, Continer.size in *.
  rewrite (read_8bit_inside T _ c1 h2 (v mod 256) Hwf1) by
    (try lia; rewrite Hbytes;
     rewrite lookup_app_r by (unfold buffer_bytes;
                              rewrite (length_continer_bytes _ _ Hwf); lia);
     unfold buffer_bytes; rewrite (length_continer_bytes _ _ Hwf);
     now rewrite Nat.sub_diag).
  now rewrite convert_8bit.
Qed.

Lemma write_native_order host T v :
  Endian.write host T host v = Endian.object_bytes host T v.
Proof.
  unfold Endian.write. rewrite CurrentEndian_host.
  now destruct host.
Qed.

Lemma read_outside_now value own h v :
  reads_outside value own h v -> read_byte_ref value h = Some v.
Proof.
  intros Hval. eapply read_byte_ref_frame; [exact Hval|]. auto.
Qed.

(** [append(value)], for each of the eleven types, with an argument
    outside the storage of the buffer. *)
Lemma append_appends host T value v this h :
  buffer_wf this h ->
  growth_granted (continer_ this) h (Buffer.size this + sizeof T) ->
  reads_outside value (Buffer.begin this) h v ->
  exists this' h',
    Buffer.append host T value (this, h) = Ok tt (this', h') /\
    buffer_wf this' h' /\
    Buffer.size this' = Buffer.size this + sizeof T /\
    buffer_bytes this' h' = buffer_bytes this h ++ Endian.object_bytes host T v /\
    Mem.alloc_limit h' = Mem.alloc_limit h /\
    (is_value T v ->
     Buffer.read host T (Buffer.size this) (this', h') = Ok v (this', h')).
Proof.
  intros Hwf Hg Hval. unfold Buffer.append, Buffer.read.
  destruct (is_endian_basictype T) eqn:HT.
  - assert (match value with
            | by_value v0 => Buffer.append_native host T v0
            | in_heap _ _ =>
                fun '(this0, h0) =>
                  match read_byte_ref value h0 with
                  | Some x => Buffer.append_native host T x (this0, h0)
                  | None => Undefined
                  end
            end (this, h) = Buffer.append_e host T host v (this, h)) as ->.
    { assert (Buffer.append_native host T v = Buffer.append_e host T host v) as <-
        by (unfold Buffer.append_native; rewrite CurrentEndian_host; now destruct host).
      pose proof (read_outside_now _ _ _ _ Hval) as Hread.
      destruct value as [x|p off]; [now cbn in Hval; subst|].
      now rewrite Hread. }
    assert (Buffer.read_native host T (Buffer.size this)
            = Buffer.read_e host T host (Buffer.size this)) as ->
      by (unfold Buffer.read_native; rewrite CurrentEndian_host; now destruct host).
    rewrite <- write_native_order.
    destruct (append_e_appends host T host v this h Hwf Hg)
      as (this' & h' & E & Hwf' & Hsz & Hbytes & Hl & Hread).
    exists this', h'. auto 7.
  - assert (is_8bit_basictype T = true) as H8 by (destruct T; try discriminate; reflexivity).
    assert (sizeof T = 1) as Hs1 by (destruct T; try discriminate; reflexivity).
    rewrite Hs1 in *. rewrite object_bytes_8bit by exact H8.
    destruct (append_8bit_appends T value v this h Hwf Hg Hval)
      as (this' & h' & E & Hwf' & Hsz & Hbytes & Hl & Hread).
    exists this', h'. auto 8.
Qed.

Lemma append_all_returns host T values : forall this h,
  buffer_wf this h ->
  Z.max (2 * (Buffer.size this + sizeof T * Z.of_nat (length values))) 32
  <= Mem.alloc_limit h ->
  exists this' h',
    append_all host T values (this, h) = Ok tt (this', h') /\
    buffer_wf this' h' /\
    Buffer.size this' = Buffer.size this + sizeof T * Z.of_nat (length values) /\
    buffer_bytes this' h'
    = buffer_bytes this h ++ concat (map (Endian.object_bytes host T) values).
Proof.
  pose proof (sizeof_pos T) as HT.
  induction values as [|v values IH]; intros this h Hwf Hlim.
  - exists this, h. cbn [append_all ret length map concat].
    split; [reflexivity|]. split; [exact Hwf|]. split; [lia|].
    now rewrite app_nil_r.
  - cbn [length] in Hlim. rewrite Nat2Z.inj_succ in Hlim.
    destruct (append_appends host T (by_value v) v this h Hwf)
      as (c1 & h1 & E & Hwf1 & Hsz1 & Hbytes1 & Hl1 & _).
    { unfold growth_granted. pose proof Hwf as (_ & Hs & _).
      unfold Buffer.size, Continer.size in *. nia. }
    { reflexivity. }
    destruct (IH c1 h1 Hwf1) as (this' & h' & E' & Hwf' & Hsz' & Hbytes').
    { rewrite Hl1, Hsz1. 
      replace (Buffer.size this + sizeof T + sizeof T * Z.of_nat (length values))
        with (Buffer.size this + sizeof T * Z.succ (Z.of_nat (length values))) by lia.
      exact Hlim. }
    exists this', h'. cbn [append_all]. unfold bind at 1. rewrite E.
    split; [exact E'|]. split; [exact Hwf'|]. split.
    + rewrite Hsz', Hsz1. cbn [length]. lia.
    + rewrite Hbytes', Hbytes1. cbn [map concat]. now rewrite <- app_assoc.
Qed.

(** On a full buffer that owns its storage, [EnsureWritableBytes] moves
    the bytes to a new block and frees the old one: a reference to a
    byte of the buffer dangles when [append] reads it. *)
Lemma append_own_element host T off this h :
  buffer_wf this h -> is_8bit_basictype T = true ->
  ref_ (continer_ this) = false -> Buffer.size this = Buffer.capacity this ->
  Z.max (2 * (Buffer.size this + 1)) 32 <= Mem.alloc_limit h ->
  Buffer.append host T (in_heap (Buffer.begin this) off) (this, h) = Undefined.
Proof.
  intros Hwf H8 Hr Hfull Hlim. pose proof Hwf as (Hh & Hs & Hc & _).
  unfold Buffer.size, Buffer.capacity, Continer.size, Continer.capacity in *.
  assert (Z.max (size_ (continer_ this) + 1)
            (Z.max (2 * capacity_ (continer_ this)) 32) <= Mem.alloc_limit h) as Hlim'
    by lia.
  unfold Buffer.append.
  replace (is_endian_basictype T) with false by (destruct T; cbn in *; congruence).
  unfold Buffer.append_8bit, bind.
  change (Buffer.size this) with (size_ (continer_ this)).
  pose proof (ensure_grows 1 this h Hwf) as Hens.
  unfold Buffer.size, Continer.size in Hens. rewrite Hens; [|lia|].
  2:{ destruct (granted_in_object (continer_ this) h (size_ (continer_ this) + 1) Hwf);
        [intros _; exact Hlim'|lia|lia|lia|lia]. }
  unfold Buffer.resize, Buffer.on_continer, on_member, Continer.resize, bind.
  destruct (Z.eqb_spec (size_ (continer_ this) + 1) 0); [lia|].
  destruct (Z.ltb_spec (capacity_ (continer_ this)) (size_ (continer_ this) + 1)); [|lia].
  destruct (reserve_grows (continer_ this) h (size_ (continer_ this) + 1) Hwf
              ltac:(lia) Hlim')
    as (b' & h1 & data' & Hre & _ & _ & _ & _ & _ & _ & Hfreed).
  rewrite Hre.
  assert (read_byte_ref (in_heap (Buffer.begin this) off) h1 = None) as ->;
    [|reflexivity].
  cbn [read_byte_ref]. unfold Mem.load_bytes, Mem.valid_range.
  unfold Buffer.begin, Continer.begin.
  destruct (buf_ (continer_ this)) as [b|] eqn:Eb; [|reflexivity].
  now rewrite (Hfreed b Hr eq_refl).
Qed.

(** X14: [append(value)] on a well-formed buffer.  A sequence of calls
    whose arguments are temporaries (the loop of [grow_test]) returns
    when the allocator grants twice the final size (and at least 32
    bytes); the buffer then holds its old bytes followed by the object
    representations of the values, in order, and its size has grown by
    [sizeof(T)] per value.  A call whose argument is a byte of the
    buffer itself (such as [*b.begin()]), on a full buffer that owns
    its storage, is undefined: the growth has freed the storage before
    the reference is read. *)
Theorem append_all_appends host T values off this h :
  buffer_wf this h ->
  Z.max (2 * (Buffer.size this + sizeof T * Z.of_nat (length values))) 32
  <= Mem.alloc_limit h ->
  (exists this' h',
      append_all host T values (this, h) = Ok tt (this', h') /\
      buffer_wf this' h' /\
      Buffer.size this' = Buffer.size this + sizeof T * Z.of_nat (length values) /\
      buffer_bytes this' h'
      = buffer_bytes this h ++ concat (map (Endian.object_bytes host T) values)) /\
  (is_8bit_basictype T = true -> values <> [] ->
   ref_ (continer_ this) = false -> Buffer.size this = Buffer.capacity this ->
   Buffer.append host T (in_heap (Buffer.begin this) off) (this, h) = Undefined).
Proof.
  intros Hwf Hlim. split; [now apply append_all_returns|].
  intros H8 Hne Hr Hfull. apply append_own_element; auto.
  assert (sizeof T = 1) as Hs1 by (destruct T; try discriminate; reflexivity).
  assert (1 <= Z.of_nat (length values)) by (destruct values; [congruence|cbn; lia]).
  rewrite Hs1 in Hlim. pose proof Hwf as (_ & Hs & _).
  unfold Buffer.size, Continer.size in *. lia.
Qed.

Lemma append_all_appends_witness :
  (exists this' h',
      append_all kLittleEndian UInt8 [1; 2; 3] (mkBufferT full32, full32_heap)
      = Ok tt (this', h') /\
      buffer_wf this' h' /\
      Buffer.size this'
      = Buffer.size (mkBufferT full32) + sizeof UInt8 * Z.of_nat (length [1; 2; 3]) /\
      buffer_bytes this' h'
      = buffer_bytes (mkBufferT full32) full32_heap
        ++ concat (map (Endian.object_bytes kLittleEndian UInt8) [1; 2; 3])) /\
  Buffer.append kLittleEndian UInt8 (in_heap (Some 0%nat) 5)
    (mkBufferT full32, full32_heap) = Undefined.
Proof.
  destruct (append_all_appends kLittleEndian UInt8 [1; 2; 3] 5
              (mkBufferT full32) full32_heap) as [Hloop Hown].
  - apply full32_wf.
  - apply Z.leb_le. reflexivity.
  - split; [exact Hloop|]. apply Hown; [reflexivity|discriminate|reflexivity|reflexivity].
Defined.

(** X15: [append(buf, n)] on a well-formed buffer, with [buf] pointing to
    [n] bytes of a block that is not the buffer's storage: the call
    returns whenever the allocator can serve the growth, the buffer
    then holds its old bytes followed by the [n] bytes at [buf], and
    the source block is unchanged.  With [n = 0] nothing changes. *)
Theorem append_bytes_appends (src : nat) boff n sdata this h :
  buffer_wf this h ->
  Mem.contents h src = Some sdata ->
  0 <= boff -> 0 <= n -> boff + n <= Z.of_nat (length sdata) ->
  Buffer.begin this <> Some src ->
  growth_granted (continer_ this) h (Buffer.size this + n) ->
  exists this' h',
    Buffer.append_bytes (Some src) boff n (this, h) = Ok tt (this', h') /\
    buffer_wf this' h' /\
    Buffer.size this' = Buffer.size this + n /\
    buffer_bytes this' h' = buffer_bytes this h ++ segment boff n sdata /\
    Mem.contents h' src = Some sdata /\
    (n = 0 -> this' = this /\ h' = h).
Proof.
  intros Hwf Hd Hboff Hn Hin Hne Hg. pose proof Hwf as (Hh & Hs & Hc & _).
  destruct (Z.eq_dec n 0) as [->|Hnz].
  - exists this, h. split.
    { unfold Buffer.append_bytes, bind, Buffer.EnsureWritableBytes.
      unfold Buffer.size, Continer.size in *. rewrite add_sizes by lia.
      rewrite Z.add_0_r, Z.ltb_irrefl. reflexivity. }
    split; [exact Hwf|]. split; [lia|]. split; [|auto].
    unfold segment. cbn. now rewrite app_nil_r.
  - pose proof (length_segment sdata boff n Hboff Hn Hin) as Hseg.
    destruct (append_store this h (segment boff n sdata) Hwf)
      as (c1 & h1 & h2 & E & Hst & Hwf1 & Hsz1 & Hbytes & Hl & Hframe).
    { rewrite Hseg. lia. }
    { rewrite Hseg, Z2Nat.id by lia. exact Hg. }
    rewrite Hseg, Z2Nat.id in * by lia.
    destruct (Hframe src sdata Hd Hne) as (Hd2 & Hne1).
    assert (Mem.contents h1 src = Some sdata) as Hd1.
    { rewrite <- Hd2. symmetry. eapply store_bytes_keeps; eauto. }
    exists c1, h2. split.
    { unfold Buffer.append_bytes, bind. rewrite E.
      unfold heap_call, Mem.memcpy.
      destruct (Z.eqb_spec n 0); [lia|].
      assert (Mem.overlap (Buffer.begin c1) (Buffer.size this) (Some src) boff n
              = false) as ->.
      { unfold Mem.overlap. destruct (Buffer.begin c1) as [b1|]; [|reflexivity].
        destruct (Nat.eqb_spec b1 src); [congruence|reflexivity]. }
      rewrite (load_bytes_ok src boff n h1 sdata Hd1) by lia.
      now rewrite Hst. }
    split; [exact Hwf1|]. split; [exact Hsz1|]. split; [exact Hbytes|].
    split; [exact Hd2|]. intros; lia.
Qed.

Lemma write_test_wf : buffer_wf zeros16 write_test_heap.
Proof.
  apply (continer_wf_frame _ zeros16_heap); [apply zeros16_wf|reflexivity|].
  intros b [= <-]. reflexivity.
Qed.

Lemma append_bytes_appends_witness :
  exists this' h',
    Buffer.append_bytes (Some 1%nat) 0 4 (zeros16, write_test_heap) = Ok tt (this', h') /\
    buffer_wf this' h' /\
    Buffer.size this' = Buffer.size zeros16 + 4 /\
    buffer_bytes this' h'
    = buffer_bytes zeros16 write_test_heap ++ segment 0 4 [255; 238; 221; 204] /\
    Mem.contents h' 1%nat = Some [255; 238; 221; 204] /\
    (4 = 0 -> this' = zeros16 /\ h' = write_test_heap).
Proof.
  apply append_bytes_appends.
  - apply write_test_wf.
  - reflexivity.
  - lia.
  - lia.
  - cbn. lia.
  - discriminate.
  - unfold growth_granted, Buffer.size, Continer.size. cbn. lia.
Defined.

(* --------------------------------------------------------------------- *)
(** *** The buffer: bytes, comparison and assignment *)
(* --------------------------------------------------------------------- *)

Lemma compare_bytes_eq (a : list Z) : forall b,
  length a = length b -> (Mem.compare_bytes a b = 0 <-> a = b).
Proof.
  induction a as [|x a IH]; intros [|y b] Hlen; try discriminate.
  - split; reflexivity.
  - cbn [Mem.compare_bytes]. injection Hlen as Hlen.
    destruct (Z.eqb_spec x y) as [->|Hne].
    + rewrite (IH b Hlen). split; [now intros ->|now intros [= ->]].
    + split; [|intros [= ? _]; contradiction].
      destruct (x <? y); discriminate.
Qed.

Lemma load_buffer_bytes this h :
  buffer_wf this h -> 0 < Buffer.size this ->
  Mem.load_bytes (Buffer.begin this) 0 (Buffer.size this) h
  = Some (buffer_bytes this h).
Proof.
  intros Hwf Hpos.
  destruct (continer_wf_block _ _ Hwf Hpos) as (b & data & Eb & Hd & Hlen & _).
  unfold Buffer.begin, Continer.begin, Buffer.size, Continer.size in *.
  rewrite Eb, (load_bytes_ok b 0 _ h data Hd) by lia.
  unfold buffer_bytes. now rewrite (continer_bytes_segment _ _ _ _ Eb Hd).
Qed.

(** X16: [a == b] on well-formed buffers is defined, changes nothing,
    and is true exactly when the two buffers hold the same bytes (in
    particular, the same number of bytes). *)
Theorem equal_reflects_bytes other this h :
  buffer_wf this h -> buffer_wf other h ->
  exists r,
    Buffer.equal other (this, h) = Ok r (this, h) /\
    (r = true <-> buffer_bytes this h = buffer_bytes other h).
Proof.
  intros Hwf Hwfo.
  pose proof (length_continer_bytes _ _ Hwf) as Hl.
  pose proof (length_continer_bytes _ _ Hwfo) as Hlo.
  pose proof Hwf as (_ & Hs & _). pose proof Hwfo as (_ & Hso & _).
  unfold Buffer.equal. fold (buffer_bytes this h) in Hl.
  fold (buffer_bytes other h) in Hlo.
  unfold Buffer.size, Continer.size in *.
  destruct (Z.eqb_spec (size_ (continer_ other)) (size_ (continer_ this))) as [He|Hne].
  - unfold Mem.memcmp.
    destruct (Z.eqb_spec (size_ (continer_ this)) 0) as [Hz|Hnz].
    + exists true. split; [reflexivity|]. split; [|reflexivity]. intros _.
      rewrite Hz in Hl. rewrite He, Hz in Hlo.
      destruct (buffer_bytes this h), (buffer_bytes other h); try discriminate.
      reflexivity.
    + pose proof (load_buffer_bytes this h Hwf) as L.
      pose proof (load_buffer_bytes other h Hwfo) as Lo.
      unfold Buffer.size, Continer.size in *.
      rewrite L by lia. rewrite <- He. rewrite Lo by lia.
      eexists. split; [reflexivity|].
      rewrite Z.eqb_eq. apply compare_bytes_eq. congruence.
  - exists false. split; [reflexivity|]. split; [discriminate|].
    intros Heq. rewrite Heq in Hl. lia.
Qed.

Lemma equal_reflects_bytes_witness :
  exists r,
    Buffer.equal zeros16 (zeros16, zeros16_heap) = Ok r (zeros16, zeros16_heap) /\
    (r = true <-> buffer_bytes zeros16 zeros16_heap = buffer_bytes zeros16 zeros16_heap).
Proof. apply equal_reflects_bytes; apply zeros16_wf. Defined.

(** Resizing to [n > 0] and overwriting the [n] bytes from the start. *)
Lemma resize_and_store this h (bs : list Z) :
  continer_wf this h -> (0 < length bs)%nat ->
  growth_granted this h (Z.of_nat (length bs)) ->
  exists c1 h1 h2,
    Continer.resize (Z.of_nat (length bs)) (this, h) = Ok tt (c1, h1) /\
    Mem.store_bytes (buf_ c1) 0 bs h1 = Some h2 /\
    continer_wf c1 h2 /\ size_ c1 = Z.of_nat (length bs) /\
    continer_bytes c1 h2 = bs /\
    Mem.alloc_limit h2 = Mem.alloc_limit h /\
    (ref_ this = true -> Z.of_nat (length bs) <= capacity_ this ->
     buf_ c1 = buf_ this /\ ref_ c1 = true) /\
    (forall r d, Mem.contents h r = Some d -> buf_ this <> Some r ->
                 Mem.contents h2 r = Some d /\ buf_ c1 <> Some r).
Proof.
  intros Hwf Hn Hlim.
  pose proof Hwf as (Hh & Hs & Hc & Hk & Hb).
  set (n := Z.of_nat (length bs)) in *.
  destruct (resize_returns n this h Hwf ltac:(lia) Hlim) as (c1 & h1 & E).
  destruct (resize_wf n _ _ _ _ Hwf ltac:(lia) E) as (Hwf1 & Hsz1 & _).
  assert (Hpos : 0 < n) by lia.
  destruct (continer_wf_block _ _ Hwf1) as (b & data & Eb & Hdat & Hlen & _); [lia|].
  destruct (store_bytes_ok b 0 bs h1 data Hdat)
    as (h2 & Hst & Hc2 & Hframe & Hl2 & _); [lia|lia|].
  exists c1, h1, h2. split; [exact E|]. rewrite Eb. split; [exact Hst|].
  split; [eapply continer_wf_store; eauto|]. split; [exact Hsz1|].
  split; [|split; [|split]].
  - unfold continer_bytes.
    rewrite Eb, Hsz1, (block_data_contents _ _ _ Hc2).
    change (Z.to_nat 0) with 0%nat. rewrite take_0. cbn [app].
    subst n. rewrite Nat2Z.id. apply take_app_length.
  - rewrite Hl2. eapply resize_limit. erewrite final_of_Ok; eauto.
  - intros Hr Hfit. revert E. unfold Continer.resize, bind.
    destruct (Z.eqb_spec n 0); [lia|].
    destruct (Z.ltb_spec (capacity_ this) n); [lia|].
    intros [= <- _]. rewrite <- Eb. cbn [buf_ ref_ Continer.set_size]. auto.
  - intros r d Hr Hne.
    destruct (resize_grow_frame _ _ _ _ _ _ _ Hwf Hpos E Hr Hne) as (Hd1 & Hne1).
    split; [|congruence].
    rewrite Hframe; [exact Hd1|congruence].
Qed.

(** X17: copy assignment [a = b] between well-formed buffers that share
    no storage returns whenever the allocator can serve the growth;
    [a] then holds the bytes of [b], which is unchanged.  A borrowing
    [a] whose capacity suffices keeps borrowing: the bytes of [b] are
    written into the caller's memory. *)
Theorem copy_assign_copies other this h :
  buffer_wf this h -> buffer_wf other h ->
  (0 < Buffer.size other -> Buffer.begin this <> Buffer.begin other) ->
  growth_granted (continer_ this) h (Buffer.size other) ->
  exists this' h',
    Buffer.copy_assign (another other) (this, h) = Ok tt (this', h') /\
    buffer_wf this' h' /\
    buffer_bytes this' h' = buffer_bytes other h /\
    buffer_bytes other h' = buffer_bytes other h /\
    (ref_ (continer_ this) = true ->
     0 < Buffer.size other <= Buffer.capacity this ->
     Buffer.begin this' = Buffer.begin this /\ ref_ (continer_ this') = true).
Proof.
  intros Hwf Hwfo Hne Hg.
  pose proof Hwfo as (_ & Hso & _).
  unfold Buffer.copy_assign, bind. cbn [deref].
  unfold Buffer.empty, Continer.empty, Buffer.size, Continer.size,
    Buffer.capacity, Continer.capacity in *.
  destruct (Z.eqb_spec (size_ (continer_ other)) 0) as [Hz|Hnz].
  - destruct (clear_ok _ _ Hwf) as (h' & Ecl & Hrel).
    assert (Continer.resize 0 (continer_ this, h) = Ok tt (Continer.default, h')) as E.
    { unfold Continer.resize, bind. cbn [Z.eqb]. rewrite Ecl. reflexivity. }
    assert (buffer_wf Buffer.default h') as Hwf'
      by exact (default_wf _ (released_wf _ _ _ Hwf Hrel)).
    exists Buffer.default, h'.
    unfold Buffer.on_continer, on_member. rewrite E.
    split; [reflexivity|]. split; [exact Hwf'|].
    unfold buffer_bytes, continer_bytes. rewrite Hz. cbn.
    split; [reflexivity|]. split; [reflexivity|]. lia.
  - destruct (continer_wf_block _ _ Hwfo) as (bo & odata & Ebo & Hod & Hlen & _); [lia|].
    pose proof (length_continer_bytes _ _ Hwfo) as Hlo.
    destruct (resize_and_store (continer_ this) h (continer_bytes (continer_ other) h) Hwf)
      as (c1 & h1 & h2 & E & Hst & Hwf1 & Hsz1 & Hbytes & Hl & Hkeep & Hframe).
    { rewrite Hlo. lia. }
    { rewrite Hlo, Z2Nat.id by lia. exact Hg. }
    rewrite Hlo, Z2Nat.id in * by lia.
    destruct (Hframe bo odata Hod) as (Hod2 & Hne1).
    { unfold Buffer.begin, Continer.begin in Hne. rewrite <- Ebo. apply Hne. lia. }
    assert (Mem.contents h1 bo = Some odata) as Hod1.
    { rewrite <- Hod2. symmetry. eapply store_bytes_keeps; eauto. }
    exists (mkBufferT c1), h2. split.
    { unfold Buffer.on_continer, on_member. rewrite E.
      unfold heap_call, Mem.memcpy, Buffer.begin, Continer.begin. cbn [continer_].
      destruct (Z.eqb_spec (size_ (continer_ other)) 0); [lia|].
      rewrite Ebo.
      assert (Mem.overlap (buf_ c1) 0 (Some bo) 0 (size_ (continer_ other)) = false)
        as ->.
      { unfold Mem.overlap. destruct (buf_ c1) as [b1|]; [|reflexivity].
        destruct (Nat.eqb_spec b1 bo); [congruence|reflexivity]. }
      rewrite (load_bytes_ok bo 0 _ h1 odata Hod1) by lia.
      rewrite <- (continer_bytes_segment _ h _ _ Ebo Hod).
      now rewrite Hst. }
    split; [exact Hwf1|]. split; [exact Hbytes|]. split.
    { unfold buffer_bytes. apply continer_bytes_frame.
      intros b Eb. rewrite Ebo in Eb. injection Eb as <-. congruence. }
    intros Hr Hfit. unfold Buffer.begin, Continer.begin. cbn [continer_].
    apply Hkeep; [exact Hr|lia].
Qed.

Lemma borrowed3_read_test_wf : buffer_wf (mkBufferT borrowed3) read_test_heap.
Proof.
  apply (ref_wf 0 3 read_test_heap [255; 238; 221]).
  - unfold heap_wf. cbn. rewrite PTRDIFF_MAX_eq. lia.
  - reflexivity.
  - cbn. lia.
  - rewrite PTRDIFF_MAX_eq. lia.
Qed.

Lemma copy_assign_copies_witness :
  exists this' h',
    Buffer.copy_assign (another read_test_buffer) (mkBufferT borrowed3, read_test_heap)
    = Ok tt (this', h') /\
    buffer_wf this' h' /\
    buffer_bytes this' h' = buffer_bytes read_test_buffer read_test_heap /\
    buffer_bytes read_test_buffer h' = buffer_bytes read_test_buffer read_test_heap /\
    (ref_ (continer_ (mkBufferT borrowed3)) = true ->
     0 < Buffer.size read_test_buffer <= Buffer.capacity (mkBufferT borrowed3) ->
     Buffer.begin this' = Buffer.begin (mkBufferT borrowed3) /\
     ref_ (continer_ this') = true).
Proof.
  apply copy_assign_copies.
  - apply borrowed3_read_test_wf.
  - apply read_test_buffer_wf.
  - intros _. discriminate.
  - unfold growth_granted, Buffer.size, Continer.size. cbn. lia.
Defined.

(* --------------------------------------------------------------------- *)
(** *** The buffer: one-byte access, and access in the host's order *)
(* --------------------------------------------------------------------- *)

Lemma lookup_buffer_bytes this h offset :
  buffer_wf this h -> 0 <= offset < Buffer.size this ->
  exists x, buffer_bytes this h !! Z.to_nat offset = Some x.
Proof.
  intros Hwf Ho. apply lookup_lt_is_Some_2.
  unfold buffer_bytes. rewrite (length_continer_bytes _ _ Hwf).
  unfold Buffer.size, Continer.size in Ho. lia.
Qed.

(** X18: the one-byte reads [read<T>(offset)] (for [char], [int8_t],
    [uint8_t]), [read_byte] and [read_char] throw [std::out_of_range]
    exactly when [offset >= size()], for every [offset] a [size_t] can
    hold; otherwise they return the byte at [offset], converted to the
    type asked for; the buffer and the heap are never changed. *)
Theorem read_8bit_exact T offset this h :
  buffer_wf this h -> 0 <= offset ->
  (Buffer.size this <= offset ->
   Buffer.read_8bit T offset (this, h) = Throw (out_of_range offset 1) (this, h)) /\
  (offset < Buffer.size this ->
   exists x, buffer_bytes this h !! Z.to_nat offset = Some x /\
             Buffer.read_8bit T offset (this, h) = Ok (convert T x) (this, h)) /\
  Buffer.read_byte offset (this, h) = Buffer.read_8bit UInt8 offset (this, h) /\
  Buffer.read_char offset (this, h) = Buffer.read_8bit Char offset (this, h).
Proof.
  intros Hwf Ho. split; [|split; [|split; reflexivity]].
  - intros Hout. unfold Buffer.read_8bit.
    destruct (Z.leb_spec (Buffer.size this) offset); [reflexivity|lia].
  - intros Hin. destruct (lookup_buffer_bytes this h offset Hwf) as (x & Hx); [lia|].
    exists x. split; [exact Hx|]. now apply read_8bit_inside.
Qed.

Lemma read_8bit_exact_witness :
  (Buffer.size read_test_buffer <= 0 ->
   Buffer.read_8bit Int8 0 (read_test_buffer, read_test_heap)
   = Throw (out_of_range 0 1) (read_test_buffer, read_test_heap)) /\
  (0 < Buffer.size read_test_buffer ->
   exists x, buffer_bytes read_test_buffer read_test_heap !! Z.to_nat 0 = Some x /\
             Buffer.read_8bit Int8 0 (read_test_buffer, read_test_heap)
             = Ok (convert Int8 x) (read_test_buffer, read_test_heap)) /\
  Buffer.read_byte 0 (read_test_buffer, read_test_heap)
  = Buffer.read_8bit UInt8 0 (read_test_buffer, read_test_heap) /\
  Buffer.read_char 0 (read_test_buffer, read_test_heap)
  = Buffer.read_8bit Char 0 (read_test_buffer, read_test_heap).
Proof.
  apply read_8bit_exact.
  - apply read_test_buffer_wf.
  - lia.
Defined.

Lemma buffer_bytes_stored this h h' b data offset (bs : list Z) :
  buffer_wf this h -> Buffer.begin this = Some b ->
  Mem.contents h b = Some data ->
  0 <= offset -> offset + Z.of_nat (length bs) <= Buffer.size this ->
  Mem.contents h' b
  = Some (take (Z.to_nat offset) data ++ bs ++ drop (Z.to_nat offset + length bs) data) ->
  buffer_bytes this h'
  = take (Z.to_nat offset) (buffer_bytes this h) ++ bs
    ++ drop (Z.to_nat offset + length bs) (buffer_bytes this h).
Proof.
  intros Hwf Eb Hd Ho Hfit Hd'.
  destruct (Z.eq_dec (Buffer.size this) 0) as [Hz|Hnz].
  - assert (length bs = 0%nat) as Hl by lia.
    destruct bs; [|discriminate].
    unfold buffer_bytes, continer_bytes, Buffer.size, Continer.size in *.
    rewrite Hz. change (Z.to_nat 0) with 0%nat. rewrite !take_0.
    now rewrite take_nil, drop_nil.
  - pose proof Hwf as (_ & Hs & _).
    destruct (continer_wf_block _ _ Hwf) as (b0 & data0 & Eb0 & Hd0 & Hlen & _).
    { unfold Buffer.size, Continer.size in *. lia. }
    unfold Buffer.begin, Continer.begin, Buffer.size, Continer.size in *.
    rewrite Eb in Eb0. injection Eb0 as <-. rewrite Hd in Hd0. injection Hd0 as <-.
    unfold buffer_bytes, continer_bytes.
    rewrite Eb, (block_data_contents _ _ _ Hd'), (block_data_contents _ _ _ Hd).
    apply take_stored; lia.
Qed.

(** X19: the one-byte [write(value, offset)] throws [std::out_of_range]
    exactly when [offset >= size()]; otherwise it replaces the byte at
    [offset] and no other, keeps the size, and a one-byte read of the
    same type at [offset] returns the value written. *)
Theorem write_8bit_contract T v offset this h :
  is_8bit_basictype T = true -> is_value T v ->
  buffer_wf this h -> 0 <= offset ->
  (Buffer.size this <= offset ->
   Buffer.write_8bit T v offset (this, h) = Throw (out_of_range offset 1) (this, h)) /\
  (offset < Buffer.size this ->
   exists h',
     Buffer.write_8bit T v offset (this, h) = Ok tt (this, h') /\
     buffer_wf this h' /\
     buffer_bytes this h' = <[Z.to_nat offset := v mod 256]> (buffer_bytes this h) /\
     Buffer.read_8bit T offset (this, h') = Ok v (this, h')).
Proof.
  intros H8 Hv Hwf Ho. split.
  - intros Hout. unfold Buffer.write_8bit.
    destruct (Z.leb_spec (Buffer.size this) offset); [reflexivity|lia].
  - intros Hin. pose proof Hwf as (_ & Hs & _).
    destruct (continer_wf_block _ _ Hwf) as (b & data & Eb & Hd & Hlen & _).
    { unfold Buffer.size, Continer.size in *. lia. }
    destruct (store_bytes_ok b offset [v mod 256] h data Hd)
      as (h' & Hst & Hd' & _).
    { lia. } { cbn [length]. unfold Buffer.size, Continer.size in *. lia. }
    assert (buffer_wf this h') as Hwf' by (eapply continer_wf_store; eauto).
    assert (buffer_bytes this h'
            = <[Z.to_nat offset := v mod 256]> (buffer_bytes this h)) as Hbytes.
    { rewrite (buffer_bytes_stored this h h' b data offset [v mod 256] Hwf Eb Hd Ho)
        by (cbn [length]; try lia; exact Hd').
      destruct (lookup_buffer_bytes this h offset Hwf) as (x & Hx); [lia|].
      pose proof (lookup_lt_Some _ _ _ Hx) as Hlt.
      rewrite <- (take_drop_middle _ _ _ Hx) at 3.
      rewrite insert_app_r_alt by (rewrite length_take; lia).
      rewrite length_take, Nat.min_l, Nat.sub_diag by lia.
      cbn [length app]. cbn. do 2 f_equal. f_equal. lia. }
    exists h'. split.
    { unfold Buffer.write_8bit.
      destruct (Z.leb_spec (Buffer.size this) offset); [lia|].
      unfold heap_call, Buffer.begin, Continer.begin. now rewrite Eb, Hst. }
    split; [exact Hwf'|]. split; [exact Hbytes|].
    rewrite (read_8bit_inside T offset this h' (v mod 256) Hwf' Ho).
    + now rewrite convert_8bit.
    + rewrite Hbytes. apply list_lookup_insert_eq.
      unfold buffer_bytes. rewrite (length_continer_bytes _ _ Hwf).
      unfold Buffer.size, Continer.size in *. lia.
Qed.

Lemma write_8bit_contract_witness :
  (Buffer.size zeros16 <= 3 ->
   Buffer.write_8bit Int8 (-1) 3 (zeros16, zeros16_heap)
   = Throw (out_of_range 3 1) (zeros16, zeros16_heap)) /\
  (3 < Buffer.size zeros16 ->
   exists h',
     Buffer.write_8bit Int8 (-1) 3 (zeros16, zeros16_heap) = Ok tt (zeros16, h') /\
     buffer_wf zeros16 h' /\
     buffer_bytes zeros16 h'
     = <[Z.to_nat 3 := (-1) mod 256]> (buffer_bytes zeros16 zeros16_heap) /\
     Buffer.read_8bit Int8 3 (zeros16, h') = Ok (-1) (zeros16, h')).
Proof.
  apply write_8bit_contract.
  - reflexivity.
  - split; apply Z.leb_le; reflexivity.
  - apply zeros16_wf.
  - lia.
Defined.

(** X20: [write_bytes(buf, n, offset)] with [offset + n] not wrapping
    and [buf] pointing to [n] bytes outside the buffer's storage: the
    call throws [std::out_of_range] exactly when [offset + n > size()],
    and then changes nothing; otherwise it replaces the [n] bytes from
    [offset] on by the bytes at [buf], keeps every other byte and the
    size, and leaves the source unchanged. *)
Theorem write_bytes_contract (src : nat) boff n offset sdata this h :
  buffer_wf this h ->
  0 <= offset -> 0 <= n -> offset + n < SizeT.modulus ->
  Mem.contents h src = Some sdata ->
  0 <= boff -> boff + n <= Z.of_nat (length sdata) ->
  Buffer.begin this <> Some src ->
  (Buffer.size this < offset + n ->
   Buffer.write_bytes (Some src) boff n offset (this, h)
   = Throw (out_of_range offset n) (this, h)) /\
  (offset + n <= Buffer.size this ->
   exists h',
     Buffer.write_bytes (Some src) boff n offset (this, h) = Ok tt (this, h') /\
     buffer_wf this h' /\
     buffer_bytes this h'
     = take (Z.to_nat offset) (buffer_bytes this h) ++ segment boff n sdata
       ++ drop (Z.to_nat (offset + n)) (buffer_bytes this h) /\
     Mem.contents h' src = Some sdata).
Proof.
  intros Hwf Ho Hn Hwrap Hd Hboff Hin Hne.
  unfold Buffer.write_bytes. rewrite add_small by lia. split.
  - intros Hout.
    destruct (Z.ltb_spec (Buffer.size this) (offset + n)); [reflexivity|lia].
  - intros Hfit.
    destruct (Z.ltb_spec (Buffer.size this) (offset + n)); [lia|].
    unfold heap_call, Mem.memcpy.
    destruct (Z.eqb_spec n 0) as [->|Hnz].
    + exists h. split; [reflexivity|]. split; [exact Hwf|]. split; [|exact Hd].
      unfold segment. rewrite Z.add_0_r. change (Z.to_nat 0) with 0%nat.
      rewrite take_0. cbn [app]. now rewrite take_drop.
    + pose proof Hwf as (_ & Hs & _).
      destruct (continer_wf_block _ _ Hwf) as (b & data & Eb & Hdat & Hlen & _).
      { unfold Buffer.size, Continer.size in *. lia. }
      pose proof (length_segment sdata boff n Hboff Hn Hin) as Hseg.
      destruct (store_bytes_ok b offset (segment boff n sdata) h data Hdat)
        as (h' & Hst & Hd' & Hframe & _).
      { lia. } { rewrite Hseg. unfold Buffer.size, Continer.size in *. lia. }
      unfold Buffer.begin, Continer.begin in *. rewrite Eb in *.
      assert (Mem.overlap (Some b) offset (Some src) boff n = false) as ->.
      { unfold Mem.overlap. destruct (Nat.eqb_spec b src); [congruence|reflexivity]. }
      rewrite (load_bytes_ok src boff n h sdata Hd) by lia.
      rewrite Hst. exists h'. split; [reflexivity|].
      split; [eapply continer_wf_store; eauto|]. split.
      * assert (offset + Z.of_nat (length (segment boff n sdata)) <= Buffer.size this)
          as Hfit' by (rewrite Hseg; lia).
        rewrite (buffer_bytes_stored this h h' b data offset (segment boff n sdata)
                   Hwf Eb Hdat Ho Hfit' Hd').
        rewrite Hseg. do 3 f_equal. lia.
      * rewrite Hframe; [exact Hd|congruence].
Qed.

Lemma write_bytes_contract_witness :
  (Buffer.size zeros16 < 0 + 4 ->
   Buffer.write_bytes (Some 1%nat) 0 4 0 (zeros16, write_test_heap)
   = Throw (out_of_range 0 4) (zeros16, write_test_heap)) /\
  (0 + 4 <= Buffer.size zeros16 ->
   exists h',
     Buffer.write_bytes (Some 1%nat) 0 4 0 (zeros16, write_test_heap)
     = Ok tt (zeros16, h') /\
     buffer_wf zeros16 h' /\
     buffer_bytes zeros16 h'
     = take (Z.to_nat 0) (buffer_bytes zeros16 write_test_heap)
       ++ segment 0 4 [255; 238; 221; 204]
       ++ drop (Z.to_nat (0 + 4)) (buffer_bytes zeros16 write_test_heap) /\
     Mem.contents h' 1%nat = Some [255; 238; 221; 204]).
Proof.
  apply write_bytes_contract.
  - apply write_test_wf.
  - lia.
  - lia.
  - rewrite modulus_eq. lia.
  - reflexivity.
  - lia.
  - cbn. lia.
  - discriminate.
Defined.

(** A borrowing buffer is a view of the caller's block. *)
Lemma borrowed_buffer_is_a_view host T e v offset b0 h r data n :
  borrows b0 h r data n ->
  0 <= offset -> offset + sizeof T <= n ->
  buffer_bytes b0 h = data /\
  (exists h',
     Buffer.write_e host T e v offset (b0, h) = Ok tt (b0, h') /\
     Mem.contents h' r
     = Some (take (Z.to_nat offset) data ++ Endian.write host T e v
             ++ drop (Z.to_nat offset + sizeof_nat T) data) /\
     buffer_bytes b0 h'
     = take (Z.to_nat offset) data ++ Endian.write host T e v
       ++ drop (Z.to_nat offset + sizeof_nat T) data) /\
  (forall off bs h',
     Mem.store_bytes (Some r) off bs h = Some h' ->
     Mem.contents h' r = Some (buffer_bytes b0 h')).
Proof.
  intros Hb Ho Hfit. pose proof (borrows_wf _ _ _ _ _ Hb) as Hwf.
  pose proof (borrows_bytes _ _ _ _ _ Hb) as Hbytes.
  destruct Hb as (Hh & Hd & Hlen & Hpos & Hmax & k & Hk & ->).
  split; [exact Hbytes|]. split.
  - destruct (write_e_inside host T e v offset _ h Hwf Ho)
      as (b & data' & h' & Eb & Hd' & Hw & Hst & Hc' & _ & _ & Hl).
    { exact Hfit. }
    cbn in Eb. injection Eb as <-. rewrite Hd in Hd'. injection Hd' as <-.
    exists h'. split; [exact Hw|]. split; [exact Hc'|].
    unfold buffer_bytes, continer_bytes. cbn [continer_ buf_ size_].
    rewrite (block_data_contents _ _ _ Hc'). apply firstn_all2.
    rewrite <- (length_Endian_write host T e v) in Hl |- * at 1.
    rewrite length_stored by exact Hl. lia.
  - intros off bs h' Hst.
    assert (Hv : Mem.valid_range (Some r) off (Z.of_nat (length bs)) h = true).
    { unfold Mem.store_bytes in Hst.
      destruct (Mem.valid_range _ _ _ _); [reflexivity|discriminate]. }
    apply valid_range_spec in Hv.
    destruct Hv as (b & d & [= <-] & Hd2 & Hoff & _ & Hin).
    rewrite Hd in Hd2. injection Hd2 as <-.
    destruct (store_bytes_ok r off bs h data Hd Hoff Hin) as (h2 & Hst2 & Hc2 & _).
    rewrite Hst in Hst2. injection Hst2 as <-.
    rewrite Hc2. f_equal.
    unfold buffer_bytes, continer_bytes. cbn [continer_ buf_ size_].
    rewrite (block_data_contents _ _ _ Hc2). symmetry. apply firstn_all2.
    rewrite length_stored by lia. lia.
Qed.

(* --------------------------------------------------------------------- *)
(** *** The cursor: end of buffer, and sequences of accesses *)
(* --------------------------------------------------------------------- *)

Lemma stream_read_8bit_is T host :
  is_8bit_basictype T = true -> Stream.read host T = Stream.read_8bit T.
Proof. intros H8. unfold Stream.read. now destruct T. Qed.

Lemma stream_write_8bit_is T host v :
  is_8bit_basictype T = true -> Stream.write host T v = Stream.write_8bit T v.
Proof. intros H8. unfold Stream.write. now destruct T. Qed.

Lemma sizeof_8bit T : is_8bit_basictype T = true -> sizeof T = 1.
Proof. now destruct T. Qed.

(** X21: for the one-byte types, [read_eof()] and [write_eof()] tell
    exactly whether the next [read<T>()] or [write(value)] is defined.
    Before the end the call returns, and advances its index by one.  At
    the end it reaches [xran], whose message does not fit the array
    [char buf[80]]: the behaviour is undefined, and no
    [std::out_of_range] reaches the caller. *)
Theorem eof_predicts_one_byte_access host T v this h :
  is_8bit_basictype T = true -> stream_wf this h ->
  (Stream.read_eof this = true <-> Stream.read host T (this, h) = Undefined) /\
  (Stream.write_eof this = true <-> Stream.write host T v (this, h) = Undefined) /\
  (Stream.read_eof this = false ->
   exists x,
     buffer_bytes (buffer_ this) h !! Z.to_nat (read_index_ this) = Some x /\
     Stream.read host T (this, h)
     = Ok (convert T x)
          (mkStreamBufferT (read_index_ this + 1) (write_index_ this) (buffer_ this), h)) /\
  (Stream.write_eof this = false ->
   exists h',
     Stream.write host T v (this, h)
     = Ok tt (mkStreamBufferT (read_index_ this) (write_index_ this + 1) (buffer_ this),
              h')) /\
  ~ throws_out_of_range (Stream.read host T (this, h)) (this, h) /\
  ~ throws_out_of_range (Stream.write host T v (this, h)) (this, h).
Proof.
  intros H8 Hwf. pose proof Hwf as (Hb & Hri & Hwi).
  rewrite stream_read_8bit_is, stream_write_8bit_is by exact H8.
  pose proof (sizeof_8bit T H8) as Hs1.
  unfold Stream.read_eof, Stream.write_eof.
  assert (Hread : read_index_ this < Buffer.size (buffer_ this) ->
                  exists x,
                    buffer_bytes (buffer_ this) h !! Z.to_nat (read_index_ this) = Some x /\
                    Stream.read_8bit T (this, h)
                    = Ok (convert T x)
                         (mkStreamBufferT (read_index_ this + 1) (write_index_ this)
                            (buffer_ this), h)).
  { intros Hin.
    destruct (stream_read_8bit_inside this h Hwf T H8) as (x & Hx & E); [lia|].
    rewrite Hs1 in E. eauto. }
  assert (Hwrite : write_index_ this < Buffer.size (buffer_ this) ->
                   exists h', Stream.write_8bit T v (this, h)
                              = Ok tt (mkStreamBufferT (read_index_ this)
                                         (write_index_ this + 1) (buffer_ this), h')).
  { intros Hin.
    destruct (stream_store_inside this h Hwf [v mod 256]) as (h' & Hst & _);
      [cbn [length]; lia|cbn [length]; lia|].
    exists h'. unfold Stream.write_8bit. rewrite Hs1.
    rewrite add_in_object by (rewrite ?PTRDIFF_MAX_eq in *; lia).
    destruct (Z.ltb_spec (Buffer.size (buffer_ this)) (write_index_ this + 1)); [lia|].
    cbn [buffer_ write_index_ Stream.set_write_index]. unfold heap_call.
    now rewrite Hst. }
  assert (Hread_out : Buffer.size (buffer_ this) <= read_index_ this ->
                      Stream.read_8bit T (this, h) = Undefined)
    by (intros Hout; apply (stream_read_8bit_outside this h Hwf T); lia).
  assert (Hwrite_out : Buffer.size (buffer_ this) <= write_index_ this ->
                       Stream.write_8bit T v (this, h) = Undefined).
  { intros Hout.
    destruct (stream_write_outside host this h Hwf T kBigEndian v) as (_ & E); [lia|].
    exact E. }
  split; [|split; [|split; [|split; [|split]]]].
  - destruct (Z.leb_spec (Buffer.size (buffer_ this)) (read_index_ this)) as [Hout|Hin].
    + split; [intros _; now apply Hread_out|reflexivity].
    + split; [discriminate|]. intros E.
      destruct (Hread Hin) as (x & _ & E'). congruence.
  - destruct (Z.leb_spec (Buffer.size (buffer_ this)) (write_index_ this)) as [Hout|Hin].
    + split; [intros _; now apply Hwrite_out|reflexivity].
    + split; [discriminate|]. intros E.
      destruct (Hwrite Hin) as (x & E'). congruence.
  - intros Hne. apply Hread.
    destruct (Z.leb_spec (Buffer.size (buffer_ this)) (read_index_ this));
      [discriminate|lia].
  - intros Hne. apply Hwrite.
    destruct (Z.leb_spec (Buffer.size (buffer_ this)) (write_index_ this));
      [discriminate|lia].
  - intros (p & k & E).
    destruct (Z_le_gt_dec (Buffer.size (buffer_ this)) (read_index_ this)) as [Hout|Hin].
    + rewrite Hread_out in E by exact Hout. discriminate.
    + destruct Hread as (x & _ & E'); [lia|]. congruence.
  - intros (p & k & E).
    destruct (Z_le_gt_dec (Buffer.size (buffer_ this)) (write_index_ this)) as [Hout|Hin].
    + rewrite Hwrite_out in E by exact Hout. discriminate.
    + destruct Hwrite as (x & E'); [lia|]. congruence.
Qed.

Lemma eof_predicts_one_byte_access_witness :
  Stream.read_eof (mkStreamBufferT 16 16 zeros16) = true /\
  Stream.read kLittleEndian UInt8 (mkStreamBufferT 16 16 zeros16, zeros16_heap)
  = Undefined /\
  Stream.write kLittleEndian UInt8 7 (mkStreamBufferT 16 16 zeros16, zeros16_heap)
  = Undefined /\
  exists x,
    buffer_bytes zeros16 zeros16_heap !! 15%nat = Some x /\
    Stream.read kLittleEndian UInt8 (cursor15, zeros16_heap)
    = Ok (convert UInt8 x) (mkStreamBufferT 16 15 zeros16, zeros16_heap).
Proof.
  assert (stream_wf (mkStreamBufferT 16 16 zeros16) zeros16_heap) as Hwf16.
  { split; [exact zeros16_wf|]. cbn. rewrite PTRDIFF_MAX_eq. lia. }
  pose proof (eof_predicts_one_byte_access kLittleEndian UInt8 7
                (mkStreamBufferT 16 16 zeros16) zeros16_heap eq_refl Hwf16)
    as (Hr & Hw & _).
  pose proof (eof_predicts_one_byte_access kLittleEndian UInt8 7
                cursor15 zeros16_heap eq_refl cursor15_wf)
    as (_ & _ & Hin & _).
  split; [reflexivity|]. split; [apply Hr; reflexivity|].
  split; [apply Hw; reflexivity|].
  apply Hin. reflexivity.
Defined.

Lemma read_native_order host T bs :
  Endian.read host T host bs = Endian.object_value host T bs.
Proof.
  unfold Endian.read. rewrite CurrentEndian_host. now destruct host.
Qed.

Lemma set_read_index_wf this h i :
  stream_wf this h -> 0 <= i <= SizeT.PTRDIFF_MAX ->
  stream_wf (Stream.set_read_index this i) h.
Proof. intros (Hb & Hri & Hwi) Hi. now split. Qed.

(** One [read<T>()] inside the buffer, for each of the eleven types. *)
Lemma stream_read_step host T this h :
  stream_wf this h ->
  read_index_ this + sizeof T <= Buffer.size (buffer_ this) ->
  Stream.read host T (this, h)
  = Ok (Endian.object_value host T
          (segment (read_index_ this) (sizeof T) (buffer_bytes (buffer_ this) h)))
       (Stream.set_read_index this (read_index_ this + sizeof T), h) /\
  stream_wf (Stream.set_read_index this (read_index_ this + sizeof T)) h.
Proof.
  intros Hwf Hin. pose proof Hwf as (Hb & Hri & Hwi).
  pose proof (size_bound this h Hwf) as Hsz. pose proof (sizeof_pos T) as Hk.
  split; [|apply set_read_index_wf; [exact Hwf|lia]].
  unfold Stream.read. destruct (is_endian_basictype T) eqn:HT.
  - assert (Stream.read_native host T = Stream.read_e host T host) as ->
      by (unfold Stream.read_native, Stream.read_le, Stream.read_be;
          rewrite CurrentEndian_host; now destruct host).
    rewrite (stream_read_e_inside host this h Hwf T host Hin).
    now rewrite read_native_order.
  - assert (is_8bit_basictype T = true) as H8
      by (destruct T; try discriminate; reflexivity).
    destruct (stream_read_8bit_inside this h Hwf T H8 Hin) as (x & Hx & E).
    rewrite E. rewrite (sizeof_8bit T H8).
    rewrite (segment_one _ _ x) by (try lia; exact Hx).
    do 2 f_equal. unfold Endian.object_value.
    assert (le_value [x] = x) as Hle by (cbn; lia).
    destruct host; cbn [rev app]; now rewrite Hle.
Qed.

(** One [write(value)] inside the buffer, for each of the eleven types. *)
Lemma stream_write_step host T v this h :
  stream_wf this h ->
  write_index_ this + sizeof T <= Buffer.size (buffer_ this) ->
  exists h',
    Stream.write host T v (this, h)
    = Ok tt (Stream.set_write_index this (write_index_ this + sizeof T), h') /\
    stream_wf (Stream.set_write_index this (write_index_ this + sizeof T)) h' /\
    buffer_bytes (buffer_ this) h'
    = take (Z.to_nat (write_index_ this)) (buffer_bytes (buffer_ this) h)
      ++ Endian.object_bytes host T v
      ++ drop (Z.to_nat (write_index_ this) + sizeof_nat T)
           (buffer_bytes (buffer_ this) h).
Proof.
  intros Hwf Hin. pose proof Hwf as (Hb & Hri & Hwi).
  pose proof (size_bound this h Hwf) as Hsz. pose proof (sizeof_pos T) as Hk.
  pose proof (length_object_bytes host T v) as Hlen.
  destruct (stream_block this h Hwf) as (b & data & Eb & Hd & Hdl & _); [lia|].
  destruct (store_bytes_ok b (write_index_ this) (Endian.object_bytes host T v) h data Hd)
    as (h' & Hst & Hd' & _); [lia|rewrite Hlen; unfold sizeof in *; lia|].
  assert (Hwf' : buffer_wf (buffer_ this) h') by (eapply continer_wf_store; eauto).
  exists h'. split; [|split].
  - unfold Stream.write. destruct (is_endian_basictype T) eqn:HT.
    + assert (Stream.write_native host T v = Stream.write_e host T host v) as ->
        by (unfold Stream.write_native, Stream.write_le, Stream.write_be;
            rewrite CurrentEndian_host; now destruct host).
      unfold Stream.write_e.
      rewrite add_in_object by (rewrite ?PTRDIFF_MAX_eq in *; lia).
      destruct (Z.ltb_spec (Buffer.size (buffer_ this)) (write_index_ this + sizeof T));
        [lia|].
      cbn [buffer_ write_index_ Stream.set_write_index]. unfold heap_call.
      rewrite write_native_order, Eb, Hst. reflexivity.
    + assert (is_8bit_basictype T = true) as H8
        by (destruct T; try discriminate; reflexivity).
      unfold Stream.write_8bit. rewrite (sizeof_8bit T H8) in *.
      rewrite add_in_object by (rewrite ?PTRDIFF_MAX_eq in *; lia).
      destruct (Z.ltb_spec (Buffer.size (buffer_ this)) (write_index_ this + 1));
        [lia|].
      cbn [buffer_ write_index_ Stream.set_write_index]. unfold heap_call.
      rewrite <- (object_bytes_8bit host T v H8), Eb, Hst. reflexivity.
  - split; [exact Hwf'|]. cbn [read_index_ write_index_ Stream.set_write_index].
    split; [exact Hri|lia].
  - rewrite <- Hlen.
    apply (buffer_bytes_stored (buffer_ this) h h' b data); auto; try lia.
    rewrite Hlen. unfold sizeof in *. lia.
Qed.

Lemma segment_split (l : list Z) off a b :
  0 <= off -> 0 <= a -> 0 <= b ->
  segment off (a + b) l = segment off a l ++ segment (off + a) b l.
Proof.
  intros Ho Ha Hb. unfold segment.
  rewrite !Z2Nat.inj_add by lia.
  rewrite <- drop_drop. rewrite <- take_take_drop. reflexivity.
Qed.

Lemma length_concat_object_bytes host T (values : list Z) :
  length (concat (map (Endian.object_bytes host T) values))
  = (sizeof_nat T * length values)%nat.
Proof.
  induction values as [|v values IH]; cbn [map concat length]; [lia|].
  rewrite length_app, length_object_bytes, IH. lia.
Qed.

Lemma write_all_writes host T values : forall this h,
  stream_wf this h ->
  write_index_ this + sizeof T * Z.of_nat (length values)
  <= Buffer.size (buffer_ this) ->
  exists h',
    write_all host T values (this, h)
    = Ok tt (Stream.set_write_index this
               (write_index_ this + sizeof T * Z.of_nat (length values)), h') /\
    stream_wf (Stream.set_write_index this
                 (write_index_ this + sizeof T * Z.of_nat (length values))) h' /\
    buffer_bytes (buffer_ this) h'
    = take (Z.to_nat (write_index_ this)) (buffer_bytes (buffer_ this) h)
      ++ concat (map (Endian.object_bytes host T) values)
      ++ drop (Z.to_nat (write_index_ this) + sizeof_nat T * length values)
           (buffer_bytes (buffer_ this) h).
Proof.
  pose proof (sizeof_pos T) as Hk.
  induction values as [|v values IH]; intros this h Hwf Hin.
  - exists h. cbn [write_all ret length map concat app].
    rewrite Z.mul_0_r, Z.add_0_r, Nat.mul_0_r, Nat.add_0_r, take_drop.
    assert (Stream.set_write_index this (write_index_ this) = this) as ->
      by (destruct this; reflexivity).
    auto.
  - cbn [length] in Hin. rewrite Nat2Z.inj_succ in Hin.
    pose proof Hwf as (Hb & Hri & Hwi).
    destruct (stream_write_step host T v this h Hwf) as (h1 & E & Hwf1 & Hbytes1);
      [nia|].
    destruct (IH _ h1 Hwf1) as (h' & E' & Hwf' & Hbytes').
    { cbn [write_index_ buffer_ Stream.set_write_index]. nia. }
    cbn [write_index_ buffer_ read_index_ Stream.set_write_index] in *.
    exists h'. cbn [write_all length]. unfold bind at 1. rewrite E, E'.
    assert (Stream.set_write_index
              (Stream.set_write_index this (write_index_ this + sizeof T))
              (write_index_ this + sizeof T + sizeof T * Z.of_nat (length values))
            = Stream.set_write_index this
                (write_index_ this + sizeof T * Z.of_nat (S (length values)))) as Hst.
    { unfold Stream.set_write_index. cbn [read_index_ buffer_]. f_equal. lia. }
    rewrite Hst in *. split; [reflexivity|]. split; [exact Hwf'|].
    rewrite Hbytes', Hbytes1. cbn [map concat].
    pose proof (length_object_bytes host T v) as Hlv.
    pose proof (length_continer_bytes _ _ Hb) as Hlb.
    fold (buffer_bytes (buffer_ this) h) in Hlb.
    pose proof (size_bound this h Hwf) as Hsz.
    unfold Buffer.size, Continer.size, sizeof in *.
    set (bytes := buffer_bytes (buffer_ this) h) in *.
    set (ob := Endian.object_bytes host T v) in *.
    set (w := Z.to_nat (write_index_ this)) in *.
    assert (Hw : (w + sizeof_nat T <= length bytes)%nat) by (subst w; nia).
    replace (Z.to_nat (write_index_ this + Z.of_nat (sizeof_nat T)))
      with (w + sizeof_nat T)%nat by (subst w; lia).
    rewrite (app_assoc (take w bytes) ob).
    rewrite take_app_length' by (rewrite length_app, length_take; lia).
    rewrite <- !app_assoc. do 3 f_equal.
    rewrite (app_assoc (take w bytes) ob).
    rewrite drop_app_ge by (rewrite length_app, length_take; lia).
    rewrite length_app, length_take, Nat.min_l, Hlv by lia.
    rewrite drop_drop. f_equal. lia.
Qed.

Lemma read_n_reads host T values : forall this h,
  stream_wf this h -> Forall (is_value T) values ->
  read_index_ this + sizeof T * Z.of_nat (length values)
  <= Buffer.size (buffer_ this) ->
  segment (read_index_ this) (sizeof T * Z.of_nat (length values))
    (buffer_bytes (buffer_ this) h)
  = concat (map (Endian.object_bytes host T) values) ->
  read_n host T (length values) (this, h)
  = Ok values (Stream.set_read_index this
                 (read_index_ this + sizeof T * Z.of_nat (length values)), h).
Proof.
  pose proof (sizeof_pos T) as Hk.
  induction values as [|v values IH]; intros this h Hwf Hv Hin Hseg.
  - cbn [read_n ret length]. rewrite Z.mul_0_r, Z.add_0_r.
    assert (Stream.set_read_index this (read_index_ this) = this) as ->
      by (destruct this; reflexivity).
    reflexivity.
  - cbn [length] in Hin, Hseg. rewrite Nat2Z.inj_succ in Hin, Hseg.
    pose proof Hwf as (Hb & Hri & Hwi).
    inversion Hv as [|v' vs' Hv1 Hvs]; subst.
    replace (sizeof T * Z.succ (Z.of_nat (length values)))
      with (sizeof T + sizeof T * Z.of_nat (length values)) in Hseg by lia.
    rewrite segment_split in Hseg by nia.
    cbn [map concat] in Hseg.
    apply app_inj_1 in Hseg.
    2:{ rewrite length_object_bytes.
        pose proof (length_continer_bytes _ _ Hb) as Hlb.
        fold (buffer_bytes (buffer_ this) h) in Hlb.
        pose proof (size_bound this h Hwf) as Hsz.
        unfold Buffer.size, Continer.size, sizeof in *.
        rewrite length_segment; nia. }
    destruct Hseg as (Hseg1 & Hseg2).
    destruct (stream_read_step host T this h Hwf) as (E & Hwf1); [nia|].
    cbn [read_n length]. unfold bind at 1. rewrite E, Hseg1.
    rewrite object_value_bytes by exact Hv1.
    unfold bind at 1.
    rewrite (IH _ h Hwf1 Hvs).
    + cbn [read_index_ Stream.set_read_index buffer_ write_index_]. unfold ret.
      do 2 f_equal. unfold Stream.set_read_index. cbn [write_index_ buffer_].
      f_equal. lia.
    + cbn [read_index_ Stream.set_read_index buffer_]. nia.
    + cbn [read_index_ Stream.set_read_index buffer_]. exact Hseg2.
Qed.

(** X22: on a cursor whose two indices coincide, writing a sequence of
    values of a type [T] with [write(value)] and then reading as many
    with [read<T>()] (the loops of [test_streambuffer1]) returns the
    values written, in order, whenever they fit between the index and
    the end of the buffer; both indices end behind the last value, and
    the size of the buffer is unchanged. *)
Theorem write_all_then_read_back host T values this h :
  stream_wf this h -> Forall (is_value T) values ->
  read_index_ this = write_index_ this ->
  write_index_ this + sizeof T * Z.of_nat (length values)
  <= Buffer.size (buffer_ this) ->
  exists this' h',
    (do _ <- write_all host T values; read_n host T (length values)) (this, h)
    = Ok values (this', h') /\
    read_index_ this' = write_index_ this + sizeof T * Z.of_nat (length values) /\
    write_index_ this' = write_index_ this + sizeof T * Z.of_nat (length values) /\
    buffer_ this' = buffer_ this /\
    stream_wf this' h'.
Proof.
  intros Hwf Hv Heq Hin. pose proof (sizeof_pos T) as Hk.
  pose proof Hwf as (Hb & Hri & Hwi).
  destruct (write_all_writes host T values this h Hwf Hin) as (h' & E & Hwf' & Hbytes).
  set (this1 := Stream.set_write_index this
                  (write_index_ this + sizeof T * Z.of_nat (length values))) in *.
  assert (Hread := read_n_reads host T values this1 h' Hwf' Hv).
  cbn [read_index_ buffer_ this1 Stream.set_write_index] in Hread.
  rewrite Heq in Hread. specialize (Hread Hin).
  eexists _, h'. unfold bind. rewrite E. split.
  - apply Hread. rewrite Hbytes.
    pose proof (length_continer_bytes _ _ Hb) as Hlb.
    fold (buffer_bytes (buffer_ this) h) in Hlb.
    pose proof (size_bound this h Hwf) as Hsz.
    unfold Buffer.size, Continer.size, sizeof in *.
    unfold segment.
    rewrite drop_app_length' by (rewrite length_take; nia).
    rewrite take_app_length'; [reflexivity|].
    rewrite length_concat_object_bytes. nia.
  - cbn [read_index_ write_index_ buffer_ this1 Stream.set_read_index
           Stream.set_write_index].
    split; [reflexivity|]. split; [reflexivity|]. split; [reflexivity|].
    apply set_read_index_wf; [exact Hwf'|].
    pose proof (size_bound this h Hwf). cbn [write_index_ this1 Stream.set_write_index].
    nia.
Qed.

Lemma write_all_then_read_back_witness :
  exists this' h',
    (do _ <- write_all kBigEndian Int16 [-2; 513; 7];
     read_n kBigEndian Int16 (length [-2; 513; 7]))
      (mkStreamBufferT 4 4 zeros16, zeros16_heap)
    = Ok [-2; 513; 7] (this', h') /\
    read_index_ this'
    = write_index_ (mkStreamBufferT 4 4 zeros16)
      + sizeof Int16 * Z.of_nat (length [-2; 513; 7]) /\
    write_index_ this'
    = write_index_ (mkStreamBufferT 4 4 zeros16)
      + sizeof Int16 * Z.of_nat (length [-2; 513; 7]) /\
    buffer_ this' = buffer_ (mkStreamBufferT 4 4 zeros16) /\
    stream_wf this' h'.
Proof.
  apply write_all_then_read_back.
  - split; [apply zeros16_wf|]. cbn. rewrite PTRDIFF_MAX_eq. lia.
  - repeat constructor; apply Z.leb_le; reflexivity.
  - reflexivity.
  - apply Z.leb_le. reflexivity.
Defined.

Lemma read_n_8bit host T (n : nat) : forall this h,
  is_8bit_basictype T = true -> stream_wf this h ->
  read_index_ this + Z.of_nat n <= Buffer.size (buffer_ this) ->
  read_n host T n (this, h)
  = Ok (map (convert T)
          (segment (read_index_ this) (Z.of_nat n) (buffer_bytes (buffer_ this) h)))
       (Stream.set_read_index this (read_index_ this + Z.of_nat n), h).
Proof.
  induction n as [|n IH]; intros this h H8 Hwf Hin.
  - cbn [read_n ret]. change (Z.of_nat 0) with 0. rewrite Z.add_0_r.
    assert (Stream.set_read_index this (read_index_ this) = this) as ->
      by (destruct this; reflexivity).
    unfold segment. reflexivity.
  - rewrite Nat2Z.inj_succ in *. pose proof Hwf as (Hb & Hri & Hwi).
    destruct (stream_read_8bit_inside this h Hwf T H8) as (x & Hx & E).
    { rewrite (sizeof_8bit T H8). lia. }
    rewrite (sizeof_8bit T H8) in E.
    assert (Hwf1 : stream_wf (Stream.set_read_index this (read_index_ this + 1)) h).
    { apply set_read_index_wf; [exact Hwf|].
      pose proof (size_bound this h Hwf). lia. }
    cbn [read_n]. unfold bind at 1.
    rewrite (stream_read_8bit_is T host H8), E. unfold bind at 1.
    rewrite (IH _ h H8 Hwf1) by (cbn [read_index_ buffer_ Stream.set_read_index]; lia).
    cbn [read_index_ buffer_ write_index_ Stream.set_read_index]. unfold ret.
    f_equal.
    + replace (Z.succ (Z.of_nat n)) with (1 + Z.of_nat n) by lia.
      rewrite segment_split by lia.
      rewrite (segment_one _ _ x) by (try lia; exact Hx). reflexivity.
    + unfold Stream.set_read_index. cbn [write_index_ buffer_]. do 2 f_equal. lia.
Qed.

(** X23: reading one byte at a time from a cursor until its end (the
    loops of [test_streambuffer]) returns every byte of the buffer from
    the read index on, in order, converted to the type asked for;
    [read_eof()] then holds, and the buffer, the heap and the write
    index are unchanged. *)
Theorem read_to_the_end host T this h :
  is_8bit_basictype T = true -> stream_wf this h ->
  read_index_ this <= Buffer.size (buffer_ this) ->
  exists this',
    read_n host T (Z.to_nat (Buffer.size (buffer_ this) - read_index_ this)) (this, h)
    = Ok (map (convert T)
            (drop (Z.to_nat (read_index_ this)) (buffer_bytes (buffer_ this) h)))
         (this', h) /\
    Stream.read_eof this' = true /\
    read_index_ this' = Buffer.size (buffer_ this) /\
    write_index_ this' = write_index_ this /\
    buffer_ this' = buffer_ this.
Proof.
  intros H8 Hwf Hin. pose proof Hwf as (Hb & Hri & Hwi).
  eexists. split.
  - rewrite (read_n_8bit host T _ this h H8 Hwf) by lia.
    do 2 f_equal. unfold segment. apply firstn_all2.
    rewrite length_drop. unfold buffer_bytes.
    rewrite (length_continer_bytes _ _ Hb).
    unfold Buffer.size, Continer.size in *. lia.
  - cbn [read_index_ write_index_ buffer_ Stream.set_read_index].
    unfold Stream.read_eof. cbn [read_index_ buffer_ Stream.set_read_index].
    rewrite Z2Nat.id by lia.
    replace (read_index_ this + (Buffer.size (buffer_ this) - read_index_ this))
      with (Buffer.size (buffer_ this)) by lia.
    rewrite Z.leb_refl. auto.
Qed.

(** [StreamBufferT::ref] over a caller's block: a cursor at the start of
    a borrowing buffer; the heap is not touched. *)
Lemma stream_ref_borrows r n h :
  0 < n ->
  Stream.ref (Some r) n h
  = Ok (mkStreamBufferT 0 0 (mkBufferT (mkSimpleBufferT (Some r) n n 0 true))) h.
Proof.
  intros Hn. unfold Stream.ref, Continer.is_null. cbn [negb andb].
  destruct (Z.ltb_spec 0 n); [|lia].
  unfold bind. rewrite ref_borrows by exact Hn.
  unfold construct, on_member, Buffer.move_assign, Buffer.on_continer, on_member.
  unfold Continer.move_assign, Continer.empty. cbn [continer_ size_ buffer_].
  destruct (Z.eqb_spec n 0); [lia|]. reflexivity.
Qed.

Lemma read_to_the_end_witness :
  exists this',
    read_n kLittleEndian UInt8
      (Z.to_nat (Buffer.size (buffer_ (mkStreamBufferT 0 0 (mkBufferT borrowed3)))
                 - read_index_ (mkStreamBufferT 0 0 (mkBufferT borrowed3))))
      (mkStreamBufferT 0 0 (mkBufferT borrowed3), read_test_caller_heap)
    = Ok (map (convert UInt8)
            (drop (Z.to_nat (read_index_ (mkStreamBufferT 0 0 (mkBufferT borrowed3))))
               (buffer_bytes (buffer_ (mkStreamBufferT 0 0 (mkBufferT borrowed3)))
                  read_test_caller_heap)))
         (this', read_test_caller_heap) /\
    Stream.read_eof this' = true /\
    read_index_ this' = Buffer.size (buffer_ (mkStreamBufferT 0 0 (mkBufferT borrowed3))) /\
    write_index_ this' = write_index_ (mkStreamBufferT 0 0 (mkBufferT borrowed3)) /\
    buffer_ this' = buffer_ (mkStreamBufferT 0 0 (mkBufferT borrowed3)).
Proof.
  apply read_to_the_end.
  - reflexivity.
  - split; [apply borrowed3_wf|]. cbn. rewrite PTRDIFF_MAX_eq. lia.
  - cbn. lia.
Defined.

(* --------------------------------------------------------------------- *)
(** *** [a += b] on buffers *)
(* --------------------------------------------------------------------- *)

Lemma plus_assign_another other this h :
  Buffer.plus_assign (another other) (this, h)
  = Buffer.on_continer (Continer.push_back_buffer (another (continer_ other))) (this, h).
Proof. reflexivity. Qed.

(** X24: [a += b] with [b] another well-formed buffer whose storage is
    not the storage of [a]: the call returns whenever the allocator can
    serve the growth, [a] then holds its old bytes followed by the
    bytes of [b], and [b] still holds its bytes.  With [b] empty
    nothing changes. *)
Theorem plus_assign_appends other this h :
  buffer_wf this h -> buffer_wf other h ->
  (0 < Buffer.size other -> Buffer.begin this <> Buffer.begin other) ->
  growth_granted (continer_ this) h (Buffer.size this + Buffer.size other) ->
  exists this' h',
    Buffer.plus_assign (another other) (this, h) = Ok tt (this', h') /\
    buffer_wf this' h' /\
    Buffer.size this' = Buffer.size this + Buffer.size other /\
    buffer_bytes this' h' = buffer_bytes this h ++ buffer_bytes other h /\
    buffer_bytes other h' = buffer_bytes other h /\
    (Buffer.size other = 0 -> this' = this /\ h' = h).
Proof.
  intros Hwf Hwfo Hne Hg.
  destruct (push_back_buffer_appends (continer_ other) (continer_ this) h Hwf Hwfo Hne Hg)
    as (c & h' & E & Hwf' & Hsz & Hbytes & Hob).
  exists (mkBufferT c), h'. split.
  { rewrite plus_assign_another. unfold Buffer.on_continer, on_member. now rewrite E. }
  split; [exact Hwf'|]. split; [exact Hsz|]. split; [exact Hbytes|].
  split; [exact Hob|].
  intros Hz. revert E. unfold Continer.push_back_buffer. cbn [deref].
  unfold Continer.empty, Buffer.size, Continer.size in *.
  rewrite Hz. cbn [Z.eqb negb]. intros [= <- <-]. now destruct this.
Qed.

Lemma plus_assign_appends_witness :
  exists this' h',
    Buffer.plus_assign (another read_test_buffer) (mkBufferT borrowed3, read_test_heap)
    = Ok tt (this', h') /\
    buffer_wf this' h' /\
    Buffer.size this' = Buffer.size (mkBufferT borrowed3) + Buffer.size read_test_buffer /\
    buffer_bytes this' h'
    = buffer_bytes (mkBufferT borrowed3) read_test_heap
      ++ buffer_bytes read_test_buffer read_test_heap /\
    buffer_bytes read_test_buffer h' = buffer_bytes read_test_buffer read_test_heap /\
    (Buffer.size read_test_buffer = 0 ->
     this' = mkBufferT borrowed3 /\ h' = read_test_heap).
Proof.
  apply plus_assign_appends.
  - apply borrowed3_read_test_wf.
  - apply read_test_buffer_wf.
  - intros _. discriminate.
  - unfold growth_granted, Buffer.size, Continer.size. cbn. lia.
Defined.

(** X25: [a += a] never returns on a non-empty well-formed buffer:
    after [resize] has doubled the size, [other.size()] is the doubled
    size and [other.buf_] the new storage, so [memcpy] is asked to copy
    a region onto itself, which is undefined behaviour (unless
    [resize] has thrown before). *)
Theorem plus_assign_itself_undefined this h :
  buffer_wf this h -> 0 < Buffer.size this ->
  (forall s, Buffer.plus_assign itself (this, h) <> Ok tt s) /\
  (growth_granted (continer_ this) h (2 * Buffer.size this) ->
   Buffer.plus_assign itself (this, h) = Undefined).
Proof.
  intros Hwf Hpos.
  destruct (self_append_undefined (continer_ this) h Hwf Hpos) as (Hnever & Hund).
  unfold Buffer.plus_assign, Buffer.on_continer, on_member. split.
  - intros s.
    destruct (Continer.push_back_buffer itself (continer_ this, h))
      as [[] [c1 h1]|e [c1 h1]|] eqn:E; try discriminate.
    exfalso. exact (Hnever _ eq_refl).
  - intros Hg. rewrite Hund; [reflexivity|exact Hg].
Qed.

Lemma plus_assign_itself_undefined_witness :
  (forall s, Buffer.plus_assign itself (zeros16, zeros16_heap) <> Ok tt s) /\
  (growth_granted (continer_ zeros16) zeros16_heap (2 * Buffer.size zeros16) ->
   Buffer.plus_assign itself (zeros16, zeros16_heap) = Undefined).
Proof.
  apply plus_assign_itself_undefined.
  - apply zeros16_wf.
  - cbn. lia.
Defined.

(* --------------------------------------------------------------------- *)
(** *** Borrowed storage: shrinking, and assignment between containers *)
(* --------------------------------------------------------------------- *)

(** X26: [shrink_to_fit()] on a borrowing container whose size is below
    its capacity (after a [resize] to fewer bytes) ends the borrowing:
    the bytes are copied into a fresh block of exactly [size] bytes
    that the container owns, and the caller's block is left as it is. *)
Theorem shrink_to_fit_detaches_borrowed this h r data :
  continer_wf this h -> ref_ this = true -> buf_ this = Some r ->
  Mem.contents h r = Some data ->
  size_ this < capacity_ this -> size_ this <= Mem.alloc_limit h ->
  exists this' h',
    Continer.shrink_to_fit (this, h) = Ok tt (this', h') /\
    continer_wf this' h' /\ ref_ this' = false /\ buf_ this' <> Some r /\
    capacity_ this' = size_ this /\ size_ this' = size_ this /\
    continer_bytes this' h' = continer_bytes this h /\
    Mem.contents h' r = Some data.
Proof.
  intros Hwf Hr Eb Hd Hlt Hlim. pose proof Hwf as (Hh & Hs & Hc & Hk & Hb).
  rewrite Eb in Hb. destruct Hb as (Hpos & data0 & Hd0 & Hlen).
  rewrite Hd in Hd0. injection Hd0 as <-. rewrite Hr in Hlen.
  destruct (reallocate_to_capacity_ok (Continer.set_capacity this (size_ this)) h)
    as (b' & h' & data' & E & -> & Hd' & Hlen' & Htake & Hl & Hframe & _).
  { cbn [capacity_ Continer.set_capacity]. lia. }
  { cbn [size_ capacity_ Continer.set_capacity]. lia. }
  { cbn [buf_ size_ Continer.set_capacity]. rewrite Eb. exists data. split; [exact Hd|lia]. }
  cbn [buf_ size_ capacity_ shrink_counter_ ref_ Continer.set_capacity] in *.
  assert (Hre : Continer.reserve (size_ this) (this, h)
                = Ok tt (mkSimpleBufferT (Some (length (Mem.blocks h))) (size_ this)
                           (size_ this) (shrink_counter_ this) false, h')).
  { unfold Continer.reserve.
    destruct (Z.ltb_spec (capacity_ this) (size_ this)); [lia|].
    destruct (Z.ltb_spec (size_ this) (capacity_ this)); [|lia]. exact E. }
  assert (Hrun : Continer.shrink_to_fit (this, h)
                 = Ok tt (mkSimpleBufferT (Some (length (Mem.blocks h))) (size_ this)
                            (size_ this) 0 false, h')).
  { unfold Continer.shrink_to_fit, bind.
    destruct (Z.ltb_spec 0 (size_ this)); [|lia]. now rewrite Hre. }
  pose proof (contents_lt _ _ _ Hd) as Hrlt.
  eexists _, h'. split; [exact Hrun|].
  split; [exact (proj1 (shrink_to_fit_wf _ _ _ _ Hwf Hrun))|].
  cbn [buf_ size_ capacity_ ref_].
  split; [reflexivity|]. split; [intros [= Heq]; lia|].
  split; [reflexivity|]. split; [reflexivity|]. split.
  - unfold continer_bytes. cbn [buf_ size_].
    rewrite Eb, (block_data_contents _ _ _ Hd'), (block_data_contents _ _ _ Hd).
    apply (Htake r data); [exact Eb|exact Hd].
  - rewrite Hframe; [exact Hd|lia|congruence].
Qed.

Lemma shrink_to_fit_detaches_borrowed_witness :
  exists this' h',
    Continer.shrink_to_fit (Continer.set_size borrowed3 2, read_test_caller_heap)
    = Ok tt (this', h') /\
    continer_wf this' h' /\ ref_ this' = false /\ buf_ this' <> Some 0%nat /\
    capacity_ this' = size_ (Continer.set_size borrowed3 2) /\
    size_ this' = size_ (Continer.set_size borrowed3 2) /\
    continer_bytes this' h'
    = continer_bytes (Continer.set_size borrowed3 2) read_test_caller_heap /\
    Mem.contents h' 0%nat = Some [255; 238; 221].
Proof.
  apply shrink_to_fit_detaches_borrowed.
  - refine (proj1 (resize_wf 2 borrowed3 read_test_caller_heap _ _ borrowed3_wf _ eq_refl)).
    lia.
  - reflexivity.
  - reflexivity.
  - reflexivity.
  - cbn. lia.
  - cbn. lia.
Defined.

(* --------------------------------------------------------------------- *)
(** *** Copying and moving buffers *)
(* --------------------------------------------------------------------- *)

(** X27: the copy constructor makes an independent copy: a buffer that
    owns a fresh block, holds the bytes of [other], and shares no
    storage with it; [other] and every block that existed are as
    before.  The copy of an empty buffer is the empty buffer. *)
Theorem copy_construct_independent other h :
  buffer_wf other h ->
  (0 < Buffer.size other -> Z.max (Buffer.size other) 32 <= Mem.alloc_limit h) ->
  exists c h',
    Buffer.copy_construct other h = Ok c h' /\
    buffer_wf c h' /\ ref_ (continer_ c) = false /\
    Buffer.size c = Buffer.size other /\
    buffer_bytes c h' = buffer_bytes other h /\
    buffer_wf other h' /\
    (forall b, is_Some (Mem.contents h b) -> Mem.contents h' b = Mem.contents h b) /\
    (0 < Buffer.size other -> Buffer.begin c <> Buffer.begin other) /\
    (Buffer.size other = 0 -> c = Buffer.default /\ h' = h).
Proof.
  intros Hwf Hlim.
  destruct (continer_copy_construct (continer_ other) h Hwf Hlim)
    as (c & h' & E & Hwf' & Hr & Hsz & Hbytes & Hwfo & Hframe & Hne & Hz).
  exists (mkBufferT c), h'. unfold Buffer.copy_construct, bind. rewrite E.
  split; [reflexivity|]. split; [exact Hwf'|]. split; [exact Hr|].
  split; [exact Hsz|]. split; [exact Hbytes|]. split; [exact Hwfo|].
  split; [exact Hframe|]. split; [exact Hne|].
  intros H0. destruct (Hz H0) as (-> & ->). split; reflexivity.
Qed.

Lemma copy_construct_independent_witness :
  exists c h',
    Buffer.copy_construct zeros16 zeros16_heap = Ok c h' /\
    buffer_wf c h' /\ ref_ (continer_ c) = false /\
    Buffer.size c = Buffer.size zeros16 /\
    buffer_bytes c h' = buffer_bytes zeros16 zeros16_heap /\
    buffer_wf zeros16 h' /\
    (forall b, is_Some (Mem.contents zeros16_heap b) ->
               Mem.contents h' b = Mem.contents zeros16_heap b) /\
    (0 < Buffer.size zeros16 -> Buffer.begin c <> Buffer.begin zeros16) /\
    (Buffer.size zeros16 = 0 -> c = Buffer.default /\ h' = zeros16_heap).
Proof.
  apply copy_construct_independent.
  - apply zeros16_wf.
  - cbn. lia.
Defined.

(** X28: move construction hands the storage over without touching the
    heap: the new buffer is the old one field for field, the moved-from
    buffer is the empty buffer, and destroying the two frees an owned
    block exactly once. *)
Theorem move_construct_transfers other h :
  buffer_wf other h ->
  exists h',
    Buffer.move_construct other = (other, Buffer.default) /\
    buffer_wf Buffer.default h /\
    Buffer.destroy (fst (Buffer.move_construct other)) h = Some h' /\
    released (continer_ other) h h' /\
    Buffer.destroy (snd (Buffer.move_construct other)) h' = Some h'.
Proof.
  intros Hwf.
  destruct (continer_move_construct (continer_ other) h Hwf)
    as (h' & E & Hwfd & Hd1 & Hrel & Hd2).
  exists h'. unfold Buffer.move_construct, Buffer.destroy. rewrite E in *.
  cbn [fst snd continer_] in *.
  split; [now destruct other|]. split; [exact Hwfd|].
  split; [exact Hd1|]. split; [exact Hrel|exact Hd2].
Qed.

Lemma move_construct_transfers_witness :
  exists h',
    Buffer.move_construct zeros16 = (zeros16, Buffer.default) /\
    buffer_wf Buffer.default zeros16_heap /\
    Buffer.destroy (fst (Buffer.move_construct zeros16)) zeros16_heap = Some h' /\
    released (continer_ zeros16) zeros16_heap h' /\
    Buffer.destroy (snd (Buffer.move_construct zeros16)) h' = Some h'.
Proof. apply move_construct_transfers. apply zeros16_wf. Defined.

(** X29: [SimpleBufferT::operator=(const SimpleBufferT&)] on a borrowing
    container whose capacity suffices copies the bytes of [other] into
    the caller's block and then clears [ref_] without changing [buf_]:
    the container now counts the caller's block as its own, and its
    destructor frees that block. *)
Theorem copy_assign_adopts_borrowed_block other this h r :
  continer_wf this h -> ref_ this = true -> buf_ this = Some r ->
  continer_wf other h -> 0 < size_ other <= capacity_ this ->
  buf_ other <> Some r ->
  exists this' h' h'',
    Continer.copy_assign (another other) (this, h) = Ok tt (this', h') /\
    buf_ this' = Some r /\ ref_ this' = false /\
    continer_bytes this' h' = continer_bytes other h /\
    Continer.destroy this' h' = Some h'' /\
    Mem.contents h'' r = None.
Proof.
  intros Hwf Hr Eb Hwfo Hfit Hne.
  pose proof Hwf as (Hh & Hs & Hc & Hk & Hb).
  rewrite Eb, Hr in Hb. destruct Hb as (Hpos & data & Hd & Hlen).
  destruct (continer_wf_block _ _ Hwfo) as (bo & odata & Ebo & Hod & Holen & _); [lia|].
  pose proof (length_continer_bytes _ _ Hwfo) as Hlo.
  destruct (store_bytes_ok r 0 (continer_bytes other h) h data Hd)
    as (h' & Hst & Hd' & Hframe & _); [lia|rewrite Hlo; lia|].
  destruct (free_ok r h' _ Hd') as (h'' & Hfree & Hgone & _).
  exists (mkSimpleBufferT (Some r) (size_ other) (capacity_ this) 0 false), h', h''.
  split.
  { unfold Continer.copy_assign, bind. cbn [deref].
    unfold Continer.empty, Continer.size.
    destruct (Z.eqb_spec (size_ other) 0); [lia|]. cbn [negb].
    unfold Continer.resize, bind.
    destruct (Z.eqb_spec (size_ other) 0); [lia|].
    destruct (Z.ltb_spec (capacity_ this) (size_ other)); [lia|].
    cbn [buf_ size_ Continer.set_size Continer.set_ref Continer.set_shrink_counter
           capacity_ shrink_counter_ ref_].
    unfold heap_call, Mem.memcpy.
    destruct (Z.eqb_spec (size_ other) 0); [lia|].
    rewrite Eb, Ebo. cbn [Mem.overlap].
    destruct (Nat.eqb_spec r bo); [congruence|]. cbn [andb].
    rewrite (load_bytes_ok bo 0 _ h odata Hod) by lia.
    rewrite <- (continer_bytes_segment other h bo odata Ebo Hod).
    rewrite Hst. unfold Continer.set_shrink_counter, Continer.set_ref, Continer.set_size.
    cbn [buf_ size_ capacity_ shrink_counter_ ref_]. now rewrite Eb. }
  cbn [buf_ ref_]. split; [reflexivity|]. split; [reflexivity|]. split.
  { unfold continer_bytes at 1. cbn [buf_ size_].
    rewrite (block_data_contents _ _ _ Hd').
    change (Z.to_nat 0) with 0%nat. rewrite take_0. cbn [app].
    rewrite <- Hlo. apply take_app_length. }
  split; [|exact Hgone].
  unfold Continer.destroy. cbn [buf_ ref_ negb]. exact Hfree.
Qed.

Lemma copy_assign_adopts_borrowed_block_witness :
  exists this' h' h'',
    Continer.copy_assign (another (continer_ read_test_buffer))
      (borrowed3, read_test_heap) = Ok tt (this', h') /\
    buf_ this' = Some 0%nat /\ ref_ this' = false /\
    continer_bytes this' h' = continer_bytes (continer_ read_test_buffer) read_test_heap /\
    Continer.destroy this' h' = Some h'' /\
    Mem.contents h'' 0%nat = None.
Proof.
  apply copy_assign_adopts_borrowed_block.
  - apply borrowed3_read_test_wf.
  - reflexivity.
  - reflexivity.
  - apply read_test_buffer_wf.
  - cbn. lia.
  - discriminate.
Defined.

(* --------------------------------------------------------------------- *)
(** *** [ref]: a view of the caller's memory *)
(* --------------------------------------------------------------------- *)

(** X30: [BufferT::ref(buf, n)] and [StreamBufferT::ref(buf, n)] over
    [n > 0] bytes of the caller's block copy nothing and leave the heap
    as it is; until the buffer grows it is a view of that block: its
    bytes are the caller's bytes, a [write] through it changes the
    caller's block in place, and a store the caller makes is what the
    buffer then holds. *)
Theorem ref_is_a_view host T e v offset r data n h :
  heap_wf h -> Mem.contents h r = Some data ->
  Z.of_nat (length data) = n -> 0 < n -> n <= SizeT.PTRDIFF_MAX ->
  0 <= offset -> offset + sizeof T <= n ->
  exists b0,
    Buffer.ref (Some r) n h = Ok b0 h /\
    Stream.ref (Some r) n h = Ok (mkStreamBufferT 0 0 b0) h /\
    buffer_wf b0 h /\ ref_ (continer_ b0) = true /\
    buffer_bytes b0 h = data /\
    (exists h',
       Buffer.write_e host T e v offset (b0, h) = Ok tt (b0, h') /\
       Mem.contents h' r
       = Some (take (Z.to_nat offset) data ++ Endian.write host T e v
               ++ drop (Z.to_nat offset + sizeof_nat T) data) /\
       buffer_bytes b0 h'
       = take (Z.to_nat offset) data ++ Endian.write host T e v
         ++ drop (Z.to_nat offset + sizeof_nat T) data) /\
    (forall off bs h',
       Mem.store_bytes (Some r) off bs h = Some h' ->
       Mem.contents h' r = Some (buffer_bytes b0 h')).
Proof.
  intros Hh Hd Hlen Hn Hmax Ho Hfit.
  set (b0 := mkBufferT (mkSimpleBufferT (Some r) n n 0 true)).
  assert (Hb : borrows b0 h r data n).
  { unfold borrows. repeat (split; [assumption|]).
    exists 0. split; [unfold Continer.DEFAULT_SHRINK_TRIGGER_COUNT; lia|reflexivity]. }
  destruct (borrowed_buffer_is_a_view host T e v offset b0 h r data n Hb Ho Hfit)
    as (Hbytes & Hwrite & Hstore).
  exists b0. split; [now apply ref_borrows|]. split; [now apply stream_ref_borrows|].
  split; [exact (borrows_wf _ _ _ _ _ Hb)|]. split; [reflexivity|].
  split; [exact Hbytes|]. split; [exact Hwrite|exact Hstore].
Qed.

Lemma ref_is_a_view_witness :
  exists b0,
    Buffer.ref (Some 0%nat) 3 read_test_caller_heap = Ok b0 read_test_caller_heap /\
    Stream.ref (Some 0%nat) 3 read_test_caller_heap
    = Ok (mkStreamBufferT 0 0 b0) read_test_caller_heap /\
    buffer_wf b0 read_test_caller_heap /\ ref_ (continer_ b0) = true /\
    buffer_bytes b0 read_test_caller_heap = [255; 238; 221] /\
    (exists h',
       Buffer.write_e kLittleEndian UInt16 kBigEndian 258 1 (b0, read_test_caller_heap)
       = Ok tt (b0, h') /\
       Mem.contents h' 0%nat
       = Some (take (Z.to_nat 1) [255; 238; 221]
               ++ Endian.write kLittleEndian UInt16 kBigEndian 258
               ++ drop (Z.to_nat 1 + sizeof_nat UInt16) [255; 238; 221]) /\
       buffer_bytes b0 h'
       = take (Z.to_nat 1) [255; 238; 221]
         ++ Endian.write kLittleEndian UInt16 kBigEndian 258
         ++ drop (Z.to_nat 1 + sizeof_nat UInt16) [255; 238; 221]) /\
    (forall off bs h',
       Mem.store_bytes (Some 0%nat) off bs read_test_caller_heap = Some h' ->
       Mem.contents h' 0%nat = Some (buffer_bytes b0 h')).
Proof.
  apply ref_is_a_view.
  - unfold heap_wf. cbn. rewrite PTRDIFF_MAX_eq. lia.
  - reflexivity.
  - reflexivity.
  - lia.
  - rewrite PTRDIFF_MAX_eq. lia.
  - lia.
  - apply Z.leb_le. reflexivity.
Defined.
